(** * plugin-simplecache: the on-disk cache engine of [file.go]

    A shallow embedding of the file cache ([fileCache.Get], [fileCache.Set],
    [fileCache.vacuum]), of the key sharding function ([keyHash], [keyPath])
    and of the reference-counted lock registry ([pathMutex], [fileLock]),
    followed by the properties of the design document checked against it.

    Conventions.
    - Go strings are byte sequences: keys and paths are [string], file
      contents and payloads are [list byte].
    - Go's fixed-width integers are [Z] with the wrap-around written out
      ([wrap_u32], [wrap_u64], [wrap_i64]).
    - The file system is a tree of directories and regular files; the
      operating system is POSIX (separator [/], no volume names, no symbolic
      links). *)

From stdpp Require Import gmap strings.
From Stdlib Require Import ZArith List Strings.String Strings.Ascii Strings.Byte Lia Bool.
Import ListNotations.

Local Open Scope string_scope.
Local Open Scope list_scope.
Local Open Scope Z_scope.

(** ** Fixed-width integers and [encoding/binary] *)

Module Binary.

Definition wrap_u32 (z : Z) : Z := z mod 2 ^ 32.
Definition wrap_u64 (z : Z) : Z := z mod 2 ^ 64.

(** Conversion [int64(x)] of any integer value: two's complement. *)
Definition wrap_i64 (z : Z) : Z := (z + 2 ^ 63) mod 2 ^ 64 - 2 ^ 63.

(** Conversion [byte(x)]: the low eight bits. *)
Definition byte_of_Z (z : Z) : byte :=
  match Byte.of_N (Z.to_N (Z.land z 255)) with
  | Some b => b
  | None => x00
  end.

Definition Z_of_byte (b : byte) : Z := Z.of_N (Byte.to_N b).

(** [binary.LittleEndian.PutUint64(b, v)] on a fresh 8-byte array. *)
Definition PutUint64 (v : Z) : list byte :=
  [ byte_of_Z v;
    byte_of_Z (Z.shiftr v 8);
    byte_of_Z (Z.shiftr v 16);
    byte_of_Z (Z.shiftr v 24);
    byte_of_Z (Z.shiftr v 32);
    byte_of_Z (Z.shiftr v 40);
    byte_of_Z (Z.shiftr v 48);
    byte_of_Z (Z.shiftr v 56) ].

(** [binary.LittleEndian.Uint64(b)]; [None] is the bounds-check panic of
    [_ = b[7]]. *)
Definition Uint64 (b : list byte) : option Z :=
  match b with
  | b0 :: b1 :: b2 :: b3 :: b4 :: b5 :: b6 :: b7 :: _ =>
      Some (Z.lor (Z_of_byte b0)
           (Z.lor (Z.shiftl (Z_of_byte b1) 8)
           (Z.lor (Z.shiftl (Z_of_byte b2) 16)
           (Z.lor (Z.shiftl (Z_of_byte b3) 24)
           (Z.lor (Z.shiftl (Z_of_byte b4) 32)
           (Z.lor (Z.shiftl (Z_of_byte b5) 40)
           (Z.lor (Z.shiftl (Z_of_byte b6) 48)
                  (Z.shiftl (Z_of_byte b7) 56))))))))
  | _ => None
  end.

(** [binary.LittleEndian.PutUint32(b, v)] on a fresh 4-byte array. *)
Definition PutUint32 (v : Z) : list byte :=
  [ byte_of_Z v;
    byte_of_Z (Z.shiftr v 8);
    byte_of_Z (Z.shiftr v 16);
    byte_of_Z (Z.shiftr v 24) ].

End Binary.

(** ** [hash/crc32] with the IEEE polynomial *)

Module Crc32.
Import Binary.

Definition IEEE : Z := 0xedb88320.

(** One round of the inner loop of [simplePopulateTable]. *)
Definition table_round (poly crc : Z) : Z :=
  if Z.eqb (Z.land crc 1) 1
  then Z.lxor (Z.shiftr crc 1) poly
  else Z.shiftr crc 1.

(** Entry [i] of the table built for [poly]: eight rounds from [i]. *)
Definition table (poly i : Z) : Z :=
  Nat.iter 8 (table_round poly) i.

(** The loop body of [simpleUpdate]:
    [crc = tab[byte(crc)^v] ^ (crc >> 8)]. *)
Definition update_byte (poly crc : Z) (v : byte) : Z :=
  Z.lxor (table poly (Z.lxor (Z.land crc 255) (Z_of_byte v)))
         (Z.shiftr crc 8).

(** [^crc] on a [uint32]. *)
Definition not32 (crc : Z) : Z := Z.lxor crc 0xffffffff.

Definition Update (crc poly : Z) (p : list byte) : Z :=
  not32 (fold_left (update_byte poly) p (not32 crc)).

Definition Checksum (data : list byte) (poly : Z) : Z := Update 0 poly data.

End Crc32.

(** ** [encoding/hex] and [strings.NewReplacer] *)

Module Text.
Import Binary.

Definition hextable : string := "0123456789abcdef".

Definition hexdigit (z : Z) : ascii :=
  match String.get (Z.to_nat z) hextable with
  | Some c => c
  | None => "0"%char
  end.

(** [hex.EncodeToString(src)]. *)
Fixpoint EncodeToString (src : list byte) : string :=
  match src with
  | [] => ""
  | v :: rest =>
      String (hexdigit (Z.shiftr (Z_of_byte v) 4))
        (String (hexdigit (Z.land (Z_of_byte v) 15)) (EncodeToString rest))
  end.

(** [strings.NewReplacer("/", "-", ":", "_").Replace]: every old and new
    string is one byte long, so the replacer maps byte by byte. *)
Definition replace_byte (c : ascii) : ascii :=
  if Ascii.eqb c "/" then "-"%char
  else if Ascii.eqb c ":" then "_"%char
  else c.

Fixpoint Replace (s : string) : string :=
  match s with
  | EmptyString => EmptyString
  | String c rest => String (replace_byte c) (Replace rest)
  end.

End Text.

(** ** [path/filepath] on a POSIX system *)

Module Filepath.

Definition Separator : ascii := "/"%char.

(** The elements of a path between separators: ["a//b"] has the elements
    ["a"], [""] and ["b"]. *)
Fixpoint split_from (cur : string) (s : string) : list string :=
  match s with
  | EmptyString => [cur]
  | String c rest =>
      if Ascii.eqb c Separator
      then cur :: split_from "" rest
      else split_from (String.append cur (String c "")) rest
  end.

Definition split (s : string) : list string := split_from "" s.

(** [strings.Join(elems, "/")]. *)
Fixpoint join (elems : list string) : string :=
  match elems with
  | [] => ""
  | [e] => e
  | e :: rest => String.append e (String Separator (join rest))
  end.

Definition is_dotdot (e : string) : bool := String.eqb e "..".

(** The main loop of [Clean], element by element.  [out] holds the
    elements written so far, last one first.  An empty element and [.] are
    dropped; [..] removes the last written element when there is one that
    is not itself a leading [..], is kept at the start of a path that is
    not rooted, and is dropped at the start of a rooted one. *)
Fixpoint clean_loop (rooted : bool) (elems : list string) (out : list string)
  : list string :=
  match elems with
  | [] => out
  | e :: rest =>
      if String.eqb e "" then clean_loop rooted rest out
      else if String.eqb e "." then clean_loop rooted rest out
      else if is_dotdot e then
        match out with
        | top :: out' =>
            if is_dotdot top
            then clean_loop rooted rest (e :: out)
            else clean_loop rooted rest out'
        | [] =>
            if rooted
            then clean_loop rooted rest out
            else clean_loop rooted rest (e :: out)
        end
      else clean_loop rooted rest (e :: out)
  end.

Definition is_rooted (path : string) : bool :=
  match path with
  | String c _ => Ascii.eqb c Separator
  | EmptyString => false
  end.

(** The cleaned elements of a path, first one first. *)
Definition elements (path : string) : list string :=
  rev (clean_loop (is_rooted path) (split path) []).

Definition render (rooted : bool) (elems : list string) : string :=
  match rooted, elems with
  | true, _ => String Separator (join elems)
  | false, [] => "."
  | false, _ => join elems
  end.

(** [filepath.Clean(path)]. *)
Definition Clean (path : string) : string :=
  render (is_rooted path) (elements path).

(** [filepath.Join(elem...)]: the first non-empty element and everything
    after it, joined with separators and cleaned; [""] when all are
    empty. *)
Fixpoint Join (elem : list string) : string :=
  match elem with
  | [] => ""
  | e :: rest =>
      if String.eqb e "" then Join rest else Clean (join elem)
  end.

(** The part of [path] after its last separator; all of [path] when it has
    none. *)
Definition last_element (path : string) : string := last (split path) "".

Fixpoint strip_trailing (rev_path : list ascii) : list ascii :=
  match rev_path with
  | c :: rest => if Ascii.eqb c Separator then strip_trailing rest else rev_path
  | [] => []
  end.

(** [filepath.Base(path)]. *)
Definition Base (path : string) : string :=
  if String.eqb path "" then "."
  else
    let stripped :=
      string_of_list_ascii
        (rev (strip_trailing (rev (list_ascii_of_string path)))) in
    let name := last_element stripped in
    if String.eqb name "" then String Separator "" else name.

(** [filepath.Dir(path)]: everything up to and including the last
    separator, cleaned. *)
Definition Dir (path : string) : string :=
  match rev (split path) with
  | _ :: before =>
      match before with
      | [] => Clean ""
      | _ => Clean (String.append (join (rev before)) (String Separator ""))
      end
  | [] => Clean ""
  end.

End Filepath.

(** ** The key sharding function *)

Import Binary.

(** [keyHash]: the IEEE CRC-32 of the key, least significant byte first. *)
Definition keyHash (key : string) : list byte :=
  let h := Crc32.Checksum (list_byte_of_string key) Crc32.IEEE in
  PutUint32 h.

Definition hash_byte (h : list byte) (i : nat) : list byte :=
  firstn 1 (skipn i h).

(** [keyPath]. *)
Definition keyPath (path key : string) : string :=
  let h := keyHash key in
  let key := Text.Replace key in
  Filepath.Join
    [ path;
      Text.EncodeToString (hash_byte h 0);
      Text.EncodeToString (hash_byte h 1);
      Text.EncodeToString (hash_byte h 2);
      Text.EncodeToString (hash_byte h 3);
      key ].

(** ** [time]: instants and durations

    An instant is a count of whole seconds since January 1 of year 1 (an
    [int64], as in [Time.ext]) and a nanosecond part in [0, 999999999].  A
    [Duration] is an [int64] count of nanoseconds. *)

Module Time.

Record Time : Type := mkTime { sec : Z; nsec : Z }.

Definition unixToInternal : Z := 62135596800.

(** [time.Unix(sec, 0)]. *)
Definition Unix (s : Z) : Time :=
  {| sec := wrap_i64 (s + unixToInternal); nsec := 0 |}.

(** [t.Unix()]. *)
Definition ToUnix (t : Time) : Z := wrap_i64 (sec t - unixToInternal).

(** [t.Before(u)]. *)
Definition Before (t u : Time) : bool :=
  (sec t <? sec u) || ((sec t =? sec u) && (nsec t <? nsec u)).

(** [t.Add(d)]: Go's [/] and [%] truncate toward zero.  The sum of the
    seconds is written with [int64] wrap-around; for the clock readings
    considered below ([sane]) it stays far from the ends of the range, where
    the releases of Go differ. *)
Definition Add (t : Time) (d : Z) : Time :=
  let dsec := Z.quot d 1000000000 in
  let ns := nsec t + Z.rem d 1000000000 in
  if 1000000000 <=? ns then
    {| sec := wrap_i64 (sec t + (dsec + 1)); nsec := ns - 1000000000 |}
  else if ns <? 0 then
    {| sec := wrap_i64 (sec t + (dsec - 1)); nsec := ns + 1000000000 |}
  else
    {| sec := wrap_i64 (sec t + dsec); nsec := ns |}.

Definition Second : Z := 1000000000.

(** A clock reading: a representable instant. *)
Definition valid (t : Time) : Prop :=
  - 2 ^ 63 <= sec t < 2 ^ 63 /\ 0 <= nsec t < 1000000000.

(** The instant [s] seconds and [ns] nanoseconds after the Unix epoch. *)
Definition at_unix (s ns : Z) : Time :=
  {| sec := s + unixToInternal; nsec := ns |}.

End Time.

(** ** The file system

    A node is a regular file or a directory.  A file carries whether it can
    be opened and its content; a directory carries whether it can be listed
    and its entries, kept in the order [readDirNames] returns them (sorted by
    name).  Permissions are no finer than that: a file that can be opened can
    be opened for reading and for writing, every directory can be searched,
    and an entry can be created in every directory.  There are no symbolic
    links, and the device never runs full. *)

#[warnings="-register-all"]
Inductive node : Type :=
| File (openable : bool) (data : list byte)
| Dir (listable : bool) (entries : list (string * node)).

Abbreviation dirents := (list (string * node)).

Definition IsDir (n : node) : bool :=
  match n with Dir _ _ => true | File _ _ => false end.

Fixpoint assoc (name : string) (es : dirents) : option node :=
  match es with
  | [] => None
  | (name', n) :: rest => if String.eqb name name' then Some n else assoc name rest
  end.

Fixpoint remove_entry (name : string) (es : dirents) : dirents :=
  match es with
  | [] => []
  | (name', n) :: rest =>
      if String.eqb name name' then remove_entry name rest
      else (name', n) :: remove_entry name rest
  end.

Fixpoint insert_entry (name : string) (n : node) (es : dirents) : dirents :=
  match es with
  | [] => [(name, n)]
  | (name', n') :: rest =>
      if String.ltb name' name then (name', n') :: insert_entry name n rest
      else (name, n) :: es
  end.

(** Bind [name] to [x] in a directory listing; [None] unbinds it. *)
Definition set_entry (name : string) (x : option node) (es : dirents) : dirents :=
  match x with
  | Some n => insert_entry name n (remove_entry name es)
  | None => remove_entry name es
  end.

(** The node reached from [n] along the element names [cs]. *)
Fixpoint fs_lookup (cs : list string) (n : node) : option node :=
  match cs with
  | [] => Some n
  | c :: cs' =>
      match n with
      | Dir _ es =>
          match assoc c es with
          | Some child => fs_lookup cs' child
          | None => None
          end
      | File _ _ => None
      end
  end.

(** Replace what is at [cs] by [x] ([None] removes it); nothing changes when
    the parent of [cs] is not an existing directory. *)
Fixpoint fs_put (cs : list string) (x : option node) (n : node) : node :=
  match cs with
  | [] => match x with Some n' => n' | None => n end
  | c :: cs' =>
      match n with
      | Dir l es =>
          match cs' with
          | [] => Dir l (set_entry c x es)
          | _ :: _ =>
              match assoc c es with
              | Some child => Dir l (set_entry c (Some (fs_put cs' x child)) es)
              | None => n
              end
          end
      | File _ _ => n
      end
  end.

(** [os.MkdirAll] from [n] down the names [cs]: existing directories are
    kept, missing ones are created, a regular file in the way is an error
    ([None]). *)
Fixpoint mkdir_all (cs : list string) (n : node) : option node :=
  match n with
  | File _ _ => None
  | Dir l es =>
      match cs with
      | [] => Some n
      | c :: cs' =>
          match assoc c es with
          | Some child =>
              match mkdir_all cs' child with
              | Some child' => Some (Dir l (set_entry c (Some child') es))
              | None => None
              end
          | None =>
              match mkdir_all cs' (Dir true []) with
              | Some child' => Some (Dir l (set_entry c (Some child') es))
              | None => None
              end
          end
      end
  end.

(** The names of the cleaned form of a path.  The root of the tree is both
    [/] and the working directory, so [..] elements left at the front of a
    cleaned path stay at the root.  For a cleaned path, these are the names
    the kernel follows. *)
Fixpoint drop_dotdot (elems : list string) : list string :=
  match elems with
  | e :: rest => if Filepath.is_dotdot e then drop_dotdot rest else elems
  | [] => []
  end.

Definition namei (path : string) : list string :=
  drop_dotdot (Filepath.elements path).

(** The walk the kernel makes for a path as it is written, element by
    element from the root: [names] leads to where the walk stands, which has
    to be an existing directory for the walk to go on.  An empty element
    and [.] stay there, [..] goes up (and stays at the root), a name goes
    down.  So [a/../b] is [b] only if [a] is a directory, and [f/] and
    [f/.] are errors when [f] is a regular file. *)
Fixpoint follow (F : node) (elems : list string) (names : list string)
  : option (list string) :=
  match elems with
  | [] => Some names
  | e :: rest =>
      match fs_lookup names F with
      | Some (Dir _ _) =>
          if String.eqb e "" then follow F rest names
          else if String.eqb e "." then follow F rest names
          else if Filepath.is_dotdot e then follow F rest (removelast names)
          else follow F rest (names ++ [e])
      | _ => None
      end
  end.

(** The node the kernel finds for a path; the empty path names nothing. *)
Definition resolve (path : string) (F : node) : option node :=
  if String.eqb path "" then None
  else
    match follow F (Filepath.split path) [] with
    | Some names => fs_lookup names F
    | None => None
    end.

(** A name the file system accepts for a new entry: at most 255 bytes,
    none of them zero. *)
Fixpoint no_nul (s : string) : bool :=
  match s with
  | EmptyString => true
  | String c rest => negb (Ascii.eqb c Ascii.zero) && no_nul rest
  end.

Definition valid_name (e : string) : bool :=
  (String.length e <=? 255)%nat && no_nul e.

(** [f.Write(p)] at offset [off] of a file holding [old]: bytes before the
    offset and bytes after the written range are kept. *)
Definition write_at (off : nat) (p old : list byte) : list byte :=
  firstn off (old ++ repeat x00 (off - List.length old)%nat) ++ p
    ++ skipn (off + List.length p)%nat old.

(** ** The lock registry: [pathMutex] and [fileLock]

    A [*fileLock] is the index of its cell in [cells]; cells are never
    reused, as an allocated lock stays alive while someone points to it.
    The [sync.RWMutex] of a lock is its [writer] flag and its count of
    [readers]; the [cleanup] closure is determined by the path it captured. *)

Record fileLock : Type := mkFileLock {
  ref : Z;
  cleanup_path : string;
  writer : bool;
  readers : nat
}.

Record pathMutex : Type := mkPathMutex {
  lock : gmap string nat;
  cells : list fileLock
}.

Definition set_ref (r : Z) (fl : fileLock) : fileLock :=
  {| ref := r; cleanup_path := cleanup_path fl;
     writer := writer fl; readers := readers fl |}.

Definition set_rw (wr : bool) (rd : nat) (fl : fileLock) : fileLock :=
  {| ref := ref fl; cleanup_path := cleanup_path fl;
     writer := wr; readers := rd |}.

(** [pathMutex.MutexAt]: the whole body runs under [m.mu]. *)
Definition MutexAt (path : string) (m : pathMutex) : nat * pathMutex :=
  match lock m !! path with
  | Some fl =>
      (fl, {| lock := lock m;
              cells := alter (fun c => set_ref (wrap_i64 (ref c + 1)) c) fl (cells m) |})
  | None =>
      let fl := List.length (cells m) in
      (fl, {| lock := <[path := fl]> (lock m);
              cells := cells m ++ [ {| ref := 1; cleanup_path := path;
                                       writer := false; readers := 0 |} ] |})
  end.

(** The [cleanup] closure of the lock [fl], also under [m.mu]. *)
Definition cleanup (fl : nat) (m : pathMutex) : pathMutex :=
  match cells m !! fl with
  | Some c =>
      let r := wrap_i64 (ref c - 1) in
      {| lock := if r =? 0 then delete (cleanup_path c) (lock m) else lock m;
         cells := <[fl := set_ref r c]> (cells m) |}
  | None => m
  end.

(** What a call does to the caller. *)
Inductive step_result (S : Type) : Type :=
| Proceeds (s : S)     (* the call returns *)
| Waits                (* the call blocks until somebody else unlocks *)
| Crashes.             (* fatal error: unlock of an unlocked mutex *)
Arguments Proceeds {S} s.
Arguments Waits {S}.
Arguments Crashes {S}.

Definition with_cell (fl : nat) (m : pathMutex)
    (f : fileLock -> step_result fileLock) : step_result pathMutex :=
  match cells m !! fl with
  | Some c =>
      match f c with
      | Proceeds c' => Proceeds {| lock := lock m; cells := <[fl := c']> (cells m) |}
      | Waits => Waits
      | Crashes => Crashes
      end
  | None => Crashes
  end.

(** [l.mu.RLock()], [l.mu.RUnlock()], [l.mu.Lock()], [l.mu.Unlock()].  A
    call that cannot go on returns [Waits] and changes nothing: a caller
    that waits leaves no trace in the lock and tries again as a whole.
    [sync.RWMutex] also holds new readers up while a writer waits.  So every
    run of [sync.RWMutex] is a run here, and what holds of all runs here
    holds of the program; a run here in which no call has to wait is a run
    of [sync.RWMutex]; a run here in which a reader overtakes a waiting
    writer is not. *)
Definition rw_RLock (c : fileLock) : step_result fileLock :=
  if writer c then Waits else Proceeds (set_rw false (S (readers c)) c).

Definition rw_RUnlock (c : fileLock) : step_result fileLock :=
  match readers c with
  | O => Crashes
  | S n => Proceeds (set_rw (writer c) n c)
  end.

Definition rw_Lock (c : fileLock) : step_result fileLock :=
  if writer c then Waits
  else match readers c with
       | O => Proceeds (set_rw true O c)
       | S _ => Waits
       end.

Definition rw_Unlock (c : fileLock) : step_result fileLock :=
  if writer c then Proceeds (set_rw false (readers c) c) else Crashes.

(** [fileLock.RLock], [fileLock.RUnlock], [fileLock.Lock],
    [fileLock.Unlock]. *)
Definition RLock (fl : nat) (m : pathMutex) : step_result pathMutex :=
  with_cell fl m rw_RLock.

Definition RUnlock (fl : nat) (m : pathMutex) : step_result pathMutex :=
  match with_cell fl m rw_RUnlock with
  | Proceeds m' => Proceeds (cleanup fl m')
  | r => r
  end.

Definition Lock (fl : nat) (m : pathMutex) : step_result pathMutex :=
  with_cell fl m rw_Lock.

Definition Unlock (fl : nat) (m : pathMutex) : step_result pathMutex :=
  match with_cell fl m rw_Unlock with
  | Proceeds m' => Proceeds (cleanup fl m')
  | r => r
  end.

(** ** The world a cache operation runs in

    The entries of the root directory, the lock registry [c.pm] points to,
    and the reading of the wall clock.  The clock does not move during one
    operation; the environment moves it between operations. *)

Record World : Type := mkWorld {
  root : dirents;
  pm : pathMutex;
  now : Time.Time
}.

Definition fs (w : World) : node := Dir true (root w).

Definition entries_of (n : node) : dirents :=
  match n with Dir _ es => es | File _ _ => [] end.

Definition set_fs (n : node) (w : World) : World :=
  {| root := entries_of n; pm := pm w; now := now w |}.

Definition set_pm (m : pathMutex) (w : World) : World :=
  {| root := root w; pm := m; now := now w |}.

Definition set_now (t : Time.Time) (w : World) : World :=
  {| root := root w; pm := pm w; now := t |}.

(** How a function call ends: it returns, it panics after its deferred
    calls have run, it blocks on a lock for ever, or the run time aborts the
    process. *)
Inductive outcome (A : Type) : Type :=
| Returns (a : A) (w : World)
| Panics (w : World)
| Blocks
| Aborts.
Arguments Returns {A} a w.
Arguments Panics {A} w.
Arguments Blocks {A}.
Arguments Aborts {A}.

Definition M (A : Type) : Type := World -> outcome A.

Definition ret {A} (a : A) : M A := fun w => Returns a w.

Definition bind {A B} (m : M A) (k : A -> M B) : M B :=
  fun w =>
    match m w with
    | Returns a w' => k a w'
    | Panics w' => Panics w'
    | Blocks => Blocks
    | Aborts => Aborts
    end.

Definition panic {A} : M A := fun w => Panics w.

(** [defer d; body]: [d] runs when [body] returns and when it panics. *)
Definition defer {A} (d : M unit) (body : M A) : M A :=
  fun w =>
    match body w with
    | Returns a w' =>
        match d w' with
        | Returns _ w'' => Returns a w''
        | Panics w'' => Panics w''
        | Blocks => Blocks
        | Aborts => Aborts
        end
    | Panics w' =>
        match d w' with
        | Returns _ w'' => Panics w''
        | Panics w'' => Panics w''
        | Blocks => Blocks
        | Aborts => Aborts
        end
    | Blocks => Blocks
    | Aborts => Aborts
    end.

Declare Scope go_scope.
Delimit Scope go_scope with go.
Notation "x <- m ;; k" := (bind m (fun x => k))
  (at level 100, m at next level, right associativity) : go_scope.
Notation "m ;; k" := (bind m (fun _ => k))
  (at level 100, right associativity) : go_scope.
Local Open Scope go_scope.

Definition lift_pm (f : pathMutex -> step_result pathMutex) : M unit :=
  fun w =>
    match f (pm w) with
    | Proceeds m' => Returns tt (set_pm m' w)
    | Waits => Blocks
    | Crashes => Aborts
    end.

Definition pm_MutexAt (path : string) : M nat :=
  fun w => let '(fl, m') := MutexAt path (pm w) in Returns fl (set_pm m' w).

Definition time_Now : M Time.Time := fun w => Returns (now w) w.

(** ** [os] and [io/ioutil] *)

(** A Go slice of bytes: [arr] holds the backing array from the start of the
    slice to its capacity, [len] is the length. *)
Record slice : Type := mkSlice { arr : list byte; len : nat }.

Definition cap (b : slice) : nat := List.length (arr b).

Definition slice_bytes (b : slice) : list byte := firstn (len b) (arr b).

(** [b[:hi]]: the upper bound of a slice expression on a slice is its
    capacity. *)
Definition slice_to (hi : nat) (b : slice) : M slice :=
  if (hi <=? cap b)%nat then ret {| arr := arr b; len := hi |} else panic.

(** [b[lo:]]: the omitted upper bound is the length, and [lo] must not
    exceed it. *)
Definition slice_from (lo : nat) (b : slice) : M slice :=
  if (lo <=? len b)%nat
  then ret {| arr := skipn lo (arr b); len := (len b - lo)%nat |}
  else panic.

Definition le_Uint64 (b : slice) : M Z :=
  match Uint64 (slice_bytes b) with
  | Some v => ret v
  | None => panic
  end.

(** An open [*os.File]: the names of the file and the current offset. *)
Record file : Type := mkFile { f_names : list string; f_off : nat }.

(** [os.Stat(name)]: whether the node is a directory, [None] on error.
    The cache calls it with the path it was configured with, as the user
    wrote it. *)
Definition os_Stat (name : string) : M (option bool) :=
  fun w => Returns (option_map IsDir (resolve name (fs w))) w.

(** [os.Lstat(name)] as [filepath.Walk] uses it: the node itself. *)
Definition os_Lstat (name : string) : M (option node) :=
  fun w => Returns (resolve name (fs w)) w.

(** The functions below are called with cleaned paths only ([keyPath] and
    [filepath.Walk] build their paths with [filepath.Join], and the cache
    cleans once more), or, for the root of a walk, with a path [Lstat] has
    just resolved: there the kernel follows the names of the cleaned
    path. *)

(** The capacity [os.ReadFile] allocates for a file of [size] bytes: one
    byte more than the size, and at least 512. *)
Definition readfile_cap (size : nat) : nat := Nat.max 512 (size + 1).

(** [ioutil.ReadFile(filename)]: the content in a slice whose backing array
    is zero beyond the content; [None] on error. *)
Definition ioutil_ReadFile (filename : string) : M (option slice) :=
  fun w =>
    match fs_lookup (namei filename) (fs w) with
    | Some (File true data) =>
        let n := List.length data in
        Returns (Some {| arr := data ++ repeat x00 (readfile_cap n - n); len := n |}) w
    | _ => Returns None w
    end.

(** [os.Remove(name)]: removes a file or an empty directory; [true] is an
    error. *)
Definition os_Remove (name : string) : M bool :=
  fun w =>
    match namei name, fs_lookup (namei name) (fs w) with
    | _ :: _, Some (File _ _) | _ :: _, Some (Dir _ []) =>
        Returns false (set_fs (fs_put (namei name) None (fs w)) w)
    | _, _ => Returns true w
    end.

(** [os.MkdirAll(path, 0700)]; [true] is an error. *)
Definition os_MkdirAll (path : string) : M bool :=
  fun w =>
    match mkdir_all (namei path) (fs w) with
    | Some n => Returns false (set_fs n w)
    | None => Returns true w
    end.

(** [os.OpenFile(name, os.O_RDWR|os.O_CREATE, 0600)]: an existing file is
    opened as it is, a missing one is created empty in its existing parent
    directory, when the file system accepts its name; [None] on error. *)
Definition os_OpenFile (name : string) : M (option file) :=
  fun w =>
    let cs := namei name in
    match fs_lookup cs (fs w) with
    | Some (File true _) => Returns (Some {| f_names := cs; f_off := 0 |}) w
    | Some _ => Returns None w
    | None =>
        match fs_lookup (removelast cs) (fs w) with
        | Some (Dir _ _) =>
            if valid_name (last cs "")
            then Returns (Some {| f_names := cs; f_off := 0 |})
                         (set_fs (fs_put cs (Some (File true [])) (fs w)) w)
            else Returns None w
        | _ => Returns None w
        end
    end.

(** [os.Open(name)]; [None] on error. *)
Definition os_Open (name : string) : M (option file) :=
  fun w =>
    match fs_lookup (namei name) (fs w) with
    | Some (File true _) => Returns (Some {| f_names := namei name; f_off := 0 |}) w
    | _ => Returns None w
    end.

(** [f.Write(p)]: the bytes go to the current offset, which advances; the
    device never runs full.  The second component is the error. *)
Definition file_Write (f : file) (p : list byte) : M (file * bool) :=
  fun w =>
    match fs_lookup (f_names f) (fs w) with
    | Some (File o old) =>
        Returns ({| f_names := f_names f; f_off := (f_off f + List.length p)%nat |}, false)
                (set_fs (fs_put (f_names f) (Some (File o (write_at (f_off f) p old))) (fs w)) w)
    | _ => Returns (f, true) w
    end.

(** [f.Read(t[:])] into a zeroed array of [size] bytes: the count, the array
    and the error; reading at the end of the file is the error [io.EOF]. *)
Definition file_Read (f : file) (size : nat) : M (nat * list byte * bool) :=
  fun w =>
    match fs_lookup (f_names f) (fs w) with
    | Some (File _ data) =>
        let got := firstn size (skipn (f_off f) data) in
        let n := List.length got in
        Returns (n, got ++ repeat x00 (size - n), (n =? 0)%nat) w
    | _ => Returns (O, repeat x00 size, true) w
    end.

Definition file_Close (f : file) : M unit := ret tt.

(** ** The file cache *)

Inductive error : Type :=
| errCacheMiss
| errReadingFile (p : string)
| errCreatingPath
| errCreatingFile
| errWritingFile
| errInvalidPath
| errNotDirectory
| errWalk.

(** The struct [fileCache]; its [pm] field points to the registry of the
    world. *)
Record fileCache : Type := mkFileCache { path : string }.

(** [fileCache.Get]. *)
Definition Get (c : fileCache) (key : string)
  : M (option (list byte) * option error) :=
  mu <- pm_MutexAt key ;;
  lift_pm (RLock mu) ;;
  defer (lift_pm (RUnlock mu)) (
    let p := keyPath (path c) key in
    info <- os_Stat p ;;
    match info with
    | None | Some true => ret (None, Some errCacheMiss)
    | Some false =>
        r <- ioutil_ReadFile (Filepath.Clean p) ;;
        match r with
        | None => ret (None, Some (errReadingFile p))
        | Some b =>
            hdr <- slice_to 8 b ;;
            v <- le_Uint64 hdr ;;
            let expires := Time.Unix (wrap_i64 v) in
            t <- time_Now ;;
            if Time.Before expires t then
              os_Remove p ;;
              ret (None, Some errCacheMiss)
            else
              payload <- slice_from 8 b ;;
              ret (Some (slice_bytes payload), None)
        end
    end).

(** [fileCache.Set]. *)
Definition Set' (c : fileCache) (key : string) (val : list byte) (expiry : Z)
  : M (option error) :=
  mu <- pm_MutexAt key ;;
  lift_pm (Lock mu) ;;
  defer (lift_pm (Unlock mu)) (
    let p := keyPath (path c) key in
    err <- os_MkdirAll (Filepath.Dir p) ;;
    if err : bool then ret (Some errCreatingPath)
    else
      r <- os_OpenFile (Filepath.Clean p) ;;
      match r with
      | None => ret (Some errCreatingFile)
      | Some f =>
          defer (file_Close f) (
            t <- time_Now ;;
            let timestamp := wrap_u64 (Time.ToUnix (Time.Add t expiry)) in
            let t := PutUint64 timestamp in
            r <- file_Write f t ;;
            let '(f, err) := r in
            if err : bool then ret (Some errWritingFile)
            else
              r <- file_Write f val ;;
              let '(f, err) := r in
              if err : bool then ret (Some errWritingFile)
              else ret None)
      end).

(** The function [fileCache.vacuum] hands to [filepath.Walk]; [info] is
    [None] when the walk has no file information, [err] is the error the
    walk reports for the entry. *)
Definition vacuumFn (path : string) (info : option node) (err : option error)
  : M (option error) :=
  match err, info with
  | Some e, _ => ret (Some e)
  | None, None => panic
  | None, Some (Dir _ _) => ret None
  | None, Some (File _ _) =>
      mu <- pm_MutexAt (Filepath.Base path) ;;
      lift_pm (Lock mu) ;;
      defer (lift_pm (Unlock mu)) (
        r <- os_Open (Filepath.Clean path) ;;
        match r with
        | None => ret None
        | Some f =>
            r <- file_Read f 8 ;;
            let '(n, t, rerr) := r in
            if (rerr : bool) && negb (n =? 8)%nat then ret None
            else
              file_Close f ;;
              v <- le_Uint64 {| arr := t; len := 8 |} ;;
              let expires := Time.Unix (wrap_i64 v) in
              t <- time_Now ;;
              if negb (Time.Before expires t) then ret None
              else
                os_Remove path ;;
                ret None
        end)
  end.

(** [filepath.Walk]'s recursive [walk]: the callback is called for the
    node, a directory that cannot be listed is reported to the callback and
    not entered, and the first error a callback returns ends the walk.  The
    tree walked is the one found when the walk started; the callback above
    changes it only by removing the file it is called for. *)
Fixpoint walk (walkFn : string -> option node -> option error -> M (option error))
    (path : string) (info : node) {struct info} : M (option error) :=
  match info with
  | File _ _ => walkFn path (Some info) None
  | Dir listable es =>
      let err := if listable then None else Some errWalk in
      err1 <- walkFn path (Some info) err ;;
      match err, err1 with
      | None, None =>
          (fix each (es : dirents) : M (option error) :=
             match es with
             | [] => ret None
             | (name, child) :: rest =>
                 e <- walk walkFn (Filepath.Join [path; name]) child ;;
                 match e with
                 | Some _ => ret e
                 | None => each rest
                 end
             end) es
      | _, _ => ret err1
      end
  end.

(** [filepath.Walk(root, fn)]. *)
Definition Walk (root : string)
    (walkFn : string -> option node -> option error -> M (option error))
  : M (option error) :=
  info <- os_Lstat root ;;
  match info with
  | None => walkFn root None (Some errWalk)
  | Some n => walk walkFn root n
  end.

(** One iteration of the loop of [fileCache.vacuum]: what happens at one
    tick of the timer. *)
Definition vacuum_tick (c : fileCache) : M unit :=
  Walk (path c) vacuumFn ;; ret tt.

(** [newFileCache] without its [go fc.vacuum(vacuum)]: the registry of the
    new cache is empty. *)
Definition newFileCache (path : string) : M (option fileCache * option error) :=
  info <- os_Stat path ;;
  match info with
  | None => ret (None, Some errInvalidPath)
  | Some false => ret (None, Some errNotDirectory)
  | Some true =>
      fun w => Returns (Some {| path := path |}, None)
                       (set_pm {| lock := ∅; cells := [] |} w)
  end.

(** ** Worlds used in examples *)

Definition bytes_of (s : string) : list byte := list_byte_of_string s.

Definition no_locks : pathMutex := {| lock := ∅; cells := [] |}.

(** An empty cache directory [/cache], nobody holding a lock, the clock at
    [s] seconds and [ns] nanoseconds after the epoch. *)
Definition empty_cache (s ns : Z) : World :=
  {| root := [("cache", Dir true [])]; pm := no_locks; now := Time.at_unix s ns |}.

Definition the_cache : fileCache := {| path := "/cache" |}.

(** The world [w] with the node [n] at [p], parent directories included. *)
Definition with_node (p : string) (n : node) (w : World) : World :=
  match mkdir_all (removelast (namei p)) (fs w) with
  | Some t => set_fs (fs_put (namei p) (Some n) t) w
  | None => w
  end.

(** What is stored for [key] in the cache [c]. *)
Definition stored (c : fileCache) (key : string) (w : World) : option node :=
  fs_lookup (namei (keyPath (path c) key)) (fs w).

(** The shard directory the design gives [key]:
    [<base>/hex(b0)/hex(b1)/hex(b2)/hex(b3)]. *)
Definition shard_dir (base key : string) : string :=
  let h := keyHash key in
  Filepath.join
    [ base;
      Text.EncodeToString (hash_byte h 0);
      Text.EncodeToString (hash_byte h 1);
      Text.EncodeToString (hash_byte h 2);
      Text.EncodeToString (hash_byte h 3) ].

(** [p] names something strictly inside the directory [dir]: [dir], a
    separator, and a non-empty rest. *)
Definition strictly_inside (dir p : string) : bool :=
  String.prefix (String.append dir "/") p
  && (String.length dir + 1 <? String.length p)%nat.

(** The two payloads of the examples. *)
Definition hello : list byte := bytes_of "hello".
Definition hi : list byte := bytes_of "hi".

(** The entry of key [k] holds [data]; the clock reads [s] seconds and
    [ns] nanoseconds after the epoch. *)
Definition cache_with (key : string) (data : list byte) (s ns : Z) : World :=
  with_node (keyPath "/cache" key) (File true data) (empty_cache s ns).

(** The registry while the vacuum callback, called for the file at [p],
    holds its write lock. *)
Definition vacuum_holding (p : string) : pathMutex :=
  let '(mu, m) := MutexAt (Filepath.Base p) no_locks in
  match Lock mu m with
  | Proceeds m' => m'
  | _ => m
  end.

(** ** The lock registry as a transition system *)

(** The atomic steps of the registry: the calls of [MutexAt] and of the four
    methods of a lock, and the two halves of an unlock, between which other
    callers can run ([l.mu.Unlock()] or [l.mu.RUnlock()], then
    [l.cleanup()]). *)
Inductive call : Type :=
| CallMutexAt (path : string)
| CallRLock (fl : nat)
| CallRUnlock (fl : nat)
| CallLock (fl : nat)
| CallUnlock (fl : nat)
| MuRUnlock (fl : nat)
| MuUnlock (fl : nat)
| CallCleanup (fl : nat).

Definition call_step (o : call) (m : pathMutex) : step_result pathMutex :=
  match o with
  | CallMutexAt p => Proceeds (snd (MutexAt p m))
  | CallRLock fl => RLock fl m
  | CallRUnlock fl => RUnlock fl m
  | CallLock fl => Lock fl m
  | CallUnlock fl => Unlock fl m
  | MuRUnlock fl => with_cell fl m rw_RUnlock
  | MuUnlock fl => with_cell fl m rw_Unlock
  | CallCleanup fl => Proceeds (cleanup fl m)
  end.

(** A sequence of steps, each of which returns. *)
Fixpoint run_calls (os : list call) (m : pathMutex) : step_result pathMutex :=
  match os with
  | [] => Proceeds m
  | o :: rest =>
      match call_step o m with
      | Proceeds m' => run_calls rest m'
      | r => r
      end
  end.

(** The invariant of the design: a lock is registered exactly when its
    reference count is positive, and the registry holds allocated locks
    under the path their [cleanup] deletes. *)
Record registry_inv (m : pathMutex) : Prop := {
  inv_registered :
    forall p fl, lock m !! p = Some fl ->
      exists c, cells m !! fl = Some c /\ cleanup_path c = p;
  inv_iff :
    forall fl c, cells m !! fl = Some c ->
      (lock m !! cleanup_path c = Some fl <-> 0 < ref c)
}.

Definition refs_within (lo hi : Z) (m : pathMutex) : Prop :=
  forall fl c, cells m !! fl = Some c -> lo <= ref c <= hi.

(** The operations of the read/write lock leave the count and the path of a
    lock alone. *)
Definition keeps_ref (f : fileLock -> step_result fileLock) : Prop :=
  forall c c', f c = Proceeds c' -> ref c' = ref c /\ cleanup_path c' = cleanup_path c.

(** Callers running acquire/release cycles.  A worker runs one cycle on its
    path, [mu := MutexAt(path)], then [mu.Lock()] and [mu.Unlock()] (or
    [mu.RLock()] and [mu.RUnlock()]), in four atomic steps: the
    registration, the lock, the unlock of the read/write lock, and the
    [cleanup].  A schedule names the worker that moves next; a worker that
    has to wait does not move. *)
Inductive phase : Type :=
| Start
| Got (fl : nat)
| Held (fl : nat)
| Freed (fl : nat)
| Done.

Record worker : Type := mkWorker {
  w_path : string;
  w_write : bool;
  w_phase : phase
}.

Definition at_phase (ph : phase) (t : worker) : worker :=
  {| w_path := w_path t; w_write := w_write t; w_phase := ph |}.

Definition worker_step (t : worker) (m : pathMutex)
  : step_result (worker * pathMutex) :=
  match w_phase t with
  | Start =>
      let '(fl, m') := MutexAt (w_path t) m in
      Proceeds (at_phase (Got fl) t, m')
  | Got fl =>
      match with_cell fl m (if w_write t then rw_Lock else rw_RLock) with
      | Proceeds m' => Proceeds (at_phase (Held fl) t, m')
      | Waits => Waits
      | Crashes => Crashes
      end
  | Held fl =>
      match with_cell fl m (if w_write t then rw_Unlock else rw_RUnlock) with
      | Proceeds m' => Proceeds (at_phase (Freed fl) t, m')
      | Waits => Waits
      | Crashes => Crashes
      end
  | Freed fl => Proceeds (at_phase Done t, cleanup fl m)
  | Done => Waits
  end.

Definition sched_step (i : nat) (s : list worker * pathMutex)
  : step_result (list worker * pathMutex) :=
  let '(ts, m) := s in
  match ts !! i with
  | None => Proceeds s
  | Some t =>
      match worker_step t m with
      | Proceeds (t', m') => Proceeds (<[i := t']> ts, m')
      | Waits => Proceeds s
      | Crashes => Crashes
      end
  end.

Fixpoint run_sched (sched : list nat) (s : list worker * pathMutex)
  : step_result (list worker * pathMutex) :=
  match sched with
  | [] => Proceeds s
  | i :: rest =>
      match sched_step i s with
      | Proceeds s' => run_sched rest s'
      | r => r
      end
  end.

(** The worker holds a reference to the lock [fl]. *)
Definition holds (fl : nat) (t : worker) : bool :=
  match w_phase t with
  | Got fl' | Held fl' | Freed fl' => (fl =? fl')%nat
  | Start | Done => false
  end.

Definition holders (fl : nat) (ts : list worker) : nat :=
  List.length (List.filter (holds fl) ts).

Definition b2n (b : bool) : nat := if b then 1%nat else 0%nat.

(** What holds of the workers and the registry along every schedule. *)
Record sched_inv (s : list worker * pathMutex) : Prop := {
  si_registry : registry_inv (snd s);
  si_count : forall fl c, cells (snd s) !! fl = Some c ->
               ref c = Z.of_nat (holders fl (fst s));
  si_alloc : forall t fl, In t (fst s) -> holds fl t = true ->
               (fl < List.length (cells (snd s)))%nat
}.

Definition starting (t : worker) : Prop := w_phase t = Start.
Definition finished (t : worker) : Prop := w_phase t = Done.

(** The schedule that lets one worker after the other run its four steps. *)
Definition sequential (first n : nat) : list nat :=
  flat_map (fun i => [i; i; i; i]) (seq first n).

(** ** Names and cleaned paths *)

Module PathNames.
Import Filepath.

Fixpoint noslash (s : string) : bool :=
  match s with
  | EmptyString => true
  | String c rest => negb (Ascii.eqb c Separator) && noslash rest
  end.

(** A name a directory entry can have. *)
Definition is_name (e : string) : bool :=
  noslash e && negb (String.eqb e "") && negb (String.eqb e ".")
  && negb (String.eqb e "..").

(** The shape of the elements [Clean] writes, last one first: names on top
    of [..] elements, which only a path that is not rooted has. *)
Inductive cleaned (r : bool) : list string -> Prop :=
| cleaned_nil : cleaned r []
| cleaned_dotdot out :
    r = false -> Forall (fun e => e = "..") out -> cleaned r (".." :: out)
| cleaned_name e out :
    is_name e = true -> cleaned r out -> cleaned r (e :: out).

(** The last element of a key path: the sanitized key when it is a name;
    nothing for the empty key and for [.]; for [..] the fourth shard
    directory goes. *)
Definition key_tail (h0 h1 h2 h3 k : string) : list string :=
  if String.eqb k "" then [h0; h1; h2; h3]
  else if String.eqb k "." then [h0; h1; h2; h3]
  else if is_dotdot k then [h0; h1; h2]
  else [h0; h1; h2; h3; k].

End PathNames.

Import PathNames.

(** ** Operations on an idle cache *)

(** Nobody holds or waits for a lock. *)
Definition idle (m : pathMutex) : Prop := lock m = ∅.

(** The registry after a caller took the lock of [name] in an idle registry
    and gave it back: the lock is unregistered, its cell is garbage. *)
Definition released (name : string) (m : pathMutex) : pathMutex :=
  {| lock := ∅;
     cells := cells m ++ [ {| ref := 0; cleanup_path := name;
                              writer := false; readers := 0 |} ] |}.

(** The registry while the caller holds the lock, for reading or for
    writing. *)
Definition holding (wr : bool) (name : string) (m : pathMutex) : pathMutex :=
  {| lock := <[name := List.length (cells m)]> (lock m);
     cells := cells m ++ [ {| ref := 1; cleanup_path := name; writer := wr;
                              readers := if wr then 0 else 1 |} ] |}.

(** The statements of [Get] that run between [RLock] and the deferred
    [RUnlock]. *)
Definition get_body (c : fileCache) (key : string)
  : M (option (list byte) * option error) :=
  let p := keyPath (path c) key in
  info <- os_Stat p ;;
  match info with
  | None | Some true => ret (None, Some errCacheMiss)
  | Some false =>
      r <- ioutil_ReadFile (Filepath.Clean p) ;;
      match r with
      | None => ret (None, Some (errReadingFile p))
      | Some b =>
          hdr <- slice_to 8 b ;;
          v <- le_Uint64 hdr ;;
          let expires := Time.Unix (wrap_i64 v) in
          t <- time_Now ;;
          if Time.Before expires t then
            os_Remove p ;;
            ret (None, Some errCacheMiss)
          else
            payload <- slice_from 8 b ;;
            ret (Some (slice_bytes payload), None)
      end
  end.

(** The statements of [Set] between [Lock] and the deferred [Unlock]. *)
Definition set_body (c : fileCache) (key : string) (val : list byte) (expiry : Z)
  : M (option error) :=
  let p := keyPath (path c) key in
  err <- os_MkdirAll (Filepath.Dir p) ;;
  if err : bool then ret (Some errCreatingPath)
  else
    r <- os_OpenFile (Filepath.Clean p) ;;
    match r with
    | None => ret (Some errCreatingFile)
    | Some f =>
        defer (file_Close f) (
          t <- time_Now ;;
          let timestamp := wrap_u64 (Time.ToUnix (Time.Add t expiry)) in
          let t := PutUint64 timestamp in
          r <- file_Write f t ;;
          let '(f, err) := r in
          if err : bool then ret (Some errWritingFile)
          else
            r <- file_Write f val ;;
            let '(f, err) := r in
            if err : bool then ret (Some errWritingFile)
            else ret None)
    end.

(** A root directory: a directory that can be listed. *)
Definition is_root (n : node) : Prop := exists es, n = Dir true es.

(** The content [Set] leaves in a file that held [old]: the expiry, the
    payload, and what [old] had beyond them. *)
Definition entry_over (old : list byte) (timestamp : Z) (val : list byte) : list byte :=
  PutUint64 timestamp ++ val ++ skipn (8 + List.length val) old.

(** What was stored for the key before a [Set], as far as [Set] reuses it. *)
Definition old_content (x : option node) : list byte :=
  match x with
  | Some (File _ d) => d
  | _ => []
  end.

(** The eight header bytes [Get] decodes from a file holding [d]: the
    content, continued by the zero bytes of the spare capacity. *)
Definition header_of (d : list byte) : list byte :=
  firstn 8 (d ++ repeat x00 (readfile_cap (List.length d) - List.length d)).

Definition nanos (t : Time.Time) : Z := Time.sec t * 1000000000 + Time.nsec t.

(** A clock reading of the present era: far from the ends of [int64]. *)
Definition sane (t : Time.Time) : Prop :=
  - 2 ^ 62 <= Time.sec t <= 2 ^ 62 /\ 0 <= Time.nsec t < 1000000000.

Definition int64 (z : Z) : Prop := - 2 ^ 63 <= z < 2 ^ 63.

(** No file-system error stands in the way of a [Set] for the key: the
    directories of the path exist or can be made, and the file can be
    opened, or can be created under the name it is to have. *)
Definition set_ready (c : fileCache) (key : string) (w : World) : bool :=
  let p := keyPath (path c) key in
  match mkdir_all (namei (Filepath.Dir p)) (fs w) with
  | None => false
  | Some n1 =>
      match fs_lookup (namei p) n1 with
      | Some (File true _) => true
      | Some _ => false
      | None =>
          match fs_lookup (removelast (namei p)) n1 with
          | Some (Dir _ _) => valid_name (last (namei p) "")
          | _ => false
          end
      end
  end.

(** ** The vacuum pass as a function on trees *)

(** The expiry the cache reads from a file holding [d]. *)
Definition decoded (d : list byte) : Z :=
  match Uint64 (header_of d) with
  | Some v => v
  | None => 0
  end.

Definition expired (t : Time.Time) (d : list byte) : bool :=
  Time.Before (Time.Unix (wrap_i64 (decoded d))) t.

(** What the callback of vacuum decides for a node at the clock reading
    [t]: a file goes when it can be opened, is not empty, and its header is
    before [t]. *)
Definition vacuum_removes (t : Time.Time) (n : node) : bool :=
  match n with
  | File true d => negb (List.length d =? 0)%nat && expired t d
  | _ => false
  end.

(** What a pass does to a node: nothing, remove it, or replace it. *)
Inductive change : Type :=
| Unchanged
| Removed
| Became (n : node).

(** The node after the change, if there is one. *)
Definition after (n : node) (ch : change) : option node :=
  match ch with
  | Unchanged => Some n
  | Removed => None
  | Became n' => Some n'
  end.

(** The listing after the entry [name] underwent [ch]. *)
Definition entry_after (name : string) (child : node) (ch : change)
    (rest : dirents) : dirents :=
  match after child ch with
  | Some child' => (name, child') :: rest
  | None => rest
  end.

Definition touched (ch : change) : bool :=
  match ch with Unchanged => false | _ => true end.

(** One pass over a tree: the error that ended the walk, if any, and the
    change the node underwent. *)
Fixpoint sweep (t : Time.Time) (n : node) {struct n} : option error * change :=
  match n with
  | File _ _ => (None, if vacuum_removes t n then Removed else Unchanged)
  | Dir false _ => (Some errWalk, Unchanged)
  | Dir true es =>
      let '(e, b, es') :=
        (fix each (es : dirents) : option error * bool * dirents :=
           match es with
           | [] => (None, false, [])
           | (name, child) :: rest =>
               match sweep t child with
               | (Some e, ch) => (Some e, touched ch, entry_after name child ch rest)
               | (None, ch) =>
                   let '(e, b, rest') := each rest in
                   (e, touched ch || b, entry_after name child ch rest')
               end
           end) es in
      (e, if b then Became (Dir true es') else Unchanged)
  end.

Definition sweep_each (t : Time.Time) : dirents -> option error * bool * dirents :=
  fix each (es : dirents) : option error * bool * dirents :=
    match es with
    | [] => (None, false, [])
    | (name, child) :: rest =>
        match sweep t child with
        | (Some e, ch) => (Some e, touched ch, entry_after name child ch rest)
        | (None, ch) =>
            let '(e, b, rest') := each rest in
            (e, touched ch || b, entry_after name child ch rest')
        end
    end.

(** The file system after the change [ch] of the node at [cs]. *)
Definition apply_change (cs : list string) (ch : change) (n : node) : node :=
  match ch with
  | Unchanged => n
  | Removed => fs_put cs None n
  | Became n' => fs_put cs (Some n') n
  end.

(** Every directory of the tree can be listed. *)
Fixpoint all_listable (n : node) : bool :=
  match n with
  | File _ _ => true
  | Dir l es =>
      l && (fix all (es : dirents) : bool :=
              match es with
              | [] => true
              | (_, child) :: rest => all_listable child && all rest
              end) es
  end.

Definition all_listable_each : dirents -> bool :=
  fix all (es : dirents) : bool :=
    match es with
    | [] => true
    | (_, child) :: rest => all_listable child && all rest
    end.

(** The walk of a listing gets to the entry [q]: every entry listed before
    it holds only directories that can be listed. *)
Definition way_open (q : string) : dirents -> bool :=
  fix each (es : dirents) : bool :=
    match es with
    | [] => false
    | (name, child) :: rest =>
        if String.eqb q name then true else all_listable child && each rest
    end.

(** The walk of [n] gets to what is at [qs] below [n]: every directory on
    the way can be listed, and at every level so can every directory below
    the entries listed before the way goes down. *)
Fixpoint reached (qs : list string) (n : node) {struct n} : bool :=
  match qs with
  | [] => true
  | q :: qs' =>
      match n with
      | Dir true es =>
          (fix each (es : dirents) : bool :=
             match es with
             | [] => false
             | (name, child) :: rest =>
                 if String.eqb q name then reached qs' child
                 else all_listable child && each rest
             end) es
      | _ => false
      end
  end.

(** The names of a listing are in strictly increasing order: each name is
    below all the names after it. *)
Fixpoint sorted_names (names : list string) : bool :=
  match names with
  | [] => true
  | a :: rest => forallb (String.ltb a) rest && sorted_names rest
  end.

(** A tree as a file system has it: entries carry names, listed in
    increasing order. *)
Fixpoint wf_node (n : node) : bool :=
  match n with
  | File _ _ => true
  | Dir _ es =>
      sorted_names (map fst es)
      && (fix all (es : dirents) : bool :=
            match es with
            | [] => true
            | (name, child) :: rest => is_name name && wf_node child && all rest
            end) es
  end.

Definition wf_each : dirents -> bool :=
  fix all (es : dirents) : bool :=
    match es with
    | [] => true
    | (name, child) :: rest => is_name name && wf_node child && all rest
    end.

(** Induction on trees, with the induction hypothesis for every entry of a
    directory. *)
Section NodeInd.
Variable P : node -> Prop.
Hypothesis Hfile : forall o d, P (File o d).
Hypothesis Hdir : forall l es, Forall (fun p => P (snd p)) es -> P (Dir l es).

Fixpoint node_rect' (n : node) : P n :=
  match n with
  | File o d => Hfile o d
  | Dir l es =>
      Hdir l es
        ((fix go (es : dirents) : Forall (fun p => P (snd p)) es :=
            match es with
            | [] => @Forall_nil _ _
            | (name, child) :: rest =>
                @Forall_cons _ (fun p => P (snd p)) (name, child) rest
                  (node_rect' child) (go rest)
            end) es)
  end.
End NodeInd.

Definition below (name : string) (es : dirents) : Prop :=
  Forall (fun p => String.ltb (fst p) name = true) es.

Definition above (name : string) (es : dirents) : Prop :=
  Forall (fun p => String.ltb name (fst p) = true) es.

(** The statements of the callback between [Lock] and the deferred
    [Unlock]. *)
Definition vacuum_body (path : string) : M (option error) :=
  r <- os_Open (Filepath.Clean path) ;;
  match r with
  | None => ret None
  | Some f =>
      r <- file_Read f 8 ;;
      let '(n, t, rerr) := r in
      if (rerr : bool) && negb (n =? 8)%nat then ret None
      else
        file_Close f ;;
        v <- le_Uint64 {| arr := t; len := 8 |} ;;
        let expires := Time.Unix (wrap_i64 v) in
        t <- time_Now ;;
        if negb (Time.Before expires t) then ret None
        else
          os_Remove path ;;
          ret None
  end.

Definition walk_each (f : string -> node -> M (option error)) (path : string)
  : dirents -> M (option error) :=
  fix each (es : dirents) : M (option error) :=
    match es with
    | [] => ret None
    | (name, child) :: rest =>
        e <- f (Filepath.Join [path; name]) child ;;
        match e with
        | Some _ => ret e
        | None => each rest
        end
    end.

(** What the walk of a node at [path] does in the world [w]. *)
Definition walk_computes_sweep (n : node) : Prop :=
  forall path w,
    wf_node n = true -> idle (pm w) ->
    fs_lookup (namei path) (fs w) = Some n ->
    exists w',
      walk vacuumFn path n w = Returns (fst (sweep (now w) n)) w'
      /\ fs w' = apply_change (namei path) (snd (sweep (now w) n)) (fs w)
      /\ idle (pm w') /\ now w' = now w.

Definition swept (t : Time.Time) (n : node) : option node :=
  after n (snd (sweep t n)).

Definition lookup_in (qs : list string) (x : option node) : option node :=
  match x with
  | Some m => fs_lookup qs m
  | None => None
  end.

(** In a tree whose directories can all be listed the walk ends without
    error, and decides for every file by itself. *)
Definition sweep_reaches_all (t : Time.Time) (n : node) : Prop :=
  all_listable n = true -> wf_node n = true ->
  fst (sweep t n) = None
  /\ forall qs o d,
       fs_lookup qs n = Some (File o d) ->
       lookup_in qs (swept t n)
       = if vacuum_removes t (File o d) then None else Some (File o d).

(** ** Inputs of the examples *)

Definition three_workers : list worker :=
  [ {| w_path := "p"; w_write := true; w_phase := Start |};
    {| w_path := "p"; w_write := false; w_phase := Start |};
    {| w_path := "p"; w_write := true; w_phase := Start |} ].

Definition round_robin : list nat :=
  List.concat (repeat [0; 1; 2]%nat 12).

Definition some_calls : list call :=
  [ CallMutexAt "p"; CallRLock 0; CallMutexAt "p"; CallRLock 0;
    CallMutexAt "q"; CallLock 1; CallRUnlock 0; CallUnlock 1; CallRUnlock 0 ].

Definition expired_world : World :=
  cache_with "k" (PutUint64 900 ++ bytes_of "hi") 1000 1.

(** A cache directory with an unreadable file, an empty file, an expired
    entry and a fresh one. *)
Definition mixed_tree : node :=
  Dir true
    [ ("a", File false (PutUint64 5));
      ("b", File true []);
      ("c", File true (PutUint64 5 ++ bytes_of "old"));
      ("d", File true (PutUint64 2000 ++ bytes_of "new")) ].

Definition mixed_world : World :=
  {| root := [("cache", mixed_tree)]; pm := no_locks; now := Time.at_unix 1000 0 |}.

(** A cache directory with an expired entry, a shard directory that holds a
    directory that cannot be listed and an expired entry after it, and an
    expired entry after the shard directory. *)
Definition deep_tree : node :=
  Dir true
    [ ("a", File true (PutUint64 5 ++ bytes_of "old"));
      ("s", Dir true [ ("t", Dir false [ ("x", File true (PutUint64 5)) ]);
                       ("u", File true (PutUint64 5 ++ bytes_of "old")) ]);
      ("z", File true (PutUint64 5 ++ bytes_of "old")) ].

Definition deep_world : World :=
  {| root := [("cache", deep_tree)]; pm := no_locks; now := Time.at_unix 1000 0 |}.

(** An entry whose header, read as an [int64], is negative: five seconds
    before the epoch. *)
Definition long_expired_world : World :=
  cache_with "k" (PutUint64 (2 ^ 64 - 5) ++ bytes_of "hi") 1000 1.

(** ** Workers inside a lock *)

(** The worker is between the lock and the unlock of [fl], as a writer
    ([wr = true]) or as a reader. *)
Definition in_section (wr : bool) (fl : nat) (t : worker) : bool :=
  match w_phase t with
  | Held fl' => (fl =? fl')%nat && Bool.eqb (w_write t) wr
  | _ => false
  end.

(** The number of workers that satisfy [P]. *)
Definition count (P : worker -> bool) (ts : list worker) : nat :=
  List.length (List.filter P ts).

(** What the read/write locks know of the workers: a lock a worker points
    to was made for the path of the worker, its count of readers and its
    writer flag are the workers inside, and a writer is alone. *)
Record excl_inv (s : list worker * pathMutex) : Prop := {
  ei_path : forall t fl, In t (fst s) -> holds fl t = true ->
              exists c, cells (snd s) !! fl = Some c /\ cleanup_path c = w_path t;
  ei_readers : forall fl c, cells (snd s) !! fl = Some c ->
                 readers c = count (in_section false fl) (fst s);
  ei_writer : forall fl c, cells (snd s) !! fl = Some c ->
                b2n (writer c) = count (in_section true fl) (fst s);
  ei_alone : forall fl c, cells (snd s) !! fl = Some c ->
               writer c = true -> readers c = 0%nat
}.

(** The next step of the worker returns. *)
Definition can_move (t : worker) (m : pathMutex) : bool :=
  match worker_step t m with
  | Proceeds _ => true
  | _ => false
  end.

(** The steps a worker has before it: four at the start, none at the end. *)
Definition steps_left (t : worker) : nat :=
  match w_phase t with
  | Start => 4
  | Got _ => 3
  | Held _ => 2
  | Freed _ => 1
  | Done => 0
  end.

Definition total_left (ts : list worker) : nat :=
  list_sum (map steps_left ts).

(** No step of the schedule is made to wait: each names a worker whose
    call returns at once. *)
Fixpoint never_waits (sched : list nat) (s : list worker * pathMutex) : bool :=
  match sched with
  | [] => true
  | i :: rest =>
      match fst s !! i with
      | Some t => can_move t (snd s)
      | None => false
      end
      && match sched_step i s with
         | Proceeds s' => never_waits rest s'
         | _ => false
         end
  end.

(** ** The references a run hands out *)

(** The references to the lock [fl] a call hands out or takes back:
    [MutexAt] hands one out when it returns [fl]; the [cleanup] of [fl],
    alone or at the end of [RUnlock] and [Unlock], takes one back. *)
Definition handed_out (fl : nat) (o : call) (m : pathMutex) : Z :=
  match o with
  | CallMutexAt p => if (fst (MutexAt p m) =? fl)%nat then 1 else 0
  | CallRUnlock fl' | CallUnlock fl' | CallCleanup fl' =>
      if (fl' =? fl)%nat && (fl <? List.length (cells m))%nat then -1 else 0
  | _ => 0
  end.

(** The references to [fl] a sequence of calls leaves outstanding. *)
Fixpoint outstanding (fl : nat) (os : list call) (m : pathMutex) : Z :=
  match os with
  | [] => 0
  | o :: rest =>
      match call_step o m with
      | Proceeds m' => handed_out fl o m + outstanding fl rest m'
      | _ => 0
      end
  end.

(** The calls of a worker's next step. *)
Definition call_of (t : worker) (m : pathMutex) : list call :=
  match w_phase t with
  | Start => [CallMutexAt (w_path t)]
  | Got fl => [if w_write t then CallLock fl else CallRLock fl]
  | Held fl => [if w_write t then MuUnlock fl else MuRUnlock fl]
  | Freed fl => [CallCleanup fl]
  | Done => []
  end.

(** The calls made along a schedule: a worker that waits has made none. *)
Fixpoint calls_of (sched : list nat) (s : list worker * pathMutex) : list call :=
  match sched with
  | [] => []
  | i :: rest =>
      match sched_step i s with
      | Proceeds s' =>
          match fst s !! i with
          | Some t => if can_move t (snd s) then call_of t (snd s) else []
          | None => []
          end ++ calls_of rest s'
      | _ => []
      end
  end.

(** The count of a lock, zero before it is allocated. *)
Definition ref_at (fl : nat) (m : pathMutex) : Z :=
  match cells m !! fl with
  | Some c => ref c
  | None => 0
  end.

(** The worker holds no reference: it has not called [MutexAt] yet, or its
    [cleanup] has run. *)
Definition outside (t : worker) : bool :=
  match w_phase t with
  | Start | Done => true
  | _ => false
  end.

(** ** Observations on trees *)

(** The node is a regular file. *)
Definition is_file (x : option node) : bool :=
  match x with
  | Some (File _ _) => true
  | _ => false
  end.

(** No regular file lies on the way from [n] down the names [cs]: each name
    leads to a directory, or to nothing. *)
Fixpoint way_clear (cs : list string) (n : node) : bool :=
  match n with
  | File _ _ => false
  | Dir _ es =>
      match cs with
      | [] => true
      | c :: cs' =>
          match assoc c es with
          | Some child => way_clear cs' child
          | None => true
          end
      end
  end.

(** The world an operation ends in, when it ends. *)
Definition final_world {A} (r : outcome A) : option World :=
  match r with
  | Returns _ w => Some w
  | Panics w => Some w
  | Blocks => None
  | Aborts => None
  end.

(** ** Keys and hexadecimal names *)

(** The key has neither of the two bytes [keyPath] replaces. *)
Fixpoint plain (key : string) : bool :=
  match key with
  | EmptyString => true
  | String c rest =>
      negb (Ascii.eqb c "/") && negb (Ascii.eqb c ":") && plain rest
  end.

(** The value of a hexadecimal digit, and of the two digits
    [hex.EncodeToString] writes for a byte. *)
Fixpoint digit_index (c : ascii) (table : string) (i : Z) : Z :=
  match table with
  | EmptyString => i
  | String c' rest => if Ascii.eqb c c' then i else digit_index c rest (i + 1)
  end.

Definition unhex (s : string) : Z :=
  match s with
  | String a (String b _) =>
      16 * digit_index a Text.hextable 0 + digit_index b Text.hextable 0
  | _ => 0
  end.

(** The four shard directory names of a key. *)
Definition shard_names (key : string) : list string :=
  [ Text.EncodeToString (hash_byte (keyHash key) 0);
    Text.EncodeToString (hash_byte (keyHash key) 1);
    Text.EncodeToString (hash_byte (keyHash key) 2);
    Text.EncodeToString (hash_byte (keyHash key) 3) ].

(** The names [keyPath] adds to the base directory. *)
Definition key_names (key : string) : list string :=
  key_tail (Text.EncodeToString (hash_byte (keyHash key) 0))
           (Text.EncodeToString (hash_byte (keyHash key) 1))
           (Text.EncodeToString (hash_byte (keyHash key) 2))
           (Text.EncodeToString (hash_byte (keyHash key) 3))
           (Text.Replace key).

(** The path [filepath.Walk] builds, from the root it was given, for the
    entry reached along [names]: one [Join] per directory level. *)
Definition walked (root : string) (names : list string) : string :=
  fold_left (fun p name => Filepath.Join [p; name]) names root.

(** ** What an operation leaves alone *)

(** Every regular file other than the one at [cs] is in [F'] exactly when
    it is in [F], with the same content, and every directory of [F] is
    still a directory in [F']. *)
Definition same_elsewhere (cs : list string) (F F' : node) : Prop :=
  (forall qs o d, qs <> cs ->
     (fs_lookup qs F' = Some (File o d) <-> fs_lookup qs F = Some (File o d)))
  /\ (forall qs, (exists l es, fs_lookup qs F = Some (Dir l es)) ->
                 exists l es, fs_lookup qs F' = Some (Dir l es)).

(** What a pass of vacuum may have done to a node: nothing was there and
    nothing is; a regular file is as it was, or it is gone and the callback
    had decided so; a directory is a directory still. *)
Definition pass_keeps (t : Time.Time) (before after : option node) : Prop :=
  match before with
  | None => after = None
  | Some (File o d) =>
      after = Some (File o d)
      \/ (vacuum_removes t (File o d) = true /\ after = None)
  | Some (Dir l es) => exists es', after = Some (Dir l es')
  end.

(** The loop of [fileCache.vacuum] over the first ticks of its timer; the
    clock reads [t] when the walk of a tick runs. *)
Fixpoint vacuum_loop (c : fileCache) (ticks : list Time.Time) : M unit :=
  match ticks with
  | [] => ret tt
  | t :: rest =>
      (fun w => vacuum_tick c (set_now t w)) ;;
      vacuum_loop c rest
  end.

(** ** Further inputs of the examples *)

(** Two readers and a writer of one path, and a schedule after which both
    readers are inside and the writer waits. *)
Definition readers_and_writer : list worker :=
  [ {| w_path := "p"; w_write := false; w_phase := Start |};
    {| w_path := "p"; w_write := false; w_phase := Start |};
    {| w_path := "p"; w_write := true; w_phase := Start |} ].

Definition two_rounds : list nat := [0; 1; 2; 0; 1; 2]%nat.

(** A writer of [p] and a reader of [q], and a schedule that lets the
    first run its whole cycle and the second go inside its lock. *)
Definition two_paths : list worker :=
  [ {| w_path := "p"; w_write := true; w_phase := Start |};
    {| w_path := "q"; w_write := false; w_phase := Start |} ].

Definition first_then_half : list nat := [0; 1; 0; 1; 0; 0]%nat.

(** A cache whose entry for [k] holds seven bytes. *)
Definition short_world : World :=
  cache_with "k" (repeat xff 7) 1000 0.

(** * Properties *)

(** ** Integers and the little-endian encoding *)

Lemma wrap_i64_small (z : Z) : - 2 ^ 63 <= z < 2 ^ 63 -> wrap_i64 z = z.
Proof.
  intros H. unfold wrap_i64. rewrite Z.mod_small; lia.
Qed.

Lemma wrap_i64_u64 (z : Z) : wrap_i64 (wrap_u64 z) = wrap_i64 z.
Proof.
  unfold wrap_i64, wrap_u64. f_equal.
  rewrite Zplus_mod_idemp_l. reflexivity.
Qed.

Lemma wrap_u64_range z : 0 <= wrap_u64 z < 2 ^ 64.
Proof. unfold wrap_u64. apply Z.mod_pos_bound. lia. Qed.

Lemma wrap_i64_range z : - 2 ^ 63 <= wrap_i64 z < 2 ^ 63.
Proof.
  unfold wrap_i64. pose proof (Z.mod_pos_bound (z + 2 ^ 63) (2 ^ 64)). lia.
Qed.

Lemma Z_of_byte_of_Z (z : Z) : Z_of_byte (byte_of_Z z) = Z.land z 255.
Proof.
  unfold Z_of_byte, byte_of_Z.
  assert (Hr : 0 <= Z.land z 255 < 256).
  { change 255 with (Z.ones 8). rewrite Z.land_ones by lia.
    apply Z.mod_pos_bound. lia. }
  destruct (Byte.of_N (Z.to_N (Z.land z 255))) as [b|] eqn:E.
  - apply Byte.to_of_N in E. rewrite E. lia.
  - apply Byte.of_N_None_iff in E. lia.
Qed.

Lemma testbit_255 k : 0 <= k -> Z.testbit 255 k = (k <? 8).
Proof.
  intros Hk. change 255 with (Z.ones 8).
  destruct (Z.ltb_spec k 8).
  - apply Z.ones_spec_low. lia.
  - apply Z.ones_spec_high. lia.
Qed.

Lemma testbit_byte_at v i n :
  0 <= i -> 0 <= n ->
  Z.testbit (Z.shiftl (Z.land (Z.shiftr v i) 255) i) n
  = Z.testbit v n && (i <=? n) && (n <? i + 8).
Proof.
  intros Hi Hn. destruct (Z.leb_spec i n).
  - rewrite Z.shiftl_spec by lia. rewrite Z.land_spec, Z.shiftr_spec by lia.
    rewrite testbit_255 by lia. replace (n - i + i) with n by lia.
    rewrite andb_true_r. f_equal. apply eq_true_iff_eq. rewrite !Z.ltb_lt. lia.
  - rewrite Z.shiftl_spec_low by lia. now rewrite andb_false_r.
Qed.

(** Decoding the 8 bytes [PutUint64] wrote gives the value back. *)
Lemma Uint64_PutUint64 v rest :
  0 <= v < 2 ^ 64 -> Uint64 (PutUint64 v ++ rest) = Some v.
Proof.
  intros Hv. unfold PutUint64. cbn [app Uint64]. f_equal.
  rewrite !Z_of_byte_of_Z.
  apply Z.bits_inj'. intros n Hn.
  rewrite !Z.lor_spec.
  replace (Z.land v 255) with (Z.shiftl (Z.land (Z.shiftr v 0) 255) 0)
    by (now rewrite Z.shiftl_0_r, Z.shiftr_0_r).
  rewrite !testbit_byte_at by lia.
  assert (Hhigh : 64 <= n -> Z.testbit v n = false).
  { intros Hge. destruct (Z.eq_dec v 0) as [->|Hnz]; [apply Z.testbit_0_l|].
    apply Z.bits_above_log2; [lia|].
    assert (Z.log2 v < 64) by (apply Z.log2_lt_pow2; lia). lia. }
  assert (Hcase : n < 8 \/ 8 <= n < 16 \/ 16 <= n < 24 \/ 24 <= n < 32 \/
                  32 <= n < 40 \/ 40 <= n < 48 \/ 48 <= n < 56 \/
                  56 <= n < 64 \/ 64 <= n) by lia.
  destruct (Z.testbit v n) eqn:Hb; [|reflexivity]. cbn [andb].
  repeat destruct Hcase as [Hcase|Hcase];
    try (rewrite Hhigh in Hb by lia; discriminate);
    repeat match goal with
           | |- context [?a <=? ?b] =>
               first [ rewrite (proj2 (Z.leb_le a b)) by lia
                     | rewrite (proj2 (Z.leb_gt a b)) by lia ]
           | |- context [?a <? ?b] =>
               first [ rewrite (proj2 (Z.ltb_lt a b)) by lia
                     | rewrite (proj2 (Z.ltb_ge a b)) by lia ]
           end; reflexivity.
Qed.

Lemma PutUint64_length v : List.length (PutUint64 v) = 8%nat.
Proof. reflexivity. Qed.

(** ** The lock registry *)

Lemma registry_inv_positive m p fl :
  registry_inv m -> lock m !! p = Some fl ->
  exists c, cells m !! fl = Some c /\ cleanup_path c = p /\ 0 < ref c.
Proof.
  intros [Hreg Hiff] Hp. destruct (Hreg p fl Hp) as (c & Hc & Hpath).
  exists c. repeat split; try assumption.
  apply (Hiff fl c Hc). now rewrite Hpath.
Qed.

Lemma no_locks_inv : registry_inv no_locks.
Proof.
  split; cbn.
  - intros p fl H. now rewrite lookup_empty in H.
  - intros fl c H. destruct fl; cbn in H; discriminate.
Qed.

Lemma MutexAt_inv p m hi :
  registry_inv m -> refs_within (- 2 ^ 63) hi m -> hi < 2 ^ 63 - 1 ->
  registry_inv (snd (MutexAt p m)).
Proof.
  intros Hinv Hb Hhi. unfold MutexAt.
  destruct (lock m !! p) as [fl|] eqn:Hp; cbn.
  - destruct (registry_inv_positive m p fl Hinv Hp) as (c & Hc & Hpath & Hpos).
    destruct Hinv as [Hreg Hiff]. split; cbn.
    + intros q fl' Hq. destruct (Hreg q fl' Hq) as (c' & Hc' & Hpath').
      destruct (decide (fl = fl')) as [->|Hne].
      * rewrite list_lookup_alter_eq, Hc'. cbn. eexists; split; [reflexivity|].
        assumption.
      * rewrite list_lookup_alter_ne by assumption. eauto.
    + intros fl' c'. destruct (decide (fl = fl')) as [->|Hne].
      * rewrite list_lookup_alter_eq, Hc. cbn. intros [= <-]. cbn.
        pose proof (Hb fl' c Hc) as Hr. rewrite wrap_i64_small by lia.
        rewrite Hpath. split; [lia | intros _; assumption].
      * rewrite list_lookup_alter_ne by assumption. apply Hiff.
  - destruct Hinv as [Hreg Hiff]. split; cbn.
    + intros q fl' Hq. destruct (decide (p = q)) as [->|Hne].
      * rewrite lookup_insert_eq in Hq. injection Hq as <-.
        rewrite lookup_app_r by reflexivity. rewrite Nat.sub_diag. cbn.
        eexists; split; reflexivity.
      * rewrite lookup_insert_ne in Hq by assumption.
        destruct (Hreg q fl' Hq) as (c' & Hc' & Hpath').
        exists c'. split; [|assumption].
        rewrite lookup_app_l; [assumption | eapply lookup_lt_Some; eassumption].
    + intros fl' c' Hc'.
      destruct (decide (fl' < List.length (cells m))%nat) as [Hlt|Hge].
      * rewrite lookup_app_l in Hc' by assumption.
        destruct (decide (p = cleanup_path c')) as [->|Hne].
        -- rewrite lookup_insert_eq. split.
           ++ intros [= Heq]. lia.
           ++ intros Hpos. apply (Hiff fl' c' Hc') in Hpos. congruence.
        -- rewrite lookup_insert_ne by assumption. apply Hiff; assumption.
      * rewrite lookup_app_r in Hc' by lia.
        destruct (fl' - List.length (cells m))%nat as [|k] eqn:Hk; cbn in Hc';
          [ | destruct k; discriminate ].
        injection Hc' as <-. cbn. rewrite lookup_insert_eq.
        split; [lia | intros _; f_equal; lia].
Qed.

Lemma MutexAt_refs p m lo hi :
  refs_within lo hi m -> lo <= 1 <= hi + 1 -> - 2 ^ 63 <= lo -> hi < 2 ^ 63 - 1 ->
  refs_within lo (hi + 1) (snd (MutexAt p m)).
Proof.
  intros Hb Hlo Hlo' Hhi. unfold MutexAt, refs_within.
  destruct (lock m !! p) as [fl|] eqn:Hp; cbn; intros fl' c'.
  - destruct (decide (fl = fl')) as [->|Hne].
    + rewrite list_lookup_alter_eq. destruct (cells m !! fl') as [c|] eqn:Hc; [|discriminate].
      cbn. intros [= <-]. cbn. pose proof (Hb fl' c Hc).
      rewrite wrap_i64_small by lia. lia.
    + rewrite list_lookup_alter_ne by assumption. intros Hc. pose proof (Hb fl' c' Hc). lia.
  - intros Hc'.
    destruct (decide (fl' < List.length (cells m))%nat) as [Hlt|Hge].
    + rewrite lookup_app_l in Hc' by assumption. pose proof (Hb fl' c' Hc'). lia.
    + rewrite lookup_app_r in Hc' by lia.
      destruct (fl' - List.length (cells m))%nat as [|k] eqn:Hk; cbn in Hc';
        [ | destruct k; discriminate ].
      injection Hc' as <-. cbn. lia.
Qed.

Lemma cleanup_inv fl m lo :
  registry_inv m -> refs_within lo (2 ^ 63 - 1) m -> - 2 ^ 63 < lo ->
  registry_inv (cleanup fl m).
Proof.
  intros Hinv Hb Hlo. unfold cleanup.
  destruct (cells m !! fl) as [c|] eqn:Hc; [|assumption].
  pose proof (Hb fl c Hc) as Hr.
  rewrite wrap_i64_small by lia.
  destruct Hinv as [Hreg Hiff].
  assert (Hlen : (fl < List.length (cells m))%nat) by (eapply lookup_lt_Some; eassumption).
  split; cbn.
  - intros q fl' Hq.
    assert (Hq' : lock m !! q = Some fl').
    { destruct (ref c - 1 =? 0); [|assumption].
      apply lookup_delete_Some in Hq. tauto. }
    destruct (Hreg q fl' Hq') as (c' & Hc' & Hpath').
    destruct (decide (fl = fl')) as [->|Hne].
    + rewrite list_lookup_insert_eq by assumption.
      eexists; split; [reflexivity|]. cbn. congruence.
    + rewrite list_lookup_insert_ne by assumption. eauto.
  - intros fl' c'. destruct (decide (fl = fl')) as [->|Hne].
    + rewrite list_lookup_insert_eq by assumption. intros [= <-]. cbn.
      destruct (Z.eqb_spec (ref c - 1) 0) as [Hz|Hz].
      * rewrite lookup_delete_eq. split; [discriminate | lia].
      * split.
        -- intros H. apply (Hiff fl' c Hc) in H. lia.
        -- intros H. apply (Hiff fl' c Hc). lia.
    + rewrite list_lookup_insert_ne by assumption. intros Hc'.
      destruct (Z.eqb_spec (ref c - 1) 0) as [Hz|Hz]; [|apply Hiff; assumption].
      destruct (decide (cleanup_path c = cleanup_path c')) as [Heq|Hneq].
      * rewrite Heq, lookup_delete_eq. split; [discriminate|].
        intros Hpos. apply (Hiff fl' c' Hc') in Hpos.
        assert (0 < ref c) as Hposc by lia. apply (Hiff fl c Hc) in Hposc.
        congruence.
      * rewrite lookup_delete_ne by assumption. apply Hiff; assumption.
Qed.

Lemma cleanup_refs fl m lo hi :
  refs_within lo hi m -> - 2 ^ 63 < lo -> hi < 2 ^ 63 ->
  refs_within (lo - 1) hi (cleanup fl m).
Proof.
  intros Hb Hlo Hhi. unfold cleanup, refs_within.
  destruct (cells m !! fl) as [c|] eqn:Hc.
  - cbn. intros fl' c'. pose proof (Hb fl c Hc) as Hr.
    rewrite wrap_i64_small by lia.
    destruct (decide (fl = fl')) as [->|Hne].
    + rewrite list_lookup_insert_eq by (eapply lookup_lt_Some; eassumption).
      intros [= <-]. cbn. lia.
    + rewrite list_lookup_insert_ne by assumption. intros Hc'.
      pose proof (Hb fl' c' Hc'). lia.
  - intros fl' c' Hc'. pose proof (Hb fl' c' Hc'). lia.
Qed.

Lemma rw_RLock_keeps : keeps_ref rw_RLock.
Proof. intros c c'. unfold rw_RLock. destruct (writer c); [discriminate|]. intros [= <-]. now cbn. Qed.
Lemma rw_RUnlock_keeps : keeps_ref rw_RUnlock.
Proof. intros c c'. unfold rw_RUnlock. destruct (readers c); [discriminate|]. intros [= <-]. now cbn. Qed.
Lemma rw_Lock_keeps : keeps_ref rw_Lock.
Proof.
  intros c c'. unfold rw_Lock. destruct (writer c); [discriminate|].
  destruct (readers c); [|discriminate]. intros [= <-]. now cbn.
Qed.
Lemma rw_Unlock_keeps : keeps_ref rw_Unlock.
Proof. intros c c'. unfold rw_Unlock. destruct (writer c); [|discriminate]. intros [= <-]. now cbn. Qed.

Lemma with_cell_inv fl m m' f :
  keeps_ref f -> with_cell fl m f = Proceeds m' ->
  registry_inv m -> registry_inv m'.
Proof.
  intros Hf Hw [Hreg Hiff]. unfold with_cell in Hw.
  destruct (cells m !! fl) as [c|] eqn:Hc; [|discriminate].
  destruct (f c) as [c1| |] eqn:Hfc; try discriminate.
  injection Hw as <-. destruct (Hf c c1 Hfc) as [Href Hpath].
  assert (Hlen : (fl < List.length (cells m))%nat) by (eapply lookup_lt_Some; eassumption).
  split; cbn.
  - intros q fl' Hq. destruct (Hreg q fl' Hq) as (c' & Hc' & Hpath').
    destruct (decide (fl = fl')) as [->|Hne].
    + rewrite list_lookup_insert_eq by assumption. eexists; split; [reflexivity|]. congruence.
    + rewrite list_lookup_insert_ne by assumption. eauto.
  - intros fl' c'. destruct (decide (fl = fl')) as [->|Hne].
    + rewrite list_lookup_insert_eq by assumption. intros [= <-].
      rewrite Href, Hpath. apply Hiff; assumption.
    + rewrite list_lookup_insert_ne by assumption. apply Hiff.
Qed.

Lemma with_cell_refs fl m m' f lo hi :
  keeps_ref f -> with_cell fl m f = Proceeds m' ->
  refs_within lo hi m -> refs_within lo hi m'.
Proof.
  intros Hf Hw Hb. unfold with_cell in Hw.
  destruct (cells m !! fl) as [c|] eqn:Hc; [|discriminate].
  destruct (f c) as [c1| |] eqn:Hfc; try discriminate.
  injection Hw as <-. destruct (Hf c c1 Hfc) as [Href Hpath].
  intros fl' c'. cbn. destruct (decide (fl = fl')) as [->|Hne].
  - rewrite list_lookup_insert_eq by (eapply lookup_lt_Some; eassumption).
    intros [= <-]. rewrite Href. eauto.
  - rewrite list_lookup_insert_ne by assumption. apply Hb.
Qed.

Lemma refs_within_weaken lo hi lo' hi' m :
  refs_within lo hi m -> lo' <= lo -> hi <= hi' -> refs_within lo' hi' m.
Proof. intros Hb H1 H2 fl c Hc. pose proof (Hb fl c Hc). lia. Qed.

(** One step keeps the invariant, as long as no count can overflow. *)
Lemma call_step_inv o m m' n :
  call_step o m = Proceeds m' ->
  0 <= n -> n + 1 < 2 ^ 63 ->
  registry_inv m /\ refs_within (- n) n m ->
  registry_inv m' /\ refs_within (- (n + 1)) (n + 1) m'.
Proof.
  intros Hstep Hn0 Hn [Hinv Hb].
  assert (Hcl : forall fl m1, registry_inv m1 -> refs_within (- n) n m1 ->
            registry_inv (cleanup fl m1) /\ refs_within (- (n + 1)) (n + 1) (cleanup fl m1)).
  { intros fl m1 H1 H2. split.
    - eapply cleanup_inv with (lo := - n); [assumption | | lia].
      eapply refs_within_weaken; [eassumption | lia | lia].
    - eapply refs_within_weaken; [apply (cleanup_refs fl m1 (- n) n) | |]; [assumption| | | |]; lia. }
  assert (Hrw : forall fl f m1, keeps_ref f -> with_cell fl m f = Proceeds m1 ->
            registry_inv m1 /\ refs_within (- n) n m1).
  { intros fl f m1 Hf Hw. split.
    - exact (with_cell_inv fl m m1 f Hf Hw Hinv).
    - exact (with_cell_refs fl m m1 f _ _ Hf Hw Hb). }
  assert (Hweak : forall m1, registry_inv m1 /\ refs_within (- n) n m1 ->
            registry_inv m1 /\ refs_within (- (n + 1)) (n + 1) m1).
  { intros m1 [H1 H2]. split; [assumption|].
    eapply refs_within_weaken; [eassumption | lia | lia]. }
  destruct o as [p|fl|fl|fl|fl|fl|fl|fl]; cbn in Hstep.
  - injection Hstep as <-. split.
    + eapply MutexAt_inv with (hi := n); [assumption | | lia].
      eapply refs_within_weaken; [eassumption | lia | lia].
    + apply (MutexAt_refs p m (- (n + 1)) n); [ | lia | lia | lia].
      eapply refs_within_weaken; [eassumption | lia | lia].
  - apply Hweak. eapply Hrw; [apply rw_RLock_keeps | exact Hstep].
  - unfold RUnlock in Hstep.
    destruct (with_cell fl m rw_RUnlock) as [m1| |] eqn:Hw; try discriminate.
    injection Hstep as <-.
    destruct (Hrw fl _ m1 rw_RUnlock_keeps Hw). now apply Hcl.
  - apply Hweak. eapply Hrw; [apply rw_Lock_keeps | exact Hstep].
  - unfold Unlock in Hstep.
    destruct (with_cell fl m rw_Unlock) as [m1| |] eqn:Hw; try discriminate.
    injection Hstep as <-.
    destruct (Hrw fl _ m1 rw_Unlock_keeps Hw). now apply Hcl.
  - apply Hweak. eapply Hrw; [apply rw_RUnlock_keeps | exact Hstep].
  - apply Hweak. eapply Hrw; [apply rw_Unlock_keeps | exact Hstep].
  - injection Hstep as <-. now apply Hcl.
Qed.

Lemma run_calls_inv os : forall m m' n,
  run_calls os m = Proceeds m' ->
  0 <= n -> n + Z.of_nat (List.length os) < 2 ^ 63 ->
  registry_inv m /\ refs_within (- n) n m ->
  registry_inv m'.
Proof.
  induction os as [|o rest IH]; intros m m' n Hrun Hn0 Hn Hm; cbn in Hrun.
  - injection Hrun as <-. tauto.
  - destruct (call_step o m) as [m1| |] eqn:Hstep; try discriminate.
    cbn [List.length] in Hn.
    eapply (IH m1 m' (n + 1)); [exact Hrun | lia | lia |].
    eapply call_step_inv; [exact Hstep | lia | lia | exact Hm].
Qed.

Lemma no_locks_refs n : refs_within (- n) n no_locks.
Proof. intros fl c H. destruct fl; cbn in H; discriminate. Qed.

Lemma holders_le fl ts : (holders fl ts <= List.length ts)%nat.
Proof. unfold holders. apply List.filter_length_le. Qed.

Lemma holders_insert fl t' : forall ts i t,
  ts !! i = Some t ->
  (holders fl (<[i := t']> ts) + b2n (holds fl t) = holders fl ts + b2n (holds fl t'))%nat.
Proof.
  unfold holders. induction ts as [|a ts IH]; intros i t Hi; [destruct i; discriminate|].
  destruct i as [|i]; simpl in Hi |- *.
  - injection Hi as ->. destruct (holds fl t), (holds fl t'); simpl; lia.
  - specialize (IH i t Hi). destruct (holds fl a); simpl; lia.
Qed.

Lemma holders_none fl ts :
  (forall t, In t ts -> holds fl t = false) -> holders fl ts = 0%nat.
Proof.
  unfold holders. induction ts as [|a ts IH]; intros H; [reflexivity|].
  cbn. rewrite (H a) by now left. apply IH. intros t Ht. apply H. now right.
Qed.

Lemma sched_inv_refs ts m :
  sched_inv (ts, m) -> refs_within 0 (Z.of_nat (List.length ts)) m.
Proof.
  intros [_ Hc _] fl c Hfl. cbn in Hc. rewrite (Hc fl c Hfl).
  pose proof (holders_le fl ts). unfold holders in *. lia.
Qed.

Lemma In_insert_inv (t' : worker) ts i x :
  In x (<[i := t']> ts) -> x = t' \/ In x ts.
Proof.
  revert i. induction ts as [|a ts IH]; intros i H; [destruct i; contradiction|].
  destruct i as [|i]; simpl in H.
  - destruct H as [<-|H]; [now left | right; now right].
  - destruct H as [<-|H]; [right; now left|].
    destruct (IH i H); [now left | right; now right].
Qed.

Lemma holds_at_phase fl ph t :
  holds fl (at_phase ph t) = holds fl {| w_path := ""; w_write := false; w_phase := ph |}.
Proof. reflexivity. Qed.

Lemma with_cell_length fl m m' f :
  with_cell fl m f = Proceeds m' -> List.length (cells m') = List.length (cells m).
Proof.
  unfold with_cell. destruct (cells m !! fl); [|discriminate].
  destruct (f f0); try discriminate. intros [= <-]. cbn. apply length_insert.
Qed.

Lemma with_cell_count fl m m' f (cnt : nat -> nat) :
  keeps_ref f -> with_cell fl m f = Proceeds m' ->
  (forall fl c, cells m !! fl = Some c -> ref c = Z.of_nat (cnt fl)) ->
  forall fl c, cells m' !! fl = Some c -> ref c = Z.of_nat (cnt fl).
Proof.
  intros Hf Hw Hc. unfold with_cell in Hw.
  destruct (cells m !! fl) as [c0|] eqn:Hc0; [|discriminate].
  destruct (f c0) as [c1| |] eqn:Hfc; try discriminate.
  injection Hw as <-. destruct (Hf c0 c1 Hfc) as [Href _].
  intros fl' c'. cbn. destruct (decide (fl = fl')) as [->|Hne].
  - rewrite list_lookup_insert_eq by (eapply lookup_lt_Some; eassumption).
    intros [= <-]. rewrite Href. eauto.
  - rewrite list_lookup_insert_ne by assumption. apply Hc.
Qed.

(** A step on the read/write lock of [fl0] by a worker that holds [fl0]
    before and after. *)
Lemma sched_inv_rw ts m m1 i t ph fl0 f :
  ts !! i = Some t ->
  (forall fl, holds fl (at_phase ph t) = holds fl t) ->
  keeps_ref f -> with_cell fl0 m f = Proceeds m1 ->
  sched_inv (ts, m) ->
  sched_inv (<[i := at_phase ph t]> ts, m1).
Proof.
  intros Hi Hsame Hf Hw [Hreg Hcount Halloc]. cbn [fst snd] in *.
  assert (Hcnt : forall fl, holders fl (<[i := at_phase ph t]> ts) = holders fl ts).
  { intros fl. pose proof (holders_insert fl (at_phase ph t) ts i t Hi) as H.
    rewrite Hsame in H. lia. }
  split; cbn [fst snd].
  - eapply with_cell_inv; eassumption.
  - intros fl c Hc. rewrite Hcnt.
    eapply (with_cell_count fl0 m m1 f (fun fl => holders fl ts)); eassumption.
  - intros x fl Hx Hh. rewrite (with_cell_length _ _ _ _ Hw).
    destruct (In_insert_inv _ _ _ _ Hx) as [->|Hx'].
    + rewrite Hsame in Hh. eapply Halloc; [|eassumption].
      apply list_elem_of_In. eapply list_elem_of_lookup_2; eassumption.
    + eapply Halloc; eassumption.
Qed.

Lemma sched_step_inv i s s' :
  sched_step i s = Proceeds s' ->
  Z.of_nat (List.length (fst s)) < 2 ^ 63 - 1 ->
  sched_inv s ->
  sched_inv s' /\ List.length (fst s') = List.length (fst s).
Proof.
  destruct s as [ts m]. unfold sched_step. intros Hstep Hlen Hinv.
  destruct (ts !! i) as [t|] eqn:Hi; [|injection Hstep as <-; now split].
  destruct (worker_step t m) as [[t' m']| |] eqn:Hw; try discriminate;
    [|injection Hstep as <-; now split].
  injection Hstep as <-. cbn [fst snd] in *.
  split; [|apply length_insert].
  pose proof (sched_inv_refs ts m Hinv) as Hrefs.
  destruct Hinv as [Hreg Hcount Halloc]. cbn [fst snd] in *.
  assert (Hin : In t ts) by (apply list_elem_of_In; eapply list_elem_of_lookup_2; eassumption).
  assert (Hother : forall x fl, In x (<[i := t']> ts) -> holds fl x = true ->
            holds fl t' = true \/ (In x ts /\ holds fl x = true)).
  { intros x fl Hx Hh. destruct (In_insert_inv _ _ _ _ Hx) as [->|Hx']; [now left | right; now split]. }
  unfold worker_step in Hw. destruct (w_phase t) as [|fl0|fl0|fl0|] eqn:Hph.
  - (* registration *)
    destruct (MutexAt (w_path t) m) as [fl0 m1] eqn:HM. injection Hw as <- <-.
    assert (Hm1 : m1 = snd (MutexAt (w_path t) m)) by now rewrite HM.
    assert (Hht : forall fl, holds fl t = false) by (intros fl; unfold holds; now rewrite Hph).
    assert (Hcnt : forall fl, holders fl (<[i := at_phase (Got fl0) t]> ts)
                     = (holders fl ts + b2n (fl =? fl0)%nat)%nat).
    { intros fl. pose proof (holders_insert fl (at_phase (Got fl0) t) ts i t Hi) as H.
      rewrite Hht in H. unfold holds at 1 in H. cbn in H. lia. }
    split; cbn [fst snd].
    + rewrite Hm1. eapply MutexAt_inv with (hi := Z.of_nat (List.length ts)); [assumption | | lia].
      eapply refs_within_weaken; [eassumption | lia | lia].
    + intros fl c. rewrite Hcnt. unfold MutexAt in HM.
      destruct (lock m !! w_path t) as [fl1|] eqn:Hp; injection HM as <- <-; cbn.
      * destruct (decide (fl1 = fl)) as [->|Hne].
        -- rewrite list_lookup_alter_eq.
           destruct (cells m !! fl) as [c0|] eqn:Hc0; [|discriminate].
           cbn. intros [= <-]. cbn. pose proof (Hrefs fl c0 Hc0).
           rewrite wrap_i64_small by lia. rewrite (Hcount fl c0 Hc0).
           rewrite Nat.eqb_refl. cbn. lia.
        -- rewrite list_lookup_alter_ne by assumption. intros Hc.
           rewrite (Hcount fl c Hc).
           destruct (Nat.eqb_spec fl fl1); [congruence|]. cbn. lia.
      * intros Hc.
        destruct (decide (fl < List.length (cells m))%nat) as [Hlt|Hge].
        -- rewrite lookup_app_l in Hc by assumption. rewrite (Hcount fl c Hc).
           destruct (Nat.eqb_spec fl (List.length (cells m))); [lia|]. cbn. lia.
        -- rewrite lookup_app_r in Hc by lia.
           destruct (fl - List.length (cells m))%nat as [|k] eqn:Hk; cbn in Hc;
             [ | destruct k; discriminate ].
           injection Hc as <-. cbn.
           assert (fl = List.length (cells m)) as -> by lia.
           rewrite Nat.eqb_refl. rewrite holders_none; [reflexivity|].
           intros x Hx. destruct (holds (List.length (cells m)) x) eqn:Hh; [|reflexivity].
           pose proof (Halloc x _ Hx Hh). lia.
    + intros x fl Hx Hh.
      assert (Hlen1 : (List.length (cells m) <= List.length (cells m1))%nat
                      /\ (fl0 < List.length (cells m1))%nat).
      { unfold MutexAt in HM.
        destruct (lock m !! w_path t) as [fl1|] eqn:Hp; injection HM as <- <-; cbn.
        - rewrite length_alter. split; [lia|].
          destruct (registry_inv_positive m _ _ Hreg Hp) as (c & Hc & _).
          eapply lookup_lt_Some; eassumption.
        - rewrite length_app. cbn. lia. }
      destruct (Hother x fl Hx Hh) as [H|[Hx' Hh']].
      * unfold holds in H; cbn in H. apply Nat.eqb_eq in H. subst. tauto.
      * pose proof (Halloc x fl Hx' Hh'). lia.
  - (* lock *)
    destruct (with_cell fl0 m (if w_write t then rw_Lock else rw_RLock)) as [m1| |] eqn:HW;
      try discriminate.
    injection Hw as <- <-.
    eapply sched_inv_rw; [eassumption | | | eassumption | split; assumption].
    + intros fl. unfold holds. now rewrite Hph.
    + destruct (w_write t); [apply rw_Lock_keeps | apply rw_RLock_keeps].
  - (* unlock of the read/write lock *)
    destruct (with_cell fl0 m (if w_write t then rw_Unlock else rw_RUnlock)) as [m1| |] eqn:HW;
      try discriminate.
    injection Hw as <- <-.
    eapply sched_inv_rw; [eassumption | | | eassumption | split; assumption].
    + intros fl. unfold holds. now rewrite Hph.
    + destruct (w_write t); [apply rw_Unlock_keeps | apply rw_RUnlock_keeps].
  - (* cleanup *)
    injection Hw as <- <-.
    assert (Hht : forall fl, holds fl t = (fl =? fl0)%nat)
      by (intros fl; unfold holds; now rewrite Hph).
    assert (Hcnt : forall fl, (holders fl (<[i := at_phase Done t]> ts) + b2n (fl =? fl0)
                     = holders fl ts)%nat).
    { intros fl. pose proof (holders_insert fl (at_phase Done t) ts i t Hi) as H.
      rewrite Hht in H. unfold holds at 1 in H. cbn in H. lia. }
    assert (Hfl0 : (fl0 < List.length (cells m))%nat).
    { eapply Halloc; [exact Hin|]. rewrite Hht. apply Nat.eqb_refl. }
    destruct (lookup_lt_is_Some_2 _ _ Hfl0) as [c0 Hc0].
    assert (Hpos : 0 < ref c0).
    { rewrite (Hcount fl0 c0 Hc0). specialize (Hcnt fl0).
      rewrite Nat.eqb_refl in Hcnt. cbn in Hcnt. lia. }
    split; cbn [fst snd].
    + eapply cleanup_inv with (lo := 0); [assumption | | lia].
      eapply refs_within_weaken; [eassumption | lia | lia].
    + intros fl c. unfold cleanup. rewrite Hc0. cbn.
      rewrite wrap_i64_small by (pose proof (Hrefs fl0 c0 Hc0); lia).
      specialize (Hcnt fl).
      destruct (decide (fl0 = fl)) as [->|Hne].
      * rewrite list_lookup_insert_eq by assumption. intros [= <-]. cbn.
        rewrite (Hcount fl c0 Hc0). rewrite Nat.eqb_refl in Hcnt. cbn in Hcnt. lia.
      * rewrite list_lookup_insert_ne by assumption. intros Hc.
        rewrite (Hcount fl c Hc).
        destruct (Nat.eqb_spec fl fl0); [congruence|]. cbn in Hcnt. lia.
    + intros x fl Hx Hh.
      assert (Hlen1 : List.length (cells (cleanup fl0 m)) = List.length (cells m)).
      { unfold cleanup. rewrite Hc0. cbn. apply length_insert. }
      rewrite Hlen1.
      destruct (Hother x fl Hx Hh) as [H|[Hx' Hh']].
      * unfold holds in H; cbn in H. discriminate.
      * eapply Halloc; eassumption.
  - discriminate.
Qed.

Lemma run_sched_inv sched : forall s s',
  run_sched sched s = Proceeds s' ->
  Z.of_nat (List.length (fst s)) < 2 ^ 63 - 1 ->
  sched_inv s -> sched_inv s'.
Proof.
  induction sched as [|i rest IH]; intros s s' Hrun Hlen Hinv; cbn in Hrun.
  - now injection Hrun as <-.
  - destruct (sched_step i s) as [s1| |] eqn:Hstep; try discriminate.
    destruct (sched_step_inv i s s1 Hstep Hlen Hinv) as [Hinv1 Hlen1].
    eapply IH; [exact Hrun | rewrite Hlen1; exact Hlen | exact Hinv1].
Qed.

Lemma starting_inv ts : Forall starting ts -> sched_inv (ts, no_locks).
Proof.
  intros Hs. split; cbn [fst snd].
  - apply no_locks_inv.
  - intros fl c H. destruct fl; cbn in H; discriminate.
  - intros t fl Ht Hh. rewrite Forall_forall in Hs. specialize (Hs t Ht).
    unfold holds in Hh. unfold starting in Hs. rewrite Hs in Hh. discriminate.
Qed.

Lemma finished_registry_empty ts m :
  sched_inv (ts, m) -> Forall finished ts -> lock m = ∅.
Proof.
  intros [Hreg Hcount _] Hf. cbn [fst snd] in *.
  apply map_empty. intros p. destruct (lock m !! p) as [fl|] eqn:Hp; [|reflexivity].
  exfalso. destruct (registry_inv_positive m p fl Hreg Hp) as (c & Hc & _ & Hpos).
  rewrite (Hcount fl c Hc) in Hpos. rewrite holders_none in Hpos; [lia|].
  intros t Ht. rewrite Forall_forall in Hf. specialize (Hf t Ht).
  unfold holds. unfold finished in Hf. now rewrite Hf.
Qed.

Module PathFacts.
Import Filepath.
#[local] Arguments String.append !_ _ / : simpl nomatch.

(** ** Paths *)

Lemma append_nil_r s : String.append s "" = s.
Proof. induction s as [|c s IH]; cbn; [reflexivity | now rewrite IH]. Qed.

Lemma append_assoc s1 s2 s3 :
  String.append (String.append s1 s2) s3 = String.append s1 (String.append s2 s3).
Proof. induction s1 as [|c s1 IH]; cbn; [reflexivity | now rewrite IH]. Qed.

Lemma noslash_append s1 s2 :
  noslash (String.append s1 s2) = noslash s1 && noslash s2.
Proof.
  induction s1 as [|c s1 IH]; cbn; [reflexivity|].
  rewrite IH. now rewrite andb_assoc.
Qed.

Lemma split_from_noslash e : forall cur,
  noslash e = true -> split_from cur e = [String.append cur e].
Proof.
  induction e as [|c e IH]; intros cur H; cbn in *.
  - now rewrite append_nil_r.
  - apply andb_prop in H as [Hc He]. apply negb_true_iff in Hc. rewrite Hc.
    rewrite IH by assumption. now rewrite append_assoc.
Qed.

Lemma split_from_app_sep a e : forall cur,
  noslash e = true ->
  split_from cur (String.append a (String Separator e)) = split_from cur a ++ [e].
Proof.
  induction a as [|c a IH]; intros cur He; cbn.
  - now rewrite split_from_noslash.
  - destruct (Ascii.eqb c Separator); cbn; now rewrite IH.
Qed.

Lemma split_from_sep_cons e s : forall cur,
  noslash e = true ->
  split_from cur (String.append e (String Separator s))
  = String.append cur e :: split_from "" s.
Proof.
  induction e as [|c e IH]; intros cur H; cbn in *.
  - now rewrite append_nil_r.
  - apply andb_prop in H as [Hc He]. apply negb_true_iff in Hc. rewrite Hc.
    rewrite IH by assumption. now rewrite append_assoc.
Qed.

Lemma split_from_all_noslash s : forall cur,
  noslash cur = true -> Forall (fun e => noslash e = true) (split_from cur s).
Proof.
  induction s as [|c s IH]; intros cur H; cbn.
  - now constructor.
  - destruct (Ascii.eqb c Separator) eqn:Hc.
    + constructor; [assumption | now apply IH].
    + apply IH. rewrite noslash_append, H. cbn. now rewrite Hc.
Qed.

Lemma split_all_noslash s : Forall (fun e => noslash e = true) (split s).
Proof. now apply split_from_all_noslash. Qed.

Lemma split_join es :
  es <> [] -> Forall (fun e => noslash e = true) es -> split (join es) = es.
Proof.
  unfold split. induction es as [|e es IH]; intros Hne Hall; [congruence|].
  inversion Hall as [|? ? He Hes]; subst.
  destruct es as [|e' es'].
  - cbn. now rewrite split_from_noslash.
  - change (join (e :: e' :: es')) with (String.append e (String Separator (join (e' :: es')))).
    rewrite split_from_sep_cons by assumption. cbn [String.append]. f_equal.
    apply IH; [discriminate | assumption].
Qed.

Lemma clean_loop_app r xs : forall ys out,
  clean_loop r (xs ++ ys) out = clean_loop r ys (clean_loop r xs out).
Proof.
  induction xs as [|x xs IH]; intros ys out; cbn; [reflexivity|].
  destruct (String.eqb x ""); [apply IH|].
  destruct (String.eqb x "."); [apply IH|].
  destruct (is_dotdot x); [|apply IH].
  destruct out as [|top out']; [destruct r; apply IH|].
  destruct (is_dotdot top); apply IH.
Qed.

Lemma is_name_inv e :
  is_name e = true ->
  noslash e = true /\ String.eqb e "" = false /\ String.eqb e "." = false
  /\ is_dotdot e = false.
Proof.
  unfold is_name, is_dotdot. intros H.
  repeat (apply andb_prop in H as [H ?]).
  repeat match goal with H : negb _ = true |- _ => apply negb_true_iff in H end.
  tauto.
Qed.

Lemma cleaned_all_dotdot r out :
  r = false -> Forall (fun e => e = "..") out -> cleaned r out.
Proof.
  intros Hr H. destruct H as [|e out He Hout]; [constructor|].
  subst e. now constructor.
Qed.

Lemma clean_step_cleaned r e out :
  noslash e = true -> cleaned r out -> cleaned r (clean_loop r [e] out).
Proof.
  intros He Hout. cbn.
  destruct (String.eqb e "") eqn:E1; [assumption|].
  destruct (String.eqb e ".") eqn:E2; [assumption|].
  destruct (is_dotdot e) eqn:E3.
  - apply String.eqb_eq in E3. subst e.
    destruct Hout as [|out Hr Hall|top out Htop Hout].
    + destruct r; [constructor | constructor; [reflexivity | constructor]].
    + cbn. constructor; [assumption|]. constructor; [reflexivity|assumption].
    + apply is_name_inv in Htop as (_ & _ & _ & Hdd). rewrite Hdd. assumption.
  - constructor; [|assumption].
    unfold is_name. unfold is_dotdot in E3. now rewrite He, E1, E2, E3.
Qed.

Lemma clean_loop_cleaned r es : forall out,
  Forall (fun e => noslash e = true) es -> cleaned r out ->
  cleaned r (clean_loop r es out).
Proof.
  induction es as [|e es IH]; intros out Hall Hout; [assumption|].
  inversion Hall; subst.
  change (e :: es) with ([e] ++ es). rewrite clean_loop_app.
  apply IH; [assumption|]. now apply clean_step_cleaned.
Qed.

Lemma elements_cleaned p : cleaned (is_rooted p) (rev (elements p)).
Proof.
  unfold elements. rewrite rev_involutive.
  apply clean_loop_cleaned; [apply split_all_noslash | constructor].
Qed.

(** Cleaning cleaned elements writes them all. *)
Lemma clean_loop_of_cleaned r out :
  cleaned r out -> clean_loop r (rev out) [] = out.
Proof.
  induction 1 as [|out Hr Hall|e out He Hout IH]; [reflexivity| |].
  - assert (IH : clean_loop r (rev out) [] = out).
    { clear -Hr Hall. induction Hall as [|e out He Hout IH]; [reflexivity|].
      subst e. cbn [rev]. rewrite clean_loop_app, IH. cbn.
      destruct Hout as [|e' out' He' _]; [now rewrite Hr|]. subst e'. reflexivity. }
    cbn [rev]. rewrite clean_loop_app, IH. cbn.
    destruct Hall as [|e' out' He' _]; [now rewrite Hr|]. subst e'. reflexivity.
  - cbn [rev]. rewrite clean_loop_app, IH. cbn.
    apply is_name_inv in He as (_ & E1 & E2 & E3). now rewrite E1, E2, E3.
Qed.

Lemma cleaned_noslash r out :
  cleaned r out -> Forall (fun e => noslash e = true) out.
Proof.
  induction 1 as [|out Hr Hall|e out He Hout IH]; [constructor| |].
  - constructor; [reflexivity|].
    eapply Forall_impl; [|exact Hall]. cbn. now intros ? ->.
  - constructor; [|assumption]. now apply is_name_inv in He.
Qed.

Lemma cleaned_nonempty r out :
  cleaned r out -> Forall (fun e => e <> "") out.
Proof.
  induction 1 as [|out Hr Hall|e out He Hout IH]; [constructor| |].
  - constructor; [discriminate|].
    eapply Forall_impl; [|exact Hall]. cbn. now intros ? ->.
  - constructor; [|assumption]. apply is_name_inv in He as (_ & E & _).
    now apply String.eqb_neq.
Qed.

Lemma is_rooted_join_names r e out :
  cleaned r (e :: out) -> forall es, is_rooted (join (rev (e :: out) ++ es)) = false.
Proof.
  intros Hc es.
  pose proof (cleaned_noslash _ _ Hc) as Hns.
  pose proof (cleaned_nonempty _ _ Hc) as Hne.
  apply Forall_rev in Hns, Hne.
  destruct (rev (e :: out)) as [|x xs] eqn:E.
  { apply (f_equal (@List.length _)) in E. rewrite length_rev in E. discriminate. }
  inversion Hns; inversion Hne; subst.
  destruct x as [|c x]; [congruence|].
  assert (Hc' : Ascii.eqb c Separator = false).
  { match goal with H : noslash (String c x) = true |- _ =>
      cbn in H; apply andb_prop in H as [H _]; now apply negb_true_iff in H end. }
  destruct (xs ++ es) as [|y ys] eqn:E'; cbn; rewrite E'; cbn; exact Hc'.
Qed.

Lemma clean_loop_skip_empty r es out :
  clean_loop r ("" :: es) out = clean_loop r es out.
Proof. reflexivity. Qed.

Lemma split_rooted s : split (String Separator s) = "" :: split s.
Proof. reflexivity. Qed.

(** Cleaning what [Clean] has written gives the same elements. *)
Lemma elements_render r out :
  cleaned r out ->
  is_rooted (render r (rev out)) = r
  /\ elements (render r (rev out)) = rev out.
Proof.
  intros Hc.
  assert (Hns : Forall (fun e => noslash e = true) (rev out))
    by (apply Forall_rev; eapply cleaned_noslash; eassumption).
  destruct r.
  - split; [reflexivity|]. unfold elements, render. cbn [is_rooted].
    replace (Ascii.eqb Separator Separator) with true by reflexivity.
    rewrite split_rooted, clean_loop_skip_empty.
    destruct (rev out) as [|x xs] eqn:E.
    + reflexivity.
    + rewrite split_join by (discriminate || assumption).
      rewrite <- E. rewrite clean_loop_of_cleaned by assumption. reflexivity.
  - destruct out as [|e out].
    + split; reflexivity.
    + pose proof (is_rooted_join_names _ _ _ Hc []) as Hr. rewrite app_nil_r in Hr.
      assert (Hrender : render false (rev (e :: out)) = join (rev (e :: out))).
      { unfold render. destruct (rev (e :: out)) eqn:E; [|reflexivity].
        apply (f_equal (@List.length _)) in E. rewrite length_rev in E. discriminate. }
      rewrite Hrender. split; [exact Hr|].
      unfold elements. rewrite Hr. rewrite split_join.
      * rewrite clean_loop_of_cleaned by assumption. reflexivity.
      * intros E. apply (f_equal (@List.length _)) in E. rewrite length_rev in E. discriminate.
      * assumption.
Qed.

Lemma elements_Clean p : elements (Clean p) = elements p.
Proof.
  unfold Clean. pose proof (elements_cleaned p) as Hc.
  destruct (elements_render _ _ Hc) as [_ He].
  rewrite rev_involutive in He. exact He.
Qed.

Lemma is_rooted_Clean p : is_rooted (Clean p) = is_rooted p.
Proof.
  unfold Clean. pose proof (elements_cleaned p) as Hc.
  destruct (elements_render _ _ Hc) as [Hr _].
  rewrite rev_involutive in Hr. exact Hr.
Qed.

Theorem Clean_idempotent p : Clean (Clean p) = Clean p.
Proof.
  unfold Clean at 1. rewrite elements_Clean, is_rooted_Clean. reflexivity.
Qed.

Lemma namei_Clean p : namei (Clean p) = namei p.
Proof. unfold namei. now rewrite elements_Clean. Qed.

Lemma drop_dotdot_snoc es e :
  is_dotdot e = false -> drop_dotdot (es ++ [e]) = drop_dotdot es ++ [e].
Proof.
  intros He. induction es as [|x es IH]; cbn; [now rewrite He|].
  destruct (is_dotdot x); [exact IH | reflexivity].
Qed.

Lemma is_rooted_append p s :
  p <> "" -> is_rooted (String.append p s) = is_rooted p.
Proof. destruct p; [congruence | reflexivity]. Qed.

Lemma elements_snoc p name :
  p <> "" -> is_name name = true ->
  elements (String.append p (String Separator name)) = elements p ++ [name].
Proof.
  intros Hp Hn. destruct (is_name_inv _ Hn) as (Hns & E1 & E2 & E3).
  unfold elements. rewrite is_rooted_append by assumption.
  unfold split. rewrite split_from_app_sep by assumption.
  rewrite clean_loop_app. cbn [clean_loop]. rewrite E1, E2, E3. reflexivity.
Qed.

Lemma elements_name name : is_name name = true -> elements name = [name].
Proof.
  intros Hn. destruct (is_name_inv _ Hn) as (Hns & E1 & E2 & E3).
  unfold elements, split. rewrite split_from_noslash by assumption.
  cbn [String.append clean_loop]. rewrite E1, E2, E3. reflexivity.
Qed.

(** The file system follows the path [Walk] builds for an entry to the
    entry of that name in the directory. *)
Lemma namei_Join p name :
  is_name name = true -> namei (Join [p; name]) = namei p ++ [name].
Proof.
  intros Hn. destruct (is_name_inv _ Hn) as (Hns & E1 & E2 & E3).
  cbn [Join]. destruct (String.eqb_spec p "") as [->|Hp].
  - rewrite E1. rewrite namei_Clean. unfold namei. cbn [join].
    rewrite elements_name by assumption. cbn. now rewrite E3.
  - rewrite namei_Clean. unfold namei. cbn [join].
    rewrite elements_snoc by assumption. now apply drop_dotdot_snoc.
Qed.

End PathFacts.

Import PathFacts.

#[local] Arguments set_entry : simpl never.

(** ** The file system tree *)

Lemma string_ltb_irrefl s : String.ltb s s = false.
Proof.
  unfold String.ltb. pose proof (String.compare_antisym s s) as H.
  destruct (String.compare s s); (reflexivity || discriminate).
Qed.

Lemma assoc_remove_same c es : assoc c (remove_entry c es) = None.
Proof.
  induction es as [|[c' n] es IH]; cbn; [reflexivity|].
  destruct (String.eqb c c') eqn:E; [exact IH|]. cbn. now rewrite E.
Qed.

Lemma assoc_remove_other c c' es :
  c <> c' -> assoc c' (remove_entry c es) = assoc c' es.
Proof.
  intros Hne. induction es as [|[c0 n] es IH]; cbn; [reflexivity|].
  destruct (String.eqb_spec c c0) as [->|Hc].
  - rewrite IH. destruct (String.eqb_spec c' c0); [congruence | reflexivity].
  - cbn. now rewrite IH.
Qed.

Lemma assoc_insert_same c n es : assoc c (insert_entry c n es) = Some n.
Proof.
  induction es as [|[c' n'] es IH]; cbn; [now rewrite String.eqb_refl|].
  destruct (String.ltb c' c) eqn:E; cbn.
  - destruct (String.eqb_spec c c') as [->|]; [|exact IH].
    now rewrite string_ltb_irrefl in E.
  - now rewrite String.eqb_refl.
Qed.

Lemma assoc_insert_other c c' n es :
  c <> c' -> assoc c' (insert_entry c n es) = assoc c' es.
Proof.
  intros Hne. induction es as [|[c0 n0] es IH]; cbn.
  - destruct (String.eqb_spec c' c); [congruence | reflexivity].
  - destruct (String.ltb c0 c); cbn.
    + now rewrite IH.
    + destruct (String.eqb_spec c' c); [congruence | reflexivity].
Qed.

Lemma assoc_set_same c x es : assoc c (set_entry c x es) = x.
Proof.
  destruct x as [n|]; unfold set_entry; [apply assoc_insert_same | apply assoc_remove_same].
Qed.

Lemma assoc_set_other c c' x es :
  c <> c' -> assoc c' (set_entry c x es) = assoc c' es.
Proof.
  intros Hne. destruct x as [n|]; unfold set_entry.
  - rewrite assoc_insert_other by assumption. now apply assoc_remove_other.
  - now apply assoc_remove_other.
Qed.

Lemma fs_lookup_app a b n :
  fs_lookup (a ++ b) n
  = match fs_lookup a n with Some m => fs_lookup b m | None => None end.
Proof.
  revert n. induction a as [|c a IH]; intros n; cbn; [reflexivity|].
  destruct n as [|l es]; [reflexivity|].
  destruct (assoc c es); [apply IH | reflexivity].
Qed.

Lemma fs_lookup_file_nil cs o d n :
  IsDir n = true -> fs_lookup cs n = Some (File o d) -> cs <> [].
Proof. intros Hd H ->. cbn in H. injection H as ->. discriminate. Qed.

(** What is put at [cs] is found at [cs], provided the parent directory of
    [cs] exists. *)
Lemma fs_lookup_put_same cs : forall n x l es,
  cs <> [] ->
  fs_lookup (removelast cs) n = Some (Dir l es) ->
  fs_lookup cs (fs_put cs x n) = x.
Proof.
  induction cs as [|c cs IH]; intros n x l es Hne Hpar; [congruence|].
  destruct cs as [|c' cs'].
  - cbn in Hpar. injection Hpar as ->. cbn.
    rewrite assoc_set_same. now destruct x.
  - change (removelast (c :: c' :: cs')) with (c :: removelast (c' :: cs')) in Hpar.
    cbn [fs_lookup] in Hpar. destruct n as [|l0 es0]; [discriminate|].
    destruct (assoc c es0) as [child|] eqn:Hc; [|discriminate].
    cbn [fs_put]. rewrite Hc. cbn [fs_lookup]. rewrite assoc_set_same.
    eapply IH; [discriminate | eassumption].
Qed.

Lemma fs_lookup_parent cs n m :
  cs <> [] -> fs_lookup cs n = Some m ->
  exists l es, fs_lookup (removelast cs) n = Some (Dir l es).
Proof.
  intros Hne H. rewrite (app_removelast_last "" Hne) in H.
  rewrite fs_lookup_app in H.
  destruct (fs_lookup (removelast cs) n) as [[|l es]|]; try discriminate; eauto.
Qed.

Lemma fs_lookup_put_existing cs n x m :
  cs <> [] -> fs_lookup cs n = Some m -> fs_lookup cs (fs_put cs x n) = x.
Proof.
  intros Hne H. destruct (fs_lookup_parent cs n m Hne H) as (l & es & Hp).
  eapply fs_lookup_put_same; eassumption.
Qed.

Lemma fs_put_is_dir cs x l es :
  cs <> [] -> fs_put cs x (Dir l es) = Dir l (entries_of (fs_put cs x (Dir l es))).
Proof.
  intros Hne. destruct cs as [|c cs]; [congruence|]. cbn.
  destruct cs; [reflexivity|]. destruct (assoc c es); reflexivity.
Qed.

Lemma mkdir_all_is_dir cs l es n :
  mkdir_all cs (Dir l es) = Some n -> n = Dir l (entries_of n).
Proof.
  destruct cs as [|c cs]; cbn.
  - now intros [= <-].
  - destruct (assoc c es) as [child|].
    + destruct (mkdir_all cs child); [|discriminate]. now intros [= <-].
    + destruct (mkdir_all cs (Dir true [])); [|discriminate]. now intros [= <-].
Qed.

(** [MkdirAll] creates directories only: regular files are where they were,
    before and after. *)
Lemma mkdir_all_file ds : forall n n1 qs o d,
  mkdir_all ds n = Some n1 ->
  (fs_lookup qs n1 = Some (File o d) <-> fs_lookup qs n = Some (File o d)).
Proof.
  induction ds as [|c ds IH]; intros n n1 qs o d Hmk.
  - destruct n; cbn in Hmk; [discriminate|]. now injection Hmk as <-.
  - destruct n as [|l es]; [discriminate|]. cbn [mkdir_all] in Hmk.
    destruct (assoc c es) as [child|] eqn:Hc.
    + destruct (mkdir_all ds child) as [child'|] eqn:Hch; [|discriminate].
      injection Hmk as <-. destruct qs as [|q qs]; [cbn; split; discriminate|].
      cbn [fs_lookup]. destruct (String.eqb_spec c q) as [<-|Hne].
      * rewrite assoc_set_same, Hc. now apply IH.
      * now rewrite assoc_set_other.
    + destruct (mkdir_all ds (Dir true [])) as [child'|] eqn:Hch; [|discriminate].
      injection Hmk as <-. destruct qs as [|q qs]; [cbn; split; discriminate|].
      cbn [fs_lookup]. destruct (String.eqb_spec c q) as [<-|Hne].
      * rewrite assoc_set_same, Hc. split; [|discriminate].
        intros H. apply (IH _ _ qs o d Hch) in H.
        destruct qs; cbn in H; discriminate.
      * now rewrite assoc_set_other.
Qed.

(** ... and what exists keeps existing. *)
Lemma mkdir_all_keeps ds : forall n n1 qs,
  mkdir_all ds n = Some n1 ->
  fs_lookup qs n <> None -> fs_lookup qs n1 <> None.
Proof.
  induction ds as [|c ds IH]; intros n n1 qs Hmk.
  - destruct n; cbn in Hmk; [discriminate|]. now injection Hmk as <-.
  - destruct n as [|l es]; [discriminate|]. cbn [mkdir_all] in Hmk.
    destruct (assoc c es) as [child|] eqn:Hc.
    + destruct (mkdir_all ds child) as [child'|] eqn:Hch; [|discriminate].
      injection Hmk as <-. destruct qs as [|q qs]; [cbn; discriminate|].
      cbn [fs_lookup]. destruct (String.eqb_spec c q) as [<-|Hne].
      * rewrite assoc_set_same, Hc. now apply IH.
      * now rewrite assoc_set_other.
    + destruct (mkdir_all ds (Dir true [])) as [child'|] eqn:Hch; [|discriminate].
      injection Hmk as <-. destruct qs as [|q qs]; [cbn; discriminate|].
      cbn [fs_lookup]. destruct (String.eqb_spec c q) as [<-|Hne].
      * rewrite Hc. congruence.
      * now rewrite assoc_set_other.
Qed.

Lemma fs_set_fs n w : IsDir n = true -> n = Dir true (entries_of n) -> fs (set_fs n w) = n.
Proof. intros _ H. unfold fs, set_fs. cbn. now rewrite <- H. Qed.

#[local] Arguments keyPath : simpl never.
#[local] Arguments namei : simpl never.

Module KeyPathFacts.
Import Filepath.
#[local] Arguments String.append !_ _ / : simpl nomatch.

(** ** Where [keyPath] points *)

Lemma split_from_app a s : forall cur,
  split_from cur (String.append a (String Separator s))
  = split_from cur a ++ split_from "" s.
Proof.
  induction a as [|c a IH]; intros cur; cbn.
  - reflexivity.
  - destruct (Ascii.eqb c Separator); cbn; now rewrite IH.
Qed.

Lemma split_join_cons a b rest :
  split (join (a :: b :: rest)) = split a ++ split (join (b :: rest)).
Proof. unfold split. cbn [join]. apply split_from_app. Qed.

Lemma split_noslash e : noslash e = true -> split e = [e].
Proof. intros H. unfold split. now rewrite split_from_noslash. Qed.

Lemma noslash_Replace key : noslash (Text.Replace key) = true.
Proof.
  induction key as [|c key IH]; [reflexivity|]. cbn. rewrite IH, andb_true_r.
  unfold Text.replace_byte.
  destruct (Ascii.eqb c "/") eqn:E; [reflexivity|].
  destruct (Ascii.eqb c ":") eqn:E2; [reflexivity|].
  unfold Separator. now rewrite E.
Qed.

Lemma hex_is_name b : is_name (Text.EncodeToString [b]) = true.
Proof. destruct b; vm_compute; reflexivity. Qed.

Lemma hash_byte_name key i :
  (i < 4)%nat -> is_name (Text.EncodeToString (hash_byte (keyHash key) i)) = true.
Proof.
  intros Hi. unfold keyHash, PutUint32, hash_byte.
  destruct i as [|[|[|[|i]]]]; try lia; cbn [skipn firstn]; apply hex_is_name.
Qed.

Lemma clean_loop_name r e es out :
  is_name e = true -> clean_loop r (e :: es) out = clean_loop r es (e :: out).
Proof.
  intros H. apply is_name_inv in H as (_ & E1 & E2 & E3). cbn. now rewrite E1, E2, E3.
Qed.

Lemma clean_loop_key r h0 h1 h2 h3 k out :
  is_name h0 = true -> is_name h1 = true -> is_name h2 = true -> is_name h3 = true ->
  rev (clean_loop r [h0; h1; h2; h3; k] out) = rev out ++ key_tail h0 h1 h2 h3 k.
Proof.
  intros H0 H1 H2 H3. rewrite !clean_loop_name by assumption.
  unfold key_tail. cbn [clean_loop].
  destruct (String.eqb k ""); [cbn; now rewrite <- !app_assoc|].
  destruct (String.eqb k "."); [cbn; now rewrite <- !app_assoc|].
  destruct (is_dotdot k).
  - apply is_name_inv in H3 as (_ & _ & _ & E). rewrite E. cbn. now rewrite <- !app_assoc.
  - cbn. now rewrite <- !app_assoc.
Qed.

Lemma drop_dotdot_app es qs :
  (forall q rest, qs = q :: rest -> is_dotdot q = false) ->
  drop_dotdot (es ++ qs) = drop_dotdot es ++ qs.
Proof.
  intros Hq. induction es as [|e es IH]; cbn.
  - destruct qs as [|q rest]; [reflexivity|]. cbn. now rewrite (Hq q rest).
  - destruct (is_dotdot e); [exact IH | reflexivity].
Qed.

Lemma is_rooted_name e : is_name e = true -> is_rooted e = false.
Proof.
  intros H. apply is_name_inv in H as (Hns & E & _).
  destruct e as [|c e]; [discriminate|]. cbn in Hns |- *.
  apply andb_prop in Hns as [Hc _]. now apply negb_true_iff in Hc.
Qed.

(** The path of a key lies below the base directory, at least three names
    deep. *)
Lemma namei_keyPath base key :
  exists qs, qs <> [] /\ namei (keyPath base key) = namei base ++ qs.
Proof.
  unfold keyPath.
  set (h0 := Text.EncodeToString (hash_byte (keyHash key) 0)).
  set (h1 := Text.EncodeToString (hash_byte (keyHash key) 1)).
  set (h2 := Text.EncodeToString (hash_byte (keyHash key) 2)).
  set (h3 := Text.EncodeToString (hash_byte (keyHash key) 3)).
  set (k := Text.Replace key).
  assert (H0 : is_name h0 = true) by (apply hash_byte_name; lia).
  assert (H1 : is_name h1 = true) by (apply hash_byte_name; lia).
  assert (H2 : is_name h2 = true) by (apply hash_byte_name; lia).
  assert (H3 : is_name h3 = true) by (apply hash_byte_name; lia).
  assert (Hk : noslash k = true) by apply noslash_Replace.
  assert (Hsplit : split (join [h0; h1; h2; h3; k]) = [h0; h1; h2; h3; k]).
  { apply split_join; [discriminate|].
    repeat constructor; try assumption;
      match goal with |- noslash ?h = true => now apply is_name_inv end. }
  assert (Htail : forall q rest, key_tail h0 h1 h2 h3 k = q :: rest -> is_dotdot q = false).
  { intros q rest. unfold key_tail.
    destruct (String.eqb k ""), (String.eqb k "."), (is_dotdot k);
      intros [= <- _]; now apply is_name_inv in H0. }
  exists (key_tail h0 h1 h2 h3 k). split.
  { unfold key_tail.
    destruct (String.eqb k ""), (String.eqb k "."), (is_dotdot k); discriminate. }
  cbn [Join]. destruct (String.eqb_spec base "") as [->|Hbase].
  - assert (E0 : String.eqb h0 "" = false) by now apply is_name_inv in H0.
    rewrite E0. rewrite namei_Clean. unfold namei, elements.
    rewrite Hsplit.
    assert (Hr : is_rooted (join [h0; h1; h2; h3; k]) = false).
    { cbn [join]. rewrite is_rooted_append; [now apply is_rooted_name|].
      intros E. now rewrite E in E0. }
    rewrite Hr. rewrite clean_loop_key by assumption.
    exact (drop_dotdot_app [] _ Htail).
  - rewrite namei_Clean. unfold namei, elements.
    rewrite split_join_cons, Hsplit.
    assert (Hr : is_rooted (join [base; h0; h1; h2; h3; k]) = is_rooted base).
    { cbn [join]. now apply is_rooted_append. }
    rewrite Hr, clean_loop_app, clean_loop_key by assumption.
    now apply drop_dotdot_app.
Qed.

(** For a key whose sanitized form is a name, the path is the base, the
    four shard directories and the sanitized key. *)
Lemma namei_keyPath_name base key :
  is_name (Text.Replace key) = true ->
  namei (keyPath base key)
  = namei base
    ++ [ Text.EncodeToString (hash_byte (keyHash key) 0);
         Text.EncodeToString (hash_byte (keyHash key) 1);
         Text.EncodeToString (hash_byte (keyHash key) 2);
         Text.EncodeToString (hash_byte (keyHash key) 3);
         Text.Replace key ].
Proof.
  intros Hname. apply is_name_inv in Hname as (Hk & E1 & E2 & E3).
  unfold keyPath.
  set (h0 := Text.EncodeToString (hash_byte (keyHash key) 0)).
  set (h1 := Text.EncodeToString (hash_byte (keyHash key) 1)).
  set (h2 := Text.EncodeToString (hash_byte (keyHash key) 2)).
  set (h3 := Text.EncodeToString (hash_byte (keyHash key) 3)).
  set (k := Text.Replace key) in *.
  assert (H0 : is_name h0 = true) by (apply hash_byte_name; lia).
  assert (H1 : is_name h1 = true) by (apply hash_byte_name; lia).
  assert (H2 : is_name h2 = true) by (apply hash_byte_name; lia).
  assert (H3 : is_name h3 = true) by (apply hash_byte_name; lia).
  assert (Hsplit : split (join [h0; h1; h2; h3; k]) = [h0; h1; h2; h3; k]).
  { apply split_join; [discriminate|].
    repeat constructor; try assumption;
      match goal with |- noslash ?h = true => now apply is_name_inv end. }
  assert (Hkt : key_tail h0 h1 h2 h3 k = [h0; h1; h2; h3; k]).
  { unfold key_tail. now rewrite E1, E2, E3. }
  assert (Htail : forall q rest, [h0; h1; h2; h3; k] = q :: rest -> is_dotdot q = false).
  { intros q rest [= <- _]. now apply is_name_inv in H0. }
  cbn [Join]. destruct (String.eqb_spec base "") as [->|Hbase].
  - assert (E0 : String.eqb h0 "" = false) by now apply is_name_inv in H0.
    rewrite E0. rewrite namei_Clean. unfold namei, elements.
    rewrite Hsplit.
    assert (Hr : is_rooted (join [h0; h1; h2; h3; k]) = false).
    { cbn [join]. rewrite is_rooted_append; [now apply is_rooted_name|].
      intros E. now rewrite E in E0. }
    rewrite Hr. rewrite clean_loop_key by assumption. rewrite Hkt.
    exact (drop_dotdot_app [] _ Htail).
  - rewrite namei_Clean. unfold namei, elements.
    rewrite split_join_cons, Hsplit.
    assert (Hr : is_rooted (join [base; h0; h1; h2; h3; k]) = is_rooted base).
    { cbn [join]. now apply is_rooted_append. }
    rewrite Hr, clean_loop_app, clean_loop_key by assumption. rewrite Hkt.
    now apply drop_dotdot_app.
Qed.

End KeyPathFacts.

Import KeyPathFacts.

(** ** Paths as the kernel follows them *)

Lemma drop_dotdot_all es :
  Forall (fun e => e = "..") es -> drop_dotdot es = [].
Proof. induction 1 as [|e es -> _ IH]; [reflexivity | exact IH]. Qed.

Lemma drop_dotdot_rev_cleaned r top out :
  cleaned r (top :: out) -> Filepath.is_dotdot top = false ->
  cleaned r out
  /\ drop_dotdot (rev (top :: out)) = drop_dotdot (rev out) ++ [top].
Proof.
  intros Hc Htop. inversion Hc as [|out' Hr Hall|e out' Hname Hout]; subst.
  - discriminate.
  - split; [assumption|]. cbn [rev]. now apply drop_dotdot_snoc.
Qed.

(** Where the kernel's walk ends is where the names of the cleaned path
    lead. *)
Lemma follow_clean_loop F r es : forall names ns out,
  Forall (fun e => PathNames.noslash e = true) es ->
  cleaned r out -> drop_dotdot (rev out) = names ->
  follow F es names = Some ns ->
  drop_dotdot (rev (Filepath.clean_loop r es out)) = ns.
Proof.
  induction es as [|e es IH]; intros names ns out Hns Hc Hout Hf.
  - cbn in Hf |- *. congruence.
  - inversion Hns as [|? ? He Hrest]; subst. cbn [follow] in Hf.
    destruct (fs_lookup (drop_dotdot (rev out)) F) as [[|l ds]|]; try discriminate.
    cbn [Filepath.clean_loop].
    destruct (String.eqb e "") eqn:E1; [eapply IH; eauto|].
    destruct (String.eqb e ".") eqn:E2; [eapply IH; eauto|].
    destruct (Filepath.is_dotdot e) eqn:E3.
    + destruct out as [|top out'].
      * cbn in Hf. destruct r.
        -- eapply IH; eauto.
        -- unfold Filepath.is_dotdot in E3. apply String.eqb_eq in E3. subst e.
           eapply IH; [assumption | | | exact Hf].
           ++ apply cleaned_dotdot; [reflexivity | constructor].
           ++ reflexivity.
      * destruct (Filepath.is_dotdot top) eqn:Etop.
        -- assert (Hall : Forall (fun x => x = "..") (top :: out')).
           { inversion Hc as [|out'' Hr Hall|e' out'' Hname Hout']; subst.
             - now constructor.
             - apply is_name_inv in Hname as (_ & _ & _ & Hd). congruence. }
           assert (Hr : r = false).
           { inversion Hc as [|out'' Hr Hall'|e' out'' Hname Hout']; subst; [reflexivity|].
             apply is_name_inv in Hname as (_ & _ & _ & Hd). congruence. }
           assert (Hz : drop_dotdot (rev (top :: out')) = []).
           { apply drop_dotdot_all. apply Forall_rev. exact Hall. }
           rewrite Hz in Hf. cbn [removelast] in Hf.
           unfold Filepath.is_dotdot in E3. apply String.eqb_eq in E3. subst e.
           eapply IH; [assumption | | | exact Hf].
           ++ now apply cleaned_dotdot.
           ++ apply drop_dotdot_all. apply Forall_rev. now constructor.
        -- destruct (drop_dotdot_rev_cleaned r top out' Hc Etop) as [Hc' Hd].
           rewrite Hd, removelast_last in Hf.
           eapply IH; [assumption | exact Hc' | reflexivity | exact Hf].
    + assert (Hname : is_name e = true).
      { unfold is_name. rewrite He, E1, E2. unfold Filepath.is_dotdot in E3.
        now rewrite E3. }
      eapply IH; [assumption | | | exact Hf].
      * now apply cleaned_name.
      * cbn [rev]. now apply drop_dotdot_snoc.
Qed.

(** A path the kernel resolves leads where its cleaned form leads. *)
Lemma resolve_lexical p F n :
  resolve p F = Some n -> fs_lookup (namei p) F = Some n.
Proof.
  unfold resolve. destruct (String.eqb p ""); [discriminate|].
  destruct (follow F (Filepath.split p) []) as [ns|] eqn:Hf; [|discriminate].
  intros Hl. unfold namei, Filepath.elements.
  rewrite (follow_clean_loop F (Filepath.is_rooted p) (Filepath.split p) [] ns []);
    [exact Hl | apply split_all_noslash | constructor | reflexivity | exact Hf].
Qed.

Lemma resolve_missing p F :
  fs_lookup (namei p) F = None -> resolve p F = None.
Proof.
  intros Hl. destruct (resolve p F) as [n|] eqn:Hr; [|reflexivity].
  apply resolve_lexical in Hr. congruence.
Qed.

Lemma follow_app F a : forall b names,
  follow F (a ++ b) names
  = match follow F a names with
    | Some ns => follow F b ns
    | None => None
    end.
Proof.
  induction a as [|e a IH]; intros b names; [reflexivity|].
  cbn [app follow]. destruct (fs_lookup names F) as [[|l ds]|]; try reflexivity.
  destruct (String.eqb e ""); [apply IH|].
  destruct (String.eqb e "."); [apply IH|].
  destruct (Filepath.is_dotdot e); apply IH.
Qed.

Lemma follow_names F nm : forall names,
  Forall (fun e => is_name e = true) nm ->
  match follow F nm names with
  | Some ns => fs_lookup ns F
  | None => None
  end = fs_lookup (names ++ nm) F.
Proof.
  induction nm as [|e nm IH]; intros names Hnm.
  - cbn. now rewrite app_nil_r.
  - inversion Hnm as [|? ? He Hrest]; subst. cbn [follow].
    apply is_name_inv in He as (_ & E1 & E2 & E3).
    rewrite E1, E2, E3. rewrite (fs_lookup_app names (e :: nm)).
    destruct (fs_lookup names F) as [[o d|l ds]|] eqn:Hn; [reflexivity | | reflexivity].
    rewrite (IH (names ++ [e]) Hrest). rewrite <- app_assoc. cbn [app].
    now rewrite (fs_lookup_app names (e :: nm)), Hn.
Qed.

Lemma follow_dotdots F l ds dd :
  F = Dir l ds -> Forall (fun e => e = "..") dd -> follow F dd [] = Some [].
Proof.
  intros -> Hdd. induction Hdd as [|e dd -> _ IH]; [reflexivity | exact IH].
Qed.

(** On a cleaned path the kernel follows the names of the path. *)
Lemma follow_cleaned F l ds r out :
  F = Dir l ds -> cleaned r out ->
  forall tail, Forall (fun e => is_name e = true) tail ->
  match follow F (rev out ++ tail) [] with
  | Some ns => fs_lookup ns F
  | None => None
  end = fs_lookup (drop_dotdot (rev out) ++ tail) F.
Proof.
  intros HF Hc. induction Hc as [|out Hr Hall|e out Hname Hout IH]; intros tail Htail.
  - cbn [rev app drop_dotdot]. now apply follow_names.
  - assert (Hdd : Forall (fun e => e = "..") (rev (".." :: out)))
      by (apply Forall_rev; now constructor).
    rewrite follow_app, (follow_dotdots F l ds _ HF Hdd).
    rewrite (drop_dotdot_all _ Hdd). now apply follow_names.
  - cbn [rev]. rewrite <- app_assoc. cbn [app].
    rewrite (IH (e :: tail)) by now constructor.
    apply is_name_inv in Hname as (_ & _ & _ & Hd).
    rewrite (drop_dotdot_snoc _ _ Hd). now rewrite <- app_assoc.
Qed.

Lemma render_not_empty r out :
  cleaned r out -> String.eqb (Filepath.render r (rev out)) "" = false.
Proof.
  intros Hc. destruct r; [reflexivity|].
  pose proof (cleaned_nonempty _ _ Hc) as Hne.
  unfold Filepath.render.
  destruct (rev out) as [|e es] eqn:Hrev; [reflexivity|].
  assert (He : e <> "").
  { apply Forall_rev in Hne. rewrite Hrev in Hne. now inversion Hne. }
  destruct e as [|c e]; [congruence|]. destruct es; reflexivity.
Qed.

Lemma resolve_Clean p F l ds :
  F = Dir l ds -> resolve (Filepath.Clean p) F = fs_lookup (namei p) F.
Proof.
  intros HF. unfold Filepath.Clean, namei, resolve.
  pose proof (elements_cleaned p) as Hc.
  set (r := Filepath.is_rooted p) in *.
  rewrite <- (rev_involutive (Filepath.elements p)).
  set (out := rev (Filepath.elements p)) in *.
  rewrite (render_not_empty r out Hc).
  pose proof (follow_cleaned F l ds r out HF Hc [] (Forall_nil _)) as Hfol.
  rewrite !app_nil_r in Hfol. rewrite <- Hfol.
  assert (Hns : Forall (fun e => PathNames.noslash e = true) (rev out))
    by (apply Forall_rev; eapply cleaned_noslash; exact Hc).
  destruct r; unfold Filepath.render.
  - rewrite split_rooted. cbn [follow]. rewrite HF at 1. cbn [fs_lookup].
    destruct (rev out) as [|e es] eqn:Hrev.
    + cbn. now rewrite HF.
    + rewrite split_join by (discriminate || assumption). reflexivity.
  - destruct (rev out) as [|e es] eqn:Hrev.
    + cbn. now rewrite HF.
    + rewrite split_join by (discriminate || assumption). reflexivity.
Qed.

(** The path of a key is a cleaned path. *)
Lemma keyPath_cleaned base key : exists q, keyPath base key = Filepath.Clean q.
Proof.
  unfold keyPath. cbn [Filepath.Join].
  destruct (String.eqb base ""); [|eexists; reflexivity].
  assert (H0 : is_name (Text.EncodeToString (hash_byte (keyHash key) 0)) = true)
    by (apply hash_byte_name; lia).
  apply is_name_inv in H0 as (_ & E & _). rewrite E. eexists. reflexivity.
Qed.

(** The kernel and the cleaned form of a path, at work: a path through a
    missing directory or through a regular file resolves to nothing, though
    its cleaned form names the cache directory. *)
Lemma resolve_as_written :
  let cache := Dir true [("f", File true [])] in
  let F := Dir true [("cache", cache)] in
  resolve "" F = None
  /\ resolve "/nope/../cache" F = None
  /\ resolve "/cache/f/.." F = None
  /\ resolve "/cache/f/" F = None
  /\ resolve "/cache/../cache/." F = Some cache
  /\ fs_lookup (namei "/nope/../cache") F = Some cache.
Proof. cbv zeta. repeat split; vm_compute; reflexivity. Qed.

(** [os.Stat] on the path of a key. *)
Lemma resolve_keyPath base key w :
  resolve (keyPath base key) (fs w) = fs_lookup (namei (keyPath base key)) (fs w).
Proof.
  destruct (keyPath_cleaned base key) as [q ->].
  rewrite namei_Clean. now apply (resolve_Clean q (fs w) true (root w)).
Qed.

(** ** Operations on an idle cache *)

Lemma Get_unfold c key :
  Get c key = (mu <- pm_MutexAt key ;; lift_pm (RLock mu) ;;
               defer (lift_pm (RUnlock mu)) (get_body c key)).
Proof. reflexivity. Qed.

Lemma Set_unfold c key val expiry :
  Set' c key val expiry
  = (mu <- pm_MutexAt key ;; lift_pm (Lock mu) ;;
     defer (lift_pm (Unlock mu)) (set_body c key val expiry)).
Proof. reflexivity. Qed.

Lemma lookup_snoc_last {A} (l : list A) x : (l ++ [x]) !! List.length l = Some x.
Proof. induction l; [reflexivity | assumption]. Qed.

Lemma insert_snoc_last {A} (l : list A) x y :
  <[List.length l := y]> (l ++ [x]) = l ++ [y].
Proof. induction l as [|a l IH]; [reflexivity|]. cbn. f_equal. exact IH. Qed.

Lemma MutexAt_idle name m :
  idle m -> MutexAt name m
            = (List.length (cells m),
               {| lock := <[name := List.length (cells m)]> (lock m);
                  cells := cells m ++ [ {| ref := 1; cleanup_path := name;
                                           writer := false; readers := 0 |} ] |}).
Proof. intros H. unfold MutexAt. rewrite H, lookup_empty. reflexivity. Qed.

Lemma lock_cycle_idle (wr : bool) name m :
  idle m ->
  let fl := List.length (cells m) in
  let m1 := snd (MutexAt name m) in
  fst (MutexAt name m) = fl
  /\ (if wr then Lock fl m1 else RLock fl m1) = Proceeds (holding wr name m)
  /\ (if wr then Unlock fl (holding wr name m) else RUnlock fl (holding wr name m))
     = Proceeds (released name m).
Proof.
  intros H. cbv zeta. rewrite MutexAt_idle by assumption. cbn [fst snd].
  split; [reflexivity|].
  assert (Hz : wrap_i64 (1 - 1) = 0) by reflexivity.
  destruct wr; unfold Lock, RLock, Unlock, RUnlock, with_cell, holding; cbn [cells lock];
    rewrite !lookup_snoc_last; cbn; rewrite ?insert_snoc_last;
    (split; [reflexivity|]);
    unfold cleanup; cbn [cells lock]; rewrite lookup_snoc_last;
    cbn; rewrite Hz; cbn;
    rewrite insert_snoc_last; unfold released;
    rewrite H, insert_empty, delete_singleton_eq; reflexivity.
Qed.

Lemma is_root_fs w : is_root (fs w).
Proof. now exists (root w). Qed.

Lemma is_root_put cs x n : cs <> [] -> is_root n -> is_root (fs_put cs x n).
Proof.
  intros Hne [es ->]. rewrite fs_put_is_dir by assumption. now eexists.
Qed.

Lemma is_root_mkdir ds n n1 : is_root n -> mkdir_all ds n = Some n1 -> is_root n1.
Proof.
  intros [es ->] H. apply mkdir_all_is_dir in H. rewrite H. now eexists.
Qed.

Lemma fs_set_root n w : is_root n -> fs (set_fs n w) = n.
Proof. intros [es ->]. reflexivity. Qed.

Lemma fs_set_put cs x w :
  cs <> [] -> fs (set_fs (fs_put cs x (fs w)) w) = fs_put cs x (fs w).
Proof. intros Hne. apply fs_set_root, is_root_put, is_root_fs. assumption. Qed.

Lemma fs_set_mkdir ds n w :
  mkdir_all ds (fs w) = Some n -> fs (set_fs n w) = n.
Proof. intros H. eapply fs_set_root, is_root_mkdir; [apply is_root_fs | exact H]. Qed.

Lemma fs_set_pm m w : fs (set_pm m w) = fs w.
Proof. reflexivity. Qed.

Lemma fs_set_now t w : fs (set_now t w) = fs w.
Proof. reflexivity. Qed.

Lemma stored_file_names c key w o d :
  stored c key w = Some (File o d) -> namei (keyPath (path c) key) <> [].
Proof. unfold stored. apply fs_lookup_file_nil. reflexivity. Qed.

Lemma write_entry old timestamp val :
  write_at 8 val (write_at 0 (PutUint64 timestamp) old) = entry_over old timestamp val.
Proof.
  unfold write_at, entry_over.
  change (firstn 0 _ ++ PutUint64 timestamp ++ ?r) with (PutUint64 timestamp ++ r).
  change (0 + List.length (PutUint64 timestamp))%nat with 8%nat.
  rewrite <- app_assoc.
  change (firstn 8 (PutUint64 timestamp ++ ?r)) with (PutUint64 timestamp).
  change (skipn (8 + ?n) (PutUint64 timestamp ++ ?r)) with (skipn n r).
  rewrite skipn_skipn. do 3 f_equal. lia.
Qed.

(** A [Set] that reports success leaves, for the key, a file holding the
    new entry written over the old content. *)
Lemma set_body_ok c key val expiry w0 w1 :
  set_body c key val expiry w0 = Returns None w1 ->
  stored c key w1
  = Some (File true
            (entry_over (old_content (stored c key w0))
                        (wrap_u64 (Time.ToUnix (Time.Add (now w0) expiry))) val))
  /\ pm w1 = pm w0 /\ now w1 = now w0.
Proof.
  unfold set_body, stored.
  set (p := keyPath (path c) key). set (cs := namei p).
  unfold bind at 1. unfold os_MkdirAll.
  destruct (mkdir_all (namei (Filepath.Dir p)) (fs w0)) as [n1|] eqn:Hmk;
    [|discriminate].
  pose proof (fs_set_mkdir _ _ _ Hmk) as Hfs1.
  unfold bind at 1. unfold os_OpenFile. rewrite namei_Clean. fold cs. rewrite Hfs1.
  set (ts := wrap_u64 (Time.ToUnix (Time.Add (now w0) expiry))).
  assert (Hwrite : forall w2 d0,
    pm w2 = pm w0 -> now w2 = now w0 ->
    fs_lookup cs (fs w2) = Some (File true d0) ->
    defer (file_Close {| f_names := cs; f_off := 0 |})
      (t <- time_Now ;;
       r <- file_Write {| f_names := cs; f_off := 0 |}
              (PutUint64 (wrap_u64 (Time.ToUnix (Time.Add t expiry)))) ;;
       (let '(f, err) := r in
        if err : bool then ret (Some errWritingFile)
        else r0 <- file_Write f val ;;
             (let '(_, err0) := r0 in
              if err0 : bool then ret (Some errWritingFile) else ret None))) w2
    = Returns None w1 ->
    fs_lookup cs (fs w1) = Some (File true (entry_over d0 ts val))
    /\ pm w1 = pm w0 /\ now w1 = now w0).
  { intros w2 d0 Hpm Hnow Hd0.
    assert (Hne : cs <> []) by (eapply fs_lookup_file_nil; [|exact Hd0]; reflexivity).
    unfold defer, bind, time_Now, file_Write, file_Close, ret. cbn [f_names f_off].
    rewrite Hd0. rewrite fs_set_put by assumption.
    rewrite (fs_lookup_put_existing cs (fs w2) _ _ Hne Hd0).
    intros [= <-].
    rewrite fs_set_root by (repeat apply is_root_put; try assumption; apply is_root_fs).
    split; [|split; [exact Hpm | exact Hnow]].
    erewrite fs_lookup_put_existing; [ | assumption | ].
    2:{ erewrite fs_lookup_put_existing; [reflexivity | assumption | exact Hd0]. }
    rewrite Hnow. now rewrite write_entry. }
  destruct (fs_lookup cs n1) as [[o d0|l es]|] eqn:Hcs.
  - destruct o; [|discriminate].
    intros H. apply (Hwrite _ d0) in H; [ | reflexivity | reflexivity | ].
    + replace (old_content (fs_lookup cs (fs w0))) with d0; [exact H|].
      apply (mkdir_all_file _ _ _ cs true d0 Hmk) in Hcs. now rewrite Hcs.
    + now rewrite Hfs1.
  - discriminate.
  - destruct (fs_lookup (removelast cs) n1) as [[|l es]|] eqn:Hpar; try discriminate.
    destruct (valid_name (last cs "")); [|discriminate].
    assert (Hne : cs <> []).
    { intros E. rewrite E in Hcs. discriminate. }
    intros H. apply (Hwrite _ []) in H; [ | reflexivity | reflexivity | ].
    + replace (old_content (fs_lookup cs (fs w0))) with (@nil byte); [exact H|].
      destruct (fs_lookup cs (fs w0)) as [x|] eqn:Hold; [|reflexivity].
      exfalso. eapply (mkdir_all_keeps _ _ _ cs Hmk); [|exact Hcs]. congruence.
    + rewrite fs_set_root by (apply is_root_put; [assumption|];
                               eapply is_root_mkdir; [apply is_root_fs | exact Hmk]).
      eapply fs_lookup_put_same; eassumption.
Qed.

Lemma header_of_length d : List.length (header_of d) = 8%nat.
Proof.
  unfold header_of, readfile_cap. rewrite length_firstn, length_app, repeat_length. lia.
Qed.

Lemma Uint64_header d : exists v, Uint64 (header_of d) = Some v.
Proof.
  pose proof (header_of_length d) as H.
  destruct (header_of d) as [|b0 [|b1 [|b2 [|b3 [|b4 [|b5 [|b6 [|b7 r]]]]]]]];
    try discriminate.
  eexists. reflexivity.
Qed.

Lemma header_of_entry e payload : header_of (PutUint64 e ++ payload) = PutUint64 e.
Proof. unfold header_of. rewrite <- app_assoc. reflexivity. Qed.

(** [Get] under its lock, for a key that has a regular file. *)
Lemma get_body_file c key w d v :
  stored c key w = Some (File true d) ->
  Uint64 (header_of d) = Some v ->
  get_body c key w
  = if Time.Before (Time.Unix (wrap_i64 v)) (now w)
    then Returns (None, Some errCacheMiss)
                 (set_fs (fs_put (namei (keyPath (path c) key)) None (fs w)) w)
    else if (8 <=? List.length d)%nat
         then Returns (Some (skipn 8 d), None) w
         else Panics w.
Proof.
  intros Hst Hv. pose proof (stored_file_names _ _ _ _ _ Hst) as Hne.
  unfold stored in Hst. unfold get_body.
  set (p := keyPath (path c) key) in *. set (cs := namei p) in *.
  unfold bind at 1. unfold os_Stat. unfold p at 1. rewrite resolve_keyPath.
  fold p. fold cs. rewrite Hst. cbn [option_map IsDir].
  unfold bind at 1. unfold ioutil_ReadFile. rewrite namei_Clean. fold cs. rewrite Hst.
  unfold bind at 1. unfold slice_to, cap. cbn [arr len].
  assert (Hcap : (8 <=? List.length (d ++ repeat x00 (readfile_cap (List.length d) - List.length d)))%nat = true).
  { apply Nat.leb_le. unfold readfile_cap. rewrite length_app, repeat_length. lia. }
  rewrite Hcap. unfold ret at 1.
  unfold bind at 1. unfold le_Uint64, slice_bytes. cbn [arr len].
  fold (header_of d). rewrite Hv. unfold ret at 1.
  unfold bind at 1. unfold time_Now.
  destruct (Time.Before (Time.Unix (wrap_i64 v)) (now w)).
  - unfold bind, os_Remove, ret. fold cs. rewrite Hst.
    destruct cs; [congruence | reflexivity].
  - unfold bind, slice_from, ret, panic. cbn [arr len].
    destruct (Nat.leb_spec 8 (List.length d)) as [Hlen|Hlen]; [|reflexivity].
    do 3 f_equal. cbn [arr len].
    rewrite skipn_app. replace (8 - List.length d)%nat with 0%nat by lia.
    cbn [skipn]. rewrite <- (length_skipn 8 d).
    rewrite firstn_app, Nat.sub_diag. cbn [firstn]. rewrite app_nil_r.
    apply firstn_all.
Qed.

Lemma get_body_absent c key w :
  stored c key w = None ->
  get_body c key w = Returns (None, Some errCacheMiss) w.
Proof.
  unfold stored, get_body, bind, os_Stat. rewrite resolve_keyPath.
  intros ->. reflexivity.
Qed.

(** An operation under a lock of an idle registry: the lock is taken, the
    body runs, the lock is given back. *)
Lemma Get_idle c key w :
  idle (pm w) ->
  Get c key w
  = match get_body c key (set_pm (holding false key (pm w)) w) with
    | Returns a w' =>
        match lift_pm (RUnlock (List.length (cells (pm w)))) w' with
        | Returns _ w'' => Returns a w''
        | Panics w'' => Panics w''
        | Blocks => Blocks
        | Aborts => Aborts
        end
    | Panics w' =>
        match lift_pm (RUnlock (List.length (cells (pm w)))) w' with
        | Returns _ w'' => Panics w''
        | Panics w'' => Panics w''
        | Blocks => Blocks
        | Aborts => Aborts
        end
    | Blocks => Blocks
    | Aborts => Aborts
    end.
Proof.
  intros Hidle. rewrite Get_unfold.
  destruct (lock_cycle_idle false key (pm w) Hidle) as (Hfl & Hlock & _).
  cbv zeta in *. unfold bind at 1. unfold pm_MutexAt.
  destruct (MutexAt key (pm w)) as [fl m1] eqn:HM. cbn [fst snd] in *. subst fl.
  unfold bind at 1. unfold lift_pm at 1. cbn [pm set_pm]. rewrite Hlock.
  reflexivity.
Qed.

Lemma Set_idle c key val expiry w :
  idle (pm w) ->
  Set' c key val expiry w
  = match set_body c key val expiry (set_pm (holding true key (pm w)) w) with
    | Returns a w' =>
        match lift_pm (Unlock (List.length (cells (pm w)))) w' with
        | Returns _ w'' => Returns a w''
        | Panics w'' => Panics w''
        | Blocks => Blocks
        | Aborts => Aborts
        end
    | Panics w' =>
        match lift_pm (Unlock (List.length (cells (pm w)))) w' with
        | Returns _ w'' => Panics w''
        | Panics w'' => Panics w''
        | Blocks => Blocks
        | Aborts => Aborts
        end
    | Blocks => Blocks
    | Aborts => Aborts
    end.
Proof.
  intros Hidle. rewrite Set_unfold.
  destruct (lock_cycle_idle true key (pm w) Hidle) as (Hfl & Hlock & _).
  cbv zeta in *. unfold bind at 1. unfold pm_MutexAt.
  destruct (MutexAt key (pm w)) as [fl m1] eqn:HM. cbn [fst snd] in *. subst fl.
  unfold bind at 1. unfold lift_pm at 1. cbn [pm set_pm]. rewrite Hlock.
  reflexivity.
Qed.

Lemma unlock_after wr key w w' :
  idle (pm w) -> pm w' = holding wr key (pm w) ->
  lift_pm (if wr then Unlock (List.length (cells (pm w)))
           else RUnlock (List.length (cells (pm w)))) w'
  = Returns tt (set_pm (released key (pm w)) w').
Proof.
  intros Hidle Hpm. destruct (lock_cycle_idle wr key (pm w) Hidle) as (_ & _ & Hun).
  cbv zeta in Hun. unfold lift_pm. rewrite Hpm.
  destruct wr; now rewrite Hun.
Qed.

(** [Set] on an idle cache that reports success. *)
Lemma Set_ok c key val expiry w w1 :
  idle (pm w) ->
  Set' c key val expiry w = Returns None w1 ->
  stored c key w1
  = Some (File true
            (entry_over (old_content (stored c key w))
                        (wrap_u64 (Time.ToUnix (Time.Add (now w) expiry))) val))
  /\ idle (pm w1) /\ now w1 = now w.
Proof.
  intros Hidle. rewrite Set_idle by assumption.
  destruct (set_body c key val expiry (set_pm (holding true key (pm w)) w))
    as [a w'|w'| |] eqn:Hbody; try discriminate.
  - destruct (lift_pm (Unlock (List.length (cells (pm w)))) w') as [u w''| | |] eqn:Hun;
      try discriminate.
    intros [= -> <-].
    destruct (set_body_ok _ _ _ _ _ _ Hbody) as (Hst & Hpm & Hnow).
    cbn [pm set_pm now] in Hpm, Hnow.
    rewrite (unlock_after true key w w' Hidle Hpm) in Hun.
    injection Hun as Hw. subst w''.
    split; [exact Hst | split; [reflexivity | exact Hnow]].
  - destruct (lift_pm _ w'); discriminate.
Qed.

(** [Get] on an idle cache, for a key that has a regular file. *)
Lemma Get_file c key w d v :
  idle (pm w) ->
  stored c key w = Some (File true d) ->
  Uint64 (header_of d) = Some v ->
  Get c key w
  = if Time.Before (Time.Unix (wrap_i64 v)) (now w)
    then Returns (None, Some errCacheMiss)
           (set_pm (released key (pm w))
              (set_fs (fs_put (namei (keyPath (path c) key)) None (fs w)) w))
    else if (8 <=? List.length d)%nat
         then Returns (Some (skipn 8 d), None) (set_pm (released key (pm w)) w)
         else Panics (set_pm (released key (pm w)) w).
Proof.
  intros Hidle Hst Hv. rewrite Get_idle by assumption.
  rewrite (get_body_file c key (set_pm (holding false key (pm w)) w) d v Hst Hv).
  cbn [now set_pm].
  destruct (Time.Before (Time.Unix (wrap_i64 v)) (now w)).
  - rewrite (unlock_after false key w _ Hidle) by reflexivity. reflexivity.
  - destruct (8 <=? List.length d)%nat;
      rewrite (unlock_after false key w _ Hidle) by reflexivity; reflexivity.
Qed.

Lemma Get_absent c key w :
  idle (pm w) -> stored c key w = None ->
  Get c key w = Returns (None, Some errCacheMiss) (set_pm (released key (pm w)) w).
Proof.
  intros Hidle Hst. rewrite Get_idle by assumption.
  rewrite (get_body_absent c key (set_pm (holding false key (pm w)) w) Hst).
  rewrite (unlock_after false key w _ Hidle) by reflexivity. reflexivity.
Qed.

Lemma stored_after_remove c key w o d :
  stored c key w = Some (File o d) ->
  stored c key (set_fs (fs_put (namei (keyPath (path c) key)) None (fs w)) w) = None.
Proof.
  intros Hst. pose proof (stored_file_names _ _ _ _ _ Hst) as Hne.
  unfold stored in *. rewrite fs_set_put by assumption.
  eapply fs_lookup_put_existing; eassumption.
Qed.

(** ** Instants *)

Lemma Before_nanos t u :
  0 <= Time.nsec t < 1000000000 -> 0 <= Time.nsec u < 1000000000 ->
  Time.Before t u = (nanos t <? nanos u).
Proof.
  intros Ht Hu. unfold Time.Before, nanos.
  destruct (Z.ltb_spec (Time.sec t) (Time.sec u)); cbn [orb].
  - symmetry. apply Z.ltb_lt. nia.
  - destruct (Z.eqb_spec (Time.sec t) (Time.sec u)) as [E|E]; cbn [andb].
    + rewrite E. apply eq_true_iff_eq. rewrite !Z.ltb_lt. lia.
    + symmetry. apply Z.ltb_ge. nia.
Qed.

Lemma Add_nanos t d :
  sane t -> int64 d ->
  nanos (Time.Add t d) = nanos t + d
  /\ 0 <= Time.nsec (Time.Add t d) < 1000000000
  /\ - 2 ^ 62 - 2 ^ 34 <= Time.sec (Time.Add t d) <= 2 ^ 62 + 2 ^ 34.
Proof.
  intros [Hs Hn] Hd. unfold int64 in Hd. unfold Time.Add, nanos.
  pose proof (Z.quot_rem' d 1000000000) as Hqr.
  assert (Hrem : - 1000000000 < Z.rem d 1000000000 < 1000000000).
  { pose proof (Z.rem_bound_abs d 1000000000). lia. }
  assert (Hq : - 2 ^ 34 + 1 < Z.quot d 1000000000 < 2 ^ 34 - 1) by lia.
  destruct (Z.leb_spec 1000000000 (Time.nsec t + Z.rem d 1000000000)); cbn [Time.sec Time.nsec].
  - rewrite wrap_i64_small by lia. lia.
  - destruct (Z.ltb_spec (Time.nsec t + Z.rem d 1000000000) 0); cbn [Time.sec Time.nsec];
      rewrite wrap_i64_small by lia; lia.
Qed.

(** The expiry [Get] reads back from what [Set] wrote is the whole second
    of the instant [now + expiry]. *)
Lemma expiry_written t d :
  sane t -> int64 d ->
  Time.Unix (wrap_i64 (wrap_u64 (Time.ToUnix (Time.Add t d))))
  = {| Time.sec := Time.sec (Time.Add t d); Time.nsec := 0 |}.
Proof.
  intros Ht Hd. destruct (Add_nanos t d Ht Hd) as (_ & _ & Hs).
  rewrite wrap_i64_u64. unfold Time.ToUnix, Time.Unix, Time.unixToInternal.
  rewrite (wrap_i64_small (Time.sec _ - _)) by lia.
  rewrite (wrap_i64_small (Time.sec _ - _)) by lia.
  f_equal. rewrite wrap_i64_small by lia. lia.
Qed.

Lemma set_body_runs c key val expiry w0 :
  set_ready c key w0 = true ->
  exists w1, set_body c key val expiry w0 = Returns None w1.
Proof.
  unfold set_ready, set_body.
  set (p := keyPath (path c) key). set (cs := namei p).
  unfold bind at 1. unfold os_MkdirAll.
  destruct (mkdir_all (namei (Filepath.Dir p)) (fs w0)) as [n1|] eqn:Hmk;
    [|discriminate].
  pose proof (fs_set_mkdir _ _ _ Hmk) as Hfs1.
  assert (Hroot1 : is_root n1) by (eapply is_root_mkdir; [apply is_root_fs | exact Hmk]).
  unfold bind at 1. unfold os_OpenFile. rewrite namei_Clean. fold cs. rewrite Hfs1.
  assert (Hwrite : forall w2 d0,
    fs_lookup cs (fs w2) = Some (File true d0) ->
    exists w1,
    defer (file_Close {| f_names := cs; f_off := 0 |})
      (t <- time_Now ;;
       r <- file_Write {| f_names := cs; f_off := 0 |}
              (PutUint64 (wrap_u64 (Time.ToUnix (Time.Add t expiry)))) ;;
       (let '(f, err) := r in
        if err : bool then ret (Some errWritingFile)
        else r0 <- file_Write f val ;;
             (let '(_, err0) := r0 in
              if err0 : bool then ret (Some errWritingFile) else ret None))) w2
    = Returns None w1).
  { intros w2 d0 Hd0.
    assert (Hne : cs <> []) by (eapply fs_lookup_file_nil; [|exact Hd0]; reflexivity).
    unfold defer, bind, time_Now, file_Write, file_Close, ret. cbn [f_names f_off].
    rewrite Hd0. rewrite fs_set_put by assumption.
    rewrite (fs_lookup_put_existing cs (fs w2) _ _ Hne Hd0).
    eexists. reflexivity. }
  destruct (fs_lookup cs n1) as [[o d0|l es]|] eqn:Hcs.
  - destruct o; [|discriminate]. intros _. apply (Hwrite _ d0). now rewrite Hfs1.
  - discriminate.
  - destruct (fs_lookup (removelast cs) n1) as [[|l es]|] eqn:Hpar; try discriminate.
    destruct (valid_name (last cs "")); [|discriminate].
    assert (Hne : cs <> []) by (intros E; rewrite E in Hcs; discriminate).
    intros _. apply (Hwrite _ []).
    rewrite fs_set_root by (apply is_root_put; assumption).
    eapply fs_lookup_put_same; eassumption.
Qed.

(** On an idle cache, where no file-system error stands in the way, [Set]
    reports success, whatever the expiry. *)
Lemma Set_runs c key val expiry w :
  idle (pm w) -> set_ready c key w = true ->
  exists w1, Set' c key val expiry w = Returns None w1.
Proof.
  intros Hidle Hready. rewrite Set_idle by assumption.
  destruct (set_body_runs c key val expiry (set_pm (holding true key (pm w)) w) Hready)
    as [w' Hbody].
  rewrite Hbody.
  destruct (set_body_ok _ _ _ _ _ _ Hbody) as (_ & Hpm & _). cbn [pm set_pm] in Hpm.
  rewrite (unlock_after true key w w' Hidle Hpm). eexists. reflexivity.
Qed.

Lemma entry_over_header old e val :
  header_of (entry_over old e val) = PutUint64 e.
Proof. unfold entry_over. apply header_of_entry. Qed.

Lemma entry_over_length old e val :
  (8 <= List.length (entry_over old e val))%nat.
Proof. unfold entry_over. rewrite length_app, PutUint64_length. lia. Qed.

Lemma Add_whole_second t d :
  sane t -> int64 d ->
  Time.sec (Time.Add t d) = (nanos t + d) / 1000000000.
Proof.
  intros Ht Hd. destruct (Add_nanos t d Ht Hd) as (Hn & Hns & _).
  rewrite <- Hn. unfold nanos.
  apply (Z.div_unique_pos _ _ _ (Time.nsec (Time.Add t d))); lia.
Qed.

(** The header [Set] writes, read back as an [int64], is the whole second
    of the instant [now + expiry], counted from the epoch. *)
Lemma header_written t d :
  sane t -> int64 d ->
  wrap_i64 (wrap_u64 (Time.ToUnix (Time.Add t d)))
  = (nanos t + d) / 1000000000 - Time.unixToInternal.
Proof.
  intros Ht Hd. destruct (Add_nanos t d Ht Hd) as (_ & _ & Hs).
  rewrite wrap_i64_u64. unfold Time.ToUnix.
  rewrite <- (Add_whole_second t d Ht Hd). unfold Time.unixToInternal.
  rewrite (wrap_i64_small (Time.sec _ - _)) by lia. apply wrap_i64_small. lia.
Qed.

(** C10, as the code has it.  [Set] does not look at its expiry argument:
    with a zero or negative expiry it reports success on an idle cache
    whenever no file-system error stands in the way, and what it writes is
    the entry as for any other expiry: eight bytes that hold the whole
    second of the instant [now + expiry], the payload, and what the file had
    beyond them.  That second is not after the clock reading of the [Set].
    A [Get] that runs at the clock reading [later], not before that of the
    [Set], reports a miss and removes the file when the clock has moved on,
    when the expiry is negative, or when the clock of the [Set] was not on a
    whole second; after a [Set] with expiry zero on a whole second, a [Get]
    at the same clock reading returns the payload and keeps the file. *)
Theorem set_accepts_any_expiry
    (c : fileCache) (key : string) (val : list byte) (expiry : Z)
    (w : World) (later : Time.Time) :
  idle (pm w) -> set_ready c key w = true ->
  sane (now w) -> int64 expiry -> expiry <= 0 ->
  0 <= Time.nsec later < 1000000000 -> Time.Before later (now w) = false ->
  let e := wrap_u64 (Time.ToUnix (Time.Add (now w) expiry)) in
  let content := entry_over (old_content (stored c key w)) e val in
  exists w1,
    Set' c key val expiry w = Returns None w1
    /\ stored c key w1 = Some (File true content)
    /\ wrap_i64 e = (nanos (now w) + expiry) / 1000000000 - Time.unixToInternal
    /\ Time.Before (now w) (Time.Unix (wrap_i64 e)) = false
    /\ (Time.Before (now w) later = true \/ expiry < 0 \/ Time.nsec (now w) <> 0 ->
        exists w2,
          Get c key (set_now later w1) = Returns (None, Some errCacheMiss) w2
          /\ stored c key w2 = None)
    /\ (Time.Before (now w) later = false -> expiry = 0 -> Time.nsec (now w) = 0 ->
        exists w2,
          Get c key (set_now later w1)
          = Returns (Some (val ++ skipn (8 + List.length val)
                                    (old_content (stored c key w))), None) w2
          /\ stored c key w2 = Some (File true content)).
Proof.
  intros Hidle Hready Hsane Hexp Hneg Hlater Hnotbefore e content.
  destruct (Set_runs c key val expiry w Hidle Hready) as [w1 HSet].
  destruct (Set_ok c key val expiry w w1 Hidle HSet) as (Hst & Hidle1 & Hnow1).
  fold e in Hst. fold content in Hst.
  exists w1. split; [exact HSet|]. split; [exact Hst|].
  pose proof (header_written (now w) expiry Hsane Hexp) as Hhdr. fold e in Hhdr.
  split; [exact Hhdr|].
  destruct (Add_nanos (now w) expiry Hsane Hexp) as (Hnanos & Hns & Hsec).
  pose proof (Add_whole_second (now w) expiry Hsane Hexp) as Hdiv.
  assert (Hexpires : Time.Unix (wrap_i64 e)
     = {| Time.sec := Time.sec (Time.Add (now w) expiry); Time.nsec := 0 |})
    by (apply expiry_written; assumption).
  assert (Hwritten : nanos (Time.Unix (wrap_i64 e))
                     = (nanos (now w) + expiry) / 1000000000 * 1000000000).
  { rewrite Hexpires. unfold nanos at 1. cbn [Time.sec Time.nsec]. rewrite Hdiv. lia. }
  pose proof (Z.mod_pos_bound (nanos (now w) + expiry) 1000000000 ltac:(lia)) as Hmod.
  pose proof (Z.div_mod (nanos (now w) + expiry) 1000000000 ltac:(lia)) as Hdm.
  destruct Hsane as [Hs Hn].
  assert (Hn0 : 0 <= Time.nsec (Time.Unix (wrap_i64 e)) < 1000000000)
    by (rewrite Hexpires; cbn; lia).
  rewrite Before_nanos in Hnotbefore by assumption. apply Z.ltb_ge in Hnotbefore.
  assert (Hv : Uint64 (header_of content) = Some e).
  { unfold content. rewrite entry_over_header. rewrite <- (app_nil_r (PutUint64 e)).
    apply Uint64_PutUint64, wrap_u64_range. }
  pose proof (Get_file c key (set_now later w1) _ e Hidle1 Hst Hv) as HGet.
  cbn [now set_now] in HGet.
  rewrite (Before_nanos (Time.Unix (wrap_i64 e)) later) in HGet by assumption.
  split; [|split].
  - rewrite Before_nanos by assumption. apply Z.ltb_ge. lia.
  - intros Hcase.
    assert (Hlt : nanos (Time.Unix (wrap_i64 e)) < nanos later).
    { destruct Hcase as [Hb|[Hb|Hb]].
      - rewrite Before_nanos in Hb by assumption. apply Z.ltb_lt in Hb. lia.
      - lia.
      - assert (Hexp0 : expiry = 0 \/ expiry < 0) by lia.
        destruct Hexp0 as [->|]; [|lia].
        rewrite Hwritten. rewrite Z.add_0_r in *. unfold nanos in *.
        assert (Hq : (Time.sec (now w) * 1000000000 + Time.nsec (now w)) / 1000000000
                     = Time.sec (now w))
          by (symmetry; apply (Z.div_unique_pos _ _ _ (Time.nsec (now w))); lia).
        rewrite Hq. lia. }
    apply Z.ltb_lt in Hlt. rewrite Hlt in HGet.
    eexists. split; [exact HGet|].
    exact (stored_after_remove c key (set_now later w1) _ _ Hst).
  - intros Hsame -> Hzero.
    rewrite Before_nanos in Hsame by assumption. apply Z.ltb_ge in Hsame.
    assert (Hge : nanos later <= nanos (Time.Unix (wrap_i64 e))).
    { rewrite Hwritten. rewrite Z.add_0_r. unfold nanos in *. rewrite Hzero in *.
      rewrite Z.add_0_r. rewrite Z.div_mul by lia. lia. }
    apply Z.ltb_ge in Hge. rewrite Hge in HGet.
    replace (8 <=? List.length content)%nat with true in HGet
      by (symmetry; apply Nat.leb_le, entry_over_length).
    eexists. split.
    + rewrite HGet. reflexivity.
    + exact Hst.
Qed.

(** ** The vacuum pass as a function on trees *)

Lemma sweep_dir t es :
  sweep t (Dir true es)
  = (let '(e, b, es') := sweep_each t es in
     (e, if b then Became (Dir true es') else Unchanged)).
Proof. reflexivity. Qed.

Lemma sweep_each_cons t name child rest :
  sweep_each t ((name, child) :: rest)
  = match sweep t child with
    | (Some e, ch) => (Some e, touched ch, entry_after name child ch rest)
    | (None, ch) =>
        let '(e, b, rest') := sweep_each t rest in
        (e, touched ch || b, entry_after name child ch rest')
    end.
Proof. reflexivity. Qed.

(** *** Listings in increasing order *)

Lemma string_ltb_asym a b : String.ltb a b = true -> String.ltb b a = false.
Proof.
  unfold String.ltb. rewrite (String.compare_antisym a b).
  destruct (String.compare b a); cbn; congruence.
Qed.

Lemma string_ltb_neq a b : String.ltb a b = true -> a <> b.
Proof. intros H ->. now rewrite string_ltb_irrefl in H. Qed.

Lemma assoc_mid name child done rest :
  below name done -> assoc name (done ++ (name, child) :: rest) = Some child.
Proof.
  induction 1 as [|[a n] done Ha _ IH]; cbn.
  - now rewrite String.eqb_refl.
  - cbn in Ha. apply string_ltb_neq in Ha.
    destruct (String.eqb_spec name a); [congruence | exact IH].
Qed.

Lemma remove_entry_mid name child done rest :
  below name done -> above name rest ->
  remove_entry name (done ++ (name, child) :: rest) = done ++ rest.
Proof.
  intros Hd Hr. induction Hd as [|[a n] done Ha _ IH]; cbn.
  - rewrite String.eqb_refl. induction Hr as [|[a n] rest Ha _ IH]; [reflexivity|].
    cbn in Ha |- *. apply string_ltb_neq in Ha.
    destruct (String.eqb_spec name a); [congruence | now rewrite IH].
  - cbn in Ha. apply string_ltb_neq in Ha.
    destruct (String.eqb_spec name a); [congruence | now rewrite IH].
Qed.

Lemma insert_entry_mid name n done rest :
  below name done -> above name rest ->
  insert_entry name n (done ++ rest) = done ++ (name, n) :: rest.
Proof.
  intros Hd Hr. induction Hd as [|[a x] done Ha _ IH]; cbn.
  - destruct Hr as [|[a x] rest Ha _]; [reflexivity|].
    cbn in Ha |- *. now rewrite (string_ltb_asym _ _ Ha).
  - cbn in Ha. now rewrite Ha, IH.
Qed.

Lemma set_entry_mid name child x done rest :
  below name done -> above name rest ->
  set_entry name x (done ++ (name, child) :: rest)
  = done ++ match x with Some n => (name, n) :: rest | None => rest end.
Proof.
  intros Hd Hr. unfold set_entry. rewrite remove_entry_mid by assumption.
  destruct x; [now apply insert_entry_mid | reflexivity].
Qed.

Lemma remove_entry_insert c n es :
  remove_entry c (insert_entry c n es) = remove_entry c es.
Proof.
  induction es as [|[a x] es IH]; cbn.
  - now rewrite String.eqb_refl.
  - destruct (String.ltb a c) eqn:E; cbn.
    + rewrite IH. reflexivity.
    + now rewrite String.eqb_refl.
Qed.

Lemma remove_entry_twice c es :
  remove_entry c (remove_entry c es) = remove_entry c es.
Proof.
  induction es as [|[a x] es IH]; cbn; [reflexivity|].
  destruct (String.eqb c a) eqn:E; [exact IH|]. cbn. now rewrite E, IH.
Qed.

Lemma set_entry_twice c a b es :
  set_entry c a (set_entry c b es) = set_entry c a es.
Proof.
  unfold set_entry. destruct a, b;
    rewrite ?remove_entry_insert, ?remove_entry_twice; reflexivity.
Qed.

(** *** Updates below a replaced node *)

Lemma fs_put_here x n : fs_put [] (Some x) n = x.
Proof. reflexivity. Qed.

Lemma fs_put_cons2 c c' cs x l es :
  fs_put (c :: c' :: cs) x (Dir l es)
  = match assoc c es with
    | Some child => Dir l (set_entry c (Some (fs_put (c' :: cs) x child)) es)
    | None => Dir l es
    end.
Proof. reflexivity. Qed.

Lemma fs_put_one c x l es : fs_put [c] x (Dir l es) = Dir l (set_entry c x es).
Proof. reflexivity. Qed.

Lemma fs_put_under cs : forall qs x m n,
  fs_lookup cs n <> None -> qs <> [] ->
  fs_put (cs ++ qs) x (fs_put cs (Some m) n) = fs_put cs (Some (fs_put qs x m)) n.
Proof.
  induction cs as [|c cs IH]; intros qs x m n Hex Hqs; [reflexivity|].
  destruct n as [|l es]; [cbn in Hex; congruence|].
  cbn [fs_lookup] in Hex. destruct (assoc c es) as [child|] eqn:Hc; [|congruence].
  destruct cs as [|c' cs'].
  - destruct qs as [|q qs']; [congruence|].
    rewrite !fs_put_one. change ([c] ++ q :: qs') with (c :: q :: qs').
    rewrite fs_put_cons2, assoc_set_same. now rewrite set_entry_twice.
  - change ((c :: c' :: cs') ++ qs) with (c :: c' :: (cs' ++ qs)).
    rewrite !fs_put_cons2, Hc. rewrite fs_put_cons2.
    rewrite assoc_set_same, set_entry_twice.
    change (c' :: cs' ++ qs) with ((c' :: cs') ++ qs).
    rewrite IH by assumption. reflexivity.
Qed.

Lemma fs_lookup_under cs qs m n :
  fs_lookup cs n <> None ->
  fs_lookup (cs ++ qs) (fs_put cs (Some m) n) = fs_lookup qs m.
Proof.
  intros Hex. rewrite fs_lookup_app.
  destruct cs as [|c cs'] eqn:E; [reflexivity|]. rewrite <- E in *.
  destruct (fs_lookup cs n) as [old|] eqn:Hold; [|congruence].
  rewrite (fs_lookup_put_existing cs n (Some m) old); [reflexivity | | exact Hold].
  rewrite E. discriminate.
Qed.

(** *** The callback of vacuum on a file *)

Lemma vacuumFn_file path o d :
  vacuumFn path (Some (File o d)) None
  = (mu <- pm_MutexAt (Filepath.Base path) ;;
     lift_pm (Lock mu) ;;
     defer (lift_pm (Unlock mu)) (vacuum_body path)).
Proof. reflexivity. Qed.

Lemma firstn_repeat_le {A} (x : A) k : forall n,
  (k <= n)%nat -> firstn k (repeat x n) = repeat x k.
Proof.
  induction k as [|k IH]; intros n Hn; [reflexivity|].
  destruct n as [|n]; [lia|]. cbn. f_equal. apply IH. lia.
Qed.

Lemma read_header d :
  firstn 8 d ++ repeat x00 (8 - List.length (firstn 8 d)) = header_of d.
Proof.
  unfold header_of, readfile_cap. rewrite firstn_app.
  f_equal. rewrite length_firstn.
  destruct (Nat.le_gt_cases 8 (List.length d)).
  - replace (8 - List.length d)%nat with 0%nat by lia.
    replace (8 - Nat.min 8 (List.length d))%nat with 0%nat by lia. reflexivity.
  - replace (Nat.min 8 (List.length d)) with (List.length d) by lia.
    symmetry. apply firstn_repeat_le. lia.
Qed.

Lemma vacuum_body_file path w o d :
  fs_lookup (namei path) (fs w) = Some (File o d) ->
  vacuum_body path w
  = Returns None
      (if vacuum_removes (now w) (File o d)
       then set_fs (fs_put (namei path) None (fs w)) w
       else w).
Proof.
  intros Hst.
  assert (Hne : namei path <> []) by (eapply fs_lookup_file_nil; [|exact Hst]; reflexivity).
  unfold vacuum_body. unfold bind at 1. unfold os_Open. rewrite namei_Clean, Hst.
  destruct o; [|reflexivity].
  unfold bind at 1. unfold file_Read. cbn [f_names f_off]. rewrite Hst.
  rewrite skipn_O. rewrite read_header.
  unfold vacuum_removes, expired, decoded.
  destruct (Uint64_header d) as [v Hv]. rewrite Hv.
  rewrite length_firstn.
  destruct (List.length d) as [|k] eqn:Hlen.
  - reflexivity.
  - replace (Nat.min 8 (S k) =? 0)%nat with false
      by (symmetry; apply Nat.eqb_neq; lia).
    cbn [andb negb Nat.eqb].
    unfold bind at 1. unfold file_Close, ret at 1.
    unfold bind at 1. unfold le_Uint64, slice_bytes. cbn [arr len].
    rewrite firstn_all2 by (rewrite header_of_length; lia).
    rewrite Hv. unfold ret at 1. unfold bind at 1. unfold time_Now.
    destruct (Time.Before (Time.Unix (wrap_i64 v)) (now w)); cbn [negb].
    + unfold bind, os_Remove, ret. rewrite Hst.
      destruct (namei path); [congruence | reflexivity].
    + reflexivity.
Qed.

Lemma vacuumFn_idle path w o d :
  idle (pm w) ->
  vacuumFn path (Some (File o d)) None w
  = match vacuum_body path (set_pm (holding true (Filepath.Base path) (pm w)) w) with
    | Returns a w' =>
        match lift_pm (Unlock (List.length (cells (pm w)))) w' with
        | Returns _ w'' => Returns a w''
        | Panics w'' => Panics w''
        | Blocks => Blocks
        | Aborts => Aborts
        end
    | Panics w' =>
        match lift_pm (Unlock (List.length (cells (pm w)))) w' with
        | Returns _ w'' => Panics w''
        | Panics w'' => Panics w''
        | Blocks => Blocks
        | Aborts => Aborts
        end
    | Blocks => Blocks
    | Aborts => Aborts
    end.
Proof.
  intros Hidle. rewrite vacuumFn_file.
  destruct (lock_cycle_idle true (Filepath.Base path) (pm w) Hidle) as (Hfl & Hlock & _).
  cbv zeta in *. unfold bind at 1. unfold pm_MutexAt.
  destruct (MutexAt (Filepath.Base path) (pm w)) as [fl m1] eqn:HM.
  cbn [fst snd] in *. subst fl.
  unfold bind at 1. unfold lift_pm at 1. cbn [pm set_pm]. rewrite Hlock.
  reflexivity.
Qed.

Lemma vacuumFn_file_idle path w o d :
  idle (pm w) ->
  fs_lookup (namei path) (fs w) = Some (File o d) ->
  vacuumFn path (Some (File o d)) None w
  = Returns None
      (set_pm (released (Filepath.Base path) (pm w))
         (if vacuum_removes (now w) (File o d)
          then set_fs (fs_put (namei path) None (fs w)) w
          else w)).
Proof.
  intros Hidle Hst. rewrite vacuumFn_idle by assumption.
  rewrite (vacuum_body_file path (set_pm (holding true (Filepath.Base path) (pm w)) w) o d Hst).
  cbn [now set_pm].
  rewrite (unlock_after true (Filepath.Base path) w _ Hidle)
    by (destruct (vacuum_removes (now w) (File o d)); reflexivity).
  destruct (vacuum_removes (now w) (File o d)); reflexivity.
Qed.

(** *** The walk computes the pass *)

Lemma fs_put_deeper cs : forall qs x n l es,
  fs_lookup cs n = Some (Dir l es) -> qs <> [] ->
  fs_put (cs ++ qs) x n = fs_put cs (Some (fs_put qs x (Dir l es))) n.
Proof.
  induction cs as [|c cs IH]; intros qs x n l es Hl Hqs.
  - cbn in Hl. injection Hl as ->. reflexivity.
  - destruct n as [|lF esF]; [discriminate|].
    cbn [fs_lookup] in Hl. destruct (assoc c esF) as [child|] eqn:Hc; [|discriminate].
    destruct cs as [|c' cs'].
    + cbn in Hl. injection Hl as ->.
      destruct qs as [|q qs']; [congruence|].
      change ([c] ++ q :: qs') with (c :: q :: qs').
      now rewrite fs_put_cons2, Hc, fs_put_one.
    + change ((c :: c' :: cs') ++ qs) with (c :: c' :: (cs' ++ qs)).
      rewrite !fs_put_cons2, Hc.
      change (c' :: cs' ++ qs) with ((c' :: cs') ++ qs).
      now rewrite (IH qs x child l es Hl Hqs).
Qed.

Lemma fs_put_twice cs : forall x y n,
  fs_lookup cs n <> None ->
  fs_put cs (Some x) (fs_put cs (Some y) n) = fs_put cs (Some x) n.
Proof.
  induction cs as [|c cs IH]; intros x y n Hex; [reflexivity|].
  destruct n as [|l es]; [reflexivity|].
  cbn [fs_lookup] in Hex. destruct (assoc c es) as [child|] eqn:Hc; [|congruence].
  destruct cs as [|c' cs'].
  - rewrite !fs_put_one. now rewrite set_entry_twice.
  - rewrite !fs_put_cons2, Hc. rewrite fs_put_cons2, assoc_set_same, set_entry_twice.
    now rewrite IH.
Qed.

Lemma fs_lookup_put_self cs m n :
  fs_lookup cs n <> None -> fs_lookup cs (fs_put cs (Some m) n) = Some m.
Proof.
  intros Hex. rewrite <- (app_nil_r cs) at 1. now rewrite fs_lookup_under.
Qed.

Lemma walk_dir fn path l es :
  walk fn path (Dir l es)
  = (err1 <- fn path (Some (Dir l es)) (if l then None else Some errWalk) ;;
     match (if l then None else Some errWalk), err1 with
     | None, None => walk_each (walk fn) path es
     | _, _ => ret err1
     end).
Proof. reflexivity. Qed.

Lemma wf_dir l es :
  wf_node (Dir l es) = sorted_names (map fst es) && wf_each es.
Proof. reflexivity. Qed.

Lemma forallb_ltb_above name (es : dirents) :
  forallb (String.ltb name) (map fst es) = true -> above name es.
Proof.
  induction es as [|[a n] es IH]; cbn; [constructor|].
  intros H. apply andb_prop in H as [H1 H2]. constructor; [exact H1 | now apply IH].
Qed.

Lemma sweep_each_untouched t es :
  snd (fst (sweep_each t es)) = false -> snd (sweep_each t es) = es.
Proof.
  induction es as [|[name child] rest IH]; [reflexivity|].
  rewrite sweep_each_cons.
  destruct (sweep t child) as [[e|] ch]; cbn [fst snd].
  - destruct ch; cbn; (discriminate || reflexivity).
  - destruct (sweep_each t rest) as [[e2 b2] rest']. cbn [fst snd] in *.
    intros H. apply orb_false_elim in H as [Hch Hb]. rewrite (IH Hb).
    destruct ch; (discriminate || reflexivity).
Qed.

Lemma walk_each_sweep es :
  Forall (fun p => walk_computes_sweep (snd p)) es ->
  forall done path w,
    sorted_names (map fst es) = true -> wf_each es = true ->
    Forall (fun d => above (fst d) es) done ->
    idle (pm w) ->
    fs_lookup (namei path) (fs w) = Some (Dir true (done ++ es)) ->
    exists w',
      walk_each (walk vacuumFn) path es w
      = Returns (fst (fst (sweep_each (now w) es))) w'
      /\ fs w' = (if snd (fst (sweep_each (now w) es))
                  then fs_put (namei path)
                         (Some (Dir true (done ++ snd (sweep_each (now w) es)))) (fs w)
                  else fs w)
      /\ idle (pm w') /\ now w' = now w.
Proof.
  induction 1 as [|[name child] rest Hchild _ IH]; intros done path w Hsorted Hwf Hdone Hidle Hdir.
  - exists w. cbn. repeat split; try reflexivity; assumption.
  - cbn [map fst sorted_names] in Hsorted. apply andb_prop in Hsorted as [Habove Hsorted].
    apply forallb_ltb_above in Habove.
    cbn in Hwf. apply andb_prop in Hwf as [Hwf Hwfrest].
    apply andb_prop in Hwf as [Hname Hwfchild].
    assert (Hbelow : below name done).
    { eapply Forall_impl; [|exact Hdone]. cbn. intros d Hd. now inversion Hd. }
    assert (Hex : fs_lookup (namei path) (fs w) <> None) by congruence.
    assert (Hlook : fs_lookup (namei (Filepath.Join [path; name])) (fs w) = Some child).
    { rewrite namei_Join by assumption. rewrite fs_lookup_app, Hdir.
      cbn [fs_lookup]. now rewrite assoc_mid. }
    destruct (Hchild _ _ Hwfchild Hidle Hlook) as (w1 & Hwalk & Hfs1 & Hidle1 & Hnow1).
    cbn [snd] in *. rewrite namei_Join in Hfs1 by assumption.
    assert (Hdir1 : fs_lookup (namei path) (fs w1)
                    = Some (Dir true (done ++ entry_after name child
                                               (snd (sweep (now w) child)) rest))
                    /\ fs w1 = (if touched (snd (sweep (now w) child))
                                then fs_put (namei path)
                                       (Some (Dir true (done ++ entry_after name child
                                               (snd (sweep (now w) child)) rest))) (fs w)
                                else fs w)).
    { rewrite Hfs1. unfold entry_after.
      destruct (snd (sweep (now w) child)) as [| |child'] eqn:Hch; cbn [apply_change after touched].
      - split; [exact Hdir | reflexivity].
      - rewrite (fs_put_deeper _ [name] None _ _ _ Hdir) by discriminate.
        rewrite fs_put_one, set_entry_mid by assumption.
        split; [now apply fs_lookup_put_self | reflexivity].
      - rewrite (fs_put_deeper _ [name] (Some child') _ _ _ Hdir) by discriminate.
        rewrite fs_put_one, set_entry_mid by assumption.
        split; [now apply fs_lookup_put_self | reflexivity]. }
    destruct Hdir1 as [Hdir1 Hfs1'].
    change (walk_each (walk vacuumFn) path ((name, child) :: rest) w)
      with ((e <- walk vacuumFn (Filepath.Join [path; name]) child ;;
             match e with
             | Some _ => ret e
             | None => walk_each (walk vacuumFn) path rest
             end) w).
    unfold bind at 1. rewrite Hwalk. rewrite sweep_each_cons.
    destruct (sweep (now w) child) as [[e|] ch] eqn:Hsw; cbn [fst snd] in *.
    + exists w1. repeat split; assumption.
    + set (done1 := match after child ch with
                    | Some child' => done ++ [(name, child')]
                    | None => done
                    end).
      assert (Hshape : forall tail, done1 ++ tail = done ++ entry_after name child ch tail).
      { intros tail. unfold done1, entry_after.
        destruct (after child ch); [now rewrite <- app_assoc | reflexivity]. }
      assert (Hdone1 : Forall (fun d => above (fst d) rest) done1).
      { assert (H0 : Forall (fun d => above (fst d) rest) done).
        { eapply Forall_impl; [|exact Hdone]. cbn. intros d Hd. now inversion Hd. }
        unfold done1. destruct (after child ch); [|exact H0].
        apply Forall_app. split; [exact H0 | now constructor]. }
      rewrite <- Hshape in Hdir1.
      destruct (IH done1 path w1 Hsorted Hwfrest Hdone1 Hidle1 Hdir1)
        as (w2 & Hwalk2 & Hfs2 & Hidle2 & Hnow2).
      rewrite Hnow1 in Hwalk2, Hfs2.
      destruct (sweep_each (now w) rest) as [[e2 b2] rest'] eqn:Hrest.
      cbn [fst snd] in *.
      exists w2. split; [exact Hwalk2|]. split; [|split; [exact Hidle2 | congruence]].
      rewrite Hfs2. rewrite Hshape. destruct b2.
      * rewrite Hfs1'. destruct (touched ch); cbn [orb]; [|reflexivity].
        now rewrite fs_put_twice.
      * rewrite orb_false_r. rewrite Hfs1'.
        destruct (touched ch) eqn:Ht; [|reflexivity].
        pose proof (sweep_each_untouched (now w) rest) as Hsame.
        rewrite Hrest in Hsame. cbn [fst snd] in Hsame. now rewrite Hsame.
Qed.

Lemma walk_sweep n : walk_computes_sweep n.
Proof.
  induction n as [o d|l es IH] using node_rect'; intros path w Hwf Hidle Hlook.
  - change (walk vacuumFn path (File o d) w)
      with (vacuumFn path (Some (File o d)) None w).
    rewrite vacuumFn_file_idle by assumption.
    assert (Hne : namei path <> [])
      by (eapply fs_lookup_file_nil; [|exact Hlook]; reflexivity).
    eexists. split; [reflexivity|]. cbn [sweep fst snd].
    destruct (vacuum_removes (now w) (File o d)); cbn [apply_change].
    + split; [|split; reflexivity]. rewrite fs_set_pm. now apply fs_set_put.
    + split; [|split; reflexivity]. reflexivity.
  - rewrite walk_dir. destruct l.
    + unfold bind at 1. cbn [vacuumFn]. unfold ret at 1.
      rewrite wf_dir in Hwf. apply andb_prop in Hwf as [Hsorted Hwf].
      destruct (walk_each_sweep es IH [] path w Hsorted Hwf (Forall_nil _) Hidle Hlook)
        as (w' & Hwalk & Hfs & Hidle' & Hnow').
      exists w'. rewrite sweep_dir.
      destruct (sweep_each (now w) es) as [[e b] es'] eqn:Hsw. cbn [fst snd] in *.
      split; [exact Hwalk|]. split; [|split; assumption].
      rewrite Hfs. destruct b; reflexivity.
    + exists w. repeat split; try reflexivity; assumption.
Qed.

(** One tick of vacuum on an idle cache whose directory exists: the walk
    ends, and the tree of the cache is the swept tree. *)
Lemma vacuum_tick_sweeps c w n :
  idle (pm w) -> wf_node n = true ->
  resolve (path c) (fs w) = Some n ->
  exists w',
    vacuum_tick c w = Returns tt w'
    /\ fs w' = apply_change (namei (path c)) (snd (sweep (now w) n)) (fs w)
    /\ idle (pm w') /\ now w' = now w.
Proof.
  intros Hidle Hwf Hres. pose proof (resolve_lexical _ _ _ Hres) as Hlook.
  destruct (walk_sweep n (path c) w Hwf Hidle Hlook) as (w' & Hwalk & Hfs & Hidle' & Hnow').
  exists w'. split; [|repeat split; assumption].
  unfold vacuum_tick, Walk. unfold bind at 1. unfold bind at 1. unfold os_Lstat.
  rewrite Hres, Hwalk. reflexivity.
Qed.

(** When [Lstat] finds nothing at the path of the cache, the callback is
    handed the error and returns it: the tick changes nothing. *)
Lemma vacuum_tick_unresolved c w :
  resolve (path c) (fs w) = None -> vacuum_tick c w = Returns tt w.
Proof.
  intros Hres. unfold vacuum_tick, Walk, bind, os_Lstat. rewrite Hres. reflexivity.
Qed.

(** *** What a pass leaves *)

Lemma assoc_above name es : above name es -> assoc name es = None.
Proof.
  induction 1 as [|[a n] es Ha _ IH]; [reflexivity|].
  cbn in Ha |- *. apply string_ltb_neq in Ha.
  destruct (String.eqb_spec name a); [congruence | exact IH].
Qed.

Lemma assoc_app q (a b : dirents) :
  assoc q (a ++ b) = match assoc q a with Some x => Some x | None => assoc q b end.
Proof.
  induction a as [|[c n] a IH]; [reflexivity|]. cbn.
  destruct (String.eqb q c); [reflexivity | exact IH].
Qed.

Lemma all_listable_dir l es :
  all_listable (Dir l es) = l && all_listable_each es.
Proof. reflexivity. Qed.

Lemma swept_dir t es :
  swept t (Dir true es) = Some (Dir true (snd (sweep_each t es))).
Proof.
  unfold swept. rewrite sweep_dir.
  pose proof (sweep_each_untouched t es) as Hsame.
  destruct (sweep_each t es) as [[e b] es']. cbn [fst snd] in *.
  destruct b; cbn [after]; [reflexivity|]. now rewrite Hsame.
Qed.

Lemma sweep_each_reaches_all t es :
  Forall (fun p => sweep_reaches_all t (snd p)) es ->
  all_listable_each es = true -> wf_each es = true ->
  sorted_names (map fst es) = true ->
  fst (fst (sweep_each t es)) = None
  /\ forall q, assoc q (snd (sweep_each t es))
               = match assoc q es with
                 | Some child => swept t child
                 | None => None
                 end.
Proof.
  induction 1 as [|[name child] rest Hchild _ IH]; intros Hall Hwf Hsorted.
  - split; reflexivity.
  - cbn in Hall. apply andb_prop in Hall as [Hallc Hallr].
    cbn in Hwf. apply andb_prop in Hwf as [Hwf Hwfr].
    apply andb_prop in Hwf as [Hname Hwfc].
    cbn [map fst sorted_names] in Hsorted. apply andb_prop in Hsorted as [Habove Hsorted].
    apply forallb_ltb_above in Habove.
    destruct (Hchild Hallc Hwfc) as [Hno _]. cbn [snd] in Hno.
    destruct (IH Hallr Hwfr Hsorted) as [Hnor Hassoc].
    rewrite sweep_each_cons. unfold swept in *.
    destruct (sweep t child) as [e ch] eqn:Hsw. cbn [fst snd] in *. subst e.
    destruct (sweep_each t rest) as [[e2 b2] rest']. cbn [fst snd] in *.
    split; [exact Hnor|].
    intros q. unfold entry_after. cbn [assoc].
    destruct (String.eqb_spec q name) as [->|Hne]; rewrite ?Hsw; cbn [snd].
    + destruct (after child ch) as [child'|]; cbn [assoc].
      * now rewrite String.eqb_refl.
      * rewrite Hassoc. now rewrite (assoc_above _ _ Habove).
    + destruct (after child ch) as [child'|]; cbn [assoc].
      * destruct (String.eqb_spec q name); [congruence | apply Hassoc].
      * apply Hassoc.
Qed.

Lemma sweep_all t n : sweep_reaches_all t n.
Proof.
  induction n as [o d|l es IH] using node_rect'; intros Hall Hwf.
  - split; [reflexivity|]. intros [|q qs] o' d' Hl; [|discriminate].
    cbn in Hl. injection Hl as <- <-. unfold swept. cbn [sweep snd].
    destruct (vacuum_removes t (File o d)); reflexivity.
  - rewrite all_listable_dir in Hall. apply andb_prop in Hall as [-> Hall].
    rewrite wf_dir in Hwf. apply andb_prop in Hwf as [Hsorted Hwf].
    destruct (sweep_each_reaches_all t es IH Hall Hwf Hsorted) as [Hno Hassoc].
    split.
    + rewrite sweep_dir. destruct (sweep_each t es) as [[e b] es']. exact Hno.
    + intros [|q qs] o d Hl; [discriminate|].
      rewrite swept_dir. cbn [lookup_in fs_lookup] in *. rewrite Hassoc.
      destruct (assoc q es) as [child|] eqn:Hq; [|discriminate].
      assert (Hin : In (q, child) es).
      { clear -Hq. induction es as [|[a n] es IH]; [discriminate|].
        cbn in Hq. destruct (String.eqb_spec q a) as [->|].
        - injection Hq as ->. now left.
        - right. now apply IH. }
      rewrite Forall_forall in IH. specialize (IH _ Hin). cbn [snd] in IH.
      assert (Hc : all_listable child = true /\ wf_node child = true).
      { clear -Hin Hall Hwf. induction es as [|[a n] es IHes]; [contradiction|].
        cbn in Hall, Hwf.
        apply andb_prop in Hall as [H1 H2]. apply andb_prop in Hwf as [H3 H4].
        apply andb_prop in H3 as [_ H3].
        destruct Hin as [[= -> ->]|Hin]; [now split | now apply IHes]. }
      destruct Hc as [Hc1 Hc2]. destruct (IH Hc1 Hc2) as [_ Hfiles].
      specialize (Hfiles qs o d Hl). unfold lookup_in in Hfiles.
      destruct (swept t child); exact Hfiles.
Qed.

(** ** The vacuum pass and the entries of the cache *)

Lemma sweep_removed_file t n : snd (sweep t n) = Removed -> IsDir n = false.
Proof.
  destruct n as [o d|[|] es]; [reflexivity| |discriminate].
  rewrite sweep_dir. destruct (sweep_each t es) as [[e b] es']. cbn.
  destruct b; discriminate.
Qed.

Lemma apply_change_lookup cs qs ch n F :
  fs_lookup cs F = Some n -> (ch = Removed -> cs <> []) ->
  fs_lookup (cs ++ qs) (apply_change cs ch F) = lookup_in qs (after n ch).
Proof.
  intros Hl Hne. destruct ch as [| |n']; cbn [apply_change after lookup_in].
  - now rewrite fs_lookup_app, Hl.
  - rewrite fs_lookup_app.
    now rewrite (fs_lookup_put_existing cs F None n (Hne eq_refl) Hl).
  - apply fs_lookup_under. congruence.
Qed.

(** One tick on an idle cache: the walk returns what the pass returns, and
    below the cache directory the file system is the swept tree. *)
Lemma vacuum_tick_lookup c w n :
  idle (pm w) -> wf_node n = true ->
  resolve (path c) (fs w) = Some n ->
  exists w',
    Walk (path c) vacuumFn w = Returns (fst (sweep (now w) n)) w'
    /\ vacuum_tick c w = Returns tt w'
    /\ (forall qs, fs_lookup (namei (path c) ++ qs) (fs w')
                   = lookup_in qs (swept (now w) n))
    /\ idle (pm w') /\ now w' = now w.
Proof.
  intros Hidle Hwf Hres. pose proof (resolve_lexical _ _ _ Hres) as Hlook.
  destruct (walk_sweep n (path c) w Hwf Hidle Hlook) as (w' & Hwalk & Hfs & Hidle' & Hnow').
  assert (HWalk : Walk (path c) vacuumFn w = Returns (fst (sweep (now w) n)) w').
  { unfold Walk. unfold bind at 1. unfold os_Lstat. now rewrite Hres. }
  exists w'. split; [exact HWalk|]. split.
  { unfold vacuum_tick. unfold bind at 1. now rewrite HWalk. }
  split; [|split; assumption].
  intros qs. rewrite Hfs. apply apply_change_lookup; [exact Hlook|].
  intros Hrem. apply sweep_removed_file in Hrem.
  destruct n; [|discriminate]. eapply fs_lookup_file_nil; [|exact Hlook]. reflexivity.
Qed.

Lemma vacuum_removes_unreadable t o d :
  o = false \/ d = [] -> vacuum_removes t (File o d) = false.
Proof. intros [-> | ->]; [reflexivity|]. now destruct o. Qed.

Lemma vacuum_removes_full t d :
  (8 <= List.length d)%nat -> vacuum_removes t (File true d) = expired t d.
Proof.
  intros H. unfold vacuum_removes.
  destruct (List.length d); [lia | reflexivity].
Qed.

Lemma wf_each_member es q child :
  wf_each es = true -> assoc q es = Some child ->
  In (q, child) es /\ wf_node child = true.
Proof.
  induction es as [|[a n] es IH]; [discriminate|]. cbn.
  intros Hwf Hq. apply andb_prop in Hwf as [Hwf Hrest]. apply andb_prop in Hwf as [_ Hn].
  destruct (String.eqb_spec q a) as [->|Hne].
  - injection Hq as ->. split; [now left | exact Hn].
  - destruct (IH Hrest Hq) as [Hin Hc]. split; [now right | exact Hc].
Qed.

Lemma reached_cons q qs es :
  reached (q :: qs) (Dir true es)
  = match assoc q es with
    | Some child => way_open q es && reached qs child
    | None => false
    end.
Proof.
  cbn [reached]. induction es as [|[name child] rest IH]; [reflexivity|].
  cbn [assoc way_open]. destruct (String.eqb q name); [reflexivity|].
  rewrite IH. destruct (assoc q rest); [|apply andb_false_r].
  now rewrite andb_assoc.
Qed.

(** The pass ends with an error exactly when some directory cannot be
    listed. *)
Lemma sweep_error t n :
  fst (sweep t n) = if all_listable n then None else Some errWalk.
Proof.
  induction n as [o d|l es IH] using node_rect'; [reflexivity|].
  destruct l; [|reflexivity].
  rewrite sweep_dir, all_listable_dir. cbn [andb].
  assert (H : fst (fst (sweep_each t es))
              = if all_listable_each es then None else Some errWalk).
  { induction IH as [|[name child] rest Hchild _ IHrest]; [reflexivity|].
    rewrite sweep_each_cons. cbn [snd] in Hchild. cbn [all_listable_each].
    fold all_listable_each.
    destruct (sweep t child) as [e ch]. cbn [fst] in Hchild. subst e.
    destruct (all_listable child); cbn [andb fst]; [|reflexivity].
    destruct (sweep_each t rest) as [[e2 b2] rest']. exact IHrest. }
  destruct (sweep_each t es) as [[e b] es']. exact H.
Qed.

(** What a pass leaves of a listing: the entries the walk got to are swept,
    the others are as they were. *)
Lemma sweep_each_way t es :
  sorted_names (map fst es) = true ->
  forall q,
    assoc q (snd (sweep_each t es))
    = match assoc q es with
      | Some child => if way_open q es then swept t child else Some child
      | None => None
      end.
Proof.
  induction es as [|[name child] rest IH]; intros Hsorted q; [reflexivity|].
  cbn [map fst sorted_names] in Hsorted. apply andb_prop in Hsorted as [Habove Hsorted].
  apply forallb_ltb_above in Habove.
  pose proof (assoc_above _ _ Habove) as Hnone.
  specialize (IH Hsorted).
  rewrite sweep_each_cons. unfold swept in *.
  pose proof (sweep_error t child) as Herr.
  destruct (sweep t child) as [e ch] eqn:Hsw. cbn [fst snd] in *.
  assert (Hgoal : forall rest',
            assoc name rest' = None ->
            assoc q (entry_after name child ch rest')
            = if String.eqb q name then after child ch else assoc q rest').
  { intros rest' Hn. unfold entry_after.
    destruct (String.eqb_spec q name) as [->|Hne].
    - destruct (after child ch) as [child'|]; cbn [assoc]; [|exact Hn].
      now rewrite String.eqb_refl.
    - destruct (after child ch) as [child'|]; cbn [assoc]; [|reflexivity].
      destruct (String.eqb_spec q name); [congruence | reflexivity]. }
  cbn [assoc way_open]. fold (way_open q).
  destruct e as [e|].
  - cbn [snd]. rewrite (Hgoal rest Hnone).
    destruct (String.eqb q name); [now rewrite Hsw|].
    destruct (all_listable child); [discriminate|]. cbn [andb].
    now destruct (assoc q rest).
  - destruct (sweep_each t rest) as [[e2 b2] rest'] eqn:Hrest. cbn [snd] in *.
    rewrite Hgoal by (now rewrite IH, Hnone).
    destruct (String.eqb q name); [now rewrite Hsw|].
    destruct (all_listable child); [|discriminate]. cbn [andb]. apply IH.
Qed.

(** What a pass does to the files of a tree: a file the walk got to goes
    when the callback decides so, every other file stays. *)
Lemma sweep_reaches t n :
  wf_node n = true ->
  forall qs o d,
    fs_lookup qs n = Some (File o d) ->
    lookup_in qs (swept t n)
    = if reached qs n && vacuum_removes t (File o d) then None else Some (File o d).
Proof.
  induction n as [o0 d0|l es IH] using node_rect'; intros Hwf qs o d Hl.
  - destruct qs as [|q qs]; [|discriminate].
    cbn in Hl. injection Hl as <- <-. unfold swept. cbn [sweep snd reached andb].
    destruct (vacuum_removes t (File o0 d0)); reflexivity.
  - destruct qs as [|q qs]; [discriminate|].
    destruct l.
    2:{ unfold swept. cbn [sweep snd after lookup_in reached andb]. exact Hl. }
    rewrite wf_dir in Hwf. apply andb_prop in Hwf as [Hsorted Hwf].
    rewrite swept_dir, reached_cons. cbn [lookup_in fs_lookup] in *.
    rewrite (sweep_each_way t es Hsorted q).
    destruct (assoc q es) as [child|] eqn:Hq; [|discriminate].
    destruct (wf_each_member es q child Hwf Hq) as [Hin Hwfc].
    rewrite Forall_forall in IH. specialize (IH _ Hin Hwfc qs o d Hl). cbn [snd] in IH.
    destruct (way_open q es); cbn [andb]; [|exact Hl].
    unfold lookup_in in IH. destruct (swept t child); exact IH.
Qed.

(** In a tree whose directories can all be listed the walk gets
    everywhere. *)
Lemma all_listable_reached n :
  all_listable n = true ->
  forall qs x, fs_lookup qs n = Some x -> reached qs n = true.
Proof.
  induction n as [o d|l es IH] using node_rect'; intros Hall qs x Hl.
  - destruct qs; [reflexivity | discriminate].
  - destruct qs as [|q qs]; [reflexivity|].
    rewrite all_listable_dir in Hall. apply andb_prop in Hall as [-> Hall].
    rewrite reached_cons. cbn [fs_lookup] in Hl.
    destruct (assoc q es) as [child|] eqn:Hq; [|discriminate].
    assert (H : way_open q es = true /\ all_listable child = true /\ In (q, child) es).
    { clear -Hq Hall. induction es as [|[a n] es IHes]; [discriminate|].
      cbn in Hq, Hall |- *. apply andb_prop in Hall as [H1 H2].
      destruct (String.eqb_spec q a) as [->|Hne].
      - injection Hq as ->. split; [reflexivity | split; [exact H1 | now left]].
      - destruct (IHes H2 Hq) as (Hw & Hc & Hin). fold (way_open q). rewrite H1, Hw.
        split; [reflexivity | split; [exact Hc | now right]]. }
    destruct H as (-> & Hc & Hin). cbn [andb].
    rewrite Forall_forall in IH. exact (IH _ Hin Hc qs x Hl).
Qed.

(** C3, as the code has it.  On an idle cache one tick of vacuum walks the
    tree [Lstat] finds at the path of the cache.  [Walk] returns an error
    exactly when some directory of the tree cannot be listed: the callback
    returns the walk error it is given, and that ends the walk.  A file
    that cannot be opened and an empty file stay in place, wherever they
    are, and so does every file the walk did not get to: one below a
    directory that cannot be listed, or that comes after such a directory in
    the order of the walk.  Every file with a full header the walk gets to
    is removed exactly when its expiry is before the clock reading, whatever
    other files there are.  In a tree whose directories can all be listed
    the walk gets to every file.  When [Lstat] finds nothing at the path of
    the cache, that error too is returned by the callback, and nothing
    changes. *)
Theorem vacuum_skips_bad_files_and_stops_at_walk_errors (c : fileCache) (w : World) :
  idle (pm w) ->
  (resolve (path c) (fs w) = None ->
   Walk (path c) vacuumFn w = Returns (Some errWalk) w
   /\ vacuum_tick c w = Returns tt w)
  /\ (forall n,
        resolve (path c) (fs w) = Some n -> wf_node n = true ->
        exists w',
          Walk (path c) vacuumFn w
          = Returns (if all_listable n then None else Some errWalk) w'
          /\ vacuum_tick c w = Returns tt w'
          /\ (forall qs o d,
                fs_lookup (namei (path c) ++ qs) (fs w) = Some (File o d) ->
                (o = false \/ d = [] \/ reached qs n = false ->
                 fs_lookup (namei (path c) ++ qs) (fs w') = Some (File o d))
                /\ (o = true -> (8 <= List.length d)%nat -> reached qs n = true ->
                    fs_lookup (namei (path c) ++ qs) (fs w')
                    = if expired (now w) d then None else Some (File o d)))
          /\ (all_listable n = true ->
              forall qs x, fs_lookup (namei (path c) ++ qs) (fs w) = Some x ->
                           reached qs n = true)).
Proof.
  intros Hidle. split.
  { intros Hres. split; [|now apply vacuum_tick_unresolved].
    unfold Walk, bind, os_Lstat. rewrite Hres. reflexivity. }
  intros n Hres Hwf. pose proof (resolve_lexical _ _ _ Hres) as Hlook.
  destruct (vacuum_tick_lookup c w n Hidle Hwf Hres)
    as (w' & HWalk & Htick & Hfs & _ & _).
  exists w'. rewrite sweep_error in HWalk.
  split; [exact HWalk|]. split; [exact Htick|]. split.
  - intros qs o d Hfile. rewrite fs_lookup_app, Hlook in Hfile.
    rewrite Hfs, (sweep_reaches (now w) n Hwf qs o d Hfile). split.
    + intros [Hbad|[Hbad|Hbad]].
      * rewrite vacuum_removes_unreadable by now left. now rewrite andb_false_r.
      * rewrite vacuum_removes_unreadable by now right. now rewrite andb_false_r.
      * now rewrite Hbad.
    + intros -> Hlen ->. now rewrite vacuum_removes_full.
  - intros Hall qs x Hx. rewrite fs_lookup_app, Hlook in Hx.
    exact (all_listable_reached n Hall qs x Hx).
Qed.

Lemma Before_unix_signed e s ns :
  0 <= e < 2 ^ 64 -> - 2 ^ 61 <= s <= 2 ^ 61 -> 0 <= ns < 1000000000 ->
  wrap_i64 e * 1000000000 < s * 1000000000 + ns ->
  Time.Before (Time.Unix (wrap_i64 e)) (Time.at_unix s ns) = true.
Proof.
  intros He Hs Hns Hlt.
  pose proof (wrap_i64_range e) as Hr.
  assert (wrap_i64 e <= s) by nia.
  unfold Time.Unix, Time.at_unix, Time.Before, Time.unixToInternal. cbn [Time.sec Time.nsec].
  rewrite (wrap_i64_small (wrap_i64 e + _)) by lia.
  destruct (Z.ltb_spec (wrap_i64 e + 62135596800) (s + 62135596800)); [reflexivity|].
  assert (wrap_i64 e = s) as -> by lia. rewrite Z.eqb_refl. cbn. apply Z.ltb_lt. lia.
Qed.

Lemma decoded_entry e payload :
  0 <= e < 2 ^ 64 -> decoded (PutUint64 e ++ payload) = e.
Proof.
  intros He. unfold decoded. rewrite header_of_entry.
  rewrite <- (app_nil_r (PutUint64 e)). now rewrite Uint64_PutUint64.
Qed.

(** C5, as the code has it.  An entry whose expiry, the header read as an
    [int64] count of seconds, lies strictly before the clock reading
    (seconds and nanoseconds) is removed by [Get], which reports a miss, and
    by one tick of vacuum over a cache tree [Lstat] finds and whose
    directories can be listed.  An entry that expires in the current second
    is covered when the nanosecond part of the clock is not zero; a header
    of [2 ^ 63] or more is an expiry before the epoch. *)
Theorem entries_past_their_expiry_are_removed
    (c : fileCache) (key : string) (w : World)
    (e : Z) (payload : list byte) (s ns : Z) :
  idle (pm w) ->
  now w = Time.at_unix s ns -> - 2 ^ 61 <= s <= 2 ^ 61 -> 0 <= ns < 1000000000 ->
  0 <= e < 2 ^ 64 ->
  wrap_i64 e * 1000000000 < s * 1000000000 + ns ->
  stored c key w = Some (File true (PutUint64 e ++ payload)) ->
  (exists w1,
     Get c key w = Returns (None, Some errCacheMiss) w1
     /\ stored c key w1 = None)
  /\ (forall n,
        resolve (path c) (fs w) = Some n ->
        wf_node n = true -> all_listable n = true ->
        exists w2, vacuum_tick c w = Returns tt w2 /\ stored c key w2 = None).
Proof.
  intros Hidle Hnow Hs Hns He Hlt Hst.
  pose proof (Before_unix_signed e s ns He Hs Hns Hlt) as Hbefore. rewrite <- Hnow in Hbefore.
  split.
  - assert (Hv : Uint64 (header_of (PutUint64 e ++ payload)) = Some e).
    { rewrite header_of_entry. rewrite <- (app_nil_r (PutUint64 e)).
      now apply Uint64_PutUint64. }
    rewrite (Get_file c key w _ e Hidle Hst Hv), Hbefore.
    eexists. split; [reflexivity|].
    exact (stored_after_remove c key w _ _ Hst).
  - intros n Hres Hwf Hall. pose proof (resolve_lexical _ _ _ Hres) as Hlook.
    destruct (vacuum_tick_lookup c w n Hidle Hwf Hres) as (w2 & _ & Htick & Hfs & _ & _).
    exists w2. split; [exact Htick|].
    destruct (namei_keyPath (path c) key) as (qs & _ & Hqs).
    unfold stored in *. rewrite Hqs in *. rewrite Hfs.
    rewrite fs_lookup_app, Hlook in Hst.
    destruct (sweep_all (now w) n Hall Hwf) as [_ Hfiles].
    rewrite (Hfiles qs _ _ Hst). rewrite vacuum_removes_full.
    + unfold expired. rewrite decoded_entry by assumption. now rewrite Hbefore.
    + rewrite length_app, PutUint64_length. lia.
Qed.

(** ** Lock cycles run one after the other *)

Lemma run_sched_app a : forall b s,
  run_sched (a ++ b) s
  = match run_sched a s with
    | Proceeds s' => run_sched b s'
    | Waits => Waits
    | Crashes => Crashes
    end.
Proof.
  induction a as [|i a IH]; intros b s; [reflexivity|]. cbn.
  destruct (sched_step i s); [apply IH | reflexivity | reflexivity].
Qed.

(** A worker at its start, alone on an idle registry, runs its cycle to the
    end and leaves the registry idle. *)
Lemma one_cycle i ts m t :
  idle m -> ts !! i = Some t -> w_phase t = Start ->
  run_sched [i; i; i; i] (ts, m)
  = Proceeds (<[i := at_phase Done t]> ts, released (w_path t) m).
Proof.
  intros Hidle Hi Hph.
  assert (Hlen : (i < List.length ts)%nat) by (eapply lookup_lt_Some; eassumption).
  destruct (lock_cycle_idle (w_write t) (w_path t) m Hidle) as (Hfl & Hlock & Hunlock).
  cbv zeta in *. set (fl := List.length (cells m)) in *.
  destruct (MutexAt (w_path t) m) as [fl' m1] eqn:HM. cbn [fst snd] in *. subst fl'.
  assert (Hl : with_cell fl m1 (if w_write t then rw_Lock else rw_RLock)
               = Proceeds (holding (w_write t) (w_path t) m)).
  { destruct (w_write t); exact Hlock. }
  assert (Hu : exists m3,
             with_cell fl (holding (w_write t) (w_path t) m)
               (if w_write t then rw_Unlock else rw_RUnlock) = Proceeds m3
             /\ cleanup fl m3 = released (w_path t) m).
  { destruct (w_write t); unfold Unlock, RUnlock in Hunlock;
      match type of Hunlock with
      | match ?x with _ => _ end = _ => destruct x as [m3| |] eqn:E; try discriminate
      end; exists m3; (split; [reflexivity | congruence]). }
  destruct Hu as (m3 & Hu & Hc).
  cbn [run_sched]. unfold sched_step at 1. rewrite Hi.
  unfold worker_step at 1. rewrite Hph, HM.
  unfold sched_step at 1. rewrite list_lookup_insert_eq by assumption.
  unfold worker_step at 1. cbn [w_phase at_phase w_write]. rewrite Hl.
  rewrite list_insert_insert_eq.
  unfold sched_step at 1. rewrite list_lookup_insert_eq by assumption.
  unfold worker_step at 1. cbn [w_phase at_phase w_write w_path]. rewrite Hu.
  rewrite list_insert_insert_eq.
  unfold sched_step at 1. rewrite list_lookup_insert_eq by assumption.
  unfold worker_step at 1. cbn [w_phase at_phase w_write w_path].
  rewrite list_insert_insert_eq. rewrite Hc. reflexivity.
Qed.

Lemma released_idle name m : idle (released name m).
Proof. reflexivity. Qed.

Lemma sequential_from k : forall ts m,
  idle m -> Forall starting (skipn k ts) ->
  exists m',
    run_sched (sequential k (List.length ts - k)) (ts, m)
    = Proceeds (firstn k ts ++ map (at_phase Done) (skipn k ts), m')
    /\ idle m'.
Proof.
  intros ts. remember (List.length ts - k)%nat as n eqn:Hn.
  revert k ts Hn. induction n as [|n IH]; intros k ts Hn m Hidle Hstart.
  - exists m. cbn. rewrite skipn_all2 by lia. cbn. rewrite app_nil_r.
    rewrite firstn_all2 by lia. now split.
  - assert (Hk : (k < List.length ts)%nat) by lia.
    destruct (lookup_lt_is_Some_2 ts k Hk) as [t Ht].
    assert (Hdrop : skipn k ts = t :: skipn (S k) ts).
    { now apply drop_S. }
    rewrite Hdrop in Hstart. inversion Hstart as [|? ? Hst Hrest]; subst.
    unfold sequential. cbn [seq flat_map].
    change (k :: k :: k :: k :: flat_map (fun i => [i; i; i; i]) (seq (S k) n))
      with ([k; k; k; k] ++ sequential (S k) n).
    rewrite run_sched_app. rewrite (one_cycle k ts m t Hidle Ht Hst).
    assert (Hdrop' : skipn (S k) (<[k := at_phase Done t]> ts) = skipn (S k) ts).
    { apply drop_insert_lt. lia. }
    destruct (IH (S k) (<[k := at_phase Done t]> ts))
      with (m := released (w_path t) m) as (m' & Hrun & Hidle').
    + rewrite length_insert. lia.
    + apply released_idle.
    + now rewrite Hdrop'.
    + exists m'. split; [|exact Hidle'].
      unfold sequential in Hrun. rewrite Hrun. f_equal. f_equal. rewrite Hdrop', Hdrop. cbn [map].
      rewrite (take_S_r (<[k := at_phase Done t]> ts) k (at_phase Done t)).
      * rewrite take_insert_ge by lia. rewrite <- app_assoc. reflexivity.
      * apply list_lookup_insert_eq. exact Hk.
Qed.

(** Whatever the workers are, the sequential schedule brings all of them to
    the end of their cycle and leaves the registry empty. *)
Lemma sequential_cycles_finish ts :
  Forall starting ts ->
  exists m,
    run_sched (sequential 0 (List.length ts)) (ts, no_locks)
    = Proceeds (map (at_phase Done) ts, m)
    /\ lock m = ∅.
Proof.
  intros Hs.
  destruct (sequential_from 0 ts no_locks) as (m & Hrun & Hidle);
    [reflexivity | exact Hs |].
  exists m. rewrite Nat.sub_0_r in Hrun. split; [exact Hrun | exact Hidle].
Qed.

(** ** What [Set] followed by [Get] returns *)

(** On an idle cache, a [Get] that follows a successful [Set] while the
    written expiry is not before the clock returns the payload followed by
    whatever the old content of the file had beyond the new entry. *)
Lemma set_then_get c key val expiry w w1 later :
  idle (pm w) ->
  Set' c key val expiry w = Returns None w1 ->
  Time.Before
    (Time.Unix (wrap_i64 (wrap_u64 (Time.ToUnix (Time.Add (now w) expiry))))) later
    = false ->
  exists w2,
    Get c key (set_now later w1)
    = Returns (Some (val ++ skipn (8 + List.length val) (old_content (stored c key w))),
               None) w2.
Proof.
  intros Hidle HSet Hfresh.
  destruct (Set_ok c key val expiry w w1 Hidle HSet) as (Hst & Hidle1 & _).
  set (e := wrap_u64 (Time.ToUnix (Time.Add (now w) expiry))) in *.
  assert (Hv : Uint64 (header_of (entry_over (old_content (stored c key w)) e val)) = Some e).
  { rewrite entry_over_header. rewrite <- (app_nil_r (PutUint64 e)).
    apply Uint64_PutUint64, wrap_u64_range. }
  rewrite (Get_file c key (set_now later w1) _ e Hidle1 Hst Hv).
  cbn [now set_now]. rewrite Hfresh.
  replace (8 <=? List.length (entry_over (old_content (stored c key w)) e val))%nat
    with true by (symmetry; apply Nat.leb_le, entry_over_length).
  eexists. reflexivity.
Qed.

(** The round trip holds when the key had no file, or a file not longer
    than the new entry. *)
Lemma round_trip_without_longer_entry c key val expiry w w1 later :
  idle (pm w) ->
  Set' c key val expiry w = Returns None w1 ->
  (List.length (old_content (stored c key w)) <= 8 + List.length val)%nat ->
  Time.Before
    (Time.Unix (wrap_i64 (wrap_u64 (Time.ToUnix (Time.Add (now w) expiry))))) later
    = false ->
  exists w2, Get c key (set_now later w1) = Returns (Some val, None) w2.
Proof.
  intros Hidle HSet Hlen Hfresh.
  destruct (set_then_get c key val expiry w w1 later Hidle HSet Hfresh) as [w2 H].
  exists w2. rewrite H. rewrite skipn_all2 by exact Hlen. now rewrite app_nil_r.
Qed.

(** For a file of fewer than 8 bytes [Get] never just reports a miss: it
    panics, or it takes the zero-padded content for an expiry in the past
    and removes the file. *)
Lemma get_on_short_file c key w d :
  idle (pm w) -> stored c key w = Some (File true d) ->
  (List.length d < 8)%nat ->
  (exists w', Get c key w = Panics w' /\ stored c key w' = Some (File true d)
              /\ expired (now w) d = false)
  \/ (exists w', Get c key w = Returns (None, Some errCacheMiss) w'
                 /\ stored c key w' = None /\ expired (now w) d = true).
Proof.
  intros Hidle Hst Hlen. destruct (Uint64_header d) as [v Hv].
  rewrite (Get_file c key w d v Hidle Hst Hv).
  unfold expired, decoded. rewrite Hv.
  destruct (Time.Before (Time.Unix (wrap_i64 v)) (now w)).
  - right. eexists. split; [reflexivity|]. split; [|reflexivity].
    exact (stored_after_remove c key w _ _ Hst).
  - left. replace (8 <=? List.length d)%nat with false
      by (symmetry; apply Nat.leb_gt; exact Hlen).
    eexists. split; [reflexivity|]. split; [exact Hst | reflexivity].
Qed.

(** ** Evaluations of the code at concrete inputs *)

(** C1 (the code differs from the claim): [Set(k, "hello", 1s)], then
    [Set(k, "hi", 1s)], then [Get(k)] on an empty cache returns the payload
    [hillo], not [hi]: the second [Set] opens the file without truncating
    it, writes 10 bytes over the 13 that are there and leaves the last 3
    bytes of the first entry, in the file and in what [Get] returns. *)
Theorem overwrite_by_shorter_payload_leaves_residue :
  exists w,
    (Set' the_cache "k" hello Time.Second ;;
     Set' the_cache "k" hi Time.Second ;;
     Get the_cache "k") (empty_cache 1000 0)
    = Returns (Some (bytes_of "hillo"), None) w
    /\ stored the_cache "k" w
       = Some (File true (PutUint64 1001 ++ bytes_of "hillo")).
Proof. eexists; split; vm_compute; reflexivity. Qed.

(** C2 (the code differs from the claim): for a stored file of 7 bytes
    [0xff], [Get] panics.  The slice [ReadFile] returns has spare capacity,
    so [b[:8]] succeeds and reads the 7 bytes and a zero as an expiry far
    in the future; the entry counts as fresh and [b[8:]] is then out of
    range for a slice of length 7.  The read lock is released by the
    deferred [RUnlock], the file stays. *)
Theorem get_panics_on_short_file :
  exists w,
    Get the_cache "k" (cache_with "k" (repeat xff 7) 1000 0) = Panics w
    /\ stored the_cache "k" w = Some (File true (repeat xff 7))
    /\ lock (pm w) = ∅.
Proof. eexists; repeat split; vm_compute; reflexivity. Qed.

(** C4 (the code differs from the claim): for the key [a/b] the callback
    of vacuum asks the registry for the base name of the file, [a-b],
    while [Get] and [Set] ask for the key [a/b].  The two are different
    registry entries: while vacuum holds the write lock taken for the file
    of the key, [Set] and [Get] on that key do not wait, they run to their
    end.  For a key without [/] and [:], they wait. *)
Theorem vacuum_lock_is_not_the_lock_of_the_key :
  let p := keyPath "/cache" "a/b" in
  let w := set_pm (vacuum_holding p) (cache_with "a/b" (PutUint64 2000 ++ hi) 1000 0) in
  Filepath.Base p = "a-b"
  /\ lock (pm w) !! "a-b" = Some 0%nat
  /\ option_map writer (cells (pm w) !! 0%nat) = Some true
  /\ (exists w', Get the_cache "a/b" w = Returns (Some hi, None) w')
  /\ (exists w', Set' the_cache "a/b" hello Time.Second w = Returns None w')
  /\ Get the_cache "ab"
       (set_pm (vacuum_holding (keyPath "/cache" "ab"))
               (cache_with "ab" (PutUint64 2000 ++ hi) 1000 0)) = Blocks.
Proof.
  cbv zeta. split; [ vm_compute; reflexivity | ].
  split; [ vm_compute; reflexivity | ].
  split; [ vm_compute; reflexivity | ].
  split; [ eexists; vm_compute; reflexivity | ].
  split; [ eexists; vm_compute; reflexivity | ].
  vm_compute; reflexivity.
Qed.

(** C6 (the code differs from the claim): in a store where the key holds
    an older entry with the longer payload [hello], [Set(k, "hi", 1s)]
    followed at once by [Get(k)] returns [hillo], not [hi]. *)
Theorem round_trip_fails_over_longer_entry :
  let prior := cache_with "k" (PutUint64 900 ++ hello) 1000 0 in
  stored the_cache "k" prior = Some (File true (PutUint64 900 ++ hello))
  /\ exists w,
      (Set' the_cache "k" hi Time.Second ;; Get the_cache "k") prior
      = Returns (Some (bytes_of "hillo"), None) w.
Proof. cbv zeta. split; [ | eexists ]; vm_compute; reflexivity. Qed.

(** C7 (the code differs from the claim): for the key [..] the computed
    path is [/cache/1c/16/08], which is the third shard directory itself
    and not a name inside the four-level shard directory
    [/cache/1c/16/08/96]; [Set] stores the entry as a regular file named
    [08] in [/cache/1c/16].  For the keys [.] and the empty key the path is
    the shard directory itself. *)
Theorem dotdot_key_leaves_shard_directory :
  keyPath "/cache" ".." = "/cache/1c/16/08"
  /\ shard_dir "/cache" ".." = "/cache/1c/16/08/96"
  /\ strictly_inside (shard_dir "/cache" "..") (keyPath "/cache" "..") = false
  /\ keyPath "/cache" "." = shard_dir "/cache" "."
  /\ keyPath "/cache" "" = shard_dir "/cache" ""
  /\ exists w,
      Set' the_cache ".." hi Time.Second (empty_cache 1000 0) = Returns None w
      /\ fs_lookup ["cache"; "1c"; "16"; "08"] (fs w)
         = Some (File true (PutUint64 1001 ++ hi)).
Proof.
  repeat (split; [ vm_compute; reflexivity | ]).
  eexists; split; vm_compute; reflexivity.
Qed.

(** C9 (the code differs from the claim): after [Set(k, "hello", 1s)] and
    [Set(k, "hi", 1s)] the content of the file is the 8-byte expiry, [hi]
    and three more bytes: it is not the expiry followed by the payload. *)
Theorem file_content_is_not_expiry_then_payload :
  exists w data,
    (Set' the_cache "k" hello Time.Second ;;
     Set' the_cache "k" hi Time.Second) (empty_cache 1000 0)
    = Returns None w
    /\ stored the_cache "k" w = Some (File true data)
    /\ List.length data = 13%nat
    /\ firstn 10 data = PutUint64 1001 ++ hi
    /\ data <> PutUint64 1001 ++ hi.
Proof.
  eexists; eexists. split; [ vm_compute; reflexivity | ].
  split; [ vm_compute; reflexivity | ].
  split; [ reflexivity | ]. split; [ reflexivity | ]. discriminate.
Qed.

(** C3 (counterexample): [/cache] holds a directory [aa] that cannot be
    listed and an entry [bb] that expired long ago.  The walk reports the
    error of [aa] to the callback, the callback returns it, and the walk
    ends: [bb] is never visited and stays.  Without [aa] the same tick
    removes [bb]. *)
Lemma unlistable_directory_aborts_the_walk :
  let expired := File true (PutUint64 5 ++ hi) in
  let w := with_node "/cache/bb" expired (empty_cache 1000 0) in
  (exists w', vacuum_tick the_cache w = Returns tt w'
              /\ fs_lookup ["cache"; "bb"] (fs w') = None)
  /\ (exists w', vacuum_tick the_cache (with_node "/cache/aa" (Dir false []) w)
                 = Returns tt w'
              /\ fs_lookup ["cache"; "bb"] (fs w') = Some expired).
Proof. cbv zeta. split; eexists; split; vm_compute; reflexivity. Qed.

(** C5 (counterexample): the entry of [k] expires at second 1000 and the
    clock reads second 1000 exactly.  The expiry is at the current time,
    yet [Get] returns the payload and keeps the file, and a vacuum tick
    keeps it too: both test [expires.Before(now)], which is strict. *)
Lemma entry_expiring_now_is_still_served :
  let w := cache_with "k" (PutUint64 1000 ++ hi) 1000 0 in
  (exists w', Get the_cache "k" w = Returns (Some hi, None) w'
              /\ stored the_cache "k" w' = Some (File true (PutUint64 1000 ++ hi)))
  /\ (exists w', vacuum_tick the_cache w = Returns tt w'
              /\ stored the_cache "k" w' = Some (File true (PutUint64 1000 ++ hi))).
Proof. cbv zeta. split; eexists; split; vm_compute; reflexivity. Qed.

(** C10 (counterexample): a [Set] with expiry zero when the clock reads
    second 1000 exactly writes the expiry 1000, which is at the current
    time; the [Get] that follows at the same clock reading returns the
    payload, and the file stays: [Get] tests [expires.Before(now)], which is
    strict. *)
Lemma zero_expiry_is_served_at_the_same_instant :
  exists w1 w2,
    Set' the_cache "k" hi 0 (empty_cache 1000 0) = Returns None w1
    /\ stored the_cache "k" w1 = Some (File true (PutUint64 1000 ++ hi))
    /\ Get the_cache "k" w1 = Returns (Some hi, None) w2
    /\ stored the_cache "k" w2 = Some (File true (PutUint64 1000 ++ hi)).
Proof.
  eexists; eexists. split; [vm_compute; reflexivity|].
  split; [vm_compute; reflexivity|]. split; vm_compute; reflexivity.
Qed.

(** ** The theorems at concrete inputs *)

Lemma set_accepts_any_expiry_witness :
  exists w1,
    Set' the_cache "k" hi (- 5 * Time.Second) (empty_cache 1000 0) = Returns None w1
    /\ stored the_cache "k" w1 = Some (File true (PutUint64 995 ++ hi))
    /\ exists w2,
         Get the_cache "k" (set_now (Time.at_unix 1000 0) w1)
         = Returns (None, Some errCacheMiss) w2
         /\ stored the_cache "k" w2 = None.
Proof.
  assert (H1 : idle (pm (empty_cache 1000 0))) by reflexivity.
  assert (H2 : set_ready the_cache "k" (empty_cache 1000 0) = true)
    by (vm_compute; reflexivity).
  assert (H3 : sane (now (empty_cache 1000 0)))
    by (repeat split; vm_compute; (reflexivity || discriminate)).
  assert (H4 : int64 (- 5 * Time.Second))
    by (repeat split; vm_compute; (reflexivity || discriminate)).
  assert (H5 : - 5 * Time.Second <= 0) by (vm_compute; discriminate).
  assert (H6 : 0 <= Time.nsec (Time.at_unix 1000 0) < 1000000000)
    by (repeat split; vm_compute; (reflexivity || discriminate)).
  assert (H7 : Time.Before (Time.at_unix 1000 0) (now (empty_cache 1000 0)) = false)
    by (vm_compute; reflexivity).
  destruct (set_accepts_any_expiry the_cache "k" hi (- 5 * Time.Second)
              (empty_cache 1000 0) (Time.at_unix 1000 0) H1 H2 H3 H4 H5 H6 H7)
    as (w1 & HSet & Hst & _ & _ & Hmiss & _).
  exists w1. split; [exact HSet|]. split.
  - etransitivity; [exact Hst|]. clear. vm_compute. reflexivity.
  - apply Hmiss. right; left. clear. vm_compute. reflexivity.
Defined.

Lemma entries_past_their_expiry_are_removed_witness :
  (exists w1,
     Get the_cache "k" long_expired_world = Returns (None, Some errCacheMiss) w1
     /\ stored the_cache "k" w1 = None)
  /\ (forall n,
        resolve (path the_cache) (fs long_expired_world) = Some n ->
        wf_node n = true -> all_listable n = true ->
        exists w2, vacuum_tick the_cache long_expired_world = Returns tt w2
                   /\ stored the_cache "k" w2 = None).
Proof.
  apply (entries_past_their_expiry_are_removed the_cache "k" long_expired_world
           (2 ^ 64 - 5) (bytes_of "hi") 1000 1).
  - reflexivity.
  - reflexivity.
  - lia.
  - lia.
  - lia.
  - vm_compute; reflexivity.
  - vm_compute; reflexivity.
Defined.

Lemma vacuum_skips_bad_files_witness :
  (exists w',
     Walk "/cache" vacuumFn mixed_world = Returns None w'
     /\ vacuum_tick the_cache mixed_world = Returns tt w'
     /\ fs_lookup ["cache"; "a"] (fs w') = Some (File false (PutUint64 5))
     /\ fs_lookup ["cache"; "b"] (fs w') = Some (File true [])
     /\ fs_lookup ["cache"; "c"] (fs w') = None
     /\ fs_lookup ["cache"; "d"] (fs w')
        = Some (File true (PutUint64 2000 ++ bytes_of "new")))
  /\ (exists w',
        Walk "/cache" vacuumFn deep_world = Returns (Some errWalk) w'
        /\ vacuum_tick the_cache deep_world = Returns tt w'
        /\ fs_lookup ["cache"; "a"] (fs w') = None
        /\ fs_lookup ["cache"; "s"; "t"; "x"] (fs w') = Some (File true (PutUint64 5))
        /\ fs_lookup ["cache"; "s"; "u"] (fs w')
           = Some (File true (PutUint64 5 ++ bytes_of "old"))
        /\ fs_lookup ["cache"; "z"] (fs w')
           = Some (File true (PutUint64 5 ++ bytes_of "old")))
  /\ (Walk "/nope/../cache" vacuumFn mixed_world = Returns (Some errWalk) mixed_world
      /\ vacuum_tick {| path := "/nope/../cache" |} mixed_world = Returns tt mixed_world).
Proof.
  assert (Hcs : namei (path the_cache) = ["cache"]) by (vm_compute; reflexivity).
  split; [|split].
  - destruct (vacuum_skips_bad_files_and_stops_at_walk_errors the_cache mixed_world)
      as [_ Hwalk]; [reflexivity|].
    destruct (Hwalk mixed_tree) as (w' & HWalk & Htick & Hfiles & _);
      [ vm_compute; reflexivity | vm_compute; reflexivity | ].
    exists w'. split; [exact HWalk|]. split; [exact Htick|].
    rewrite Hcs in Hfiles.
    repeat split.
    + apply (Hfiles ["a"] false (PutUint64 5)); [vm_compute; reflexivity | now left].
    + apply (Hfiles ["b"] true []); [vm_compute; reflexivity | right; now left].
    + apply (proj2 (Hfiles ["c"] true (PutUint64 5 ++ bytes_of "old") eq_refl)
               eq_refl); [cbn; lia | reflexivity].
    + apply (proj2 (Hfiles ["d"] true (PutUint64 2000 ++ bytes_of "new") eq_refl)
               eq_refl); [cbn; lia | reflexivity].
  - destruct (vacuum_skips_bad_files_and_stops_at_walk_errors the_cache deep_world)
      as [_ Hwalk]; [reflexivity|].
    destruct (Hwalk deep_tree) as (w' & HWalk & Htick & Hfiles & _);
      [ vm_compute; reflexivity | vm_compute; reflexivity | ].
    exists w'. split; [exact HWalk|]. split; [exact Htick|].
    rewrite Hcs in Hfiles.
    repeat split.
    + apply (proj2 (Hfiles ["a"] true (PutUint64 5 ++ bytes_of "old") eq_refl)
               eq_refl); [cbn; lia | reflexivity].
    + apply (Hfiles ["s"; "t"; "x"] true (PutUint64 5)); [reflexivity|].
      right; right; reflexivity.
    + apply (Hfiles ["s"; "u"] true (PutUint64 5 ++ bytes_of "old")); [reflexivity|].
      right; right; reflexivity.
    + apply (Hfiles ["z"] true (PutUint64 5 ++ bytes_of "old")); [reflexivity|].
      right; right; reflexivity.
  - destruct (vacuum_skips_bad_files_and_stops_at_walk_errors
                {| path := "/nope/../cache" |} mixed_world) as [Hnone _]; [reflexivity|].
    apply Hnone. vm_compute. reflexivity.
Defined.


(** * Further properties *)

(** ** Mutual exclusion on the locks of the registry *)

Lemma count_insert (P : worker -> bool) t' : forall ts i t,
  ts !! i = Some t ->
  (count P (<[i := t']> ts) + b2n (P t) = count P ts + b2n (P t'))%nat.
Proof.
  unfold count. induction ts as [|a ts IH]; intros i t Hi; [destruct i; discriminate|].
  destruct i as [|i]; simpl in Hi |- *.
  - injection Hi as ->. destruct (P t), (P t'); simpl; lia.
  - specialize (IH i t Hi). destruct (P a); simpl; lia.
Qed.

Lemma count_member (P : worker -> bool) : forall ts i t,
  ts !! i = Some t -> P t = true -> (1 <= count P ts)%nat.
Proof.
  unfold count. induction ts as [|a ts IH]; intros i t Hi HP; [destruct i; discriminate|].
  destruct i as [|i]; simpl in Hi |- *.
  - injection Hi as ->. rewrite HP. simpl. lia.
  - destruct (P a); simpl; [lia|]. eapply IH; eassumption.
Qed.

Lemma count_two (P : worker -> bool) : forall ts i j a b,
  i <> j -> ts !! i = Some a -> ts !! j = Some b ->
  P a = true -> P b = true -> (2 <= count P ts)%nat.
Proof.
  induction ts as [|x ts IH]; intros i j a b Hne Hi Hj Ha Hb; [destruct i; discriminate|].
  destruct i as [|i], j as [|j]; simpl in Hi, Hj; try congruence.
  - injection Hi as ->. pose proof (count_member P ts j b Hj Hb) as H.
    unfold count in *. simpl. rewrite Ha. simpl. lia.
  - injection Hj as ->. pose proof (count_member P ts i a Hi Ha) as H.
    unfold count in *. simpl. rewrite Hb. simpl. lia.
  - assert (Hne' : i <> j) by congruence.
    pose proof (IH i j a b Hne' Hi Hj Ha Hb) as H.
    unfold count in *. simpl. destruct (P x); simpl; lia.
Qed.

Lemma count_witness (P : worker -> bool) ts :
  (1 <= count P ts)%nat -> exists i t, ts !! i = Some t /\ P t = true.
Proof.
  unfold count. induction ts as [|a ts IH]; simpl; [lia|].
  destruct (P a) eqn:Ha.
  - intros _. exists 0%nat, a. now split.
  - intros H. destruct (IH H) as (i & t & Hi & Ht). exists (S i), t. now split.
Qed.

Lemma count_none (P : worker -> bool) ts :
  (forall t, In t ts -> P t = false) -> count P ts = 0%nat.
Proof.
  unfold count. induction ts as [|a ts IH]; intros H; [reflexivity|].
  cbn. rewrite (H a) by now left. apply IH. intros t Ht. apply H. now right.
Qed.

Lemma in_section_holds wr fl t : in_section wr fl t = true -> holds fl t = true.
Proof.
  unfold in_section, holds. destruct (w_phase t); try discriminate.
  intros H. now apply andb_prop in H as [H _].
Qed.

Lemma in_section_at_phase wr fl ph t :
  in_section wr fl (at_phase ph t)
  = match ph with
    | Held fl' => (fl =? fl')%nat && Bool.eqb (w_write t) wr
    | _ => false
    end.
Proof. reflexivity. Qed.

Lemma starting_excl ts : Forall starting ts -> excl_inv (ts, no_locks).
Proof.
  intros Hs. split; cbn [fst snd].
  - intros t fl Ht Hh. rewrite Forall_forall in Hs. specialize (Hs t Ht).
    unfold holds in Hh. unfold starting in Hs. rewrite Hs in Hh. discriminate.
  - intros fl c H. destruct fl; cbn in H; discriminate.
  - intros fl c H. destruct fl; cbn in H; discriminate.
  - intros fl c H. destruct fl; cbn in H; discriminate.
Qed.

Lemma lookup_member_In (ts : list worker) i t : ts !! i = Some t -> In t ts.
Proof. intros H. apply list_elem_of_In. eapply list_elem_of_lookup_2; eassumption. Qed.

(** A step that leaves the read/write locks and the workers inside them
    alone: a registration or a [cleanup]. *)
Lemma excl_inv_ref_step ts ts' m m1 :
  (forall wr fl, count (in_section wr fl) ts' = count (in_section wr fl) ts) ->
  (forall fl c', cells m1 !! fl = Some c' ->
     (exists c, cells m !! fl = Some c /\ readers c' = readers c /\ writer c' = writer c)
     \/ (readers c' = 0%nat /\ writer c' = false
         /\ forall wr, count (in_section wr fl) ts = 0%nat)) ->
  (forall x fl, In x ts' -> holds fl x = true ->
     exists c', cells m1 !! fl = Some c' /\ cleanup_path c' = w_path x) ->
  excl_inv (ts, m) -> excl_inv (ts', m1).
Proof.
  intros Hcnt Hcells Hpath [_ Hrd Hwr Hal]. cbn [fst snd] in *.
  split; cbn [fst snd].
  - exact Hpath.
  - intros fl c' Hc'. rewrite Hcnt.
    destruct (Hcells fl c' Hc') as [(c & Hc & Hr & _)|(Hr & _ & Hz)].
    + rewrite Hr. now apply Hrd.
    + now rewrite Hr, Hz.
  - intros fl c' Hc'. rewrite Hcnt.
    destruct (Hcells fl c' Hc') as [(c & Hc & _ & Hw)|(_ & Hw & Hz)].
    + rewrite Hw. now apply Hwr.
    + now rewrite Hw, Hz.
  - intros fl c' Hc' Hw'.
    destruct (Hcells fl c' Hc') as [(c & Hc & Hr & Hw)|(Hr & _ & _)]; [|exact Hr].
    rewrite Hr. apply (Hal fl c Hc). congruence.
Qed.

Lemma sched_step_excl i s s' :
  sched_step i s = Proceeds s' ->
  sched_inv s -> excl_inv s -> excl_inv s'.
Proof.
  destruct s as [ts m]. unfold sched_step. intros Hstep Hsi Hei.
  destruct (ts !! i) as [t|] eqn:Hi; [|now injection Hstep as <-].
  destruct (worker_step t m) as [[t' m']| |] eqn:Hw; try discriminate;
    [|now injection Hstep as <-].
  injection Hstep as <-.
  pose proof (lookup_member_In _ _ _ Hi) as Hin.
  destruct Hsi as [Hreg Hcount Halloc]. cbn [fst snd] in *.
  unfold worker_step in Hw. destruct (w_phase t) as [|fl0|fl0|fl0|] eqn:Hph.
  - (* registration *)
    destruct (MutexAt (w_path t) m) as [fl0 m1] eqn:HM. injection Hw as <- <-.
    assert (Hcnt : forall wr fl, count (in_section wr fl) (<[i := at_phase (Got fl0) t]> ts)
                                 = count (in_section wr fl) ts).
    { intros wr fl. pose proof (count_insert (in_section wr fl) (at_phase (Got fl0) t) ts i t Hi) as H.
      rewrite in_section_at_phase in H. unfold in_section at 2 in H. rewrite Hph in H.
      cbn [b2n] in H. lia. }
    destruct Hei as [Hpath Hrd Hwr Hal]. cbn [fst snd] in *.
    unfold MutexAt in HM.
    destruct (lock m !! w_path t) as [fl1|] eqn:Hp; injection HM as <- <-.
    + destruct (registry_inv_positive m _ _ Hreg Hp) as (c1 & Hc1 & Hpath1 & _).
      eapply excl_inv_ref_step; [exact Hcnt | | | split; eassumption]; cbn [cells].
      * intros fl c'. destruct (decide (fl1 = fl)) as [->|Hne].
        -- rewrite list_lookup_alter_eq, Hc1. cbn. intros [= <-]. left. now exists c1.
        -- rewrite list_lookup_alter_ne by assumption. intros Hc. left. now exists c'.
      * intros x fl Hx Hh. destruct (In_insert_inv _ _ _ _ Hx) as [->|Hx'].
        -- unfold holds in Hh. cbn in Hh. apply Nat.eqb_eq in Hh. subst fl.
           rewrite list_lookup_alter_eq, Hc1. cbn. eexists. split; [reflexivity|]. exact Hpath1.
        -- destruct (Hpath x fl Hx' Hh) as (c & Hc & Hcp).
           destruct (decide (fl1 = fl)) as [->|Hne].
           ++ rewrite list_lookup_alter_eq, Hc. cbn. eexists. split; [reflexivity|]. exact Hcp.
           ++ rewrite list_lookup_alter_ne by assumption. eauto.
    + eapply excl_inv_ref_step; [exact Hcnt | | | split; eassumption]; cbn [cells].
      * intros fl c' Hc'.
        destruct (decide (fl < List.length (cells m))%nat) as [Hlt|Hge].
        -- rewrite lookup_app_l in Hc' by assumption. left. now exists c'.
        -- rewrite lookup_app_r in Hc' by lia.
           destruct (fl - List.length (cells m))%nat as [|k] eqn:Hk; cbn in Hc';
             [ | destruct k; discriminate ].
           injection Hc' as <-. right. cbn. split; [reflexivity|]. split; [reflexivity|].
           intros wr. apply count_none. intros x Hx.
           destruct (in_section wr fl x) eqn:Hs; [|reflexivity].
           apply in_section_holds in Hs. pose proof (Halloc x fl Hx Hs). lia.
      * intros x fl Hx Hh. destruct (In_insert_inv _ _ _ _ Hx) as [->|Hx'].
        -- unfold holds in Hh. cbn in Hh. apply Nat.eqb_eq in Hh. subst fl.
           rewrite lookup_app_r by reflexivity. rewrite Nat.sub_diag. cbn.
           eexists. split; reflexivity.
        -- destruct (Hpath x fl Hx' Hh) as (c & Hc & Hcp).
           exists c. split; [|exact Hcp].
           rewrite lookup_app_l; [assumption | eapply lookup_lt_Some; eassumption].
  - (* lock *)
    destruct (with_cell fl0 m (if w_write t then rw_Lock else rw_RLock)) as [m1| |] eqn:HW;
      try discriminate.
    injection Hw as <- <-.
    destruct Hei as [Hpath Hrd Hwr Hal]. cbn [fst snd] in *.
    unfold with_cell in HW. destruct (cells m !! fl0) as [c0|] eqn:Hc0; [|discriminate].
    destruct ((if w_write t then rw_Lock else rw_RLock) c0) as [c1| |] eqn:Hf; try discriminate.
    injection HW as <-.
    assert (Hlen : (fl0 < List.length (cells m))%nat) by (eapply lookup_lt_Some; eassumption).
    assert (Hcnt : forall wr fl,
               count (in_section wr fl) (<[i := at_phase (Held fl0) t]> ts)
               = (count (in_section wr fl) ts
                  + b2n ((fl =? fl0)%nat && Bool.eqb (w_write t) wr))%nat).
    { intros wr fl. pose proof (count_insert (in_section wr fl) (at_phase (Held fl0) t) ts i t Hi) as H.
      rewrite in_section_at_phase in H. unfold in_section at 2 in H. rewrite Hph in H.
      cbn [b2n] in H. lia. }
    assert (Hkeep : cleanup_path c1 = cleanup_path c0).
    { destruct (w_write t); [apply (rw_Lock_keeps c0 c1 Hf) | apply (rw_RLock_keeps c0 c1 Hf)]. }
    assert (Hrw : if w_write t
                  then writer c0 = false /\ readers c0 = 0%nat
                       /\ writer c1 = true /\ readers c1 = 0%nat
                  else writer c0 = false /\ writer c1 = false
                       /\ readers c1 = S (readers c0)).
    { destruct (w_write t); unfold rw_Lock, rw_RLock in Hf;
        destruct (writer c0); try discriminate.
      - destruct (readers c0); [|discriminate]. injection Hf as <-. now cbn.
      - injection Hf as <-. now cbn. }
    split; cbn [fst snd cells].
    + intros x fl Hx Hh.
      assert (Hold : exists c, cells m !! fl = Some c /\ cleanup_path c = w_path x).
      { destruct (In_insert_inv _ _ _ _ Hx) as [->|Hx']; [|now apply Hpath].
        apply (Hpath t fl Hin). unfold holds in *. now rewrite Hph. }
      destruct Hold as (c & Hc & Hcp). destruct (decide (fl0 = fl)) as [->|Hne].
      * rewrite list_lookup_insert_eq by assumption. exists c1. split; [reflexivity|].
        congruence.
      * rewrite list_lookup_insert_ne by assumption. eauto.
    + intros fl c. rewrite Hcnt. destruct (decide (fl0 = fl)) as [->|Hne].
      * rewrite list_lookup_insert_eq by assumption. intros [= <-].
        rewrite Nat.eqb_refl. cbn [andb]. pose proof (Hrd fl c0 Hc0) as H0.
        destruct (w_write t); cbn [Bool.eqb b2n]; lia.
      * rewrite list_lookup_insert_ne by assumption. intros Hc.
        destruct (Nat.eqb_spec fl fl0); [congruence|]. cbn [andb b2n].
        rewrite (Hrd fl c Hc). lia.
    + intros fl c. rewrite Hcnt. destruct (decide (fl0 = fl)) as [->|Hne].
      * rewrite list_lookup_insert_eq by assumption. intros [= <-].
        rewrite Nat.eqb_refl. cbn [andb]. pose proof (Hwr fl c0 Hc0) as H0.
        destruct (w_write t); cbn [Bool.eqb b2n];
          destruct Hrw as (Hw0 & Hrest); rewrite Hw0 in H0; cbn [b2n] in H0.
        -- destruct Hrest as (_ & -> & _). cbn [b2n]. lia.
        -- destruct Hrest as (-> & _). cbn [b2n]. lia.
      * rewrite list_lookup_insert_ne by assumption. intros Hc.
        destruct (Nat.eqb_spec fl fl0); [congruence|]. cbn [andb b2n].
        rewrite (Hwr fl c Hc). lia.
    + intros fl c. destruct (decide (fl0 = fl)) as [->|Hne].
      * rewrite list_lookup_insert_eq by assumption. intros [= <-] Hw1.
        destruct (w_write t); [tauto|]. destruct Hrw as (_ & Hw1' & _). congruence.
      * rewrite list_lookup_insert_ne by assumption. apply Hal.
  - (* unlock of the read/write lock *)
    destruct (with_cell fl0 m (if w_write t then rw_Unlock else rw_RUnlock)) as [m1| |] eqn:HW;
      try discriminate.
    injection Hw as <- <-.
    destruct Hei as [Hpath Hrd Hwr Hal]. cbn [fst snd] in *.
    unfold with_cell in HW. destruct (cells m !! fl0) as [c0|] eqn:Hc0; [|discriminate].
    destruct ((if w_write t then rw_Unlock else rw_RUnlock) c0) as [c1| |] eqn:Hf; try discriminate.
    injection HW as <-.
    assert (Hlen : (fl0 < List.length (cells m))%nat) by (eapply lookup_lt_Some; eassumption).
    assert (Hcnt : forall wr fl,
               (count (in_section wr fl) (<[i := at_phase (Freed fl0) t]> ts)
                + b2n ((fl =? fl0)%nat && Bool.eqb (w_write t) wr)
                = count (in_section wr fl) ts)%nat).
    { intros wr fl. pose proof (count_insert (in_section wr fl) (at_phase (Freed fl0) t) ts i t Hi) as H.
      rewrite in_section_at_phase in H. unfold in_section at 2 in H. rewrite Hph in H.
      cbn [b2n] in H. lia. }
    assert (Hkeep : cleanup_path c1 = cleanup_path c0).
    { destruct (w_write t); [apply (rw_Unlock_keeps c0 c1 Hf) | apply (rw_RUnlock_keeps c0 c1 Hf)]. }
    assert (Hrw : if w_write t
                  then writer c0 = true /\ writer c1 = false /\ readers c1 = readers c0
                  else writer c1 = writer c0 /\ readers c0 = S (readers c1)).
    { destruct (w_write t); unfold rw_Unlock, rw_RUnlock in Hf.
      - destruct (writer c0); [|discriminate]. injection Hf as <-. now cbn.
      - destruct (readers c0); [discriminate|]. injection Hf as <-. now cbn. }
    split; cbn [fst snd cells].
    + intros x fl Hx Hh.
      assert (Hold : exists c, cells m !! fl = Some c /\ cleanup_path c = w_path x).
      { destruct (In_insert_inv _ _ _ _ Hx) as [->|Hx']; [|now apply Hpath].
        apply (Hpath t fl Hin). unfold holds in *. now rewrite Hph. }
      destruct Hold as (c & Hc & Hcp). destruct (decide (fl0 = fl)) as [->|Hne].
      * rewrite list_lookup_insert_eq by assumption. exists c1. split; [reflexivity|].
        congruence.
      * rewrite list_lookup_insert_ne by assumption. eauto.
    + intros fl c. specialize (Hcnt false fl). destruct (decide (fl0 = fl)) as [->|Hne].
      * rewrite list_lookup_insert_eq by assumption. intros [= <-].
        rewrite Nat.eqb_refl in Hcnt. cbn [andb] in Hcnt. pose proof (Hrd fl c0 Hc0) as H0.
        destruct (w_write t); cbn [Bool.eqb b2n] in Hcnt; lia.
      * rewrite list_lookup_insert_ne by assumption. intros Hc.
        destruct (Nat.eqb_spec fl fl0); [congruence|]. cbn [andb b2n] in Hcnt.
        rewrite (Hrd fl c Hc). lia.
    + intros fl c. specialize (Hcnt true fl). destruct (decide (fl0 = fl)) as [->|Hne].
      * rewrite list_lookup_insert_eq by assumption. intros [= <-].
        rewrite Nat.eqb_refl in Hcnt. cbn [andb] in Hcnt. pose proof (Hwr fl c0 Hc0) as H0.
        destruct (w_write t); cbn [Bool.eqb b2n] in Hcnt.
        -- destruct Hrw as (Hw0 & -> & _). rewrite Hw0 in H0. cbn [b2n] in *. lia.
        -- destruct Hrw as (-> & _). lia.
      * rewrite list_lookup_insert_ne by assumption. intros Hc.
        destruct (Nat.eqb_spec fl fl0); [congruence|]. cbn [andb b2n] in Hcnt.
        rewrite (Hwr fl c Hc). lia.
    + intros fl c. destruct (decide (fl0 = fl)) as [->|Hne].
      * rewrite list_lookup_insert_eq by assumption. intros [= <-] Hw1.
        destruct (w_write t).
        -- destruct Hrw as (_ & Hw1' & _). congruence.
        -- destruct Hrw as (Hw0 & Hr0). rewrite Hw0 in Hw1.
           pose proof (Hal fl c0 Hc0 Hw1). lia.
      * rewrite list_lookup_insert_ne by assumption. apply Hal.
  - (* cleanup *)
    injection Hw as <- <-.
    assert (Hcnt : forall wr fl, count (in_section wr fl) (<[i := at_phase Done t]> ts)
                                 = count (in_section wr fl) ts).
    { intros wr fl. pose proof (count_insert (in_section wr fl) (at_phase Done t) ts i t Hi) as H.
      rewrite in_section_at_phase in H. unfold in_section at 2 in H. rewrite Hph in H.
      cbn [b2n] in H. lia. }
    destruct Hei as [Hpath Hrd Hwr Hal]. cbn [fst snd] in *.
    eapply excl_inv_ref_step; [exact Hcnt | | | split; eassumption].
    + intros fl c'. unfold cleanup. destruct (cells m !! fl0) as [c0|] eqn:Hc0.
      * cbn [cells]. destruct (decide (fl0 = fl)) as [->|Hne].
        -- rewrite list_lookup_insert_eq by (eapply lookup_lt_Some; eassumption).
           intros [= <-]. left. now exists c0.
        -- rewrite list_lookup_insert_ne by assumption. intros Hc. left. now exists c'.
      * intros Hc. left. now exists c'.
    + intros x fl Hx Hh. destruct (In_insert_inv _ _ _ _ Hx) as [->|Hx']; [discriminate|].
      destruct (Hpath x fl Hx' Hh) as (c & Hc & Hcp).
      unfold cleanup. destruct (cells m !! fl0) as [c0|] eqn:Hc0; [|eauto].
      cbn [cells]. destruct (decide (fl0 = fl)) as [->|Hne].
      * rewrite list_lookup_insert_eq by (eapply lookup_lt_Some; eassumption).
        eexists. split; [reflexivity|]. cbn. congruence.
      * rewrite list_lookup_insert_ne by assumption. eauto.
  - discriminate.
Qed.

(** Under the invariants no step of a worker is a fatal error. *)
Lemma worker_step_safe ts m i t :
  sched_inv (ts, m) -> excl_inv (ts, m) -> ts !! i = Some t ->
  worker_step t m <> Crashes.
Proof.
  intros [_ _ Halloc] [_ Hrd Hwr _] Hi. cbn [fst snd] in *.
  pose proof (lookup_member_In _ _ _ Hi) as Hin.
  unfold worker_step. destruct (w_phase t) as [|fl0|fl0|fl0|] eqn:Hph; try discriminate.
  - destruct (MutexAt (w_path t) m). discriminate.
  - assert (Hlt : (fl0 < List.length (cells m))%nat).
    { apply (Halloc t fl0 Hin). unfold holds. rewrite Hph. apply Nat.eqb_refl. }
    destruct (lookup_lt_is_Some_2 _ _ Hlt) as [c0 Hc0].
    unfold with_cell. rewrite Hc0.
    destruct (w_write t); unfold rw_Lock, rw_RLock;
      destruct (writer c0); try discriminate.
    destruct (readers c0); discriminate.
  - assert (Hlt : (fl0 < List.length (cells m))%nat).
    { apply (Halloc t fl0 Hin). unfold holds. rewrite Hph. apply Nat.eqb_refl. }
    destruct (lookup_lt_is_Some_2 _ _ Hlt) as [c0 Hc0].
    unfold with_cell. rewrite Hc0.
    assert (Hsec : in_section (w_write t) fl0 t = true).
    { unfold in_section. rewrite Hph, Nat.eqb_refl. now destruct (w_write t). }
    pose proof (count_member _ _ _ _ Hi Hsec) as Hone.
    destruct (w_write t); unfold rw_Unlock, rw_RUnlock.
    + pose proof (Hwr fl0 c0 Hc0) as H. destruct (writer c0); [discriminate|].
      cbn [b2n] in H. lia.
    + pose proof (Hrd fl0 c0 Hc0) as H. destruct (readers c0); [lia | discriminate].
Qed.

Lemma run_sched_safe sched : forall s,
  Z.of_nat (List.length (fst s)) < 2 ^ 63 - 1 ->
  sched_inv s -> excl_inv s ->
  exists s', run_sched sched s = Proceeds s' /\ sched_inv s' /\ excl_inv s'
             /\ List.length (fst s') = List.length (fst s).
Proof.
  induction sched as [|i rest IH]; intros s Hlen Hsi Hei.
  - exists s. split; [reflexivity | split; [assumption | split; [assumption | reflexivity]]].
  - cbn [run_sched].
    assert (Hstep : exists s1, sched_step i s = Proceeds s1).
    { destruct s as [ts m]. unfold sched_step.
      destruct (ts !! i) as [t|] eqn:Hi; [|eauto].
      pose proof (worker_step_safe ts m i t Hsi Hei Hi) as Hsafe.
      destruct (worker_step t m) as [[t' m']| |]; [eauto | eauto | congruence]. }
    destruct Hstep as [s1 Hstep]. rewrite Hstep.
    destruct (sched_step_inv i s s1 Hstep Hlen Hsi) as [Hsi1 Hlen1].
    pose proof (sched_step_excl i s s1 Hstep Hsi Hei) as Hei1.
    destruct (IH s1) as (s' & Hrun & Hsi' & Hei' & Hlen'); try assumption.
    { now rewrite Hlen1. }
    exists s'. split; [assumption | split; [assumption | split; [assumption|]]].
    now rewrite Hlen', Hlen1.
Qed.

Lemma reachable_inv ts sched ts' m :
  Z.of_nat (List.length ts) < 2 ^ 63 - 1 -> Forall starting ts ->
  run_sched sched (ts, no_locks) = Proceeds (ts', m) ->
  sched_inv (ts', m) /\ excl_inv (ts', m) /\ List.length ts' = List.length ts.
Proof.
  intros Hlen Hs Hrun.
  destruct (run_sched_safe sched (ts, no_locks) Hlen (starting_inv ts Hs) (starting_excl ts Hs))
    as (s' & Hrun' & Hsi & Hei & Hl).
  rewrite Hrun in Hrun'. injection Hrun' as <-.
  split; [assumption | split; assumption].
Qed.

(** *** Counts and references *)

Lemma call_step_length o m m1 :
  call_step o m = Proceeds m1 -> (List.length (cells m) <= List.length (cells m1))%nat.
Proof.
  assert (Hcl : forall fl m0, List.length (cells (cleanup fl m0)) = List.length (cells m0)).
  { intros fl m0. unfold cleanup. destruct (cells m0 !! fl); [|reflexivity].
    cbn. apply length_insert. }
  destruct o as [p|fl|fl|fl|fl|fl|fl|fl]; cbn; intros H.
  - injection H as <-. unfold MutexAt. destruct (lock m !! p); cbn.
    + now rewrite length_alter.
    + rewrite length_app. lia.
  - now rewrite (with_cell_length _ _ _ _ H).
  - unfold RUnlock in H. destruct (with_cell fl m rw_RUnlock) eqn:Hw; try discriminate.
    injection H as <-. now rewrite Hcl, (with_cell_length _ _ _ _ Hw).
  - now rewrite (with_cell_length _ _ _ _ H).
  - unfold Unlock in H. destruct (with_cell fl m rw_Unlock) eqn:Hw; try discriminate.
    injection H as <-. now rewrite Hcl, (with_cell_length _ _ _ _ Hw).
  - now rewrite (with_cell_length _ _ _ _ H).
  - now rewrite (with_cell_length _ _ _ _ H).
  - injection H as <-. now rewrite Hcl.
Qed.

Lemma ref_at_with_cell fl0 f m m1 fl :
  keeps_ref f -> with_cell fl0 m f = Proceeds m1 -> ref_at fl m1 = ref_at fl m.
Proof.
  intros Hf Hw. unfold with_cell in Hw.
  destruct (cells m !! fl0) as [c0|] eqn:Hc0; [|discriminate].
  destruct (f c0) as [c1| |] eqn:Hfc; try discriminate.
  injection Hw as <-. destruct (Hf c0 c1 Hfc) as [Href _].
  unfold ref_at. cbn. destruct (decide (fl0 = fl)) as [->|Hne].
  - rewrite list_lookup_insert_eq by (eapply lookup_lt_Some; eassumption).
    now rewrite Hc0.
  - now rewrite list_lookup_insert_ne by assumption.
Qed.

Lemma ref_at_cleanup fl0 m fl n :
  refs_within (- n) n m -> 0 <= n -> n + 1 < 2 ^ 63 ->
  ref_at fl (cleanup fl0 m)
  = ref_at fl m + (if (fl0 =? fl)%nat && (fl <? List.length (cells m))%nat then -1 else 0).
Proof.
  intros Hb Hn0 Hn. unfold cleanup, ref_at.
  destruct (Nat.ltb_spec fl (List.length (cells m))) as [Hl|Hl];
    destruct (cells m !! fl0) as [c0|] eqn:Hc0; cbn [cells];
    destruct (Nat.eqb_spec fl0 fl) as [->|Hne]; cbn [andb];
    try (pose proof (Hb _ c0 Hc0) as Hr; rewrite wrap_i64_small by lia);
    try (pose proof (lookup_lt_Some _ _ _ Hc0) as Hlt);
    try (apply lookup_ge_None in Hc0); try lia.
  - rewrite list_lookup_insert_eq by assumption. rewrite Hc0. cbn. lia.
  - rewrite list_lookup_insert_ne by assumption. lia.
  - rewrite list_lookup_insert_ne by assumption. lia.
Qed.

Lemma ref_at_MutexAt p m fl n :
  registry_inv m -> refs_within (- n) n m -> 0 <= n -> n + 1 < 2 ^ 63 ->
  ref_at fl (snd (MutexAt p m))
  = ref_at fl m + (if (fst (MutexAt p m) =? fl)%nat then 1 else 0).
Proof.
  intros Hinv Hb Hn0 Hn. unfold MutexAt, ref_at.
  destruct (lock m !! p) as [fl0|] eqn:Hp; cbn.
  - destruct (registry_inv_positive m p fl0 Hinv Hp) as (c0 & Hc0 & _ & _).
    pose proof (Hb fl0 c0 Hc0) as Hr.
    destruct (Nat.eqb_spec fl0 fl) as [->|Hne].
    + rewrite list_lookup_alter_eq, Hc0. cbn. rewrite wrap_i64_small by lia. lia.
    + rewrite list_lookup_alter_ne by assumption. lia.
  - destruct (Nat.eqb_spec (List.length (cells m)) fl) as [<-|Hne].
    + rewrite lookup_app_r by reflexivity. rewrite Nat.sub_diag. cbn.
      rewrite (proj2 (lookup_ge_None (cells m) _)) by reflexivity. reflexivity.
    + destruct (decide (fl < List.length (cells m))%nat) as [Hlt|Hge].
      * rewrite lookup_app_l by assumption. lia.
      * rewrite lookup_app_r by lia.
        rewrite (proj2 (lookup_ge_None (cells m) _)) by lia.
        destruct (fl - List.length (cells m))%nat as [|k] eqn:Hk; [lia|].
        cbn. destruct k; reflexivity.
Qed.

(** What one call does to the count of a lock. *)
Lemma call_step_ref o m m1 n fl :
  call_step o m = Proceeds m1 ->
  registry_inv m -> refs_within (- n) n m -> 0 <= n -> n + 1 < 2 ^ 63 ->
  ref_at fl m1 = ref_at fl m + handed_out fl o m.
Proof.
  intros Hstep Hinv Hb Hn0 Hn.
  destruct o as [p|fl0|fl0|fl0|fl0|fl0|fl0|fl0]; cbn in Hstep; cbn [handed_out].
  - injection Hstep as <-. now apply (ref_at_MutexAt p m fl n).
  - rewrite (ref_at_with_cell _ _ _ _ fl rw_RLock_keeps Hstep). lia.
  - unfold RUnlock in Hstep.
    destruct (with_cell fl0 m rw_RUnlock) as [m2| |] eqn:Hw; try discriminate.
    injection Hstep as <-.
    rewrite (ref_at_cleanup fl0 m2 fl n); [ | | lia | lia].
    + rewrite (ref_at_with_cell _ _ _ _ fl rw_RUnlock_keeps Hw).
      now rewrite (with_cell_length _ _ _ _ Hw).
    + exact (with_cell_refs _ _ _ _ _ _ rw_RUnlock_keeps Hw Hb).
  - rewrite (ref_at_with_cell _ _ _ _ fl rw_Lock_keeps Hstep). lia.
  - unfold Unlock in Hstep.
    destruct (with_cell fl0 m rw_Unlock) as [m2| |] eqn:Hw; try discriminate.
    injection Hstep as <-.
    rewrite (ref_at_cleanup fl0 m2 fl n); [ | | lia | lia].
    + rewrite (ref_at_with_cell _ _ _ _ fl rw_Unlock_keeps Hw).
      now rewrite (with_cell_length _ _ _ _ Hw).
    + exact (with_cell_refs _ _ _ _ _ _ rw_Unlock_keeps Hw Hb).
  - rewrite (ref_at_with_cell _ _ _ _ fl rw_RUnlock_keeps Hstep). lia.
  - rewrite (ref_at_with_cell _ _ _ _ fl rw_Unlock_keeps Hstep). lia.
  - injection Hstep as <-. now apply (ref_at_cleanup fl0 m fl n).
Qed.

Lemma run_calls_ref os : forall m m' n fl,
  run_calls os m = Proceeds m' ->
  0 <= n -> n + Z.of_nat (List.length os) < 2 ^ 63 ->
  registry_inv m /\ refs_within (- n) n m ->
  ref_at fl m' = ref_at fl m + outstanding fl os m.
Proof.
  induction os as [|o rest IH]; intros m m' n fl Hrun Hn0 Hn Hm; cbn in Hrun |- *.
  - injection Hrun as <-. lia.
  - destruct (call_step o m) as [m1| |] eqn:Hstep; try discriminate.
    cbn [List.length] in Hn. destruct Hm as [Hinv Hb].
    rewrite (IH m1 m' (n + 1) fl Hrun); [ | lia | lia | ].
    + rewrite (call_step_ref o m m1 n fl Hstep Hinv Hb); lia.
    + eapply call_step_inv; [exact Hstep | lia | lia | now split].
Qed.

(** A path is out of the map exactly when no lock made for it has a
    positive count. *)
Lemma registry_inv_path m p :
  registry_inv m ->
  (lock m !! p = None
   <-> forall fl c, cells m !! fl = Some c -> cleanup_path c = p -> ref c <= 0).
Proof.
  intros Hinv. split.
  - intros Hnone fl c Hc Hp.
    destruct (Z_lt_le_dec 0 (ref c)) as [Hpos|]; [|assumption].
    apply (inv_iff m Hinv fl c Hc) in Hpos. congruence.
  - intros H. destruct (lock m !! p) as [fl|] eqn:Hp; [|reflexivity].
    destruct (registry_inv_positive m p fl Hinv Hp) as (c & Hc & Hpath & Hpos).
    specialize (H fl c Hc Hpath). lia.
Qed.

(** A schedule of workers is a sequence of calls. *)
Lemma run_sched_calls sched : forall s s',
  run_sched sched s = Proceeds s' ->
  run_calls (calls_of sched s) (snd s) = Proceeds (snd s').
Proof.
  assert (Happ : forall os1 os2 m m1, run_calls os1 m = Proceeds m1 ->
            run_calls (os1 ++ os2) m = run_calls os2 m1).
  { induction os1 as [|o os1 IH]; intros os2 m m1 H; cbn in H |- *.
    - now injection H as <-.
    - destruct (call_step o m); try discriminate. now apply IH. }
  induction sched as [|i rest IH]; intros s s' Hrun; cbn in Hrun |- *.
  - now injection Hrun as <-.
  - destruct (sched_step i s) as [s1| |] eqn:Hstep; try discriminate.
    rewrite (Happ _ _ (snd s) (snd s1)); [now apply IH|].
    destruct s as [ts m]. unfold sched_step in Hstep. cbn [fst snd].
    destruct (ts !! i) as [t|] eqn:Hi; [|now injection Hstep as <-].
    unfold can_move, call_of. unfold worker_step in *.
    destruct (w_phase t) as [|fl|fl|fl|] eqn:Hph.
    + destruct (MutexAt (w_path t) m) as [fl m1] eqn:HM. injection Hstep as <-.
      cbn. now rewrite HM.
    + destruct (w_write t);
        [ destruct (with_cell fl m rw_Lock) as [m1| |] eqn:HW
        | destruct (with_cell fl m rw_RLock) as [m1| |] eqn:HW ];
        try discriminate; injection Hstep as <-; try reflexivity;
        cbn [run_calls call_step]; unfold Lock, RLock; now rewrite HW.
    + destruct (w_write t);
        [ destruct (with_cell fl m rw_Unlock) as [m1| |] eqn:HW
        | destruct (with_cell fl m rw_RUnlock) as [m1| |] eqn:HW ];
        try discriminate; injection Hstep as <-; try reflexivity;
        cbn [run_calls call_step]; now rewrite HW.
    + now injection Hstep as <-.
    + now injection Hstep as <-.
Qed.

(** The path of a worker is in the map exactly while the worker holds a
    reference. *)
Lemma path_registered_iff ts m p :
  sched_inv (ts, m) -> excl_inv (ts, m) ->
  (lock m !! p = None
   <-> forall t, In t ts -> w_path t = p -> outside t = true).
Proof.
  intros [Hreg Hcount _] [Hpath _ _ _]. cbn [fst snd] in *. split.
  - intros Hnone t Ht Hp. unfold outside.
    destruct (w_phase t) as [|fl|fl|fl|] eqn:Hph; try reflexivity; exfalso.
    all: assert (Hh : holds fl t = true) by (unfold holds; rewrite Hph; apply Nat.eqb_refl).
    all: destruct (Hpath t fl Ht Hh) as (c & Hc & Hcp).
    all: assert (Hpos : 0 < ref c)
      by (rewrite (Hcount fl c Hc);
          apply list_elem_of_In, list_elem_of_lookup_1 in Ht as [k Hk];
          pose proof (count_member (holds fl) ts k t Hk Hh) as H1;
          unfold count in H1; unfold holders; lia).
    all: apply (inv_iff m Hreg fl c Hc) in Hpos; congruence.
  - intros Hout. destruct (lock m !! p) as [fl|] eqn:Hp; [|reflexivity]. exfalso.
    destruct (registry_inv_positive m p fl Hreg Hp) as (c & Hc & Hcp & Hpos).
    rewrite (Hcount fl c Hc) in Hpos.
    assert (Hone : (1 <= count (holds fl) ts)%nat) by (unfold count, holders in *; lia).
    destruct (count_witness _ _ Hone) as (k & t & Hk & Hh).
    pose proof (lookup_member_In _ _ _ Hk) as Ht.
    destruct (Hpath t fl Ht Hh) as (c' & Hc' & Hcp').
    assert (c' = c) by congruence. subst c'.
    specialize (Hout t Ht (eq_trans (eq_sym Hcp') Hcp)).
    unfold outside in Hout. unfold holds in Hh.
    destruct (w_phase t); discriminate.
Qed.

(** C8.  Along every sequence of [MutexAt], [RLock], [RUnlock], [Lock] and
    [Unlock] calls (and of the two halves of an unlock) from the empty
    registry, a lock is in the registry map exactly when its reference count
    is positive, the count of a lock is the number of references [MutexAt]
    has handed out less those [RUnlock], [Unlock] and [cleanup] have taken
    back, and a path is out of the map exactly when every lock made for it
    has been given back as often as it was handed out.  [RUnlock] and
    [Unlock] are their two halves run back to back.  A schedule of workers
    that each run one acquire/release cycle is such a sequence of calls, and
    at every point of it a path is out of the map exactly when no worker of
    that path is between its [MutexAt] and the end of its [cleanup]: when
    the cycles on a path are complete the map has no entry for it, and when
    all are the map is empty.  The counts are Go [int]s: the lengths are
    bounded so that none overflows. *)
Theorem registry_holds_exactly_the_referenced_locks :
  (forall (os : list call) (m : pathMutex),
      Z.of_nat (List.length os) < 2 ^ 63 ->
      run_calls os no_locks = Proceeds m ->
      registry_inv m
      /\ (forall fl c, cells m !! fl = Some c -> ref c = outstanding fl os no_locks)
      /\ (forall p, lock m !! p = None
                    <-> forall fl c, cells m !! fl = Some c -> cleanup_path c = p ->
                                     outstanding fl os no_locks <= 0))
  /\ (forall (fl : nat) (m : pathMutex),
      RUnlock fl m = run_calls [MuRUnlock fl; CallCleanup fl] m
      /\ Unlock fl m = run_calls [MuUnlock fl; CallCleanup fl] m)
  /\ (forall (ts ts' : list worker) (sched : list nat) (m : pathMutex),
      Z.of_nat (List.length ts) < 2 ^ 63 - 1 ->
      Forall starting ts ->
      run_sched sched (ts, no_locks) = Proceeds (ts', m) ->
      run_calls (calls_of sched (ts, no_locks)) no_locks = Proceeds m
      /\ registry_inv m
      /\ (forall p, lock m !! p = None
                    <-> forall t, In t ts' -> w_path t = p -> outside t = true)
      /\ (Forall finished ts' -> lock m = ∅)).
Proof.
  split; [|split].
  - intros os m Hlen Hrun.
    assert (Hstart : registry_inv no_locks /\ refs_within (- 0) 0 no_locks)
      by (split; [apply no_locks_inv | apply no_locks_refs]).
    assert (Hinv : registry_inv m)
      by (eapply (run_calls_inv os no_locks m 0); [exact Hrun | lia | lia | exact Hstart]).
    assert (Href : forall fl c, cells m !! fl = Some c -> ref c = outstanding fl os no_locks).
    { intros fl c Hc.
      pose proof (run_calls_ref os no_locks m 0 fl Hrun ltac:(lia) ltac:(lia) Hstart) as H.
      unfold ref_at in H. rewrite Hc in H. rewrite H.
      destruct fl; cbn; lia. }
    split; [exact Hinv | split; [exact Href|]].
    intros p. rewrite (registry_inv_path m p Hinv).
    split; intros H fl c Hc Hp; specialize (H fl c Hc Hp);
      rewrite (Href fl c Hc) in *; exact H.
  - intros fl m. unfold RUnlock, Unlock. cbn [run_calls call_step].
    split; [destruct (with_cell fl m rw_RUnlock) | destruct (with_cell fl m rw_Unlock)];
      reflexivity.
  - intros ts ts' sched m Hlen Hs Hrun.
    destruct (reachable_inv ts sched ts' m Hlen Hs Hrun) as (Hsi & Hei & _).
    split; [exact (run_sched_calls sched _ _ Hrun)|].
    split; [apply Hsi|].
    split; [intros p; now apply path_registered_iff | now apply finished_registry_empty].
Qed.

(** *** Exclusion and progress *)

(** Two workers that hold a reference for the same path point to the same
    lock. *)
Lemma same_path_same_lock ts m a b fa fb :
  sched_inv (ts, m) -> excl_inv (ts, m) ->
  In a ts -> In b ts -> holds fa a = true -> holds fb b = true ->
  w_path a = w_path b -> fa = fb.
Proof.
  intros [Hreg Hcount _] [Hpath _ _ _] Ha Hb Hha Hhb Hsame. cbn [fst snd] in *.
  assert (Hreg_of : forall x fx, In x ts -> holds fx x = true ->
             lock m !! w_path x = Some fx).
  { intros x fx Hx Hh. destruct (Hpath x fx Hx Hh) as (c & Hc & Hcp).
    rewrite <- Hcp. apply (inv_iff m Hreg fx c Hc). rewrite (Hcount fx c Hc).
    apply list_elem_of_In, list_elem_of_lookup_1 in Hx as [k Hk'].
    pose proof (count_member (holds fx) ts k x Hk' Hh) as H1.
    unfold count in H1. unfold holders. lia. }
  pose proof (Hreg_of a fa Ha Hha) as H1. pose proof (Hreg_of b fb Hb Hhb) as H2.
  rewrite Hsame in H1. congruence.
Qed.

Lemma held_in_section t fl :
  w_phase t = Held fl -> in_section (w_write t) fl t = true /\ holds fl t = true.
Proof.
  intros H. unfold in_section, holds. rewrite H, Nat.eqb_refl. now destruct (w_write t).
Qed.

(** A worker that is not at its end can move, or waits for a lock some
    worker inside can give back. *)
Lemma some_worker_moves ts m i t :
  sched_inv (ts, m) -> excl_inv (ts, m) ->
  ts !! i = Some t -> w_phase t <> Done ->
  exists j u, ts !! j = Some u /\ can_move u m = true.
Proof.
  intros Hsi Hei Hi Hnd.
  assert (Hheld : forall j u fl, ts !! j = Some u -> w_phase u = Held fl ->
                    can_move u m = true).
  { intros j u fl Hj Hph. pose proof (worker_step_safe ts m j u Hsi Hei Hj) as Hsafe.
    unfold can_move. unfold worker_step in *. rewrite Hph in *.
    destruct (with_cell fl m (if w_write u then rw_Unlock else rw_RUnlock)) as [m1| |] eqn:HW;
      [reflexivity | | congruence].
    exfalso. unfold with_cell in HW. destruct (cells m !! fl) as [c|]; [|discriminate].
    destruct (w_write u); unfold rw_Unlock, rw_RUnlock in HW.
    - destruct (writer c); discriminate.
    - destruct (readers c); discriminate. }
  destruct (w_phase t) as [|fl0|fl0|fl0|] eqn:Hph; try congruence.
  - exists i, t. split; [exact Hi|]. unfold can_move, worker_step. rewrite Hph.
    now destruct (MutexAt (w_path t) m).
  - destruct (can_move t m) eqn:Hcan; [now exists i, t|].
    destruct Hsi as [_ _ Halloc]. pose proof Hei as [_ Hrd Hwr _]. cbn [fst snd] in *.
    pose proof (lookup_member_In _ _ _ Hi) as Hin.
    assert (Hlt : (fl0 < List.length (cells m))%nat).
    { apply (Halloc t fl0 Hin). unfold holds. rewrite Hph. apply Nat.eqb_refl. }
    destruct (lookup_lt_is_Some_2 _ _ Hlt) as [c0 Hc0].
    assert (Hbusy : exists wr, (1 <= count (in_section wr fl0) ts)%nat).
    { unfold can_move, worker_step in Hcan. rewrite Hph in Hcan.
      unfold with_cell in Hcan. rewrite Hc0 in Hcan.
      pose proof (Hrd fl0 c0 Hc0) as Hr. pose proof (Hwr fl0 c0 Hc0) as Hw.
      destruct (writer c0) eqn:Hwc.
      - exists true. cbn [b2n] in Hw. lia.
      - exists false. destruct (w_write t); unfold rw_Lock, rw_RLock in Hcan;
          rewrite Hwc in Hcan; [|discriminate].
        destruct (readers c0); [discriminate | lia]. }
    destruct Hbusy as [wr Hbusy].
    destruct (count_witness _ _ Hbusy) as (j & u & Hj & Hu).
    exists j, u. split; [exact Hj|].
    unfold in_section in Hu. destruct (w_phase u) as [|?|fl1|?|] eqn:Hpu; try discriminate.
    eapply Hheld; eassumption.
  - exists i, t. split; [exact Hi|]. eapply Hheld; eassumption.
  - exists i, t. split; [exact Hi|]. unfold can_move, worker_step. now rewrite Hph.
Qed.

Lemma total_left_insert t' : forall ts i t,
  ts !! i = Some t ->
  (total_left (<[i := t']> ts) + steps_left t = total_left ts + steps_left t')%nat.
Proof.
  unfold total_left. induction ts as [|a ts IH]; intros i t Hi; [destruct i; discriminate|].
  destruct i as [|i]; simpl in Hi |- *.
  - injection Hi as ->. lia.
  - specialize (IH i t Hi). lia.
Qed.

Lemma total_left_zero ts : total_left ts = 0%nat -> Forall finished ts.
Proof.
  unfold total_left. induction ts as [|a ts IH]; intros H; [constructor|].
  simpl in H. constructor.
  - unfold finished. unfold steps_left in H. destruct (w_phase a); try lia. reflexivity.
  - apply IH. lia.
Qed.

Lemma not_finished_member ts :
  total_left ts <> 0%nat -> exists i t, ts !! i = Some t /\ w_phase t <> Done.
Proof.
  unfold total_left. induction ts as [|a ts IH]; intros H; [now contradiction H|].
  simpl in H. destruct (w_phase a) eqn:Hph;
    try (exists 0%nat, a; split; [reflexivity | congruence]).
  unfold steps_left in H. rewrite Hph in H.
  destruct IH as (i & t & Hi & Ht); [exact H|]. exists (S i), t. now split.
Qed.

Lemma can_move_steps t m t' m' :
  worker_step t m = Proceeds (t', m') -> steps_left t = S (steps_left t').
Proof.
  unfold worker_step, steps_left. destruct (w_phase t) as [|fl|fl|fl|].
  - destruct (MutexAt (w_path t) m). now intros [= <- _].
  - destruct (with_cell fl m _); try discriminate. now intros [= <- _].
  - destruct (with_cell fl m _); try discriminate. now intros [= <- _].
  - now intros [= <- _].
  - discriminate.
Qed.

Lemma finish_without_waiting n : forall ts m,
  total_left ts = n ->
  Z.of_nat (List.length ts) < 2 ^ 63 - 1 ->
  sched_inv (ts, m) -> excl_inv (ts, m) ->
  exists sched ts' m',
    never_waits sched (ts, m) = true
    /\ run_sched sched (ts, m) = Proceeds (ts', m')
    /\ Forall finished ts' /\ lock m' = ∅.
Proof.
  induction n as [|n IH]; intros ts m Hn Hlen Hsi Hei.
  - exists [], ts, m. split; [reflexivity|]. split; [reflexivity|].
    pose proof (total_left_zero ts Hn) as Hfin. split; [exact Hfin|].
    now apply (finished_registry_empty ts m).
  - destruct (not_finished_member ts) as (i & t & Hi & Hnd); [lia|].
    destruct (some_worker_moves ts m i t Hsi Hei Hi Hnd) as (j & u & Hj & Hcan).
    pose proof Hcan as Hcan'. unfold can_move in Hcan.
    destruct (worker_step u m) as [[u' m1]| |] eqn:Hw; try discriminate.
    assert (Hstep : sched_step j (ts, m) = Proceeds (<[j := u']> ts, m1)).
    { unfold sched_step. now rewrite Hj, Hw. }
    destruct (sched_step_inv j _ _ Hstep Hlen Hsi) as [Hsi1 Hlen1].
    pose proof (sched_step_excl j _ _ Hstep Hsi Hei) as Hei1.
    cbn [fst] in Hlen1.
    destruct (IH (<[j := u']> ts) m1) as (sched & ts' & m' & Hnw & Hrun & Hfin & Hempty);
      try assumption.
    { pose proof (total_left_insert u' ts j u Hj) as H.
      rewrite (can_move_steps u m u' m1 Hw) in H. lia. }
    { now rewrite Hlen1. }
    exists (j :: sched), ts', m'. split; [|split; [|now split]].
    + cbn [never_waits fst snd]. now rewrite Hj, Hcan', Hstep.
    + cbn [run_sched]. now rewrite Hstep.
Qed.

(** X1.  Workers that each run one cycle, [MutexAt] then [Lock] and
    [Unlock] (or [RLock] and [RUnlock]), never make the run time abort,
    whatever their paths and however their steps interleave: no unlock meets
    a lock that is not locked. *)
Theorem lock_cycles_never_crash (ts : list worker) (sched : list nat) :
  Z.of_nat (List.length ts) < 2 ^ 63 - 1 -> Forall starting ts ->
  exists ts' m, run_sched sched (ts, no_locks) = Proceeds (ts', m).
Proof.
  intros Hlen Hs.
  destruct (run_sched_safe sched (ts, no_locks) Hlen (starting_inv ts Hs) (starting_excl ts Hs))
    as ([ts' m] & Hrun & _).
  now exists ts', m.
Qed.

(** X2.  Mutual exclusion per path.  At every point of every schedule, two
    workers that are both between lock and unlock for the same path hold the
    same [fileLock], and both hold it for reading: a writer is alone. *)
Theorem writer_excludes_others_on_its_path
    (ts ts' : list worker) (sched : list nat) (m : pathMutex)
    (i j : nat) (a b : worker) (fa fb : nat) :
  Z.of_nat (List.length ts) < 2 ^ 63 - 1 -> Forall starting ts ->
  run_sched sched (ts, no_locks) = Proceeds (ts', m) ->
  i <> j -> ts' !! i = Some a -> ts' !! j = Some b ->
  w_phase a = Held fa -> w_phase b = Held fb -> w_path a = w_path b ->
  fa = fb /\ w_write a = false /\ w_write b = false.
Proof.
  intros Hlen Hs Hrun Hne Hi Hj Hpa Hpb Hsame.
  destruct (reachable_inv ts sched ts' m Hlen Hs Hrun) as (Hsi & Hei & _).
  destruct (held_in_section a fa Hpa) as [Hsa Hha].
  destruct (held_in_section b fb Hpb) as [Hsb Hhb].
  assert (Heq : fa = fb).
  { eapply (same_path_same_lock ts' m a b); try eassumption;
      eapply lookup_member_In; eassumption. }
  subst fb. split; [reflexivity|].
  pose proof Hsi as [_ _ Halloc]. pose proof Hei as [_ Hrd Hwr Hal]. cbn [fst snd] in *.
  assert (Hlt : (fa < List.length (cells m))%nat).
  { apply (Halloc a fa); [eapply lookup_member_In; eassumption | exact Hha]. }
  destruct (lookup_lt_is_Some_2 _ _ Hlt) as [c Hc].
  pose proof (Hrd fa c Hc) as Hr. pose proof (Hwr fa c Hc) as Hw.
  pose proof (Hal fa c Hc) as Hal'.
  pose proof (count_member _ _ _ _ Hi Hsa) as Ha1.
  pose proof (count_member _ _ _ _ Hj Hsb) as Hb1.
  destruct (w_write a) eqn:Hwa, (w_write b) eqn:Hwb.
  - pose proof (count_two _ ts' i j a b Hne Hi Hj Hsa Hsb) as H2.
    destruct (writer c); cbn [b2n] in Hw; lia.
  - destruct (writer c); cbn [b2n] in Hw; [|lia]. specialize (Hal' eq_refl). lia.
  - destruct (writer c); cbn [b2n] in Hw; [|lia]. specialize (Hal' eq_refl). lia.
  - now split.
Qed.

(** X3.  Lock cycles can be completed without anybody waiting.  From every
    point the workers reach by a schedule in which no call had to wait, a
    schedule exists that brings them all to the end of their cycle, again
    without any call waiting, and leaves the registry map empty.  Along such
    schedules a call that returns here returns under [sync.RWMutex] as well:
    [RLock] is held up by a writer that holds the lock or waits for it, and
    where no call has waited no writer waits. *)
Theorem lock_cycles_can_finish_without_waiting
    (ts ts' : list worker) (sched : list nat) (m : pathMutex) :
  Z.of_nat (List.length ts) < 2 ^ 63 - 1 -> Forall starting ts ->
  never_waits sched (ts, no_locks) = true ->
  run_sched sched (ts, no_locks) = Proceeds (ts', m) ->
  exists sched' ts'' m'',
    never_waits sched' (ts', m) = true
    /\ run_sched sched' (ts', m) = Proceeds (ts'', m'')
    /\ Forall finished ts'' /\ lock m'' = ∅.
Proof.
  intros Hlen Hs _ Hrun.
  destruct (reachable_inv ts sched ts' m Hlen Hs Hrun) as (Hsi & Hei & Hl).
  eapply (finish_without_waiting (total_left ts')); try eassumption; [reflexivity|].
  now rewrite Hl.
Qed.

(** ** What an update of the tree leaves alone *)

(** Replacing or removing what is at [cs], where no directory is and none
    is put, changes no regular file elsewhere. *)
Lemma fs_put_other_file cs : forall qs x F o d,
  qs <> cs ->
  (forall l es, fs_lookup cs F <> Some (Dir l es)) ->
  (forall l es, x <> Some (Dir l es)) ->
  (fs_lookup qs (fs_put cs x F) = Some (File o d)
   <-> fs_lookup qs F = Some (File o d)).
Proof.
  induction cs as [|c cs IH]; intros qs x F o d Hne Hold Hx.
  - destruct F as [o0 d0|l es]; [|now contradiction (Hold l es)].
    destruct qs as [|q qs]; [congruence|].
    destruct x as [[o1 d1|l es]|]; cbn; [tauto | now contradiction (Hx l es) | tauto].
  - destruct F as [o0 d0|l es]; [reflexivity|].
    destruct cs as [|c' cs'].
    + cbn [fs_put]. destruct qs as [|q qs]; [cbn; split; discriminate|].
      cbn [fs_lookup]. destruct (String.eqb_spec c q) as [<-|Hcq].
      * rewrite assoc_set_same.
        assert (Hqs : qs <> []) by congruence.
        assert (Hbefore : match assoc c es with
                          | Some child => fs_lookup qs child
                          | None => None
                          end = None).
        { destruct (assoc c es) as [[o1 d1|l1 es1]|] eqn:Hc; [ | | reflexivity].
          - destruct qs; [congruence | reflexivity].
          - exfalso. apply (Hold l1 es1). cbn. now rewrite Hc. }
        rewrite Hbefore.
        destruct x as [[o1 d1|l1 es1]|]; [ | now contradiction (Hx l1 es1) | tauto].
        destruct qs; [congruence | cbn; tauto].
      * now rewrite assoc_set_other.
    + cbn [fs_put]. destruct (assoc c es) as [child|] eqn:Hc; [|reflexivity].
      destruct qs as [|q qs]; [cbn; split; discriminate|].
      cbn [fs_lookup]. destruct (String.eqb_spec c q) as [<-|Hcq].
      * rewrite assoc_set_same, Hc. apply IH; [congruence | | assumption].
        intros l1 es1 H. apply (Hold l1 es1). cbn [fs_lookup]. now rewrite Hc.
      * now rewrite assoc_set_other.
Qed.

(** ... and no directory. *)
Lemma fs_put_other_dir cs : forall qs x F,
  (forall l es, fs_lookup cs F <> Some (Dir l es)) ->
  (forall l es, x <> Some (Dir l es)) ->
  (exists l es, fs_lookup qs F = Some (Dir l es)) ->
  exists l es, fs_lookup qs (fs_put cs x F) = Some (Dir l es).
Proof.
  induction cs as [|c cs IH]; intros qs x F Hold Hx Hd.
  - destruct F as [o0 d0|l es]; [|now contradiction (Hold l es)].
    destruct Hd as (l & es & Hd). destruct qs; cbn in Hd; discriminate.
  - destruct F as [o0 d0|l es]; [exact Hd|].
    destruct qs as [|q qs].
    { cbn [fs_lookup]. rewrite fs_put_is_dir by discriminate. eauto. }
    destruct cs as [|c' cs'].
    + cbn [fs_put fs_lookup]. destruct (String.eqb_spec c q) as [<-|Hcq].
      * exfalso. destruct Hd as (l1 & es1 & Hd). cbn [fs_lookup] in Hd.
        destruct (assoc c es) as [[o1 d1|l2 es2]|] eqn:Hc; try discriminate.
        -- destruct qs; discriminate.
        -- apply (Hold l2 es2). cbn. now rewrite Hc.
      * rewrite assoc_set_other by assumption. exact Hd.
    + cbn [fs_put]. destruct (assoc c es) as [child|] eqn:Hc; [|exact Hd].
      cbn [fs_lookup]. destruct (String.eqb_spec c q) as [<-|Hcq].
      * rewrite assoc_set_same. cbn [fs_lookup] in Hd. rewrite Hc in Hd.
        apply IH; [ | assumption | exact Hd].
        intros l1 es1 H. apply (Hold l1 es1). cbn [fs_lookup]. now rewrite Hc.
      * rewrite assoc_set_other by assumption. exact Hd.
Qed.

(** [MkdirAll] keeps the directories there are. *)
Lemma mkdir_all_dir ds : forall n n1 qs,
  mkdir_all ds n = Some n1 ->
  (exists l es, fs_lookup qs n = Some (Dir l es)) ->
  exists l es, fs_lookup qs n1 = Some (Dir l es).
Proof.
  intros n n1 qs Hmk (l & es & Hd).
  pose proof (mkdir_all_keeps ds n n1 qs Hmk) as Hk.
  destruct (fs_lookup qs n1) as [[o d|l1 es1]|] eqn:H1.
  - apply (mkdir_all_file ds n n1 qs o d Hmk) in H1. congruence.
  - eauto.
  - exfalso. apply Hk; [congruence | reflexivity].
Qed.

Lemma mkdir_all_empty ds : forall l, exists n, mkdir_all ds (Dir l []) = Some n.
Proof.
  induction ds as [|c ds IH]; intros l; cbn; [eauto|].
  destruct (IH true) as [n ->]. eauto.
Qed.

(** [MkdirAll] fails exactly when a regular file is in the way. *)
Lemma mkdir_all_way_clear ds : forall n,
  way_clear ds n = true <-> exists n1, mkdir_all ds n = Some n1.
Proof.
  induction ds as [|c ds IH]; intros n.
  - destruct n; cbn; split; try discriminate; eauto.
    intros [n1 H]. discriminate.
  - destruct n as [o d|l es]; cbn.
    + split; [discriminate | intros [n1 H]; discriminate].
    + destruct (assoc c es) as [child|] eqn:Hc.
      * rewrite IH. split.
        -- intros [n1 ->]. eauto.
        -- intros [n1 H]. destruct (mkdir_all ds child); [eauto | discriminate].
      * destruct (mkdir_all_empty ds true) as [n1 ->]. split; eauto.
Qed.

(** After [MkdirAll] the directory is there. *)
Lemma mkdir_all_made ds : forall n n1,
  mkdir_all ds n = Some n1 -> exists l es, fs_lookup ds n1 = Some (Dir l es).
Proof.
  induction ds as [|c ds IH]; intros n n1 Hmk.
  - destruct n; cbn in Hmk; [discriminate|]. injection Hmk as <-. cbn. eauto.
  - destruct n as [|l es]; [discriminate|]. cbn [mkdir_all] in Hmk.
    destruct (assoc c es) as [child|] eqn:Hc.
    + destruct (mkdir_all ds child) as [child'|] eqn:Hch; [|discriminate].
      injection Hmk as <-. cbn [fs_lookup]. rewrite assoc_set_same. eapply IH; eassumption.
    + destruct (mkdir_all ds (Dir true [])) as [child'|] eqn:Hch; [|discriminate].
      injection Hmk as <-. cbn [fs_lookup]. rewrite assoc_set_same. eapply IH; eassumption.
Qed.

(** What is missing below the directory made stays missing. *)
Lemma mkdir_all_missing ds : forall n n1 k,
  mkdir_all ds n = Some n1 ->
  fs_lookup (ds ++ [k]) n = None -> fs_lookup (ds ++ [k]) n1 = None.
Proof.
  induction ds as [|c ds IH]; intros n n1 k Hmk Hnone.
  - destruct n; cbn in Hmk; [discriminate|]. now injection Hmk as <-.
  - destruct n as [|l es]; [discriminate|]. cbn [mkdir_all] in Hmk.
    cbn [app fs_lookup] in Hnone |- *.
    destruct (assoc c es) as [child|] eqn:Hc.
    + destruct (mkdir_all ds child) as [child'|] eqn:Hch; [|discriminate].
      injection Hmk as <-. cbn [fs_lookup]. rewrite assoc_set_same. eapply IH; eassumption.
    + destruct (mkdir_all ds (Dir true [])) as [child'|] eqn:Hch; [|discriminate].
      injection Hmk as <-. cbn [fs_lookup]. rewrite assoc_set_same.
      eapply IH; [eassumption|]. rewrite fs_lookup_app.
      destruct ds; cbn; [reflexivity | reflexivity].
Qed.

Module KeyShape.
Import Filepath.
#[local] Arguments String.append !_ _ / : simpl nomatch.

(** ** The shape of key paths *)

Lemma unhex_hex b : unhex (Text.EncodeToString [b]) = Z_of_byte b.
Proof. destruct b; reflexivity. Qed.

Lemma Z_of_byte_inj b b' : Z_of_byte b = Z_of_byte b' -> b = b'.
Proof.
  unfold Z_of_byte. intros H. apply N2Z.inj in H.
  pose proof (Byte.of_to_N b) as H1. pose proof (Byte.of_to_N b') as H2.
  rewrite H in H1. congruence.
Qed.

Lemma hex_inj b b' :
  Text.EncodeToString [b] = Text.EncodeToString [b'] -> b = b'.
Proof.
  intros H. apply Z_of_byte_inj. rewrite <- !unhex_hex. now rewrite H.
Qed.

Lemma keyHash_bytes key :
  exists b0 b1 b2 b3,
    keyHash key = [b0; b1; b2; b3]
    /\ shard_names key
       = [ Text.EncodeToString [b0]; Text.EncodeToString [b1];
           Text.EncodeToString [b2]; Text.EncodeToString [b3] ].
Proof.
  unfold shard_names, keyHash, PutUint32, hash_byte. cbn [skipn firstn].
  do 4 eexists. split; reflexivity.
Qed.

Lemma four_inj {A} (a0 a1 a2 a3 b0 b1 b2 b3 : A) :
  [a0; a1; a2; a3] = [b0; b1; b2; b3] -> a0 = b0 /\ a1 = b1 /\ a2 = b2 /\ a3 = b3.
Proof. now intros [= -> -> -> ->]. Qed.

Lemma shard_names_inj k1 k2 : shard_names k1 = shard_names k2 -> keyHash k1 = keyHash k2.
Proof.
  destruct (keyHash_bytes k1) as (a0 & a1 & a2 & a3 & -> & ->).
  destruct (keyHash_bytes k2) as (b0 & b1 & b2 & b3 & -> & ->).
  intros H. apply four_inj in H as (H0 & H1 & H2 & H3).
  apply hex_inj in H0, H1, H2, H3. now subst.
Qed.

Lemma shard_names_are_names key : Forall (fun e => is_name e = true) (shard_names key).
Proof. unfold shard_names. repeat constructor; apply hash_byte_name; lia. Qed.

Lemma replace_byte_dot c : Text.replace_byte c = "."%char -> c = "."%char.
Proof.
  unfold Text.replace_byte.
  destruct (Ascii.eqb c "/"); [discriminate|].
  destruct (Ascii.eqb c ":"); [discriminate|]. auto.
Qed.

Lemma Replace_empty k : Text.Replace k = "" -> k = "".
Proof. destruct k; [reflexivity | discriminate]. Qed.

Lemma Replace_dot k : Text.Replace k = "." -> k = ".".
Proof.
  destruct k as [|c [|c' k]]; cbn; try discriminate.
  intros [= H]. now rewrite (replace_byte_dot c H).
Qed.

Lemma Replace_dotdot k : Text.Replace k = ".." -> k = "..".
Proof.
  destruct k as [|c [|c' [|c'' k]]]; cbn; try discriminate.
  intros [= H H']. now rewrite (replace_byte_dot c H), (replace_byte_dot c' H').
Qed.

Lemma Replace_plain key : Text.Replace key = key <-> plain key = true.
Proof.
  induction key as [|c key IH]; cbn; [tauto|].
  unfold Text.replace_byte.
  destruct (Ascii.eqb_spec c "/") as [->|H1]; cbn.
  { split; [intros [= E _]; discriminate E | discriminate]. }
  destruct (Ascii.eqb_spec c ":") as [->|H2]; cbn.
  { split; [intros [= E _]; discriminate E | discriminate]. }
  rewrite <- IH. split; [now intros [= ->] | now intros ->].
Qed.

(** The path of a key, element by element. *)
Lemma keyPath_render base key :
  keyPath base key = render (is_rooted base) (elements base ++ key_names key)
  /\ exists p, keyPath base key = Clean p.
Proof.
  unfold keyPath, key_names.
  set (h0 := Text.EncodeToString (hash_byte (keyHash key) 0)).
  set (h1 := Text.EncodeToString (hash_byte (keyHash key) 1)).
  set (h2 := Text.EncodeToString (hash_byte (keyHash key) 2)).
  set (h3 := Text.EncodeToString (hash_byte (keyHash key) 3)).
  set (k := Text.Replace key).
  assert (H0 : is_name h0 = true) by (apply hash_byte_name; lia).
  assert (H1 : is_name h1 = true) by (apply hash_byte_name; lia).
  assert (H2 : is_name h2 = true) by (apply hash_byte_name; lia).
  assert (H3 : is_name h3 = true) by (apply hash_byte_name; lia).
  assert (Hk : noslash k = true) by apply noslash_Replace.
  assert (Hsplit : split (join [h0; h1; h2; h3; k]) = [h0; h1; h2; h3; k]).
  { apply split_join; [discriminate|].
    repeat constructor; try assumption;
      match goal with |- noslash ?h = true => now apply is_name_inv end. }
  cbn [Join]. destruct (String.eqb_spec base "") as [->|Hbase].
  - assert (E0 : String.eqb h0 "" = false) by now apply is_name_inv in H0.
    rewrite E0. split; [|eexists; reflexivity].
    unfold Clean at 1. unfold elements at 1. rewrite Hsplit.
    assert (Hr : is_rooted (join [h0; h1; h2; h3; k]) = false).
    { cbn [join]. rewrite is_rooted_append; [now apply is_rooted_name|].
      intros E. now rewrite E in E0. }
    rewrite Hr. rewrite clean_loop_key by assumption. reflexivity.
  - split; [|eexists; reflexivity].
    unfold Clean at 1. unfold elements at 1.
    rewrite split_join_cons, Hsplit.
    assert (Hr : is_rooted (join [base; h0; h1; h2; h3; k]) = is_rooted base).
    { cbn [join]. now apply is_rooted_append. }
    rewrite Hr, clean_loop_app, clean_loop_key by assumption. reflexivity.
Qed.

Lemma key_names_cases key :
  (is_name (Text.Replace key) = true
   /\ key_names key = shard_names key ++ [Text.Replace key])
  \/ ((key = "" \/ key = ".") /\ key_names key = shard_names key)
  \/ (key = ".." /\ key_names key = removelast (shard_names key)).
Proof.
  unfold key_names, key_tail, shard_names, is_name.
  rewrite noslash_Replace. cbn [andb]. unfold is_dotdot.
  destruct (String.eqb_spec (Text.Replace key) "") as [E|_].
  { right. left. split; [|reflexivity]. left. now apply Replace_empty. }
  destruct (String.eqb_spec (Text.Replace key) ".") as [E|_].
  { right. left. split; [|reflexivity]. right. now apply Replace_dot. }
  destruct (String.eqb_spec (Text.Replace key) "..") as [E|_].
  { right. right. split; [|reflexivity]. now apply Replace_dotdot. }
  left. split; reflexivity.
Qed.

Lemma key_names_are_names key :
  Forall (fun e => is_name e = true) (key_names key)
  /\ (3 <= List.length (key_names key) <= 5)%nat.
Proof.
  pose proof (shard_names_are_names key) as Hs.
  destruct (key_names_cases key) as [[Hn ->]|[[_ ->]|[_ ->]]].
  - split; [|cbn; lia]. apply Forall_app. split; [exact Hs|]. now constructor.
  - split; [exact Hs | cbn; lia].
  - unfold shard_names in *. cbn [removelast].
    inversion Hs as [|? ? A0 Hs1]; inversion Hs1 as [|? ? A1 Hs2];
      inversion Hs2 as [|? ? A2 Hs3]; subst.
    split; [repeat constructor; assumption | cbn; lia].
Qed.

Lemma namei_keyPath_names base key :
  namei (keyPath base key) = namei base ++ key_names key.
Proof.
  destruct (keyPath_render base key) as [-> _].
  pose proof (elements_cleaned base) as Hc.
  destruct (key_names_are_names key) as [Hn _].
  assert (Hcl : cleaned (is_rooted base) (rev (elements base ++ key_names key))).
  { rewrite rev_app_distr. revert Hn. generalize (key_names key).
    intros l Hl. apply Forall_rev in Hl. induction Hl as [|e l' He Hl IH]; [exact Hc|].
    cbn [app]. now constructor. }
  destruct (elements_render _ _ Hcl) as [_ He]. rewrite rev_involutive in He.
  unfold namei. rewrite He. apply drop_dotdot_app.
  intros q rest Hq. rewrite Hq in Hn. inversion Hn; subst.
  now apply is_name_inv in H1.
Qed.

Lemma join_app es tail :
  es <> [] -> tail <> [] ->
  join (es ++ tail) = String.append (join es) (String Separator (join tail)).
Proof.
  intros Hes Ht. induction es as [|e es IH]; [congruence|].
  destruct es as [|e' es'].
  - destruct tail; [congruence | reflexivity].
  - change (join ((e :: e' :: es') ++ tail))
      with (String.append e (String Separator (join ((e' :: es') ++ tail)))).
    rewrite IH by discriminate.
    change (join (e :: e' :: es'))
      with (String.append e (String Separator (join (e' :: es')))).
    now rewrite append_assoc.
Qed.

Lemma render_app r es tail :
  es <> [] -> tail <> [] ->
  render r (es ++ tail)
  = String.append (render r es) (String Separator (join tail)).
Proof.
  intros Hes Ht. destruct r.
  - cbn [render]. now rewrite join_app.
  - destruct es as [|e es]; [congruence|].
    change (render false ((e :: es) ++ tail)) with (join ((e :: es) ++ tail)).
    change (render false (e :: es)) with (join (e :: es)). now apply join_app.
Qed.

Lemma list_ascii_append a b :
  list_ascii_of_string (String.append a b)
  = list_ascii_of_string a ++ list_ascii_of_string b.
Proof. induction a as [|c a IH]; cbn; [reflexivity | now rewrite IH]. Qed.

Lemma rev_name_head k :
  is_name k = true ->
  exists c rest, rev (list_ascii_of_string k) = c :: rest
                 /\ Ascii.eqb c Separator = false.
Proof.
  intros Hk. apply is_name_inv in Hk as (Hns & Hne & _).
  assert (Hall : Forall (fun c => Ascii.eqb c Separator = false) (list_ascii_of_string k)).
  { clear Hne. induction k as [|c k IH]; [constructor|]. cbn in Hns |- *.
    apply andb_prop in Hns as [Hc Hk]. apply negb_true_iff in Hc.
    constructor; [assumption | now apply IH]. }
  apply Forall_rev in Hall.
  destruct (rev (list_ascii_of_string k)) as [|c rest] eqn:E.
  - apply (f_equal (@rev _)) in E. rewrite rev_involutive in E. cbn in E.
    destruct k; discriminate.
  - inversion Hall; subst. now exists c, rest.
Qed.

Lemma strip_trailing_name l k :
  is_name k = true ->
  strip_trailing (rev (l ++ list_ascii_of_string k)) = rev (l ++ list_ascii_of_string k).
Proof.
  intros Hk. rewrite rev_app_distr.
  destruct (rev_name_head k Hk) as (c & rest & -> & Hc). cbn. now rewrite Hc.
Qed.

Lemma Base_of p l k :
  is_name k = true ->
  list_ascii_of_string p = l ++ list_ascii_of_string k ->
  last (split p) "" = k ->
  Base p = k.
Proof.
  intros Hk Hp Hlast. unfold Base.
  destruct (is_name_inv _ Hk) as (_ & Hne & _).
  assert (Hpne : String.eqb p "" = false).
  { apply String.eqb_neq. intros ->. cbn in Hp.
    destruct l; [|discriminate]. cbn in Hp. destruct k; discriminate. }
  rewrite Hpne, Hp, strip_trailing_name by assumption.
  rewrite rev_involutive, <- Hp, string_of_list_ascii_of_string.
  unfold last_element. rewrite Hlast, Hne. reflexivity.
Qed.

Lemma Base_name k : is_name k = true -> Base k = k.
Proof.
  intros Hk. apply (Base_of k []); [assumption | reflexivity |].
  rewrite split_noslash by (now apply is_name_inv in Hk). reflexivity.
Qed.

Lemma Base_sep_name Y k :
  is_name k = true -> Base (String.append Y (String Separator k)) = k.
Proof.
  intros Hk. apply (Base_of _ (list_ascii_of_string Y ++ [Separator])); [assumption | |].
  - rewrite list_ascii_append. cbn. now rewrite <- app_assoc.
  - unfold split. rewrite split_from_app_sep by (now apply is_name_inv in Hk).
    apply last_last.
Qed.

Lemma render_snoc r es k :
  render r (es ++ [k]) = k
  \/ exists Y, render r (es ++ [k]) = String.append Y (String Separator k).
Proof.
  destruct es as [|e es].
  - destruct r; [right; now exists "" | now left].
  - right. exists (render r (e :: es)).
    rewrite render_app by discriminate. reflexivity.
Qed.

Lemma Base_render r es k : is_name k = true -> Base (render r (es ++ [k])) = k.
Proof.
  intros Hk. destruct (render_snoc r es k) as [->|[Y ->]];
    [now apply Base_name | now apply Base_sep_name].
Qed.

Lemma Join_name p name :
  is_name name = true ->
  exists r, Join [p; name] = render r (elements p ++ [name]).
Proof.
  intros Hn. destruct (is_name_inv _ Hn) as (_ & E1 & _).
  cbn [Join]. destruct (String.eqb_spec p "") as [->|Hp].
  - rewrite E1. exists false. unfold Clean. rewrite elements_name by assumption.
    now rewrite is_rooted_name.
  - eexists. unfold Clean. cbn [join]. rewrite elements_snoc by assumption. reflexivity.
Qed.

Lemma Base_Join p name : is_name name = true -> Base (Join [p; name]) = name.
Proof.
  intros Hn. destruct (Join_name p name Hn) as [r ->]. now apply Base_render.
Qed.

Lemma Base_keyPath base key :
  is_name (Text.Replace key) = true -> Base (keyPath base key) = Text.Replace key.
Proof.
  intros Hn. destruct (keyPath_render base key) as [-> _].
  destruct (key_names_cases key) as [[_ ->]|[[[-> | ->] _]|[-> _]]]; try discriminate.
  rewrite app_assoc. now apply Base_render.
Qed.

Lemma shard_names_length key : List.length (shard_names key) = 4%nat.
Proof. reflexivity. Qed.

Lemma key_names_inj k1 k2 :
  key_names k1 = key_names k2 ->
  keyHash k1 = keyHash k2 /\ Text.Replace k1 = Text.Replace k2.
Proof.
  intros H.
  assert (Hlen : List.length (key_names k1) = List.length (key_names k2)) by now rewrite H.
  assert (Hdiff : keyHash "" <> keyHash ".") by (vm_compute; discriminate).
  destruct (key_names_cases k1) as [[_ E1]|[[D1 E1]|[D1 E1]]];
    destruct (key_names_cases k2) as [[_ E2]|[[D2 E2]|[D2 E2]]];
    rewrite E1, E2 in H, Hlen;
    rewrite ?length_app, ?shard_names_length in Hlen; cbn in Hlen; try lia.
  - apply app_inj_tail in H as [Hs Hr]. split; [now apply shard_names_inj | exact Hr].
  - apply shard_names_inj in H. split; [exact H|].
    destruct D1 as [-> | ->], D2 as [-> | ->]; try reflexivity; exfalso;
      [apply Hdiff | apply Hdiff; symmetry]; exact H.
  - subst. now split.
Qed.

Lemma join_split_from s : forall cur,
  join (split_from cur s) = String.append cur s.
Proof.
  induction s as [|c s IH]; intros cur; cbn [split_from].
  - cbn. now rewrite append_nil_r.
  - destruct (Ascii.eqb_spec c Separator) as [->|Hc].
    + specialize (IH ""). destruct (split_from "" s) as [|x xs] eqn:E.
      * destruct s; cbn in E; [discriminate|].
        destruct (Ascii.eqb a Separator); discriminate.
      * change (join (cur :: x :: xs))
          with (String.append cur (String Separator (join (x :: xs)))).
        now rewrite IH.
    + rewrite IH. now rewrite append_assoc.
Qed.

Lemma join_split s : join (split s) = s.
Proof. unfold split. now rewrite join_split_from. Qed.

Lemma split_nonempty s : split s <> [].
Proof.
  unfold split. generalize "". induction s as [|c s IH]; intros cur; cbn; [discriminate|].
  destruct (Ascii.eqb c Separator); [discriminate | apply IH].
Qed.

Lemma Dir_sep_name R k :
  is_name k = true ->
  Dir (String.append R (String Separator k))
  = Clean (String.append R (String Separator "")).
Proof.
  intros Hk. unfold Dir, split.
  rewrite split_from_app_sep by (now apply is_name_inv in Hk).
  rewrite rev_app_distr. cbn [rev app].
  fold (split R). pose proof (split_nonempty R) as Hne.
  destruct (rev (split R)) as [|b bs] eqn:E.
  - apply (f_equal (@rev _)) in E. rewrite rev_involutive in E. now cbn in E.
  - rewrite <- E, rev_involutive, join_split. reflexivity.
Qed.

Lemma elements_trailing_sep R :
  R <> "" -> elements (String.append R (String Separator "")) = elements R.
Proof.
  intros HR. unfold elements. rewrite is_rooted_append by assumption.
  unfold split. rewrite split_from_app_sep by reflexivity.
  now rewrite clean_loop_app.
Qed.

Lemma render_nonempty r es :
  Forall (fun e => e <> "") es -> es <> [] -> render r es <> "".
Proof.
  intros Hall Hne. destruct r; [discriminate|].
  destruct es as [|e es]; [congruence|]. inversion Hall; subst.
  cbn [render]. destruct es; cbn [join]; [assumption|].
  destruct e; [congruence | discriminate].
Qed.

Lemma cleaned_with_names r out names :
  cleaned r out -> Forall (fun e => is_name e = true) names ->
  cleaned r (rev names ++ out).
Proof.
  intros Hc Hn. apply Forall_rev in Hn.
  induction Hn as [|e l He Hl IH]; [exact Hc|]. cbn [app]. now constructor.
Qed.

Lemma namei_Dir_keyPath base key :
  is_name (Text.Replace key) = true ->
  namei (Dir (keyPath base key)) = namei base ++ shard_names key.
Proof.
  intros Hname. destruct (keyPath_render base key) as [-> _].
  destruct (key_names_cases key) as [[_ ->]|[[[-> | ->] _]|[-> _]]]; try discriminate.
  rewrite app_assoc.
  assert (Hcl : cleaned (is_rooted base) (rev (elements base ++ shard_names key))).
  { rewrite rev_app_distr. apply cleaned_with_names;
      [apply elements_cleaned | apply shard_names_are_names]. }
  assert (HE : elements base ++ shard_names key <> []).
  { unfold shard_names. destruct (elements base); discriminate. }
  rewrite render_app by (assumption || discriminate). cbn [join].
  rewrite Dir_sep_name by assumption. rewrite namei_Clean.
  destruct (elements_render _ _ Hcl) as [_ He]. rewrite rev_involutive in He.
  unfold namei. rewrite elements_trailing_sep.
  - rewrite He. apply drop_dotdot_app. unfold shard_names.
    intros q rest [= <- _]. pose proof (hash_byte_name key 0 ltac:(lia)) as H0.
    now apply is_name_inv in H0.
  - apply render_nonempty; [|assumption].
    rewrite <- (rev_involutive (elements base ++ shard_names key)).
    apply Forall_rev. eapply cleaned_nonempty. exact Hcl.
Qed.

Lemma Join_render p name :
  is_name name = true ->
  Join [p; name] = render (is_rooted p) (elements p ++ [name]).
Proof.
  intros Hn. destruct (is_name_inv _ Hn) as (_ & E1 & _).
  cbn [Join]. destruct (String.eqb_spec p "") as [->|Hp].
  - rewrite E1. unfold Clean. rewrite elements_name by assumption.
    now rewrite is_rooted_name.
  - unfold Clean. cbn [join]. rewrite elements_snoc by assumption.
    now rewrite is_rooted_append.
Qed.

Lemma walked_render names : forall r E,
  cleaned r (rev E) -> Forall (fun e => is_name e = true) names ->
  walked (render r E) names = render r (E ++ names).
Proof.
  unfold walked. induction names as [|n ns IH]; intros r E Hc Hn.
  - now rewrite app_nil_r.
  - inversion Hn as [|? ? Hn1 Hns]; subst. cbn [fold_left].
    rewrite Join_render by assumption.
    destruct (elements_render r (rev E) Hc) as [Hr He]. rewrite rev_involutive in Hr, He.
    rewrite Hr, He.
    rewrite IH; [now rewrite <- app_assoc | | assumption].
    rewrite rev_app_distr. cbn [rev app]. now constructor.
Qed.

Lemma walked_keyPath base key :
  is_name (Text.Replace key) = true ->
  walked base (shard_names key ++ [Text.Replace key]) = keyPath base key.
Proof.
  intros Hname. destruct (keyPath_render base key) as [-> _].
  destruct (key_names_cases key) as [[_ ->]|[[[-> | ->] _]|[-> _]]]; try discriminate.
  unfold walked, shard_names. cbn [app fold_left].
  pose proof (hash_byte_name key 0 ltac:(lia)) as H0.
  rewrite (Join_render base _ H0).
  assert (Hc : cleaned (is_rooted base)
                 (rev (elements base ++ [Text.EncodeToString (hash_byte (keyHash key) 0)]))).
  { rewrite rev_app_distr. cbn [rev app]. constructor; [assumption|].
    apply elements_cleaned. }
  pose proof (walked_render
                [ Text.EncodeToString (hash_byte (keyHash key) 1);
                  Text.EncodeToString (hash_byte (keyHash key) 2);
                  Text.EncodeToString (hash_byte (keyHash key) 3);
                  Text.Replace key ] _ _ Hc) as Hw.
  unfold walked in Hw. cbn [fold_left] in Hw. rewrite Hw.
  - now rewrite <- app_assoc.
  - repeat constructor; try assumption; apply hash_byte_name; lia.
Qed.

(** X4.  The path [keyPath] returns is clean: the [filepath.Clean] that
    [Get] and [Set] apply to it before they read or open the file changes
    nothing, so they stat, read, open and remove one and the same path. *)
Theorem keyPath_is_clean (base key : string) :
  Clean (keyPath base key) = keyPath base key.
Proof.
  destruct (keyPath_render base key) as [_ [p ->]]. apply Clean_idempotent.
Qed.

(** X5.  No key leads out of the cache directory.  Whatever the base and
    the key, the kernel resolves the path of the key to the names of the
    base followed by three to five names proper (none is [..]); for a key
    whose sanitized form is a name these are the four shard directories,
    each named by two hexadecimal digits, and the sanitized key. *)
Theorem key_paths_stay_below_the_base (base key : string) :
  exists qs,
    namei (keyPath base key) = namei base ++ qs
    /\ Forall (fun e => is_name e = true) qs
    /\ (3 <= List.length qs <= 5)%nat
    /\ (is_name (Text.Replace key) = true ->
        qs = shard_names key ++ [Text.Replace key])
    /\ Forall (fun e => String.length e = 2%nat) (shard_names key).
Proof.
  exists (key_names key). split; [apply namei_keyPath_names|].
  destruct (key_names_are_names key) as [Hn Hl]. split; [exact Hn|]. split; [exact Hl|].
  split.
  - intros Hname. destruct (key_names_cases key) as [[_ E]|[[[-> | ->] _]|[-> _]]];
      try discriminate. exact E.
  - destruct (keyHash_bytes key) as (b0 & b1 & b2 & b3 & _ & ->).
    repeat constructor.
Qed.

(** X6.  For a base directory given in clean form (other than [.] and [/])
    and a key whose sanitized form is a name, the path of the key is the
    base, the four two-digit shard directories and the sanitized key, joined
    by separators. *)
Theorem keyPath_is_shard_dir_then_key (base key : string) :
  Clean base = base -> base <> "." -> base <> "/" ->
  is_name (Text.Replace key) = true ->
  keyPath base key
  = String.append (shard_dir base key) (String Separator (Text.Replace key)).
Proof.
  intros Hclean Hdot Hroot Hname.
  destruct (keyPath_render base key) as [-> _].
  destruct (key_names_cases key) as [[_ ->]|[[[-> | ->] _]|[-> _]]]; try discriminate.
  assert (Hne : elements base <> []).
  { intros E. unfold Clean in Hclean. rewrite E in Hclean.
    destruct (is_rooted base); cbn in Hclean;
      [apply Hroot | apply Hdot]; symmetry; exact Hclean. }
  rewrite render_app by (assumption || discriminate).
  fold (Clean base). rewrite Hclean.
  unfold shard_dir, shard_names. cbn [join app].
  now rewrite !append_assoc.
Qed.

(** X7.  Two keys share a file exactly when they have the same CRC-32 and
    the same sanitized form; hence keys that contain neither [/] nor [:]
    never share a file. *)
Theorem keys_share_a_file_iff (base k1 k2 : string) :
  (keyPath base k1 = keyPath base k2
   <-> keyHash k1 = keyHash k2 /\ Text.Replace k1 = Text.Replace k2)
  /\ (plain k1 = true -> plain k2 = true ->
      keyPath base k1 = keyPath base k2 -> k1 = k2).
Proof.
  assert (Hiff : keyPath base k1 = keyPath base k2
                 <-> keyHash k1 = keyHash k2 /\ Text.Replace k1 = Text.Replace k2).
  { split.
    - intros H. apply (f_equal namei) in H. rewrite !namei_keyPath_names in H.
      apply app_inv_head in H. now apply key_names_inj.
    - intros [Hh Hr]. unfold keyPath. now rewrite Hh, Hr. }
  split; [exact Hiff|].
  intros H1 H2 H. apply Hiff in H as [_ Hr].
  apply Replace_plain in H1, H2. congruence.
Qed.

(** X8.  The lock [vacuum] takes for the file of a key.  For a key whose
    sanitized form is a name, the path the walk builds for the file, level
    by level from the base, is the path [keyPath] gives; the callback locks
    the registry under the last element of that path, which is the
    sanitized key; and this is the key itself, the name [Get] and [Set]
    lock, exactly when the key contains neither [/] nor [:]. *)
Theorem vacuum_locks_the_sanitized_key (base key : string) :
  is_name (Text.Replace key) = true ->
  walked base (shard_names key ++ [Text.Replace key]) = keyPath base key
  /\ Base (keyPath base key) = Text.Replace key
  /\ (Text.Replace key = key <-> plain key = true).
Proof.
  intros Hn. split; [now apply walked_keyPath|]. split; [now apply Base_keyPath|].
  apply Replace_plain.
Qed.

End KeyShape.

Import KeyShape.

(** ** What [Get] and [Set] leave alone *)

Lemma same_elsewhere_refl cs F : same_elsewhere cs F F.
Proof. split; [tauto | auto]. Qed.

Lemma same_elsewhere_trans cs F1 F2 F3 :
  same_elsewhere cs F1 F2 -> same_elsewhere cs F2 F3 -> same_elsewhere cs F1 F3.
Proof.
  intros [Hf1 Hd1] [Hf2 Hd2]. split.
  - intros qs o d Hne. rewrite (Hf2 qs o d Hne). now apply Hf1.
  - intros qs H. now apply Hd2, Hd1.
Qed.

Lemma same_elsewhere_mkdir cs ds F F1 :
  mkdir_all ds F = Some F1 -> same_elsewhere cs F F1.
Proof.
  intros Hmk. split.
  - intros qs o d _. now apply mkdir_all_file with (ds := ds).
  - intros qs. now apply mkdir_all_dir with (ds := ds).
Qed.

Lemma same_elsewhere_put cs x F :
  (forall l es, fs_lookup cs F <> Some (Dir l es)) ->
  (forall l es, x <> Some (Dir l es)) ->
  same_elsewhere cs F (fs_put cs x F).
Proof.
  intros Hold Hx. split.
  - intros qs o d Hne. now apply fs_put_other_file.
  - intros qs. now apply fs_put_other_dir.
Qed.

Lemma get_body_dir c key w l es :
  stored c key w = Some (Dir l es) ->
  get_body c key w = Returns (None, Some errCacheMiss) w.
Proof.
  unfold stored, get_body, bind, os_Stat. rewrite resolve_keyPath.
  intros ->. reflexivity.
Qed.

Lemma get_body_unreadable c key w d :
  stored c key w = Some (File false d) ->
  get_body c key w
  = Returns (None, Some (errReadingFile (keyPath (path c) key))) w.
Proof.
  unfold stored, get_body. intros Hst.
  unfold bind at 1. unfold os_Stat. rewrite resolve_keyPath, Hst. cbn [option_map IsDir].
  unfold bind, ioutil_ReadFile. rewrite namei_Clean, Hst. reflexivity.
Qed.

(** The ways a [Get] on an idle cache ends. *)
Lemma Get_outcome c key w :
  idle (pm w) ->
  let w' := set_pm (released key (pm w)) w in
  let gone := set_pm (released key (pm w))
                (set_fs (fs_put (namei (keyPath (path c) key)) None (fs w)) w) in
  (exists e, Get c key w = Returns (None, Some e) w')
  \/ (exists d, stored c key w = Some (File true d) /\ (8 <= List.length d)%nat
                /\ expired (now w) d = false
                /\ Get c key w = Returns (Some (skipn 8 d), None) w')
  \/ (exists d, stored c key w = Some (File true d) /\ (List.length d < 8)%nat
                /\ expired (now w) d = false /\ Get c key w = Panics w')
  \/ (exists d, stored c key w = Some (File true d) /\ expired (now w) d = true
                /\ Get c key w = Returns (None, Some errCacheMiss) gone).
Proof.
  intros Hidle. cbv zeta.
  destruct (stored c key w) as [[[|] d|l es]|] eqn:Hst.
  - destruct (Uint64_header d) as [v Hv].
    rewrite (Get_file c key w d v Hidle Hst Hv).
    assert (Hex : expired (now w) d = Time.Before (Time.Unix (wrap_i64 v)) (now w))
      by (unfold expired, decoded; now rewrite Hv).
    destruct (Time.Before (Time.Unix (wrap_i64 v)) (now w)).
    + right. right. right. exists d. now repeat split.
    + destruct (Nat.leb_spec 8 (List.length d)).
      * right. left. exists d. now repeat split.
      * right. right. left. exists d. now repeat split.
  - left. eexists. rewrite Get_idle by assumption.
    rewrite (get_body_unreadable c key (set_pm (holding false key (pm w)) w) d Hst).
    rewrite (unlock_after false key w _ Hidle) by reflexivity. reflexivity.
  - left. eexists. rewrite Get_idle by assumption.
    rewrite (get_body_dir c key (set_pm (holding false key (pm w)) w) l es Hst).
    rewrite (unlock_after false key w _ Hidle) by reflexivity. reflexivity.
  - left. eexists. now apply Get_absent.
Qed.

(** X9.  Without a readable file there is nothing to decode.  On an idle
    cache [Get] reports a miss when nothing or a directory is at the path of
    the key, and the error of [ReadFile], not a miss, when the file cannot
    be opened; the file system stays as it is and the lock is given back. *)
Theorem get_without_a_readable_file (c : fileCache) (key : string) (w : World) :
  idle (pm w) ->
  (stored c key w = None \/ (exists l es, stored c key w = Some (Dir l es)) ->
   Get c key w
   = Returns (None, Some errCacheMiss) (set_pm (released key (pm w)) w))
  /\ (forall d, stored c key w = Some (File false d) ->
      Get c key w
      = Returns (None, Some (errReadingFile (keyPath (path c) key)))
                (set_pm (released key (pm w)) w)).
Proof.
  intros Hidle. split.
  - intros [Hst|(l & es & Hst)]; [now apply Get_absent|].
    rewrite Get_idle by assumption.
    rewrite (get_body_dir c key (set_pm (holding false key (pm w)) w) l es Hst).
    now rewrite (unlock_after false key w _ Hidle).
  - intros d Hst. rewrite Get_idle by assumption.
    rewrite (get_body_unreadable c key (set_pm (holding false key (pm w)) w) d Hst).
    now rewrite (unlock_after false key w _ Hidle).
Qed.

(** X10.  [Get] touches nothing but the file of its key.  On an idle cache
    it ends, by returning or by a panic, with its lock given back and the
    registry idle again; every other regular file and every directory is
    left as it was; the file of the key is left as it was or removed; and
    when [Get] returns a payload the whole file system is as before. *)
Theorem get_touches_only_its_own_file (c : fileCache) (key : string) (w : World) :
  idle (pm w) ->
  exists w',
    final_world (Get c key w) = Some w'
    /\ idle (pm w') /\ now w' = now w
    /\ same_elsewhere (namei (keyPath (path c) key)) (fs w) (fs w')
    /\ (stored c key w' = stored c key w
        \/ (is_file (stored c key w) = true /\ stored c key w' = None))
    /\ (forall v e, Get c key w = Returns (Some v, e) w' -> fs w' = fs w).
Proof.
  intros Hidle. destruct (Get_outcome c key w Hidle)
    as [[e H]|[(d & Hst & _ & _ & H)|[(d & Hst & _ & _ & H)|(d & Hst & _ & H)]]];
    cbv zeta in H; rewrite H; cbn [final_world].
  1-3: eexists; split; [reflexivity|]; split; [reflexivity|]; split; [reflexivity|];
       split; [apply same_elsewhere_refl|]; split; [now left|]; intros; reflexivity.
  eexists. split; [reflexivity|]. split; [reflexivity|]. split; [reflexivity|].
  pose proof (stored_file_names _ _ _ _ _ Hst) as Hne.
  split; [|split].
  - rewrite fs_set_pm, fs_set_put by assumption. apply same_elsewhere_put.
    + unfold stored in Hst. rewrite Hst. discriminate.
    + discriminate.
  - right. rewrite Hst. split; [reflexivity|].
    exact (stored_after_remove c key w _ _ Hst).
  - intros v e [= ].
Qed.

(** The two writes of [Set] into the open file. *)
Lemma set_writes cs val expiry w2 d0 :
  fs_lookup cs (fs w2) = Some (File true d0) ->
  exists w3,
    defer (file_Close {| f_names := cs; f_off := 0 |})
      (t <- time_Now ;;
       r <- file_Write {| f_names := cs; f_off := 0 |}
              (PutUint64 (wrap_u64 (Time.ToUnix (Time.Add t expiry)))) ;;
       (let '(f, err) := r in
        if err : bool then ret (Some errWritingFile)
        else r0 <- file_Write f val ;;
             (let '(_, err0) := r0 in
              if err0 : bool then ret (Some errWritingFile) else ret None))) w2
    = Returns None w3
    /\ pm w3 = pm w2 /\ now w3 = now w2
    /\ same_elsewhere cs (fs w2) (fs w3)
    /\ fs_lookup cs (fs w3)
       = Some (File true
                 (entry_over d0 (wrap_u64 (Time.ToUnix (Time.Add (now w2) expiry))) val)).
Proof.
  intros Hd0.
  assert (Hne : cs <> []) by (eapply fs_lookup_file_nil; [|exact Hd0]; reflexivity).
  unfold defer, bind, time_Now, file_Write, file_Close, ret. cbn [f_names f_off].
  rewrite Hd0. rewrite fs_set_put by assumption.
  rewrite (fs_lookup_put_existing cs (fs w2) _ _ Hne Hd0).
  eexists. split; [reflexivity|]. split; [reflexivity|]. split; [reflexivity|].
  rewrite fs_set_root by (repeat apply is_root_put; try assumption; apply is_root_fs).
  split.
  - eapply same_elsewhere_trans; apply same_elsewhere_put; try discriminate.
    + rewrite Hd0. discriminate.
    + rewrite (fs_lookup_put_existing cs (fs w2) _ _ Hne Hd0). discriminate.
  - erewrite fs_lookup_put_existing; [ | assumption | ].
    2:{ erewrite fs_lookup_put_existing; [reflexivity | assumption | exact Hd0]. }
    now rewrite write_entry.
Qed.

(** The ways the statements of [Set] under its lock end. *)
Lemma set_body_outcome c key val expiry w0 :
  exists r w1,
    set_body c key val expiry w0 = Returns r w1
    /\ pm w1 = pm w0 /\ now w1 = now w0
    /\ same_elsewhere (namei (keyPath (path c) key)) (fs w0) (fs w1)
    /\ match mkdir_all (namei (Filepath.Dir (keyPath (path c) key))) (fs w0) with
       | None => r = Some errCreatingPath /\ w1 = w0
       | Some n1 =>
           match fs_lookup (namei (keyPath (path c) key)) n1 with
           | Some (File true _) => r = None
           | Some _ => r = Some errCreatingFile
           | None =>
               match fs_lookup (removelast (namei (keyPath (path c) key))) n1 with
               | Some (Dir _ _) =>
                   r = if valid_name (last (namei (keyPath (path c) key)) "")
                       then None else Some errCreatingFile
               | _ => r = Some errCreatingFile
               end
           end
       end.
Proof.
  unfold set_body.
  set (p := keyPath (path c) key). set (cs := namei p).
  unfold bind at 1. unfold os_MkdirAll.
  destruct (mkdir_all (namei (Filepath.Dir p)) (fs w0)) as [n1|] eqn:Hmk.
  2:{ exists (Some errCreatingPath), w0. split; [reflexivity|].
      split; [reflexivity|]. split; [reflexivity|].
      split; [apply same_elsewhere_refl | now split]. }
  pose proof (fs_set_mkdir _ _ _ Hmk) as Hfs1.
  assert (Hroot1 : is_root n1) by (eapply is_root_mkdir; [apply is_root_fs | exact Hmk]).
  pose proof (same_elsewhere_mkdir cs _ _ _ Hmk) as Hsame1.
  unfold bind at 1. unfold os_OpenFile. rewrite namei_Clean. fold cs. rewrite Hfs1.
  destruct (fs_lookup cs n1) as [[[|] d0|l es]|] eqn:Hcs.
  - destruct (set_writes cs val expiry (set_fs n1 w0) d0) as (w3 & Hrun & Hpm & Hnow & Hsame & _).
    { now rewrite Hfs1. }
    exists None, w3. split; [exact Hrun|]. split; [exact Hpm|]. split; [exact Hnow|].
    split; [|reflexivity]. rewrite Hfs1 in Hsame.
    eapply same_elsewhere_trans; eassumption.
  - exists (Some errCreatingFile), (set_fs n1 w0). split; [reflexivity|].
    split; [reflexivity|]. split; [reflexivity|]. split; [now rewrite Hfs1 | reflexivity].
  - exists (Some errCreatingFile), (set_fs n1 w0). split; [reflexivity|].
    split; [reflexivity|]. split; [reflexivity|]. split; [now rewrite Hfs1 | reflexivity].
  - destruct (fs_lookup (removelast cs) n1) as [[o d|l es]|] eqn:Hpar.
    + exists (Some errCreatingFile), (set_fs n1 w0). split; [reflexivity|].
      split; [reflexivity|]. split; [reflexivity|]. split; [now rewrite Hfs1 | reflexivity].
    + assert (Hne : cs <> []) by (intros E; rewrite E in Hcs; discriminate).
      destruct (valid_name (last cs "")).
      2:{ exists (Some errCreatingFile), (set_fs n1 w0). split; [reflexivity|].
          split; [reflexivity|]. split; [reflexivity|].
          split; [now rewrite Hfs1 | reflexivity]. }
      destruct (set_writes cs val expiry
                  (set_fs (fs_put cs (Some (File true [])) n1) (set_fs n1 w0)) [])
        as (w3 & Hrun & Hpm & Hnow & Hsame & _).
      { rewrite fs_set_root by (apply is_root_put; assumption).
        eapply fs_lookup_put_same; eassumption. }
      exists None, w3. split; [exact Hrun|]. split; [exact Hpm|]. split; [exact Hnow|].
      split; [|reflexivity].
      rewrite fs_set_root in Hsame by (apply is_root_put; assumption).
      eapply same_elsewhere_trans; [exact Hsame1|].
      eapply same_elsewhere_trans; [|exact Hsame].
      apply same_elsewhere_put; [|discriminate]. rewrite Hcs. discriminate.
    + exists (Some errCreatingFile), (set_fs n1 w0). split; [reflexivity|].
      split; [reflexivity|]. split; [reflexivity|]. split; [now rewrite Hfs1 | reflexivity].
Qed.

(** [Set] on an idle cache: the body runs under the lock, the lock is given
    back. *)
Lemma Set_outcome c key val expiry w :
  idle (pm w) ->
  exists r w0 w1,
    set_body c key val expiry (set_pm (holding true key (pm w)) w) = Returns r w0
    /\ Set' c key val expiry w = Returns r w1
    /\ w1 = set_pm (released key (pm w)) w0
    /\ pm w0 = holding true key (pm w).
Proof.
  intros Hidle. rewrite Set_idle by assumption.
  destruct (set_body_outcome c key val expiry (set_pm (holding true key (pm w)) w))
    as (r & w0 & Hbody & Hpm & _).
  exists r, w0. rewrite Hbody. cbn [pm set_pm] in Hpm.
  rewrite (unlock_after true key w w0 Hidle Hpm).
  eexists. split; [reflexivity|]. split; [reflexivity|]. split; [reflexivity | exact Hpm].
Qed.

(** For a key whose sanitized form is a name, what is at the path of the
    key after [MkdirAll] is what was there before. *)
Lemma stored_after_mkdir c key w n1 :
  is_name (Text.Replace key) = true ->
  mkdir_all (namei (Filepath.Dir (keyPath (path c) key))) (fs w) = Some n1 ->
  (exists l es, fs_lookup (removelast (namei (keyPath (path c) key))) n1 = Some (Dir l es))
  /\ match stored c key w with
     | Some (File o d) => fs_lookup (namei (keyPath (path c) key)) n1 = Some (File o d)
     | Some (Dir _ _) =>
         exists l es, fs_lookup (namei (keyPath (path c) key)) n1 = Some (Dir l es)
     | None => fs_lookup (namei (keyPath (path c) key)) n1 = None
     end.
Proof.
  intros Hname Hmk. unfold stored.
  rewrite namei_Dir_keyPath in Hmk by assumption.
  rewrite (namei_keyPath_name (path c) key Hname).
  change [Text.EncodeToString (hash_byte (keyHash key) 0);
          Text.EncodeToString (hash_byte (keyHash key) 1);
          Text.EncodeToString (hash_byte (keyHash key) 2);
          Text.EncodeToString (hash_byte (keyHash key) 3);
          Text.Replace key]
    with (shard_names key ++ [Text.Replace key]).
  rewrite app_assoc.
  split.
  - rewrite removelast_last. eapply mkdir_all_made; eassumption.
  - destruct (fs_lookup ((namei (path c) ++ shard_names key) ++ [Text.Replace key]) (fs w))
      as [[o d|l es]|] eqn:Hst.
    + now apply (mkdir_all_file _ _ _ _ o d Hmk).
    + eapply mkdir_all_dir; eauto.
    + eapply mkdir_all_missing; eassumption.
Qed.

(** X11.  [Set] touches nothing but the file of its key and the
    directories on the way to it.  On an idle cache it returns, with its
    lock given back, the registry idle again and the clock as it was; every
    other regular file is there afterwards exactly when it was there before,
    with the same content, and every directory is still there. *)
Theorem set_touches_only_its_own_file
    (c : fileCache) (key : string) (val : list byte) (expiry : Z) (w : World) :
  idle (pm w) ->
  exists r w1,
    Set' c key val expiry w = Returns r w1
    /\ idle (pm w1) /\ now w1 = now w
    /\ same_elsewhere (namei (keyPath (path c) key)) (fs w) (fs w1).
Proof.
  intros Hidle. destruct (Set_outcome c key val expiry w Hidle)
    as (r & w0 & w1 & Hbody & HSet & -> & _).
  destruct (set_body_outcome c key val expiry (set_pm (holding true key (pm w)) w))
    as (r' & w0' & Hbody' & _ & Hnow & Hsame & _).
  rewrite Hbody in Hbody'. injection Hbody' as <- <-.
  exists r. eexists. split; [exact HSet|]. split; [reflexivity|].
  split; [exact Hnow | exact Hsame].
Qed.

Lemma lookup_way_clear cs : forall F x n,
  fs_lookup (cs ++ [x]) F = Some n -> way_clear cs F = true.
Proof.
  induction cs as [|c cs IH]; intros F x n Hl.
  - destruct F as [o d|l es]; [discriminate | reflexivity].
  - destruct F as [o d|l es]; [discriminate|]. cbn [app fs_lookup] in Hl.
    cbn [way_clear]. destruct (assoc c es) as [child|]; [|discriminate].
    eapply IH; eassumption.
Qed.

(** X12.  Obstacles make [Set] fail, for a key whose sanitized form is a
    name, on an idle cache.  When a regular file lies on the way to the
    shard directory of the key, [Set] returns the error of [MkdirAll] and
    changes nothing.  When a directory, or a file that cannot be opened, is
    at the path of the key, [Set] returns the error of [OpenFile]. *)
Theorem set_fails_on_obstacles
    (c : fileCache) (key : string) (val : list byte) (expiry : Z) (w : World) :
  idle (pm w) -> is_name (Text.Replace key) = true ->
  (way_clear (namei (path c) ++ shard_names key) (fs w) = false ->
   exists w1,
     Set' c key val expiry w = Returns (Some errCreatingPath) w1 /\ fs w1 = fs w)
  /\ (forall x,
        stored c key w = Some x ->
        (forall d, x <> File true d) ->
        exists w1, Set' c key val expiry w = Returns (Some errCreatingFile) w1).
Proof.
  intros Hidle Hname. destruct (Set_outcome c key val expiry w Hidle)
    as (r & w0 & w1 & Hbody & HSet & -> & _).
  destruct (set_body_outcome c key val expiry (set_pm (holding true key (pm w)) w))
    as (r' & w0' & Hbody' & _ & _ & Hsame & Hres).
  rewrite Hbody in Hbody'. injection Hbody' as <- <-.
  rewrite fs_set_pm in Hres, Hsame.
  pose proof (mkdir_all_way_clear (namei (path c) ++ shard_names key) (fs w)) as Hclear.
  rewrite <- (namei_Dir_keyPath (path c) key Hname) in *.
  split.
  - intros Hblocked.
    destruct (mkdir_all (namei (Filepath.Dir (keyPath (path c) key))) (fs w)) as [n1|] eqn:Hmk.
    + exfalso. assert (way_clear (namei (Filepath.Dir (keyPath (path c) key))) (fs w) = true)
        by (apply Hclear; eauto). congruence.
    + destruct Hres as [-> ->]. eexists. split; [exact HSet|]. now rewrite !fs_set_pm.
  - intros x Hst Hx.
    assert (Hopen : way_clear (namei (Filepath.Dir (keyPath (path c) key))) (fs w) = true).
    { rewrite (namei_Dir_keyPath (path c) key Hname).
      unfold stored in Hst. rewrite (namei_keyPath_name (path c) key Hname) in Hst.
      change [Text.EncodeToString (hash_byte (keyHash key) 0);
              Text.EncodeToString (hash_byte (keyHash key) 1);
              Text.EncodeToString (hash_byte (keyHash key) 2);
              Text.EncodeToString (hash_byte (keyHash key) 3);
              Text.Replace key]
        with (shard_names key ++ [Text.Replace key]) in Hst.
      rewrite app_assoc in Hst. eapply lookup_way_clear; eassumption. }
    apply Hclear in Hopen as [n1 Hmk]. rewrite Hmk in Hres.
    destruct (stored_after_mkdir c key w n1 Hname Hmk) as (_ & Hst1).
    rewrite Hst in Hst1.
    assert (Hr : r = Some errCreatingFile).
    { destruct x as [[|] d|l es].
      - now contradiction (Hx d).
      - now rewrite Hst1 in Hres.
      - destruct Hst1 as (l2 & es2 & Hst1). now rewrite Hst1 in Hres. }
    subst r. eexists. exact HSet.
Qed.

(** X13.  [Set] writes in place.  After a [Set] that reports success the
    file of the key holds the eight bytes of the expiry, the payload, and
    whatever the file held before beyond them: its length is the larger of
    the old length and the length of the new entry. *)
Theorem set_overwrites_in_place
    (c : fileCache) (key : string) (val : list byte) (expiry : Z) (w w1 : World) :
  idle (pm w) ->
  Set' c key val expiry w = Returns None w1 ->
  let old := old_content (stored c key w) in
  let written :=
    PutUint64 (wrap_u64 (Time.ToUnix (Time.Add (now w) expiry))) ++ val
      ++ skipn (8 + List.length val) old in
  stored c key w1 = Some (File true written)
  /\ List.length written = Nat.max (8 + List.length val) (List.length old).
Proof.
  intros Hidle HSet. cbv zeta.
  destruct (Set_ok c key val expiry w w1 Hidle HSet) as (Hst & _ & _).
  split; [exact Hst|].
  rewrite !length_app, PutUint64_length, length_skipn. lia.
Qed.

(** ** How long an entry is served *)

(** Whether the expiry [Set] wrote at the clock reading [t] is before the
    clock reading [later]. *)
Lemma written_expiry_before t d later :
  sane t -> int64 d -> 0 <= Time.nsec later < 1000000000 ->
  Time.Before (Time.Unix (wrap_i64 (wrap_u64 (Time.ToUnix (Time.Add t d))))) later
  = ((nanos t + d) / 1000000000 * 1000000000 <? nanos later).
Proof.
  intros Ht Hd Hl. rewrite expiry_written by assumption.
  rewrite Before_nanos by (assumption || (cbn; lia)).
  unfold nanos at 1. cbn [Time.sec Time.nsec].
  rewrite Add_whole_second by assumption. f_equal. lia.
Qed.

(** X14.  How long an entry is served.  [Set] stores the expiry as the
    whole second of the instant [now + expiry]; where the file of the key
    was absent or not longer than the new entry, a [Get] on the idle cache
    returns the payload, and changes nothing, at every clock reading up to
    that whole second, and from then on reports a miss and removes the
    file. *)
Theorem entry_is_served_until_its_expiry_second
    (c : fileCache) (key : string) (val : list byte) (expiry : Z)
    (w w1 : World) (later : Time.Time) :
  idle (pm w) ->
  Set' c key val expiry w = Returns None w1 ->
  (List.length (old_content (stored c key w)) <= 8 + List.length val)%nat ->
  sane (now w) -> int64 expiry -> 0 <= Time.nsec later < 1000000000 ->
  let last := (nanos (now w) + expiry) / 1000000000 * 1000000000 in
  (nanos later <= last ->
   exists w2, Get c key (set_now later w1) = Returns (Some val, None) w2
              /\ fs w2 = fs w1)
  /\ (last < nanos later ->
      exists w2, Get c key (set_now later w1) = Returns (None, Some errCacheMiss) w2
                 /\ stored c key w2 = None).
Proof.
  intros Hidle HSet Hlen Hsane Hexp Hlater. cbv zeta.
  destruct (Set_ok c key val expiry w w1 Hidle HSet) as (Hst & Hidle1 & _).
  set (e := wrap_u64 (Time.ToUnix (Time.Add (now w) expiry))) in *.
  assert (Hv : Uint64 (header_of (entry_over (old_content (stored c key w)) e val)) = Some e).
  { rewrite entry_over_header. rewrite <- (app_nil_r (PutUint64 e)).
    apply Uint64_PutUint64, wrap_u64_range. }
  pose proof (Get_file c key (set_now later w1) _ e Hidle1 Hst Hv) as HGet.
  cbn [now set_now] in HGet. unfold e in HGet at 1.
  rewrite (written_expiry_before (now w) expiry later Hsane Hexp Hlater) in HGet.
  split; intros Hcmp.
  - replace (_ <? nanos later) with false in HGet by (symmetry; apply Z.ltb_ge; lia).
    replace (8 <=? List.length (entry_over (old_content (stored c key w)) e val))%nat
      with true in HGet by (symmetry; apply Nat.leb_le, entry_over_length).
    eexists. split; [rewrite HGet; f_equal; f_equal|reflexivity].
    unfold entry_over. change (skipn 8 (PutUint64 e ++ ?r)) with r.
    rewrite skipn_all2 by exact Hlen. now rewrite app_nil_r.
  - replace (_ <? nanos later) with true in HGet by (symmetry; apply Z.ltb_lt; lia).
    eexists. split; [exact HGet|].
    exact (stored_after_remove c key (set_now later w1) _ _ Hst).
Qed.

(** X15.  An expiry under one second that does not reach the next whole
    second is lost in the truncation: when the clock is not on a whole
    second, an entry set with such an expiry is expired at once, and a
    [Get] at the very clock reading of the [Set] reports a miss and removes
    the file. *)
Theorem short_expiry_is_expired_at_once
    (c : fileCache) (key : string) (val : list byte) (expiry : Z) (w w1 : World) :
  idle (pm w) ->
  Set' c key val expiry w = Returns None w1 ->
  sane (now w) -> 0 < Time.nsec (now w) ->
  0 < expiry -> Time.nsec (now w) + expiry < 1000000000 ->
  exists w2, Get c key w1 = Returns (None, Some errCacheMiss) w2
             /\ stored c key w2 = None.
Proof.
  intros Hidle HSet Hsane Hns Hpos Hshort.
  destruct (Set_ok c key val expiry w w1 Hidle HSet) as (Hst & Hidle1 & Hnow1).
  set (e := wrap_u64 (Time.ToUnix (Time.Add (now w) expiry))) in *.
  assert (Hv : Uint64 (header_of (entry_over (old_content (stored c key w)) e val)) = Some e).
  { rewrite entry_over_header. rewrite <- (app_nil_r (PutUint64 e)).
    apply Uint64_PutUint64, wrap_u64_range. }
  pose proof (Get_file c key w1 _ e Hidle1 Hst Hv) as HGet.
  rewrite Hnow1 in HGet. unfold e in HGet at 1.
  assert (Hexp : int64 expiry) by (unfold int64; lia).
  destruct Hsane as [Hs Hn].
  rewrite (written_expiry_before (now w) expiry (now w)) in HGet
    by (assumption || (split; assumption)).
  assert (Hq : (nanos (now w) + expiry) / 1000000000 = Time.sec (now w)).
  { unfold nanos. symmetry.
    apply (Z.div_unique_pos _ _ _ (Time.nsec (now w) + expiry)); lia. }
  rewrite Hq in HGet.
  replace (_ <? nanos (now w)) with true in HGet
    by (symmetry; apply Z.ltb_lt; unfold nanos; lia).
  eexists. split; [exact HGet|].
  exact (stored_after_remove c key w1 _ _ Hst).
Qed.

(** X16.  [Get] panics on an idle cache exactly when the file of the key
    can be opened, holds fewer than eight bytes, and these bytes, padded
    with zeros, are not an expiry before the clock: the slice [b[8:]] is
    then out of range.  The deferred unlock has run: the registry is idle
    again, and the file is still there. *)
Theorem get_panics_exactly_on_short_files (c : fileCache) (key : string) (w : World) :
  idle (pm w) ->
  ((exists w', Get c key w = Panics w')
   <-> exists d, stored c key w = Some (File true d)
                 /\ (List.length d < 8)%nat /\ expired (now w) d = false)
  /\ (forall w', Get c key w = Panics w' ->
        idle (pm w') /\ stored c key w' = stored c key w).
Proof.
  intros Hidle. destruct (Get_outcome c key w Hidle)
    as [[e H]|[(d & Hst & Hlen & Hex & H)|[(d & Hst & Hlen & Hex & H)|(d & Hst & Hex & H)]]];
    cbv zeta in H; rewrite H.
  - split; [|discriminate]. split; [intros [w' E]; discriminate|].
    intros (d & Hst & Hlen & Hex). exfalso.
    destruct (Uint64_header d) as [v Hv].
    rewrite (Get_file c key w d v Hidle Hst Hv) in H.
    unfold expired, decoded in Hex. rewrite Hv in Hex. rewrite Hex in H.
    replace (8 <=? List.length d)%nat with false in H
      by (symmetry; apply Nat.leb_gt; exact Hlen).
    discriminate.
  - split; [|discriminate]. split; [intros [w' E]; discriminate|].
    intros (d' & Hst' & Hlen' & _). rewrite Hst in Hst'. injection Hst' as <-. lia.
  - split.
    + split; [intros _; now exists d | intros _; eexists; reflexivity].
    + intros w' [= <-]. split; reflexivity.
  - split; [|discriminate]. split; [intros [w' E]; discriminate|].
    intros (d' & Hst' & _ & Hex'). rewrite Hst in Hst'. injection Hst' as <-. congruence.
Qed.

(** X17.  The expiry survives the header.  The instant [now + expiry] goes
    to the file as its Unix second, converted to [uint64] and written in
    eight little-endian bytes; what [Get] and [vacuum] decode from these
    bytes, converted back to [int64], is that second again, also for an
    instant before 1970, and the instant they compare with the clock is the
    whole second of [now + expiry]. *)
Theorem expiry_survives_the_header (t : Time.Time) (d : Z) (rest : list byte) :
  sane t -> int64 d ->
  exists v,
    Uint64 (PutUint64 (wrap_u64 (Time.ToUnix (Time.Add t d))) ++ rest) = Some v
    /\ wrap_i64 v = Time.ToUnix (Time.Add t d)
    /\ Time.Unix (wrap_i64 v)
       = {| Time.sec := (nanos t + d) / 1000000000; Time.nsec := 0 |}.
Proof.
  intros Ht Hd. exists (wrap_u64 (Time.ToUnix (Time.Add t d))).
  split; [apply Uint64_PutUint64, wrap_u64_range|].
  destruct (Add_nanos t d Ht Hd) as (_ & _ & Hs).
  split.
  - rewrite wrap_i64_u64. unfold Time.ToUnix, Time.unixToInternal.
    rewrite (wrap_i64_small (Time.sec _ - _)) by lia. apply wrap_i64_small. lia.
  - rewrite expiry_written by assumption. now rewrite Add_whole_second.
Qed.

(** ** What a pass of vacuum never does *)

Lemma pass_keeps_refl t x : pass_keeps t x x.
Proof. destruct x as [[o d|l es]|]; cbn; eauto. Qed.

Lemma sweep_each_assoc t es :
  sorted_names (map fst es) = true ->
  forall q,
    match assoc q es with
    | Some child =>
        assoc q (snd (sweep_each t es)) = swept t child
        \/ assoc q (snd (sweep_each t es)) = Some child
    | None => assoc q (snd (sweep_each t es)) = None
    end.
Proof.
  induction es as [|[name child] rest IH]; intros Hsorted q; [reflexivity|].
  cbn [map fst sorted_names] in Hsorted. apply andb_prop in Hsorted as [Habove Hsorted].
  apply forallb_ltb_above in Habove.
  pose proof (assoc_above _ _ Habove) as Hnone.
  specialize (IH Hsorted).
  rewrite sweep_each_cons. unfold swept.
  destruct (sweep t child) as [e ch] eqn:Hsw. cbn [snd].
  assert (Hgoal : forall rest',
            (forall q, match assoc q rest with
                       | Some child => assoc q rest' = after child (snd (sweep t child))
                                       \/ assoc q rest' = Some child
                       | None => assoc q rest' = None
                       end) ->
            match assoc q ((name, child) :: rest) with
            | Some child0 =>
                assoc q (entry_after name child ch rest') = after child0 (snd (sweep t child0))
                \/ assoc q (entry_after name child ch rest') = Some child0
            | None => assoc q (entry_after name child ch rest') = None
            end).
  { intros rest' Hrest. unfold entry_after. cbn [assoc].
    destruct (String.eqb_spec q name) as [->|Hne].
    - left. rewrite Hsw. cbn [snd].
      destruct (after child ch) as [child'|]; cbn [assoc].
      + now rewrite String.eqb_refl.
      + specialize (Hrest name). now rewrite Hnone in Hrest.
    - destruct (after child ch) as [child'|]; cbn [assoc].
      + destruct (String.eqb_spec q name); [congruence | apply Hrest].
      + apply Hrest. }
  destruct e as [e|].
  - cbn [snd]. apply Hgoal. intros q'.
    destruct (assoc q' rest); [now right | reflexivity].
  - destruct (sweep_each t rest) as [[e2 b2] rest'] eqn:Hrest. cbn [snd] in *.
    apply Hgoal. exact IH.
Qed.

Lemma swept_keeps t n :
  wf_node n = true ->
  forall qs, pass_keeps t (fs_lookup qs n) (lookup_in qs (swept t n)).
Proof.
  induction n as [o d|l es IH] using node_rect'; intros Hwf qs.
  - unfold swept. cbn [sweep snd].
    destruct qs as [|q qs].
    + cbn [fs_lookup pass_keeps].
      destruct (vacuum_removes t (File o d)); cbn; [right; now split | now left].
    + cbn [fs_lookup pass_keeps]. destruct (vacuum_removes t (File o d)); reflexivity.
  - destruct l.
    2:{ unfold swept. cbn [sweep snd after lookup_in]. apply pass_keeps_refl. }
    rewrite swept_dir. cbn [lookup_in].
    rewrite wf_dir in Hwf. apply andb_prop in Hwf as [Hsorted Hwf].
    destruct qs as [|q qs]; [cbn; eauto|].
    cbn [fs_lookup]. pose proof (sweep_each_assoc t es Hsorted q) as Hq.
    destruct (assoc q es) as [child|] eqn:Hc.
    + destruct (wf_each_member es q child Hwf Hc) as [Hin Hwfc].
      rewrite Forall_forall in IH. specialize (IH _ Hin Hwfc qs). cbn [snd] in IH.
      destruct Hq as [-> | ->]; [|apply pass_keeps_refl].
      unfold lookup_in in IH. destruct (swept t child); exact IH.
    + rewrite Hq. reflexivity.
Qed.

(** X18.  A tick of vacuum on an idle cache never panics and never blocks,
    whatever the files hold: it returns, with the registry idle again and
    the clock as it was, when the cache directory is a tree of named
    entries, and also when the cache directory is gone, in which case
    nothing changes. *)
Theorem vacuum_tick_always_returns (c : fileCache) (w : World) :
  idle (pm w) ->
  (fs_lookup (namei (path c)) (fs w) = None -> vacuum_tick c w = Returns tt w)
  /\ (forall n, fs_lookup (namei (path c)) (fs w) = Some n -> wf_node n = true ->
      exists w', vacuum_tick c w = Returns tt w' /\ idle (pm w') /\ now w' = now w).
Proof.
  intros Hidle. split.
  - intros Hnone. now apply vacuum_tick_unresolved, resolve_missing.
  - intros n Hlook Hwf.
    destruct (resolve (path c) (fs w)) as [n'|] eqn:Hres.
    + pose proof (resolve_lexical _ _ _ Hres) as Hlook'.
      assert (n' = n) by congruence. subst n'.
      destruct (vacuum_tick_sweeps c w n Hidle Hwf Hres) as (w' & Htick & _ & Hi & Hn).
      now exists w'.
    + exists w. split; [now apply vacuum_tick_unresolved | now split].
Qed.

(** X19.  What a tick of vacuum never does.  Below the cache directory it
    creates nothing, changes the content of no file, and removes no
    directory (the shard directories of removed entries stay); a regular
    file is removed only if the callback decided so: it could be opened, was
    not empty and its header, padded with zeros, is before the clock.  This
    holds also for a pass that a walk error ended early. *)
Theorem vacuum_only_removes_expired_files (c : fileCache) (w : World) (n : node) :
  idle (pm w) -> wf_node n = true ->
  fs_lookup (namei (path c)) (fs w) = Some n ->
  exists w',
    vacuum_tick c w = Returns tt w'
    /\ forall qs,
         pass_keeps (now w)
           (fs_lookup (namei (path c) ++ qs) (fs w))
           (fs_lookup (namei (path c) ++ qs) (fs w')).
Proof.
  intros Hidle Hwf Hlook.
  destruct (resolve (path c) (fs w)) as [n'|] eqn:Hres.
  - pose proof (resolve_lexical _ _ _ Hres) as Hlook'.
    assert (n' = n) by congruence. subst n'.
    destruct (vacuum_tick_lookup c w n Hidle Hwf Hres) as (w' & _ & Htick & Hfs & _ & _).
    exists w'. split; [exact Htick|]. intros qs.
    rewrite Hfs, fs_lookup_app, Hlook. now apply swept_keeps.
  - exists w. split; [now apply vacuum_tick_unresolved|].
    intros qs. apply pass_keeps_refl.
Qed.

(** X20.  A tick of vacuum and a fresh entry.  An entry with a full header
    whose expiry is not before the clock stays where it is, with its
    content, through a tick over any tree, and a [Get] after the tick
    returns its payload. *)
Theorem vacuum_keeps_fresh_entries
    (c : fileCache) (key : string) (w : World) (n : node)
    (e : Z) (payload : list byte) :
  idle (pm w) -> wf_node n = true ->
  fs_lookup (namei (path c)) (fs w) = Some n ->
  0 <= e < 2 ^ 64 ->
  Time.Before (Time.Unix (wrap_i64 e)) (now w) = false ->
  stored c key w = Some (File true (PutUint64 e ++ payload)) ->
  exists w1 w2,
    vacuum_tick c w = Returns tt w1
    /\ stored c key w1 = Some (File true (PutUint64 e ++ payload))
    /\ Get c key w1 = Returns (Some payload, None) w2.
Proof.
  intros Hidle Hwf Hlook He Hfresh Hst.
  assert (Hrun : exists w1,
            vacuum_tick c w = Returns tt w1
            /\ stored c key w1 = Some (File true (PutUint64 e ++ payload))
            /\ idle (pm w1) /\ now w1 = now w).
  { destruct (resolve (path c) (fs w)) as [n'|] eqn:Hres.
    2:{ exists w. split; [now apply vacuum_tick_unresolved | now repeat split]. }
    pose proof (resolve_lexical _ _ _ Hres) as Hlook'.
    assert (n' = n) by congruence. subst n'.
    destruct (vacuum_tick_lookup c w n Hidle Hwf Hres)
      as (w1 & _ & Htick & Hfs & Hidle1 & Hnow1).
    exists w1. split; [exact Htick|]. split; [|now split].
    destruct (namei_keyPath (path c) key) as (qs & _ & Hqs).
    unfold stored in *. rewrite Hqs in *. rewrite Hfs.
    rewrite fs_lookup_app, Hlook in Hst.
    pose proof (swept_keeps (now w) n Hwf qs) as Hk. rewrite Hst in Hk.
    destruct Hk as [Hk|[Hrem _]]; [exact Hk|]. exfalso.
    rewrite vacuum_removes_full in Hrem
      by (rewrite length_app, PutUint64_length; lia).
    unfold expired in Hrem. rewrite decoded_entry in Hrem by assumption. congruence. }
  destruct Hrun as (w1 & Htick & Hst1 & Hidle1 & Hnow1).
  exists w1. eexists. split; [exact Htick|]. split; [exact Hst1|].
  assert (Hv : Uint64 (header_of (PutUint64 e ++ payload)) = Some e).
  { rewrite header_of_entry. rewrite <- (app_nil_r (PutUint64 e)).
    now apply Uint64_PutUint64. }
  rewrite (Get_file c key w1 _ e Hidle1 Hst1 Hv). rewrite Hnow1, Hfresh.
  replace (8 <=? List.length (PutUint64 e ++ payload))%nat with true
    by (symmetry; apply Nat.leb_le; rewrite length_app, PutUint64_length; lia).
  reflexivity.
Qed.

(** ** Who waits for whom *)

Lemma alter_snoc_last {A} (f : A -> A) (l : list A) x :
  alter f (List.length l) (l ++ [x]) = l ++ [f x].
Proof. induction l as [|a l IH]; [reflexivity|]. cbn. f_equal. exact IH. Qed.

(** A caller that asks for the lock of [name] while somebody is inside
    under that name gets the same lock and has to wait, unless both are
    readers. *)
Lemma MutexAt_holding wr name m0 :
  exists m1,
    MutexAt name (holding wr name m0) = (List.length (cells m0), m1)
    /\ Lock (List.length (cells m0)) m1 = Waits
    /\ (wr = true -> RLock (List.length (cells m0)) m1 = Waits).
Proof.
  unfold MutexAt, holding. cbn [lock cells]. rewrite lookup_insert_eq.
  eexists. split; [reflexivity|].
  unfold Lock, RLock, with_cell. cbn [cells lock].
  rewrite alter_snoc_last, lookup_snoc_last. cbn.
  split; [now destruct wr | now intros ->].
Qed.

(** A caller that asks for a lock under a name nobody uses takes a fresh
    lock, locks it and gives it back, whoever is inside under other
    names. *)
Lemma lock_cycle_unregistered name m :
  lock m !! name = None ->
  exists m1 m2 m3,
    MutexAt name m = (List.length (cells m), m1)
    /\ Lock (List.length (cells m)) m1 = Proceeds m2
    /\ Unlock (List.length (cells m)) m2 = Proceeds m3
    /\ lock m3 = lock m
    /\ firstn (List.length (cells m)) (cells m3) = cells m.
Proof.
  intros Hnone.
  exists {| lock := <[name := List.length (cells m)]> (lock m);
            cells := cells m ++ [ {| ref := 1; cleanup_path := name;
                                     writer := false; readers := 0 |} ] |},
         {| lock := <[name := List.length (cells m)]> (lock m);
            cells := cells m ++ [ {| ref := 1; cleanup_path := name;
                                     writer := true; readers := 0 |} ] |},
         {| lock := lock m;
            cells := cells m ++ [ {| ref := 0; cleanup_path := name;
                                     writer := false; readers := 0 |} ] |}.
  split; [unfold MutexAt; now rewrite Hnone|].
  split.
  { unfold Lock, with_cell. cbn [cells lock]. rewrite lookup_snoc_last. cbn.
    now rewrite insert_snoc_last. }
  split.
  { unfold Unlock, with_cell. cbn [cells lock]. rewrite lookup_snoc_last. cbn.
    rewrite insert_snoc_last.
    unfold cleanup. cbn [cells lock]. rewrite lookup_snoc_last. cbn.
    assert (Hz : wrap_i64 (1 - 1) = 0) by reflexivity. rewrite Hz. cbn.
    rewrite insert_snoc_last. now rewrite delete_insert_id. }
  split; [reflexivity|]. cbn [cells].
  rewrite firstn_app, Nat.sub_diag, firstn_all. cbn. now rewrite app_nil_r.
Qed.

Lemma vacuumFn_unregistered path w o d :
  lock (pm w) !! Filepath.Base path = None ->
  fs_lookup (namei path) (fs w) = Some (File o d) ->
  exists w',
    vacuumFn path (Some (File o d)) None w = Returns None w'
    /\ fs w' = (if vacuum_removes (now w) (File o d)
                then fs_put (namei path) None (fs w)
                else fs w)
    /\ lock (pm w') = lock (pm w) /\ now w' = now w.
Proof.
  intros Hnone Hst. rewrite vacuumFn_file.
  destruct (lock_cycle_unregistered _ _ Hnone) as (m1 & m2 & m3 & HM & HL & HU & Hlock & _).
  unfold bind at 1. unfold pm_MutexAt. rewrite HM.
  unfold bind at 1. unfold lift_pm at 1. cbn [pm set_pm]. rewrite HL.
  unfold defer.
  rewrite (vacuum_body_file path (set_pm m2 (set_pm m1 w)) o d Hst).
  assert (Hne : namei path <> []) by (eapply fs_lookup_file_nil; [|exact Hst]; reflexivity).
  unfold lift_pm.
  destruct (vacuum_removes (now (set_pm m2 (set_pm m1 w))) (File o d)) eqn:Hvr;
    cbn [pm set_pm set_fs]; rewrite HU; eexists; (split; [reflexivity|]);
    cbn [now set_pm] in Hvr; rewrite Hvr.
  - split; [|split; [exact Hlock | reflexivity]].
    rewrite (fs_set_pm m3), (fs_set_put _ _ (set_pm m2 (set_pm m1 w))) by assumption.
    reflexivity.
  - split; [reflexivity | split; [exact Hlock | reflexivity]].
Qed.

(** X21.  For a key that contains neither [/] nor [:] the vacuum callback
    and the operations of the cache exclude one another.  In a registry
    where the key was free, while a [Get] or a [Set] is inside for the key
    the callback, called for a file of that name, waits; while the callback
    is inside, [Get] and [Set] for the key wait. *)
Theorem vacuum_and_cache_exclude_on_plain_keys
    (c : fileCache) (key dir : string) (m0 : pathMutex) :
  lock m0 !! key = None ->
  is_name key = true -> plain key = true ->
  let p := Filepath.Join [dir; Text.Replace key] in
  (forall w wr o d,
      pm w = holding wr key m0 ->
      vacuumFn p (Some (File o d)) None w = Blocks)
  /\ (forall w,
        pm w = holding true (Filepath.Base p) m0 ->
        Get c key w = Blocks
        /\ forall val expiry, Set' c key val expiry w = Blocks).
Proof.
  intros _ Hname Hplain. cbv zeta.
  apply Replace_plain in Hplain. rewrite Hplain.
  rewrite (Base_Join dir key Hname).
  split.
  - intros w wr o d Hpm. rewrite vacuumFn_file.
    rewrite (Base_Join dir key Hname).
    destruct (MutexAt_holding wr key m0) as (m1 & HM & HL & _).
    unfold bind at 1. unfold pm_MutexAt. rewrite Hpm, HM.
    unfold bind at 1. unfold lift_pm at 1. cbn [pm set_pm]. now rewrite HL.
  - intros w Hpm.
    destruct (MutexAt_holding true key m0) as (m1 & HM & HL & HR).
    split.
    + rewrite Get_unfold. unfold bind at 1. unfold pm_MutexAt. rewrite Hpm, HM.
      unfold bind at 1. unfold lift_pm at 1. cbn [pm set_pm]. now rewrite HR.
    + intros val expiry. rewrite Set_unfold.
      unfold bind at 1. unfold pm_MutexAt. rewrite Hpm, HM.
      unfold bind at 1. unfold lift_pm at 1. cbn [pm set_pm]. now rewrite HL.
Qed.

(** X22.  For a key that contains [/] or [:] the vacuum callback does not
    wait for the operations of the cache: while a [Get] or a [Set] is
    inside for the key, the callback, called for the file of the key, takes
    the lock named after the sanitized key, runs, and removes the file if it
    decides so; the lock of the key stays held meanwhile. *)
Theorem vacuum_does_not_wait_on_sanitized_keys
    (c : fileCache) (key : string) (m0 : pathMutex) (w : World)
    (wr o : bool) (d : list byte) :
  idle m0 -> pm w = holding wr key m0 ->
  is_name (Text.Replace key) = true -> plain key = false ->
  stored c key w = Some (File o d) ->
  exists w',
    vacuumFn (keyPath (path c) key) (Some (File o d)) None w = Returns None w'
    /\ stored c key w' = (if vacuum_removes (now w) (File o d) then None
                          else Some (File o d))
    /\ lock (pm w') = lock (pm w).
Proof.
  intros Hidle Hpm Hname Hplain Hst.
  assert (Hdiff : Text.Replace key <> key).
  { intros E. apply Replace_plain in E. congruence. }
  assert (Hnone : lock (pm w) !! Filepath.Base (keyPath (path c) key) = None).
  { rewrite (Base_keyPath _ _ Hname), Hpm. unfold holding. cbn [lock].
    rewrite lookup_insert_ne by congruence. rewrite Hidle. apply lookup_empty. }
  destruct (vacuumFn_unregistered _ w o d Hnone Hst) as (w' & Hrun & Hfs & Hlock & _).
  exists w'. split; [exact Hrun|]. split; [|exact Hlock].
  pose proof (stored_file_names _ _ _ _ _ Hst) as Hne.
  unfold stored in *. rewrite Hfs.
  destruct (vacuum_removes (now w) (File o d)); [|exact Hst].
  eapply fs_lookup_put_existing; eassumption.
Qed.

(** ** The loop of vacuum *)

Lemma sweep_each_wf t es :
  Forall (fun p => forall n', swept t (snd p) = Some n' -> wf_node n' = true) es ->
  wf_each es = true -> sorted_names (map fst es) = true ->
  wf_each (snd (sweep_each t es)) = true
  /\ sorted_names (map fst (snd (sweep_each t es))) = true
  /\ forall f, forallb f (map fst es) = true ->
               forallb f (map fst (snd (sweep_each t es))) = true.
Proof.
  induction 1 as [|[name child] rest Hchild _ IH]; intros Hwf Hsorted.
  - repeat split; auto.
  - cbn in Hwf. apply andb_prop in Hwf as [Hwf Hwfr].
    apply andb_prop in Hwf as [Hname Hwfc].
    cbn [map fst sorted_names] in Hsorted. apply andb_prop in Hsorted as [Habove Hsorted].
    destruct (IH Hwfr Hsorted) as (IHwf & IHsorted & IHsub). cbn [snd] in Hchild.
    rewrite sweep_each_cons. unfold swept in Hchild.
    destruct (sweep t child) as [e ch] eqn:Hsw. cbn [snd] in Hchild.
    assert (Hgoal : forall R,
              wf_each R = true -> sorted_names (map fst R) = true ->
              (forall f, forallb f (map fst rest) = true -> forallb f (map fst R) = true) ->
              wf_each (entry_after name child ch R) = true
              /\ sorted_names (map fst (entry_after name child ch R)) = true
              /\ forall f, forallb f (map fst ((name, child) :: rest)) = true ->
                           forallb f (map fst (entry_after name child ch R)) = true).
    { intros R HR HsR Hsub. unfold entry_after.
      destruct (after child ch) as [child'|] eqn:Ha.
      - split; [|split].
        + cbn. rewrite Hname, (Hchild child' eq_refl), HR. reflexivity.
        + cbn [map fst sorted_names]. rewrite (Hsub _ Habove), HsR. reflexivity.
        + intros f Hf. cbn [map fst forallb] in Hf |- *.
          apply andb_prop in Hf as [Hf1 Hf2]. now rewrite Hf1, (Hsub f Hf2).
      - split; [exact HR|]. split; [exact HsR|].
        intros f Hf. cbn [map fst forallb] in Hf.
        apply andb_prop in Hf as [_ Hf2]. now apply Hsub. }
    destruct e as [e|].
    + cbn [snd]. apply Hgoal; auto.
    + destruct (sweep_each t rest) as [[e2 b2] rest']. cbn [snd] in *.
      now apply Hgoal.
Qed.

Lemma swept_wf t n :
  wf_node n = true -> forall n', swept t n = Some n' -> wf_node n' = true.
Proof.
  induction n as [o d|l es IH] using node_rect'; intros Hwf n' Hs.
  - unfold swept in Hs. cbn [sweep snd] in Hs.
    destruct (vacuum_removes t (File o d)); [discriminate|]. now injection Hs as <-.
  - destruct l.
    2:{ unfold swept in Hs. cbn [sweep snd after] in Hs. now injection Hs as <-. }
    rewrite swept_dir in Hs. injection Hs as <-.
    rewrite wf_dir in Hwf. apply andb_prop in Hwf as [Hsorted Hwf].
    assert (IH' : Forall (fun p => forall n', swept t (snd p) = Some n' ->
                                   wf_node n' = true) es).
    { clear Hsorted. induction IH as [|[a child] rest Hc _ IHrest]; [constructor|].
      cbn in Hwf. apply andb_prop in Hwf as [Hw Hwr]. apply andb_prop in Hw as [_ Hwc].
      constructor; [exact (Hc Hwc) | exact (IHrest Hwr)]. }
    destruct (sweep_each_wf t es IH' Hwf Hsorted) as (H1 & H2 & _).
    rewrite wf_dir. now rewrite H1, H2.
Qed.

(** X25.  The loop of vacuum never panics.  On a cache nobody else uses,
    whose directory is a tree of named entries or is missing, every tick of
    the timer returns, however many there are, whatever the clock reads at
    each of them and whatever the files hold; the registry is idle after
    each. *)
Theorem vacuum_loop_never_panics
    (c : fileCache) (ticks : list Time.Time) (w : World) :
  idle (pm w) ->
  (forall n, fs_lookup (namei (path c)) (fs w) = Some n -> wf_node n = true) ->
  exists w', vacuum_loop c ticks w = Returns tt w' /\ idle (pm w').
Proof.
  revert w. induction ticks as [|t rest IH]; intros w Hidle Hwf.
  - exists w. now split.
  - cbn [vacuum_loop]. unfold bind at 1.
    destruct (resolve (path c) (fs (set_now t w))) as [n|] eqn:Hres.
    + pose proof (resolve_lexical _ _ _ Hres) as Hlook.
      assert (Hwfn : wf_node n = true) by (apply Hwf; exact Hlook).
      destruct (vacuum_tick_lookup c (set_now t w) n Hidle Hwfn Hres)
        as (w1 & _ & Htick & Hfs & Hidle1 & _).
      rewrite Htick. apply IH; [exact Hidle1|].
      intros n1 Hn1. specialize (Hfs []). rewrite app_nil_r in Hfs.
      rewrite Hn1 in Hfs. cbn [lookup_in] in Hfs.
      destruct (swept (now (set_now t w)) n) as [n'|] eqn:Hs; [|discriminate].
      cbn in Hfs. injection Hfs as ->.
      eapply swept_wf; [exact Hwfn | exact Hs].
    + rewrite (vacuum_tick_unresolved c (set_now t w) Hres).
      apply IH; [exact Hidle | exact Hwf].
Qed.

(** X26.  The reference count of a lock counts its holders.  At every
    point of every schedule of workers that each run one cycle, the [ref]
    field of every lock ever made is the number of workers between their
    [MutexAt] and the [cleanup] of their unlock on that lock. *)
Theorem ref_counts_the_holders
    (ts ts' : list worker) (sched : list nat) (m : pathMutex) (fl : nat) (c : fileLock) :
  Z.of_nat (List.length ts) < 2 ^ 63 - 1 -> Forall starting ts ->
  run_sched sched (ts, no_locks) = Proceeds (ts', m) ->
  cells m !! fl = Some c ->
  ref c = Z.of_nat (holders fl ts').
Proof.
  intros Hlen Hs Hrun Hc.
  destruct (reachable_inv ts sched ts' m Hlen Hs Hrun) as ([_ Hcount _] & _ & _).
  exact (Hcount fl c Hc).
Qed.

(** ** The further theorems at concrete inputs *)

Ltac evaluated :=
  try clear;
  solve [ vm_compute; reflexivity
        | vm_compute; discriminate
        | repeat split; vm_compute; (reflexivity || discriminate)
        | vm_compute; repeat constructor
        | vm_compute; lia ].

Lemma registry_witness :
  (exists m, run_calls some_calls no_locks = Proceeds m
             /\ registry_inv m
             /\ (forall fl c, cells m !! fl = Some c -> ref c = 0)
             /\ lock m !! "p" = None /\ lock m !! "q" = None)
  /\ (exists ts m, run_sched round_robin (three_workers, no_locks) = Proceeds (ts, m)
                   /\ Forall finished ts /\ registry_inv m /\ lock m = ∅)
  /\ (exists ts m, run_sched first_then_half (two_paths, no_locks) = Proceeds (ts, m)
                   /\ run_calls [ CallMutexAt "p"; CallMutexAt "q"; CallLock 0; CallRLock 1;
                                  MuUnlock 0; CallCleanup 0 ] no_locks = Proceeds m
                   /\ lock m !! "p" = None /\ lock m !! "q" <> None).
Proof.
  destruct registry_holds_exactly_the_referenced_locks as (Hcalls & _ & Hsched).
  split; [|split].
  - eexists. split; [vm_compute; reflexivity|].
    edestruct (Hcalls some_calls) as (Hinv & Href & Hpath);
      [vm_compute; reflexivity | vm_compute; reflexivity |].
    assert (Hzero : forall fl, outstanding fl some_calls no_locks = 0).
    { intros [|[|fl]]; vm_compute; reflexivity. }
    split; [exact Hinv|]. split.
    + intros fl c Hc. now rewrite (Href fl c Hc).
    + split; apply Hpath; intros fl c _ _; rewrite Hzero; lia.
  - eexists. eexists. split; [vm_compute; reflexivity|].
    assert (Hfin : Forall finished
              [ {| w_path := "p"; w_write := true; w_phase := Done |};
                {| w_path := "p"; w_write := false; w_phase := Done |};
                {| w_path := "p"; w_write := true; w_phase := Done |} ])
      by (repeat constructor).
    split; [exact Hfin|].
    epose proof (Hsched three_workers _ round_robin _
                   ltac:(vm_compute; reflexivity) ltac:(repeat constructor)
                   ltac:(vm_compute; reflexivity)) as (_ & Hinv & _ & Hempty).
    split; [exact Hinv | exact (Hempty Hfin)].
  - eexists. eexists. split; [vm_compute; reflexivity|].
    epose proof (Hsched two_paths _ first_then_half _
                   ltac:(vm_compute; reflexivity) ltac:(repeat constructor)
                   ltac:(vm_compute; reflexivity)) as (Hcs & _ & Hpath & _).
    split; [exact Hcs|]. split.
    + apply Hpath. intros t [<-|[<-|[]]]; [reflexivity | discriminate].
    + intros Hnone. pose proof (proj1 (Hpath "q") Hnone _ (or_intror (or_introl eq_refl)) eq_refl).
      discriminate.
Defined.

Lemma lock_cycles_never_crash_witness :
  exists ts' m, run_sched round_robin (three_workers, no_locks) = Proceeds (ts', m).
Proof.
  apply (lock_cycles_never_crash three_workers round_robin); evaluated.
Defined.

Lemma writer_excludes_others_witness :
  exists ts' m a b,
    run_sched two_rounds (readers_and_writer, no_locks) = Proceeds (ts', m)
    /\ ts' !! 0%nat = Some a /\ ts' !! 1%nat = Some b
    /\ w_phase a = Held 0 /\ w_phase b = Held 0
    /\ 0%nat = 0%nat /\ w_write a = false /\ w_write b = false.
Proof.
  eexists. eexists. eexists. eexists.
  split; [vm_compute; reflexivity|].
  split; [reflexivity|]. split; [reflexivity|].
  split; [reflexivity|]. split; [reflexivity|].
  eapply (writer_excludes_others_on_its_path readers_and_writer _ two_rounds _ 0 1);
    evaluated.
Defined.

Lemma lock_cycles_can_finish_without_waiting_witness :
  exists ts' m,
    run_sched [0; 1; 2; 0]%nat (three_workers, no_locks) = Proceeds (ts', m)
    /\ exists sched' ts'' m'',
         never_waits sched' (ts', m) = true
         /\ run_sched sched' (ts', m) = Proceeds (ts'', m'')
         /\ Forall finished ts'' /\ lock m'' = ∅.
Proof.
  eexists. eexists. split; [vm_compute; reflexivity|].
  eapply (lock_cycles_can_finish_without_waiting three_workers _ [0; 1; 2; 0]%nat).
  - vm_compute; reflexivity.
  - repeat constructor.
  - vm_compute; reflexivity.
  - vm_compute; reflexivity.
Defined.

Lemma keyPath_is_shard_dir_then_key_witness :
  keyPath "/cache" "k" = String.append (shard_dir "/cache" "k") "/k".
Proof.
  apply (keyPath_is_shard_dir_then_key "/cache" "k"); evaluated.
Defined.

Lemma vacuum_locks_the_sanitized_key_witness :
  walked "/cache" (shard_names "a/b" ++ ["a-b"]) = keyPath "/cache" "a/b"
  /\ Filepath.Base (keyPath "/cache" "a/b") = "a-b"
  /\ ("a-b" = "a/b" <-> plain "a/b" = true).
Proof.
  apply (vacuum_locks_the_sanitized_key "/cache" "a/b"); evaluated.
Defined.

Lemma get_without_a_readable_file_witness :
  Get the_cache "k" (empty_cache 1000 0)
  = Returns (None, Some errCacheMiss)
            (set_pm (released "k" no_locks) (empty_cache 1000 0)).
Proof.
  apply (get_without_a_readable_file the_cache "k" (empty_cache 1000 0)); [evaluated|].
  left. vm_compute; reflexivity.
Defined.

Lemma get_touches_only_its_own_file_witness :
  exists w',
    final_world (Get the_cache "k" expired_world) = Some w'
    /\ idle (pm w') /\ now w' = now expired_world
    /\ same_elsewhere (namei (keyPath (path the_cache) "k")) (fs expired_world) (fs w')
    /\ (stored the_cache "k" w' = stored the_cache "k" expired_world
        \/ (is_file (stored the_cache "k" expired_world) = true
            /\ stored the_cache "k" w' = None))
    /\ (forall v e, Get the_cache "k" expired_world = Returns (Some v, e) w' ->
                    fs w' = fs expired_world).
Proof.
  apply (get_touches_only_its_own_file the_cache "k" expired_world); evaluated.
Defined.

Lemma set_touches_only_its_own_file_witness :
  exists r w1,
    Set' the_cache "k" hi Time.Second (empty_cache 1000 0) = Returns r w1
    /\ idle (pm w1) /\ now w1 = now (empty_cache 1000 0)
    /\ same_elsewhere (namei (keyPath (path the_cache) "k"))
         (fs (empty_cache 1000 0)) (fs w1).
Proof.
  apply (set_touches_only_its_own_file the_cache "k" hi Time.Second (empty_cache 1000 0));
    evaluated.
Defined.

Lemma set_fails_on_obstacles_witness :
  (exists w1,
     Set' the_cache "k" hi Time.Second
       (with_node "/cache/5d" (File true []) (empty_cache 1000 0))
     = Returns (Some errCreatingPath) w1
     /\ fs w1 = fs (with_node "/cache/5d" (File true []) (empty_cache 1000 0)))
  /\ (exists w1,
        Set' the_cache "k" hi Time.Second
          (with_node (keyPath "/cache" "k") (Dir true []) (empty_cache 1000 0))
        = Returns (Some errCreatingFile) w1).
Proof.
  split.
  - apply (set_fails_on_obstacles the_cache "k" hi Time.Second
             (with_node "/cache/5d" (File true []) (empty_cache 1000 0)));
      vm_compute; reflexivity.
  - apply (proj2 (set_fails_on_obstacles the_cache "k" hi Time.Second
             (with_node (keyPath "/cache" "k") (Dir true []) (empty_cache 1000 0))
             eq_refl eq_refl) (Dir true [])); [vm_compute; reflexivity | discriminate].
Defined.

Lemma set_overwrites_in_place_witness :
  exists w1,
    Set' the_cache "k" hi Time.Second (cache_with "k" (PutUint64 900 ++ hello) 1000 0)
    = Returns None w1
    /\ stored the_cache "k" w1
       = Some (File true (PutUint64 1001 ++ hi ++ bytes_of "llo"))
    /\ List.length (PutUint64 1001 ++ hi ++ bytes_of "llo") = 13%nat.
Proof.
  eexists. split; [vm_compute; reflexivity|].
  eapply (set_overwrites_in_place the_cache "k" hi Time.Second
            (cache_with "k" (PutUint64 900 ++ hello) 1000 0)); evaluated.
Defined.

Lemma entry_is_served_until_its_expiry_second_witness :
  exists w1,
    Set' the_cache "k" hi (5 * Time.Second) (empty_cache 1000 500) = Returns None w1
    /\ (exists w2, Get the_cache "k" (set_now (Time.at_unix 1005 0) w1)
                   = Returns (Some hi, None) w2 /\ fs w2 = fs w1)
    /\ (exists w2, Get the_cache "k" (set_now (Time.at_unix 1005 1) w1)
                   = Returns (None, Some errCacheMiss) w2
                   /\ stored the_cache "k" w2 = None).
Proof.
  eexists.
  assert (H : Set' the_cache "k" hi (5 * Time.Second) (empty_cache 1000 500)
              = Returns None _) by (vm_compute; reflexivity).
  split; [exact H|].
  assert (I1 : idle (pm (empty_cache 1000 500))) by evaluated.
  assert (I3 : (List.length (old_content (stored the_cache "k" (empty_cache 1000 500)))
                <= 8 + List.length hi)%nat) by evaluated.
  assert (I4 : sane (now (empty_cache 1000 500))) by evaluated.
  assert (I5 : int64 (5 * Time.Second)) by evaluated.
  assert (I6 : 0 <= Time.nsec (Time.at_unix 1005 0) < 1000000000) by evaluated.
  assert (I7 : 0 <= Time.nsec (Time.at_unix 1005 1) < 1000000000) by evaluated.
  pose proof (entry_is_served_until_its_expiry_second the_cache "k" hi
                    (5 * Time.Second) (empty_cache 1000 500) _ (Time.at_unix 1005 0)
                    I1 H I3 I4 I5 I6) as T.
  pose proof (entry_is_served_until_its_expiry_second the_cache "k" hi
                    (5 * Time.Second) (empty_cache 1000 500) _ (Time.at_unix 1005 1)
                    I1 H I3 I4 I5 I7) as T'.
  cbv zeta in T, T'. destruct T as [T _]. destruct T' as [_ T'].
  split.
  - apply T. evaluated.
  - apply T'. evaluated.
Defined.

Lemma short_expiry_is_expired_at_once_witness :
  exists w1 w2,
    Set' the_cache "k" hi 500000000 (empty_cache 1000 1) = Returns None w1
    /\ Get the_cache "k" w1 = Returns (None, Some errCacheMiss) w2
    /\ stored the_cache "k" w2 = None.
Proof.
  assert (I1 : idle (pm (empty_cache 1000 1))) by evaluated.
  assert (I2 : sane (now (empty_cache 1000 1))) by evaluated.
  assert (I3 : 0 < Time.nsec (now (empty_cache 1000 1))) by evaluated.
  assert (I4 : 0 < 500000000) by evaluated.
  assert (I5 : Time.nsec (now (empty_cache 1000 1)) + 500000000 < 1000000000)
    by evaluated.
  eexists.
  assert (H : Set' the_cache "k" hi 500000000 (empty_cache 1000 1) = Returns None _)
    by (vm_compute; reflexivity).
  destruct (short_expiry_is_expired_at_once the_cache "k" hi 500000000
              (empty_cache 1000 1) _ I1 H I2 I3 I4 I5) as (w2 & HGet & Hgone).
  exists w2. split; [exact H | split; assumption].
Defined.

Lemma vacuum_tick_always_returns_witness :
  exists w', vacuum_tick the_cache mixed_world = Returns tt w'
             /\ idle (pm w') /\ now w' = now mixed_world.
Proof.
  apply (proj2 (vacuum_tick_always_returns the_cache mixed_world ltac:(evaluated))
           mixed_tree); evaluated.
Defined.

Lemma vacuum_only_removes_expired_files_witness :
  exists w',
    vacuum_tick the_cache mixed_world = Returns tt w'
    /\ forall qs,
         pass_keeps (now mixed_world)
           (fs_lookup (namei (path the_cache) ++ qs) (fs mixed_world))
           (fs_lookup (namei (path the_cache) ++ qs) (fs w')).
Proof.
  apply (vacuum_only_removes_expired_files the_cache mixed_world mixed_tree); evaluated.
Defined.

Lemma vacuum_keeps_fresh_entries_witness :
  exists w1 w2,
    vacuum_tick the_cache (cache_with "k" (PutUint64 2000 ++ hi) 1000 0) = Returns tt w1
    /\ stored the_cache "k" w1 = Some (File true (PutUint64 2000 ++ hi))
    /\ Get the_cache "k" w1 = Returns (Some hi, None) w2.
Proof.
  eapply (vacuum_keeps_fresh_entries the_cache "k"
            (cache_with "k" (PutUint64 2000 ++ hi) 1000 0) _ 2000 hi).
  3: vm_compute; reflexivity.
  all: evaluated.
Defined.

Lemma vacuum_and_cache_exclude_on_plain_keys_witness :
  (forall w wr o d,
      pm w = holding wr "k" no_locks ->
      vacuumFn (Filepath.Join ["/cache/5d/57/62/08"; Text.Replace "k"])
               (Some (File o d)) None w = Blocks)
  /\ (forall w,
        pm w = holding true
                 (Filepath.Base (Filepath.Join ["/cache/5d/57/62/08"; Text.Replace "k"]))
                 no_locks ->
        Get the_cache "k" w = Blocks
        /\ forall val expiry, Set' the_cache "k" val expiry w = Blocks).
Proof.
  apply (vacuum_and_cache_exclude_on_plain_keys the_cache "k" "/cache/5d/57/62/08"
           no_locks); evaluated.
Defined.

Lemma vacuum_does_not_wait_on_sanitized_keys_witness :
  let w := set_pm (holding false "a/b" no_locks)
             (cache_with "a/b" (PutUint64 5 ++ hi) 1000 0) in
  exists w',
    vacuumFn (keyPath (path the_cache) "a/b")
             (Some (File true (PutUint64 5 ++ hi))) None w = Returns None w'
    /\ stored the_cache "a/b" w'
       = (if vacuum_removes (now w) (File true (PutUint64 5 ++ hi)) then None
          else Some (File true (PutUint64 5 ++ hi)))
    /\ lock (pm w') = lock (pm w).
Proof.
  apply (vacuum_does_not_wait_on_sanitized_keys the_cache "a/b" no_locks
           (set_pm (holding false "a/b" no_locks)
              (cache_with "a/b" (PutUint64 5 ++ hi) 1000 0))
           false true (PutUint64 5 ++ hi)); evaluated.
Defined.

Lemma get_panics_exactly_on_short_files_witness :
  (exists w', Get the_cache "k" short_world = Panics w')
  /\ (forall w', Get the_cache "k" short_world = Panics w' ->
        idle (pm w') /\ stored the_cache "k" w' = stored the_cache "k" short_world).
Proof.
  destruct (get_panics_exactly_on_short_files the_cache "k" short_world) as [Hiff Hafter];
    [evaluated|].
  split; [|exact Hafter].
  apply Hiff. exists (repeat xff 7). repeat split; vm_compute; (reflexivity || lia).
Defined.

Lemma expiry_survives_the_header_witness :
  exists v,
    Uint64 (PutUint64 (wrap_u64 (Time.ToUnix (Time.Add (Time.at_unix (-5) 0) Time.Second)))
            ++ [])
    = Some v
    /\ wrap_i64 v = Time.ToUnix (Time.Add (Time.at_unix (-5) 0) Time.Second)
    /\ Time.Unix (wrap_i64 v)
       = {| Time.sec := (nanos (Time.at_unix (-5) 0) + Time.Second) / 1000000000;
            Time.nsec := 0 |}.
Proof.
  apply (expiry_survives_the_header (Time.at_unix (-5) 0) Time.Second []); evaluated.
Defined.

Lemma vacuum_loop_never_panics_witness :
  exists w',
    vacuum_loop the_cache [Time.at_unix 1000 0; Time.at_unix 3000 0] mixed_world
    = Returns tt w'
    /\ idle (pm w').
Proof.
  apply (vacuum_loop_never_panics the_cache
           [Time.at_unix 1000 0; Time.at_unix 3000 0] mixed_world); [evaluated|].
  intros n Hn. vm_compute in Hn. injection Hn as <-. vm_compute; reflexivity.
Defined.

Lemma ref_counts_the_holders_witness :
  exists ts' m c,
    run_sched [0; 1; 2]%nat (three_workers, no_locks) = Proceeds (ts', m)
    /\ cells m !! 0%nat = Some c
    /\ ref c = Z.of_nat (holders 0 ts').
Proof.
  eexists. eexists. eexists.
  split; [vm_compute; reflexivity|]. split; [reflexivity|].
  eapply (ref_counts_the_holders three_workers _ [0; 1; 2]%nat _ 0); evaluated.
Defined.
